(** * fellow-mcp: the local cache, the sync orchestrator and the text extractor

    A shallow embedding of [src/index.ts] and [src/database.ts].

    Conventions of the embedding.
    - A JavaScript string is a Rocq [string]: the sequence of its UTF-16
      code units, each of them below 256.  The texts of the embedding are
      therefore the texts written in the characters U+0000 to U+00FF; on
      these the primitives below ([trim], [toLowerCase], the character
      classes of the patterns) are exactly those of JavaScript.  A text with
      a character from U+0100 on has no counterpart here, and no theorem of
      this file speaks about one.  [undefined]/[null] is [None].
    - A SQLite table is the list of its rows in rowid order.  A statement of
      [better-sqlite3] is a function on the database value; a statement that
      can raise (a declared constraint, the length limit of [LIKE]) returns a
      [result].  What SQL leaves to the engine, the order of the rows that an
      [ORDER BY] does not tell apart, is a component of the database value,
      so that a theorem about every database is one about every such order.
    - The handler of a tool call is [Server.CallTool]: [getClient()] first,
      outside the [try], then the [case] of the tool inside it.  The
      definitions of [Tools] are these [case]s under the [catch].
      [getDatabase()] returns the database of the world the handler runs in:
      the file is taken to open.
    - [new Date().toISOString()] is a reading of a clock that is part of the
      world the orchestrator runs in.
    - [await client.listNotes(..)] and [await client.listRecordings(..)] are
      calls to a remote that either answers with a page or raises. *)

From Stdlib Require Import List String Ascii Bool Arith PeanoNat NArith Lia DecimalString.
From Stdlib Require Import Sorted Permutation.
Import ListNotations.
Open Scope list_scope.
Open Scope string_scope.

Set Implicit Arguments.

(** Outcome of a call that may raise: the value, or the message of the
    raised error. *)
Inductive result (A : Type) : Type :=
| Ok (a : A)
| Err (message : string).
Arguments Ok {A} a.
Arguments Err {A} message.

(* ------------------------------------------------------------------ *)
(** ** JavaScript primitives used by the source *)

Module Js.

(** Truthiness of a [string | null | undefined] value: absent and the empty
    string are falsy. *)
Definition truthy (v : option string) : bool :=
  match v with
  | None => false
  | Some s => negb (s =? "")
  end.

(** [a ?? b] *)
Definition nullish {A} (a : option A) (b : A) : A :=
  match a with Some x => x | None => b end.

(** White space of [String.prototype.trim] and of the class [\s]: of the
    code units below 256 these are TAB, LF, VT, FF, CR, SP and NBSP (U+00A0).
    The other white space of JavaScript (U+1680, U+2000 to U+200A, U+2028,
    U+2029, U+202F, U+205F, U+3000, U+FEFF) lies from U+0100 on. *)
Definition is_space (c : ascii) : bool :=
  let n := nat_of_ascii c in
  ((n =? 9) || (n =? 10) || (n =? 11) || (n =? 12) || (n =? 13) || (n =? 32)
   || (n =? 160))%nat.

Fixpoint trimStart (s : string) : string :=
  match s with
  | EmptyString => EmptyString
  | String c s' => if is_space c then trimStart s' else s
  end.

(** Drops trailing white space: a character is kept when it is not white
    space or something is kept after it. *)
Fixpoint trimEnd (s : string) : string :=
  match s with
  | EmptyString => EmptyString
  | String c s' =>
      match trimEnd s' with
      | EmptyString => if is_space c then EmptyString else String c EmptyString
      | t => String c t
      end
  end.

Definition trim (s : string) : string := trimEnd (trimStart s).

(** [String.prototype.toLowerCase] on code units below 256: A-Z and the
    Latin-1 capitals (192..222 but the multiplication sign 215) move up by
    32. *)
Definition lower_char (c : ascii) : ascii :=
  let n := nat_of_ascii c in
  if ((65 <=? n) && (n <=? 90))%nat then ascii_of_nat (n + 32)
  else if ((192 <=? n) && (n <=? 222) && negb (n =? 215))%nat then ascii_of_nat (n + 32)
  else c.

Fixpoint toLowerCase (s : string) : string :=
  match s with
  | EmptyString => EmptyString
  | String c s' => String (lower_char c) (toLowerCase s')
  end.

(** [s.split(sep)] for a separator of one character: never the empty list. *)
Fixpoint split (sep : ascii) (s : string) : list string :=
  match s with
  | EmptyString => [EmptyString]
  | String c s' =>
      if Ascii.eqb c sep then EmptyString :: split sep s'
      else match split sep s' with
           | [] => [String c EmptyString]
           | h :: t => String c h :: t
           end
  end.

Fixpoint repeat_char (c : ascii) (n : nat) : string :=
  match n with
  | 0 => EmptyString
  | S n' => String c (repeat_char c n')
  end.

(** [s.padStart(target, c)] for a filler of one character. *)
Definition padStart (target : nat) (c : ascii) (s : string) : string :=
  repeat_char c (target - String.length s) ++ s.

(** [s.replace(c, "")] for a one-character search string: the first
    occurrence only. *)
Fixpoint remove_first (c : ascii) (s : string) : string :=
  match s with
  | EmptyString => EmptyString
  | String d s' => if Ascii.eqb d c then s' else String d (remove_first c s')
  end.

Fixpoint take (n : nat) (s : string) : string :=
  match n, s with
  | S n', String c s' => String c (take n' s')
  | _, _ => EmptyString
  end.

Fixpoint drop (n : nat) (s : string) : string :=
  match n, s with
  | S n', String _ s' => drop n' s'
  | _, _ => s
  end.

(** [s.substring(a, b)] for [a <= b]. *)
Definition substring (a b : nat) (s : string) : string := take (b - a) (drop a s).

Fixpoint starts_with (p s : string) : bool :=
  match p, s with
  | EmptyString, _ => true
  | String a p', String b s' => Ascii.eqb a b && starts_with p' s'
  | String _ _, EmptyString => false
  end.

(** [s.indexOf(q)], with [None] for -1. *)
Fixpoint indexOf (q s : string) : option nat :=
  if starts_with q s then Some 0
  else match s with
       | EmptyString => None
       | String _ s' => option_map S (indexOf q s')
       end.

Definition includes (q s : string) : bool :=
  match indexOf q s with Some _ => true | None => false end.

(** [s.replace(/\n/g, " ")] *)
Fixpoint newlines_to_spaces (s : string) : string :=
  match s with
  | EmptyString => EmptyString
  | String c s' =>
      String (if Ascii.eqb c "010"%char then " "%char else c) (newlines_to_spaces s')
  end.

(** [String(n)] for a non-negative integer. *)
Definition ofNat (n : nat) : string :=
  NilEmpty.string_of_uint (Nat.to_uint n).

(** [xs.join(sep)] *)
Definition join (sep : string) (xs : list string) : string := String.concat sep xs.

End Js.

(* ------------------------------------------------------------------ *)
(** ** Regular expressions

    The patterns of the source only quantify single characters and character
    classes, so a repetition carries a class.  [run] is a backtracking
    matcher: it lists, in the priority order of the JavaScript matcher, every
    way a pattern can match a prefix of the input, as the unread rest and the
    capture groups set on the way. *)

Module Regex.

Definition charset := ascii -> bool.

Inductive t : Type :=
| Eps
| Cls (p : charset)
| Rep (p : charset) (lo : nat) (hi : option nat) (greedy : bool)
| Seq (a b : t)
| Alt (a b : t)
| Grp (i : nat) (r : t).

Definition captures := nat -> option string.

Definition no_captures : captures := fun _ => None.

Definition set_capture (i : nat) (v : string) (caps : captures) : captures :=
  fun j => if Nat.eqb j i then Some v else caps j.

(** Number of leading characters of [s] in the class [p]. *)
Fixpoint span (p : charset) (s : string) : nat :=
  match s with
  | String c s' => if p c then S (span p s') else 0
  | EmptyString => 0
  end.

(** The repetition counts to try, first choice first. *)
Definition counts (lo top : nat) (greedy : bool) : list nat :=
  let up := seq lo (S top - lo) in
  if greedy then rev up else up.

Fixpoint run (r : t) (s : string) (caps : captures) : list (string * captures) :=
  match r with
  | Eps => [(s, caps)]
  | Cls p =>
      match s with
      | String c s' => if p c then [(s', caps)] else []
      | EmptyString => []
      end
  | Rep p lo hi greedy =>
      let top := match hi with
                 | Some h => Nat.min h (span p s)
                 | None => span p s
                 end in
      map (fun k => (Js.drop k s, caps)) (counts lo top greedy)
  | Seq a b => flat_map (fun x => run b (fst x) (snd x)) (run a s caps)
  | Alt a b => (run a s caps ++ run b s caps)%list
  | Grp i r' =>
      map (fun x => (fst x,
                     set_capture i (Js.take (String.length s - String.length (fst x)) s)
                                 (snd x)))
          (run r' s caps)
  end.

(** [s.match(/^r/)]: the match must start at index 0. *)
Definition match_start (r : t) (s : string) : option captures :=
  match run r s no_captures with
  | x :: _ => Some (snd x)
  | [] => None
  end.

(** [s.match(/r/)]: the leftmost index at which the pattern matches. *)
Fixpoint search (r : t) (s : string) : option captures :=
  match run r s no_captures with
  | x :: _ => Some (snd x)
  | [] =>
      match s with
      | EmptyString => None
      | String _ s' => search r s'
      end
  end.

(** *** Character classes *)

Definition between (lo hi : nat) (c : ascii) : bool :=
  let n := nat_of_ascii c in ((lo <=? n) && (n <=? hi))%nat.

Definition digit : charset := between 48 57.
Definition word : charset :=
  fun c => between 97 122 c || between 65 90 c || digit c || Ascii.eqb c "_".
Definition space : charset := Js.is_space.
(** [.]: anything but a line terminator.  Of the code units below 256 the
    line terminators are LF and CR; the other two, U+2028 and U+2029, lie
    from U+0100 on. *)
Definition dot : charset :=
  fun c => negb (Ascii.eqb c "010" || Ascii.eqb c "013").
Definition one_of (cs : string) : charset :=
  fun c => existsb (Ascii.eqb c) (list_ascii_of_string cs).
Definition chr (a : ascii) : charset := Ascii.eqb a.
(** A letter under the flag [i]: ASCII letters match in both cases. *)
Definition chr_i (a : ascii) : charset :=
  fun c => Ascii.eqb (Js.lower_char a) (if between 65 90 c then Js.lower_char c else c).

Fixpoint lit (s : string) : t :=
  match s with
  | EmptyString => Eps
  | String c EmptyString => Cls (chr c)
  | String c s' => Seq (Cls (chr c)) (lit s')
  end.

Fixpoint lit_i (s : string) : t :=
  match s with
  | EmptyString => Eps
  | String c EmptyString => Cls (chr_i c)
  | String c s' => Seq (Cls (chr_i c)) (lit_i s')
  end.

Definition star (p : charset) : t := Rep p 0 None true.
Definition plus (p : charset) : t := Rep p 1 None true.
Definition star_lazy (p : charset) : t := Rep p 0 None false.
Definition opt (p : charset) : t := Rep p 0 (Some 1) true.
Definition times (p : charset) (lo hi : nat) : t := Rep p lo (Some hi) true.

(** *** What a match says about the matched text *)

Fixpoint all (p : charset) (s : string) : bool :=
  match s with
  | EmptyString => true
  | String c s' => p c && all p s'
  end.

(** The texts a pattern can match, whatever the groups. *)
Fixpoint lang (r : t) (w : string) : Prop :=
  match r with
  | Eps => w = EmptyString
  | Cls p => exists c, w = String c EmptyString /\ p c = true
  | Rep p lo hi _ =>
      all p w = true /\ lo <= String.length w
      /\ match hi with Some h => String.length w <= h | None => True end
  | Seq a b => exists wa wb, w = wa ++ wb /\ lang a wa /\ lang b wb
  | Alt a b => lang a w \/ lang b w
  | Grp _ r' => lang r' w
  end.

(** Group [i] is set on every way through the pattern. *)
Fixpoint binds (r : t) (i : nat) : bool :=
  match r with
  | Seq a b => binds a i || binds b i
  | Alt a b => binds a i && binds b i
  | Grp j r' => Nat.eqb i j || binds r' i
  | _ => false
  end.

Declare Scope regex_scope.
Delimit Scope regex_scope with re.
Infix "+>" := Seq (at level 41, right associativity) : regex_scope.
Infix "</>" := Alt (at level 42, right associativity) : regex_scope.

End Regex.

(* ------------------------------------------------------------------ *)
(** ** Text extractor ([extractActionItems], [parseAssigneeAndDueDate]) *)

Module ParsedActionItem.
Record t := mk {
  content : string;
  assignee : option string;
  due_date : option string;
  is_completed : bool
}.
End ParsedActionItem.

Module Extractor.
Import Regex.
Local Open Scope regex_scope.

(** [/^\s*[-*]\s*\[([ xX])\]\s*(.+)/] *)
Definition re_checkbox : Regex.t :=
  star space +> Cls (one_of "-*") +> star space +> lit "[" +> Grp 1 (Cls (one_of " xX"))
  +> lit "]" +> star space +> Grp 2 (plus dot).

(** [/^\s*[-*]?\s*(?:Action\s*Item|Action|TODO|To-Do|To Do)\s*:\s*(.+)/i] *)
Definition re_action : Regex.t :=
  star space +> opt (one_of "-*") +> star space
  +> ((lit_i "Action" +> star space +> lit_i "Item") </> lit_i "Action" </> lit_i "TODO"
       </> lit_i "To-Do" </> lit_i "To Do")
  +> star space +> lit ":" +> star space +> Grp 1 (plus dot).

(** [/^\s*[-*]\s*(@\w+[\w\s]*?)\s*[-:]\s*(.+)/] *)
Definition re_mention_line : Regex.t :=
  star space +> Cls (one_of "-*") +> star space
  +> Grp 1 (lit "@" +> plus word +> star_lazy (fun c => word c || space c))
  +> star space +> Cls (one_of "-:") +> star space +> Grp 2 (plus dot).

(** [/@(\w+)/] *)
Definition re_mention : Regex.t := lit "@" +> Grp 1 (plus word).

(** [(?:due|by|deadline)\s*:?\s*] under the flag [i] *)
Definition re_due_keyword : Regex.t :=
  (lit_i "due" </> lit_i "by" </> lit_i "deadline") +> star space +> opt (chr ":") +> star space.

(** [\d{4}-\d{2}-\d{2}] *)
Definition re_iso_digits : Regex.t :=
  times digit 4 4 +> lit "-" +> times digit 2 2 +> lit "-" +> times digit 2 2.

(** [\d{1,2}\/\d{1,2}\/\d{2,4}] *)
Definition re_us_digits : Regex.t :=
  times digit 1 2 +> lit "/" +> times digit 1 2 +> lit "/" +> times digit 2 4.

(** [/(?:due|by|deadline)\s*:?\s*(\d{4}-\d{2}-\d{2})/i] *)
Definition re_iso_date : Regex.t := re_due_keyword +> Grp 1 re_iso_digits.

(** [/(?:due|by|deadline)\s*:?\s*(\d{1,2}\/\d{1,2}\/\d{2,4})/i] *)
Definition re_us_date : Regex.t := re_due_keyword +> Grp 1 re_us_digits.

(** Reading a property of [undefined] raises a [TypeError]. *)
Definition defined (what : string) (v : option string) : result string :=
  match v with
  | Some s => Ok s
  | None => Err ("TypeError: Cannot read properties of undefined (" ++ what ++ ")")
  end.

Definition bind {A B} (r : result A) (k : A -> result B) : result B :=
  match r with
  | Ok a => k a
  | Err e => Err e
  end.

Notation "x <- r ;; k" := (bind r (fun x => k))
  (at level 61, r at next level, right associativity).

(** The US branch of [parseAssigneeAndDueDate]: [M/D/Y] to [Y-MM-DD]. *)
Definition normalise_us (matched : string) : result string :=
  let parts := Js.split "/" matched in
  p0 <- defined "padStart" (nth_error parts 0) ;;
  let month := Js.padStart 2 "0" p0 in
  p1 <- defined "padStart" (nth_error parts 1) ;;
  let day := Js.padStart 2 "0" p1 in
  p2 <- defined "length" (nth_error parts 2) ;;
  let year := if (String.length p2 =? 2)%nat then "20" ++ p2 else p2 in
  Ok (year ++ "-" ++ month ++ "-" ++ day).

(** [parseAssigneeAndDueDate(text)]: the pair [(assignee, dueDate)]. *)
Definition parseAssigneeAndDueDate (text : string)
  : result (option string * option string) :=
  let assignee :=
    match search re_mention text with
    | Some m => m 1
    | None => None
    end in
  let dueDate :=
    match search re_iso_date text with
    | Some m => m 1
    | None => None
    end in
  match search re_us_date text with
  | Some m =>
      if negb (Js.truthy dueDate) then
        m1 <- defined "split" (m 1) ;;
        d <- normalise_us m1 ;;
        Ok (assignee, Some d)
      else Ok (assignee, dueDate)
  | None => Ok (assignee, dueDate)
  end.

(** The body of the loop of [extractActionItems] on one line: the item the
    line yields, if any. *)
Definition extract_line (line : string) : result (option ParsedActionItem.t) :=
  match match_start re_checkbox line with
  | Some m =>
      m1 <- defined "toLowerCase" (m 1) ;;
      let isCompleted := Js.toLowerCase m1 =? "x" in
      m2 <- defined "trim" (m 2) ;;
      let itemContent := Js.trim m2 in
      ad <- parseAssigneeAndDueDate itemContent ;;
      Ok (Some (ParsedActionItem.mk itemContent (fst ad) (snd ad) isCompleted))
  | None =>
  match match_start re_action line with
  | Some m =>
      m1 <- defined "trim" (m 1) ;;
      let itemContent := Js.trim m1 in
      ad <- parseAssigneeAndDueDate itemContent ;;
      Ok (Some (ParsedActionItem.mk itemContent (fst ad) (snd ad) false))
  | None =>
  match match_start re_mention_line line with
  | Some m =>
      m1 <- defined "replace" (m 1) ;;
      let assignee := Js.trim (Js.remove_first "@" m1) in
      m2 <- defined "trim" (m 2) ;;
      let itemContent := Js.trim m2 in
      ad <- parseAssigneeAndDueDate itemContent ;;
      Ok (Some (ParsedActionItem.mk ("@" ++ assignee ++ ": " ++ itemContent)
                                    (Some assignee) (snd ad) false))
  | None => Ok None
  end end end.

Fixpoint extract_lines (lines : list string) : result (list ParsedActionItem.t) :=
  match lines with
  | [] => Ok []
  | line :: rest =>
      item <- extract_line line ;;
      items <- extract_lines rest ;;
      Ok (match item with Some i => i :: items | None => items end)
  end.

(** [extractActionItems(content)] *)
Definition extractActionItems (content : string) : result (list ParsedActionItem.t) :=
  extract_lines (Js.split "010" content).

End Extractor.

(* ------------------------------------------------------------------ *)
(** ** Rows of the local store ([src/database.ts]) *)

Module StoredNote.
Record t := mk {
  id : string;
  title : string;
  created_at : string;
  updated_at : string;
  event_start : option string;
  event_end : option string;
  event_guid : option string;
  call_url : option string;
  content_markdown : option string;
  synced_at : string
}.
End StoredNote.

Module StoredRecording.
Record t := mk {
  id : string;
  note_id : option string;
  title : string;
  created_at : string;
  updated_at : string;
  event_start : option string;
  event_end : option string;
  recording_start : option string;
  recording_end : option string;
  event_guid : option string;
  call_url : option string;
  transcript_json : option string;
  synced_at : string
}.
End StoredRecording.

Module StoredActionItem.
Record t := mk {
  id : nat;
  note_id : string;
  content : string;
  assignee : option string;
  due_date : option string;
  is_completed : bool;
  created_at : string
}.
End StoredActionItem.

Module StoredParticipant.
Record t := mk {
  id : nat;
  note_id : string;
  email : string
}.
End StoredParticipant.

(* ------------------------------------------------------------------ *)
(** ** The fragments of SQL the statements use *)

Module Sql.

(** SQL [COALESCE(a, b)] on two nullable values. *)
Definition COALESCE {A} (a b : option A) : option A :=
  match a with
  | Some _ => a
  | None => b
  end.

(** The default [LIKE] folds the case of ASCII letters only. *)
Definition fold_case (c : ascii) : ascii :=
  if Regex.between 65 90 c then ascii_of_nat (nat_of_ascii c + 32) else c.

(** [patternCompare] of SQLite, without an [ESCAPE] character: [%] matches
    any run of characters, [_] any one character, everything else itself up
    to ASCII case. *)
Fixpoint patternCompare (pattern text : string) : bool :=
  match pattern with
  | EmptyString =>
      match text with
      | EmptyString => true
      | String _ _ => false
      end
  | String p pattern' =>
      if Ascii.eqb p "%" then
        (fix any_run (t : string) : bool :=
           patternCompare pattern' t
           || match t with
              | EmptyString => false
              | String _ t' => any_run t'
              end) text
      else
        match text with
        | EmptyString => false
        | String c text' =>
            (Ascii.eqb p "_" || Ascii.eqb (fold_case p) (fold_case c))
            && patternCompare pattern' text'
        end
  end.

(** [likeFunc] hands both operands to [patternCompare] as C strings: each is
    read up to its first NUL character, what follows is not looked at. *)
Fixpoint c_string (s : string) : string :=
  match s with
  | EmptyString => EmptyString
  | String c s' => if Ascii.eqb c Ascii.zero then EmptyString else String c (c_string s')
  end.

(** [text LIKE pattern] without an [ESCAPE] clause, when it is evaluated. *)
Definition like (pattern text : string) : bool :=
  patternCompare (c_string pattern) (c_string text).

(** The bytes of a text in UTF-8, the encoding of the database: two for a
    character from U+0080 on. *)
Fixpoint utf8_bytes (s : string) : N :=
  match s with
  | EmptyString => 0%N
  | String c s' => ((if (nat_of_ascii c <? 128)%nat then 1 else 2) + utf8_bytes s')%N
  end.

(** [SQLITE_MAX_LIKE_PATTERN_LENGTH], which [better-sqlite3] leaves at its
    default. *)
Definition LIKE_PATTERN_LENGTH : N := 50000%N.

Definition pattern_too_complex : string := "LIKE or GLOB pattern too complex".

(** [likeFunc] raises [pattern_too_complex] for a pattern of more bytes than
    the limit, before it looks at the text (NULL or not).  A statement raises
    it on the first row for which it evaluates the operator, so a statement
    that evaluates it on no row returns. *)
Definition like_refused (pattern : string) : bool :=
  (LIKE_PATTERN_LENGTH <? utf8_bytes pattern)%N.

(** [col LIKE ?] on a nullable column: NULL is not a match. *)
Definition like_nullable (pattern : string) (col : option string) : bool :=
  match col with
  | Some text => like pattern text
  | None => false
  end.

(** [a > b] on nullable TEXT under the BINARY collation; NULL sorts before
    every value. *)
Definition gt (a b : option string) : bool :=
  match a, b with
  | None, _ => false
  | Some _, None => true
  | Some x, Some y => negb (String.leb x y)
  end.

(** [col >= ?] in a [WHERE] clause: NULL is not a match. *)
Definition ge_nullable (col : option string) (bound : string) : bool :=
  match col with
  | Some x => String.leb bound x
  | None => false
  end.

Section OrderBy.
Variable A : Type.
Variable key : A -> option string.

(** SQL leaves the order of rows with equal keys to the engine, where it
    follows from the query plan (an index read backwards, a scan in rowid
    order, a sorter).  [before r row] is the engine's choice for two rows
    with equal keys: whether [r] comes before [row]. *)
Variable before : A -> A -> bool.

Fixpoint insert_desc (row : A) (sorted : list A) : list A :=
  match sorted with
  | [] => [row]
  | r :: rest =>
      if gt (key r) (key row) || (negb (gt (key row) (key r)) && before r row)
      then r :: insert_desc row rest
      else row :: r :: rest
  end.

(** [ORDER BY key DESC] *)
Definition order_by_desc (rows : list A) : list A :=
  fold_right insert_desc [] rows.

End OrderBy.

(** [x IN (?, .., ?)] *)
Definition in_list (x : string) (xs : list string) : bool :=
  existsb (String.eqb x) xs.

End Sql.

(** A row of [getAllActionItems]: the action item and, from the joined note,
    [note_title] and [event_start]. *)
Module ActionItemRow.
Record t := mk {
  item : StoredActionItem.t;
  note_title : string;
  event_start : option string
}.
End ActionItemRow.

Module ActionItemFilters.
Record t := mk {
  assignee : option string;
  is_completed : option bool;
  since : option string
}.
End ActionItemFilters.

Module Stats.
Record t := mk {
  notes : nat;
  recordings : nat;
  action_items : nat;
  participants : nat
}.
End Stats.

Definition StoredNote_eq_dec (a b : StoredNote.t) : {a = b} + {a <> b}.
Proof.
  decide equality; try apply string_dec; decide equality; apply string_dec.
Defined.

(** What the statements of the source leave to SQLite.  For each statement
    that ends in [ORDER BY .. event_start DESC], the order of the rows with
    equal [event_start]: it may depend on the statement and on the values
    bound to it.  For the statement of [getAllActionItems], whether the term
    [a.assignee LIKE ?] is computed for an item before the other terms have
    let the item through: that depends on the order in which the engine
    chooses to walk the two tables. *)
Module Engine.
Record t := mk {
  notes_before : string -> list string -> StoredNote.t -> StoredNote.t -> bool;
  items_before : ActionItemFilters.t -> ActionItemRow.t -> ActionItemRow.t -> bool;
  assignee_first : ActionItemFilters.t -> bool
}.

(** An engine that returns rows with equal keys last row first, as SQLite
    does when it reads the index on [event_start] from its end, and that
    looks at the assignee of an item last.  The examples of this file are
    stated for it; none of them depends on the choice. *)
Definition backwards : t :=
  mk (fun _ _ _ _ => true) (fun _ _ _ => true) (fun _ => false).
End Engine.

Module FellowDatabase.

(** The database file.  [action_items_seq] and [participants_seq] are the
    AUTOINCREMENT counters (table [sqlite_sequence]): the largest rowid ever
    generated.  [participants_inserted] is not stored anywhere: it counts the
    rows [insertParticipant] has inserted so far (the sum of the [changes] its
    runs report), to have something to compare the reported count with.
    [foreign_keys] is the connection's [PRAGMA foreign_keys]; [better-sqlite3]
    opens a connection with it switched on.  [engine] is the library that
    reads the file, as far as its choices show in the results. *)
Record t := mk {
  notes : list StoredNote.t;
  recordings : list StoredRecording.t;
  action_items : list StoredActionItem.t;
  action_items_seq : nat;
  participants : list StoredParticipant.t;
  participants_seq : nat;
  participants_inserted : nat;
  last_sync : option string;
  foreign_keys : bool;
  engine : Engine.t
}.

(** A freshly created file: [initSchema] on an empty database. *)
Definition empty : t := mk [] [] [] 0 [] 0 0 None true Engine.backwards.

Definition with_notes (db : t) (ns : list StoredNote.t) : t :=
  mk ns (recordings db) (action_items db) (action_items_seq db)
     (participants db) (participants_seq db) (participants_inserted db)
     (last_sync db) (foreign_keys db) (engine db).

Definition with_recordings (db : t) (rs : list StoredRecording.t) : t :=
  mk (notes db) rs (action_items db) (action_items_seq db)
     (participants db) (participants_seq db) (participants_inserted db)
     (last_sync db) (foreign_keys db) (engine db).

Definition with_action_items (db : t) (xs : list StoredActionItem.t) (seq : nat) : t :=
  mk (notes db) (recordings db) xs seq
     (participants db) (participants_seq db) (participants_inserted db)
     (last_sync db) (foreign_keys db) (engine db).

Definition with_participants (db : t) (ps : list StoredParticipant.t)
  (seq inserted : nat) : t :=
  mk (notes db) (recordings db) (action_items db) (action_items_seq db)
     ps seq inserted (last_sync db) (foreign_keys db) (engine db).

Definition with_last_sync (db : t) (v : option string) : t :=
  mk (notes db) (recordings db) (action_items db) (action_items_seq db)
     (participants db) (participants_seq db) (participants_inserted db)
     v (foreign_keys db) (engine db).

(** *** Notes *)

(** The [DO UPDATE SET] clause of [upsertNote]: [id] and [created_at] are not
    in the list and keep the stored value; [content_markdown] is coalesced. *)
Definition note_on_conflict (old excluded : StoredNote.t) : StoredNote.t :=
  StoredNote.mk
    (StoredNote.id old)
    (StoredNote.title excluded)
    (StoredNote.created_at old)
    (StoredNote.updated_at excluded)
    (StoredNote.event_start excluded)
    (StoredNote.event_end excluded)
    (StoredNote.event_guid excluded)
    (StoredNote.call_url excluded)
    (Sql.COALESCE (StoredNote.content_markdown excluded) (StoredNote.content_markdown old))
    (StoredNote.synced_at excluded).

(** [INSERT .. ON CONFLICT(id) DO UPDATE] on the rows of [notes]. *)
Fixpoint upsert_note_rows (excluded : StoredNote.t) (rows : list StoredNote.t)
  : list StoredNote.t :=
  match rows with
  | [] => [excluded]
  | r :: rest =>
      if StoredNote.id r =? StoredNote.id excluded
      then note_on_conflict r excluded :: rest
      else r :: upsert_note_rows excluded rest
  end.

(** [upsertNote(note)].  The argument has the type
    [Omit<StoredNote, "synced_at">]: its [synced_at] is not read, the row gets
    the clock reading [now]. *)
Definition upsertNote (db : t) (note : StoredNote.t) (now : string) : t :=
  let excluded :=
    StoredNote.mk (StoredNote.id note) (StoredNote.title note)
      (StoredNote.created_at note) (StoredNote.updated_at note)
      (StoredNote.event_start note) (StoredNote.event_end note)
      (StoredNote.event_guid note) (StoredNote.call_url note)
      (StoredNote.content_markdown note) now in
  with_notes db (upsert_note_rows excluded (notes db)).

(** [getNote(id)]: [SELECT * FROM notes WHERE id = ?]. *)
Definition getNote (db : t) (id : string) : option StoredNote.t :=
  find (fun r => StoredNote.id r =? id) (notes db).

(** [getAllNotes()] *)
Definition getAllNotes (db : t) : list StoredNote.t :=
  Sql.order_by_desc StoredNote.event_start
    (Engine.notes_before (engine db) "getAllNotes" [])
    (notes db).

(** The rows of the statement of [searchNotes] when it returns. *)
Definition search_rows (db : t) (pattern : string) : list StoredNote.t :=
  Sql.order_by_desc StoredNote.event_start
    (Engine.notes_before (engine db) "searchNotes" [pattern])
    (filter (fun n => Sql.like pattern (StoredNote.title n)
                      || Sql.like_nullable pattern (StoredNote.content_markdown n))
            (notes db)).

(** [searchNotes(query)]: the query is pasted between two [%] and bound to
    both [LIKE] operands.  The statement evaluates [title LIKE ?] on every
    row of [notes], so it raises for a pattern over the limit unless the
    table is empty. *)
Definition searchNotes (db : t) (query : string) : result (list StoredNote.t) :=
  let pattern := "%" ++ query ++ "%" in
  if (0 <? List.length (notes db))%nat && Sql.like_refused pattern
  then Err Sql.pattern_too_complex
  else Ok (search_rows db pattern).

(** *** Foreign keys *)

(** [FOREIGN KEY (note_id) REFERENCES notes(id)] for a value about to be
    written: NULL passes, and so does everything when the pragma is off. *)
Definition references_note (db : t) (note_id : option string) : bool :=
  match note_id with
  | None => true
  | Some nid =>
      negb (foreign_keys db)
      || match getNote db nid with Some _ => true | None => false end
  end.

Definition FOREIGN_KEY_failed : string := "FOREIGN KEY constraint failed".

(** *** Recordings *)

Definition recording_on_conflict (old excluded : StoredRecording.t) : StoredRecording.t :=
  StoredRecording.mk
    (StoredRecording.id old)
    (StoredRecording.note_id excluded)
    (StoredRecording.title excluded)
    (StoredRecording.created_at old)
    (StoredRecording.updated_at excluded)
    (StoredRecording.event_start excluded)
    (StoredRecording.event_end excluded)
    (StoredRecording.recording_start excluded)
    (StoredRecording.recording_end excluded)
    (StoredRecording.event_guid excluded)
    (StoredRecording.call_url excluded)
    (Sql.COALESCE (StoredRecording.transcript_json excluded)
                  (StoredRecording.transcript_json old))
    (StoredRecording.synced_at excluded).

Fixpoint upsert_recording_rows (excluded : StoredRecording.t)
  (rows : list StoredRecording.t) : list StoredRecording.t :=
  match rows with
  | [] => [excluded]
  | r :: rest =>
      if StoredRecording.id r =? StoredRecording.id excluded
      then recording_on_conflict r excluded :: rest
      else r :: upsert_recording_rows excluded rest
  end.

(** [upsertRecording(recording)]; as for notes the argument's [synced_at] is
    not read. *)
Definition upsertRecording (db : t) (recording : StoredRecording.t) (now : string)
  : result t :=
  if references_note db (StoredRecording.note_id recording) then
    let excluded :=
      StoredRecording.mk (StoredRecording.id recording)
        (StoredRecording.note_id recording) (StoredRecording.title recording)
        (StoredRecording.created_at recording) (StoredRecording.updated_at recording)
        (StoredRecording.event_start recording) (StoredRecording.event_end recording)
        (StoredRecording.recording_start recording)
        (StoredRecording.recording_end recording)
        (StoredRecording.event_guid recording) (StoredRecording.call_url recording)
        (StoredRecording.transcript_json recording) now in
    Ok (with_recordings db (upsert_recording_rows excluded (recordings db)))
  else Err FOREIGN_KEY_failed.

(** [getRecording(id)] *)
Definition getRecording (db : t) (id : string) : option StoredRecording.t :=
  find (fun r => StoredRecording.id r =? id) (recordings db).

(** *** Action items *)

(** [clearActionItemsForNote(noteId)] *)
Definition clearActionItemsForNote (db : t) (noteId : string) : t :=
  with_action_items db
    (filter (fun a => negb (StoredActionItem.note_id a =? noteId)) (action_items db))
    (action_items_seq db).

(** [insertActionItem(item)]: the argument's [id] is not read (the type is
    [Omit<StoredActionItem, "id">]); the row gets the next AUTOINCREMENT id. *)
Definition insertActionItem (db : t) (item : StoredActionItem.t) : result t :=
  if references_note db (Some (StoredActionItem.note_id item)) then
    let id := S (action_items_seq db) in
    Ok (with_action_items db
          (action_items db ++
           [StoredActionItem.mk id (StoredActionItem.note_id item)
              (StoredActionItem.content item) (StoredActionItem.assignee item)
              (StoredActionItem.due_date item) (StoredActionItem.is_completed item)
              (StoredActionItem.created_at item)])%list
          id)
  else Err FOREIGN_KEY_failed.

(** [FROM action_items a JOIN notes n ON a.note_id = n.id] *)
Definition joined_action_items (db : t) : list ActionItemRow.t :=
  flat_map
    (fun a =>
       map (fun n => ActionItemRow.mk a (StoredNote.title n) (StoredNote.event_start n))
           (filter (fun n => StoredActionItem.note_id a =? StoredNote.id n) (notes db)))
    (action_items db).

(** [n.event_start >= ?] and [a.is_completed = ?], for those that are
    given: the terms of the statement other than the one on [a.assignee]. *)
Definition passes_other_terms (filters : ActionItemFilters.t) (r : ActionItemRow.t)
  : bool :=
  (if Js.truthy (ActionItemFilters.since filters) then
     Sql.ge_nullable (ActionItemRow.event_start r)
                     (Js.nullish (ActionItemFilters.since filters) "")
   else true)
  && match ActionItemFilters.is_completed filters with
     | Some flag => Bool.eqb (StoredActionItem.is_completed (ActionItemRow.item r)) flag
     | None => true
     end.

(** The rows of the statement of [getAllActionItems] when it returns. *)
Definition action_item_rows (db : t) (filters : ActionItemFilters.t)
  : list ActionItemRow.t :=
  let joined := joined_action_items db in
  let by_assignee :=
    if Js.truthy (ActionItemFilters.assignee filters) then
      filter (fun r =>
                Sql.like_nullable
                  ("%" ++ Js.nullish (ActionItemFilters.assignee filters) "" ++ "%")
                  (StoredActionItem.assignee (ActionItemRow.item r)))
             joined
    else joined in
  let by_completion :=
    match ActionItemFilters.is_completed filters with
    | Some flag =>
        filter (fun r =>
                  Bool.eqb (StoredActionItem.is_completed (ActionItemRow.item r)) flag)
               by_assignee
    | None => by_assignee
    end in
  let by_since :=
    if Js.truthy (ActionItemFilters.since filters) then
      filter (fun r =>
                Sql.ge_nullable (ActionItemRow.event_start r)
                                (Js.nullish (ActionItemFilters.since filters) ""))
             by_completion
    else by_completion in
  Sql.order_by_desc ActionItemRow.event_start
    (Engine.items_before (engine db) filters) by_since.

(** [getAllActionItems(filters)].  The statement raises when it computes
    [a.assignee LIKE ?] with a pattern over the limit, for an item of any
    assignee, NULL included.  It computes the term for every item that the
    other terms let through; whether it computes it for another item of the
    table is the engine's choice. *)
Definition getAllActionItems (db : t) (filters : ActionItemFilters.t)
  : result (list ActionItemRow.t) :=
  if Js.truthy (ActionItemFilters.assignee filters)
     && Sql.like_refused ("%" ++ Js.nullish (ActionItemFilters.assignee filters) "" ++ "%")
     && (existsb (passes_other_terms filters) (joined_action_items db)
         || (0 <? List.length (action_items db))%nat
            && Engine.assignee_first (engine db) filters)
  then Err Sql.pattern_too_complex
  else Ok (action_item_rows db filters).

(** *** Participants *)

(** [clearParticipantsForNote(noteId)] *)
Definition clearParticipantsForNote (db : t) (noteId : string) : t :=
  with_participants db
    (filter (fun p => negb (StoredParticipant.note_id p =? noteId)) (participants db))
    (participants_seq db) (participants_inserted db).

Definition has_participant (db : t) (noteId email : string) : bool :=
  existsb (fun p => (StoredParticipant.note_id p =? noteId)
                    && (StoredParticipant.email p =? email))
          (participants db).

(** [insertParticipant(noteId, email)]: [INSERT OR IGNORE] inserts nothing
    when the pair is there already ([UNIQUE(note_id, email)]); the rowid
    generated for the ignored row is not handed out again. *)
Definition insertParticipant (db : t) (noteId email : string) : result t :=
  let id := S (participants_seq db) in
  if has_participant db noteId email then
    Ok (with_participants db (participants db) id (participants_inserted db))
  else if references_note db (Some noteId) then
    Ok (with_participants db
          (participants db ++ [StoredParticipant.mk id noteId email])%list
          id (S (participants_inserted db)))
  else Err FOREIGN_KEY_failed.

(** The rows of [participants] of note [n] whose email is [IN] the list. *)
Definition matching_participants (db : t) (emails : list string) (n : StoredNote.t)
  : list StoredParticipant.t :=
  filter (fun p => (StoredParticipant.note_id p =? StoredNote.id n)
                   && Sql.in_list (StoredParticipant.email p) emails)
         (participants db).

(** [getMeetingsByParticipants(emails)] *)
Definition getMeetingsByParticipants (db : t) (emails : list string)
  : list StoredNote.t :=
  if (List.length emails =? 0)%nat then []
  else
    Sql.order_by_desc StoredNote.event_start
      (Engine.notes_before (engine db) "getMeetingsByParticipants" emails)
      (nodup StoredNote_eq_dec
         (flat_map (fun n => map (fun _ => n) (matching_participants db emails n))
                   (notes db))).

(** [COUNT(DISTINCT p.email)] of the correlated subquery. *)
Definition count_distinct_matching (db : t) (emails : list string) (n : StoredNote.t)
  : nat :=
  List.length
    (nodup string_dec (map StoredParticipant.email (matching_participants db emails n))).

(** [getMeetingsWithAllParticipants(emails)]: the last parameter of the
    statement is [emails.length]. *)
Definition getMeetingsWithAllParticipants (db : t) (emails : list string)
  : list StoredNote.t :=
  if (List.length emails =? 0)%nat then []
  else
    Sql.order_by_desc StoredNote.event_start
      (Engine.notes_before (engine db) "getMeetingsWithAllParticipants" emails)
      (filter (fun n => (count_distinct_matching db emails n =? List.length emails)%nat)
              (notes db)).

(** [getParticipantsForNote(noteId)] *)
Definition getParticipantsForNote (db : t) (noteId : string) : list string :=
  map StoredParticipant.email
      (filter (fun p => StoredParticipant.note_id p =? noteId) (participants db)).

(** *** Sync status *)

(** [getLastSyncTime()] *)
Definition getLastSyncTime (db : t) : option string := last_sync db.

(** [setLastSyncTime(time)] *)
Definition setLastSyncTime (db : t) (time : string) : t :=
  with_last_sync db (Some time).

(** [getStats()] *)
Definition getStats (db : t) : Stats.t :=
  Stats.mk (List.length (notes db)) (List.length (recordings db))
           (List.length (action_items db))
           (List.length (nodup string_dec (map StoredParticipant.email (participants db)))).

End FellowDatabase.

(* ------------------------------------------------------------------ *)
(** ** The remote API as the orchestrator sees it ([FellowClient]) *)

Module Note.
Record t := mk {
  id : string;
  title : string;
  created_at : string;
  updated_at : string;
  event_start : option string;
  event_end : option string;
  event_guid : option string;
  call_url : option string;
  recording_ids : option (list string);
  content_markdown : option string;
  event_attendees : option (list string)
}.
End Note.

(** [transcript] stands for the transcript object by its [JSON.stringify]
    text; [note_id] may come back as [null]. *)
Module Recording.
Record t := mk {
  id : string;
  title : string;
  note_id : option string;
  created_at : string;
  updated_at : string;
  event_start : option string;
  event_end : option string;
  recording_start : option string;
  recording_end : option string;
  event_guid : option string;
  call_url : option string;
  transcript : option string
}.
End Recording.

Module Page.
Record t (A : Type) := mk {
  cursor : option string;
  page_size : nat;
  data : list A
}.
Arguments mk {A} cursor page_size data.
Arguments cursor {A} t.
Arguments page_size {A} t.
Arguments data {A} t.
End Page.

(** The fields of the option objects that [syncNotesFromApi] passes. *)
Module ListNotesOptions.
Record t := mk {
  updated_at_start : option string;
  include_content : bool;
  include_attendees : bool;
  cursor : option string;
  page_size : nat
}.
End ListNotesOptions.

Module ListRecordingsOptions.
Record t := mk {
  updated_at_start : option string;
  include_transcript : bool;
  cursor : option string;
  page_size : nat
}.
End ListRecordingsOptions.

(** The two list calls: each answers with a page or raises
    ([Fellow API error (status): body], or a network error). *)
Module FellowClient.
Record t := mk {
  listNotes : ListNotesOptions.t -> result (Page.t Note.t);
  listRecordings : ListRecordingsOptions.t -> result (Page.t Recording.t)
}.
End FellowClient.

Module SyncResult.
Record t := mk {
  notes_synced : nat;
  recordings_synced : nat;
  action_items_found : nat;
  participants_synced : nat
}.
Definition zero : t := mk 0 0 0 0.
Definition incr_notes (r : t) : t :=
  mk (S (notes_synced r)) (recordings_synced r) (action_items_found r) (participants_synced r).
Definition incr_recordings (r : t) : t :=
  mk (notes_synced r) (S (recordings_synced r)) (action_items_found r) (participants_synced r).
Definition incr_action_items (r : t) : t :=
  mk (notes_synced r) (recordings_synced r) (S (action_items_found r)) (participants_synced r).
Definition incr_participants (r : t) : t :=
  mk (notes_synced r) (recordings_synced r) (action_items_found r) (S (participants_synced r)).
End SyncResult.

Module SyncOptions.
Record t := mk {
  since : option string;
  includeTranscripts : option bool
}.
(** The default [{}] of the parameter. *)
Definition default : t := mk None None.
End SyncOptions.

(* ------------------------------------------------------------------ *)
(** ** Sync orchestrator ([syncNotesFromApi], [performIncrementalSync]) *)

Module Sync.

(** What a run reads and writes: the database and the number of clock
    readings taken so far. *)
Record World := mkWorld {
  db : FellowDatabase.t;
  ticks : nat
}.

(** How an [async] function ends: it returns, it throws, or (the remote
    never sends a last page) it is still looping when the fuel is spent;
    [OutOfFuel] carries the world at that point. *)
Inductive outcome (A : Type) : Type :=
| Returned (a : A) (w : World)
| Thrown (e : string) (w : World)
| OutOfFuel (w : World).
Arguments Returned {A} a w.
Arguments Thrown {A} e w.
Arguments OutOfFuel {A} w.

Definition M (A : Type) : Type := World -> outcome A.

Definition ret {A} (a : A) : M A := fun w => Returned a w.

Definition bind {A B} (m : M A) (k : A -> M B) : M B :=
  fun w =>
    match m w with
    | Returned a w' => k a w'
    | Thrown e w' => Thrown e w'
    | OutOfFuel w' => OutOfFuel w'
    end.

Notation "x <- m ;; k" := (bind m (fun x => k))
  (at level 61, m at next level, right associativity).
Notation "m ;;; k" := (bind m (fun _ => k))
  (at level 61, right associativity).

(** A call that may raise. *)
Definition await {A} (r : result A) : M A :=
  fun w =>
    match r with
    | Ok a => Returned a w
    | Err e => Thrown e w
    end.

(** [try { m } catch (err) { h(message of err) }] *)
Definition try_catch {A} (m : M A) (h : string -> M A) : M A :=
  fun w =>
    match m w with
    | Thrown e w' => h e w'
    | other => other
    end.

(** A statement that cannot fail. *)
Definition run (f : FellowDatabase.t -> FellowDatabase.t) : M unit :=
  fun w => Returned tt (mkWorld (f (db w)) (ticks w)).

(** A statement that may violate a constraint. *)
Definition run_checked (f : FellowDatabase.t -> result FellowDatabase.t) : M unit :=
  fun w =>
    match f (db w) with
    | Ok d => Returned tt (mkWorld d (ticks w))
    | Err e => Thrown e w
    end.

Definition query {A} (f : FellowDatabase.t -> A) : M A :=
  fun w => Returned (f (db w)) w.

(** [for (const x of xs) body], the loop threading the mutable [result]. *)
Fixpoint for_of {A S} (xs : list A) (body : A -> S -> M S) (st : S) : M S :=
  match xs with
  | [] => ret st
  | x :: rest => st' <- body x st ;; for_of rest body st'
  end.

Section WithRemote.

(** The clock: the text of the [n]-th reading of [new Date().toISOString()]. *)
Variable clock : nat -> string.
Variable client : FellowClient.t.

Definition new_Date_toISOString : M string :=
  fun w => Returned (clock (ticks w)) (mkWorld (db w) (S (ticks w))).

Definition pageSize : nat := 50.

(** [db.upsertNote({..})] of the notes loop *)
Definition store_note (note : Note.t) : M unit :=
  now <- new_Date_toISOString ;;
  run (fun d =>
         FellowDatabase.upsertNote d
           (StoredNote.mk (Note.id note) (Note.title note) (Note.created_at note)
              (Note.updated_at note) (Note.event_start note) (Note.event_end note)
              (Note.event_guid note) (Note.call_url note) (Note.content_markdown note)
              EmptyString)
           now).

(** The body of [for (const item of actionItems)] *)
Definition store_action_item (noteId : string) (item : ParsedActionItem.t)
  (result : SyncResult.t) : M SyncResult.t :=
  now <- new_Date_toISOString ;;
  run_checked (fun d =>
    FellowDatabase.insertActionItem d
      (StoredActionItem.mk 0 noteId (ParsedActionItem.content item)
         (ParsedActionItem.assignee item) (ParsedActionItem.due_date item)
         (ParsedActionItem.is_completed item) now)) ;;;
  ret (SyncResult.incr_action_items result).

(** The body of [for (const email of note.event_attendees)] *)
Definition store_participant (noteId : string) (email : string)
  (result : SyncResult.t) : M SyncResult.t :=
  if Js.truthy (Some email) && Js.truthy (Some (Js.trim email)) then
    run_checked (fun d => FellowDatabase.insertParticipant d noteId (Js.trim email)) ;;;
    ret (SyncResult.incr_participants result)
  else ret result.

(** The block [// Extract and store action items] *)
Definition store_action_items (note : Note.t) (result : SyncResult.t) : M SyncResult.t :=
  if Js.truthy (Note.content_markdown note) then
    run (fun d => FellowDatabase.clearActionItemsForNote d (Note.id note)) ;;;
    actionItems <-
      await (Extractor.extractActionItems (Js.nullish (Note.content_markdown note) "")) ;;
    for_of actionItems (store_action_item (Note.id note)) result
  else ret result.

(** The block [// Store participants] *)
Definition store_participants (note : Note.t) (result : SyncResult.t) : M SyncResult.t :=
  match Note.event_attendees note with
  | Some attendees =>
      if (0 <? List.length attendees)%nat then
        run (fun d => FellowDatabase.clearParticipantsForNote d (Note.id note)) ;;;
        for_of attendees (store_participant (Note.id note)) result
      else ret result
  | None => ret result
  end.

(** The body of [for (const note of notesResp.notes.data)] *)
Definition sync_note (note : Note.t) (result : SyncResult.t) : M SyncResult.t :=
  store_note note ;;;
  let result := SyncResult.incr_notes result in
  result <- store_action_items note result ;;
  store_participants note result.

(** The first [do .. while (cursor)] loop. *)
Fixpoint notes_loop (fuel : nat) (since cursor : option string)
  (result : SyncResult.t) : M SyncResult.t :=
  match fuel with
  | 0 => fun w => OutOfFuel w
  | S fuel' =>
      notesResp <-
        await (FellowClient.listNotes client
                 (ListNotesOptions.mk since true true cursor pageSize)) ;;
      result <- for_of (Page.data notesResp) sync_note result ;;
      let cursor := Page.cursor notesResp in
      if Js.truthy cursor then notes_loop fuel' since cursor result
      else ret result
  end.

(** The body of [for (const recording of recordingsResp.recordings.data)] *)
Definition sync_recording (recording : Recording.t) (result : SyncResult.t)
  : M SyncResult.t :=
  known <- query (fun d =>
             FellowDatabase.getNote d (Js.nullish (Recording.note_id recording) "")) ;;
  if Js.truthy (Recording.note_id recording)
     && match known with Some _ => false | None => true end
  then ret result
  else
    now <- new_Date_toISOString ;;
    run_checked (fun d =>
      FellowDatabase.upsertRecording d
        (StoredRecording.mk (Recording.id recording) (Recording.note_id recording)
           (Recording.title recording) (Recording.created_at recording)
           (Recording.updated_at recording) (Recording.event_start recording)
           (Recording.event_end recording) (Recording.recording_start recording)
           (Recording.recording_end recording) (Recording.event_guid recording)
           (Recording.call_url recording) (Recording.transcript recording)
           EmptyString)
        now) ;;;
    ret (SyncResult.incr_recordings result).

(** The second [do .. while (cursor)] loop. *)
Fixpoint recordings_loop (fuel : nat) (since : option string)
  (include_transcript : bool) (cursor : option string)
  (result : SyncResult.t) : M SyncResult.t :=
  match fuel with
  | 0 => fun w => OutOfFuel w
  | S fuel' =>
      recordingsResp <-
        await (FellowClient.listRecordings client
                 (ListRecordingsOptions.mk since include_transcript cursor pageSize)) ;;
      result <- for_of (Page.data recordingsResp) sync_recording result ;;
      let cursor := Page.cursor recordingsResp in
      if Js.truthy cursor
      then recordings_loop fuel' since include_transcript cursor result
      else ret result
  end.

(** The two loops of [syncNotesFromApi], up to the write of the watermark. *)
Definition sync_pages (fuel : nat) (options : SyncOptions.t) : M SyncResult.t :=
  result <- notes_loop fuel (SyncOptions.since options) None SyncResult.zero ;;
  recordings_loop fuel (SyncOptions.since options)
    (Js.nullish (SyncOptions.includeTranscripts options) false) None result.

(** [syncNotesFromApi(client, db, options)].  [fuel] bounds the number of
    pages each loop may ask for. *)
Definition syncNotesFromApi (fuel : nat) (options : SyncOptions.t) : M SyncResult.t :=
  result <- sync_pages fuel options ;;
  now <- new_Date_toISOString ;;
  run (fun d => FellowDatabase.setLastSyncTime d now) ;;;
  ret result.

(** [performIncrementalSync(client, db)] *)
Definition performIncrementalSync (fuel : nat) : M SyncResult.t :=
  lastSync <- query FellowDatabase.getLastSyncTime ;;
  if negb (Js.truthy lastSync) then syncNotesFromApi fuel SyncOptions.default
  else syncNotesFromApi fuel (SyncOptions.mk lastSync None).

End WithRemote.

End Sync.

(* ------------------------------------------------------------------ *)
(** ** Tool handlers (the [switch] of the [CallToolRequestSchema] handler)

    Characters beyond 8 bits stand in string literals as their UTF-8
    bytes. *)

Module ToolResult.
Record t := mk {
  text : string;
  isError : bool
}.
End ToolResult.

Module Tools.
Import Sync.

Definition nl : string := String "010" EmptyString.
Definition dquote : string := String "034" EmptyString.

Definition reply (text : string) : M ToolResult.t := ret (ToolResult.mk text false).

(** A statement that reads the database and may raise. *)
Definition statement {A} (f : FellowDatabase.t -> result A) : M A :=
  fun w =>
    match f (db w) with
    | Ok a => Returned a w
    | Err e => Thrown e w
    end.

(** The warning sign of the text about a failed sync, U+26A0 U+FE0F.  Its
    two code units are not below 256; they are kept as the six bytes of
    their UTF-8 form, which nothing in this file looks into. *)
Definition warning_sign : string :=
  String "226" (String "154" (String "160" (String "239" (String "184"
    (String "143" EmptyString))))).

(** The [catch (error)] around the [switch]. *)
Definition guarded (m : M ToolResult.t) : M ToolResult.t :=
  try_catch m (fun errorMessage => ret (ToolResult.mk ("Error: " ++ errorMessage) true)).

Module ActionItemsArgs.
Record t := mk {
  assignee : option string;
  show_completed : option bool;
  since : option string
}.
End ActionItemsArgs.

(** The filter object of [get_all_action_items]:
    [{ assignee, is_completed: show_completed ? undefined : false, since }] *)
Definition filters_of (args : ActionItemsArgs.t) : ActionItemFilters.t :=
  ActionItemFilters.mk (ActionItemsArgs.assignee args)
    (if Js.nullish (ActionItemsArgs.show_completed args) false then None else Some false)
    (ActionItemsArgs.since args).

(** [byMeeting]: a [Map] keeps its keys in the order of first insertion. *)
Fixpoint group_push (key : string) (row : ActionItemRow.t)
  (groups : list (string * list ActionItemRow.t)) : list (string * list ActionItemRow.t) :=
  match groups with
  | [] => [(key, [row])]
  | (k, rows) :: rest =>
      if k =? key then (k, (rows ++ [row])%list) :: rest
      else (k, rows) :: group_push key row rest
  end.

Definition byMeeting (actionItems : list ActionItemRow.t)
  : list (string * list ActionItemRow.t) :=
  fold_left
    (fun groups row =>
       group_push (StoredActionItem.note_id (ActionItemRow.item row)) row groups)
    actionItems [].

Definition render_item (row : ActionItemRow.t) : string :=
  let item := ActionItemRow.item row in
  "- " ++ (if StoredActionItem.is_completed item then "[x]" else "[ ]") ++ " "
  ++ StoredActionItem.content item
  ++ (if Js.truthy (StoredActionItem.assignee item)
      then " (@" ++ Js.nullish (StoredActionItem.assignee item) "" ++ ")" else "")
  ++ (if Js.truthy (StoredActionItem.due_date item)
      then " [due: " ++ Js.nullish (StoredActionItem.due_date item) "" ++ "]" else "")
  ++ nl.

Definition render_meeting (group : string * list ActionItemRow.t) : string :=
  match snd group with
  | [] => ""
  | firstItem :: _ =>
      "## " ++ ActionItemRow.note_title firstItem ++ nl
      ++ "Date: " ++ Js.nullish (ActionItemRow.event_start firstItem) "N/A" ++ nl ++ nl
      ++ String.concat "" (map render_item (snd group))
      ++ nl
  end.

(** The text of the listing, the branch of a non-empty result. *)
Definition render_action_items (args : ActionItemsArgs.t)
  (actionItems : list ActionItemRow.t) : string :=
  let groups := byMeeting actionItems in
  "# All Action Items" ++ nl ++ nl ++ "Total: " ++ Js.ofNat (List.length actionItems)
  ++ " items from " ++ Js.ofNat (List.length groups) ++ " meetings" ++ nl
  ++ (if Js.truthy (ActionItemsArgs.assignee args)
      then "Filtered by assignee: " ++ Js.nullish (ActionItemsArgs.assignee args) "" ++ nl
      else "")
  ++ (if Js.truthy (ActionItemsArgs.since args)
      then "Since: " ++ Js.nullish (ActionItemsArgs.since args) "" ++ nl else "")
  ++ "Showing: "
  ++ (if Js.nullish (ActionItemsArgs.show_completed args) false
      then "all" else "incomplete only")
  ++ nl ++ nl
  ++ String.concat "" (map render_meeting groups).

(** The text of the branch [actionItems.length === 0]. *)
Definition render_no_action_items (syncError : option string)
  (syncResult : option SyncResult.t) (stats : Stats.t) : string :=
  "No action items found matching the criteria."
  ++ (if Js.truthy syncError
      then nl ++ nl ++ warning_sign ++ " Sync error: " ++ Js.nullish syncError ""
      else match syncResult with
           | Some r =>
               nl ++ nl ++ "Sync completed: " ++ Js.ofNat (SyncResult.notes_synced r)
               ++ " notes, " ++ Js.ofNat (SyncResult.action_items_found r)
               ++ " action items found."
           | None => ""
           end)
  ++ nl ++ nl ++ "DB stats: " ++ Js.ofNat (Stats.notes stats) ++ " notes, "
  ++ Js.ofNat (Stats.action_items stats) ++ " action items total.".

Module MeetingsArgs.
Record t := mk {
  emails : option (list string);
  require_all : option bool
}.
End MeetingsArgs.

Module SyncArgs.
Record t := mk {
  force : option bool;
  include_transcripts : option bool
}.
End SyncArgs.

Section WithRemote.

Variable clock : nat -> string.
Variable client : FellowClient.t.

(** [case "get_all_action_items"].  The [console.error] of the inner
    [catch] writes to the process log only and is left out. *)
Definition get_all_action_items (fuel : nat) (args : ActionItemsArgs.t)
  : M ToolResult.t :=
  guarded (
    sync <-
      try_catch
        (syncResult <- performIncrementalSync clock client fuel ;;
         ret (@None string, Some syncResult))
        (fun message => ret (Some message, @None SyncResult.t)) ;;
    let syncError := fst sync in
    let syncResult := snd sync in
    actionItems <-
      statement (fun d => FellowDatabase.getAllActionItems d (filters_of args)) ;;
    if (List.length actionItems =? 0)%nat then
      stats <- query FellowDatabase.getStats ;;
      reply (render_no_action_items syncError syncResult stats)
    else reply (render_action_items args actionItems)).

(** [case "sync_meetings"] *)
Definition sync_meetings (fuel : nat) (args : SyncArgs.t) : M ToolResult.t :=
  guarded (
    result <-
      (if Js.nullish (SyncArgs.force args) false
       then syncNotesFromApi clock client fuel
              (SyncOptions.mk None (SyncArgs.include_transcripts args))
       else performIncrementalSync clock client fuel) ;;
    stats <- query FellowDatabase.getStats ;;
    lastSync <- query FellowDatabase.getLastSyncTime ;;
    reply ("# Sync Complete" ++ nl ++ nl ++ "Mode: "
           ++ (if Js.nullish (SyncArgs.force args) false then "Full" else "Incremental")
           ++ nl ++ nl ++ "## This Sync:" ++ nl
           ++ "- Notes synced: " ++ Js.ofNat (SyncResult.notes_synced result) ++ nl
           ++ "- Recordings synced: " ++ Js.ofNat (SyncResult.recordings_synced result) ++ nl
           ++ "- Action items found: " ++ Js.ofNat (SyncResult.action_items_found result) ++ nl
           ++ "- Participants synced: " ++ Js.ofNat (SyncResult.participants_synced result)
           ++ nl ++ nl ++ "## Database Totals:" ++ nl
           ++ "- Total notes: " ++ Js.ofNat (Stats.notes stats) ++ nl
           ++ "- Total recordings: " ++ Js.ofNat (Stats.recordings stats) ++ nl
           ++ "- Total action items: " ++ Js.ofNat (Stats.action_items stats) ++ nl
           ++ "- Unique participants: " ++ Js.ofNat (Stats.participants stats)
           ++ nl ++ nl ++ "Last sync: " ++ Js.nullish lastSync "null")).

End WithRemote.

(** [case "get_meetings_by_participants"] *)
Definition get_meetings_by_participants (args : MeetingsArgs.t) : M ToolResult.t :=
  guarded (
    match MeetingsArgs.emails args with
    | None => reply "Please provide at least one email address."
    | Some emails =>
        if (List.length emails =? 0)%nat
        then reply "Please provide at least one email address."
        else
          let require_all := Js.nullish (MeetingsArgs.require_all args) false in
          let which := if require_all then "all of" else "any of" in
          meetings <-
            query (fun d =>
              if require_all then FellowDatabase.getMeetingsWithAllParticipants d emails
              else FellowDatabase.getMeetingsByParticipants d emails) ;;
          if (List.length meetings =? 0)%nat then
            reply ("No meetings found with " ++ which ++ ": " ++ Js.join ", " emails)
          else
            listing <-
              query (fun d =>
                String.concat ""
                  (map (fun meeting =>
                          "## " ++ StoredNote.title meeting ++ nl
                          ++ "- Date: " ++ Js.nullish (StoredNote.event_start meeting) "N/A" ++ nl
                          ++ "- Note ID: " ++ StoredNote.id meeting ++ nl
                          ++ "- Participants: "
                          ++ Js.ofNat (List.length
                               (FellowDatabase.getParticipantsForNote d (StoredNote.id meeting)))
                          ++ nl ++ nl)
                       meetings)) ;;
            reply ("# Meetings with " ++ which ++ ": " ++ Js.join ", " emails ++ nl ++ nl
                   ++ "Found " ++ Js.ofNat (List.length meetings) ++ " meetings:" ++ nl ++ nl
                   ++ listing)
    end).

(** The snippet line of a search hit, when the lowered query occurs in the
    lowered content. *)
Definition render_snippet (query content : string) : string :=
  match Js.indexOf (Js.toLowerCase query) (Js.toLowerCase content) with
  | None => ""
  | Some matchIndex =>
      let start := matchIndex - 50 in
      let stop := Nat.min (String.length content) (matchIndex + String.length query + 50) in
      let snippet := Js.substring start stop content in
      let snippet := if (0 <? start)%nat then "..." ++ snippet else snippet in
      let snippet :=
        if (stop <? String.length content)%nat then snippet ++ "..." else snippet in
      "- Snippet: " ++ Js.newlines_to_spaces snippet ++ nl
  end.

Definition render_search_hit (query : string) (note : StoredNote.t) : string :=
  "## " ++ StoredNote.title note ++ nl
  ++ "- Date: " ++ Js.nullish (StoredNote.event_start note) "N/A" ++ nl
  ++ "- Note ID: " ++ StoredNote.id note ++ nl
  ++ (if Js.truthy (StoredNote.content_markdown note)
      then render_snippet query (Js.nullish (StoredNote.content_markdown note) "")
      else "")
  ++ nl.

(** [case "search_cached_notes"] *)
Definition search_cached_notes (query_arg : option string) : M ToolResult.t :=
  guarded (
    let query_text := Js.nullish query_arg "" in
    if negb (Js.truthy query_arg) || (String.length (Js.trim query_text) =? 0)%nat then
      reply "Please provide a search query."
    else
      notes <- statement (fun d => FellowDatabase.searchNotes d query_text) ;;
      if (List.length notes =? 0)%nat then
        reply ("No meetings found matching: " ++ dquote ++ query_text ++ dquote)
      else
        reply ("# Search Results for: " ++ dquote ++ query_text ++ dquote ++ nl ++ nl
               ++ "Found " ++ Js.ofNat (List.length notes) ++ " meetings:" ++ nl ++ nl
               ++ String.concat "" (map (render_search_hit query_text) notes))).

End Tools.

(* ------------------------------------------------------------------ *)
(** ** Predicates used to state the properties *)

Module Spec.
Import Sync.

(** Started in a world where [P] holds, [m] returns a value and a world
    related by [Q], or throws, or is cut off while looping, in a world where
    [E] holds. *)
Definition triple {A} (P : World -> Prop) (m : M A) (Q : A -> World -> Prop)
  (E : World -> Prop) : Prop :=
  forall w, P w ->
    match m w with
    | Returned a w' => Q a w'
    | Thrown _ w' => E w'
    | OutOfFuel w' => E w'
    end.

(** [P] holds of the database a run leaves behind, however the run ended
    (and, for a run that does not end, after any number of pages). *)
Definition leaves {A} (o : outcome A) (P : FellowDatabase.t -> Prop) : Prop :=
  match o with
  | Returned _ w' => P (db w')
  | Thrown _ w' => P (db w')
  | OutOfFuel w' => P (db w')
  end.

Definition is_none {A} (v : option A) : bool :=
  match v with Some _ => false | None => true end.

(** A stored recording is an orphan when its [note_id] names a note that is
    not in [notes].  With [strict] every non-NULL [note_id] names a note;
    without it only the values JavaScript takes for truthy do (the empty
    string counts as no reference, as in the guard of the recordings loop). *)
Definition is_orphan (strict : bool) (d : FellowDatabase.t) (r : StoredRecording.t) : bool :=
  match StoredRecording.note_id r with
  | Some nid => (strict || negb (nid =? "")) && is_none (FellowDatabase.getNote d nid)
  | None => false
  end.

Definition no_orphans (strict : bool) (d : FellowDatabase.t) : Prop :=
  forallb (fun r => negb (is_orphan strict d r)) (FellowDatabase.recordings d) = true.

(** The store invariant of the recordings: no stored recording is an orphan
    (and, for the strict reading, foreign keys are enforced). *)
Definition referential (strict : bool) (d : FellowDatabase.t) : Prop :=
  (strict = true -> FellowDatabase.foreign_keys d = true) /\ no_orphans strict d.

(** The test [email && typeof email === "string" && email.trim()] of the
    participants loop. *)
Definition kept (email : string) : bool :=
  Js.truthy (Some email) && Js.truthy (Some (Js.trim email)).

(** The emails the participants loop hands to [insertParticipant]. *)
Definition attendee_emails (note : Note.t) : list string :=
  match Note.event_attendees note with
  | Some attendees => map Js.trim (filter kept attendees)
  | None => []
  end.

(** The due dates the extractor can produce: a year of three or four digits,
    a month and a day of two digits each, joined by dashes. *)
Definition due_shape (d : string) : Prop :=
  exists y m dd,
    d = y ++ "-" ++ m ++ "-" ++ dd
    /\ Regex.all Regex.digit y = true /\ Regex.all Regex.digit m = true
    /\ Regex.all Regex.digit dd = true
    /\ 3 <= String.length y <= 4 /\ String.length m = 2 /\ String.length dd = 2.

Definition digits_value (s : string) : nat :=
  fold_left (fun acc c => 10 * acc + (nat_of_ascii c - 48)) (list_ascii_of_string s) 0.

Definition leap_year (y : nat) : bool :=
  ((y mod 4 =? 0) && (negb (y mod 100 =? 0) || (y mod 400 =? 0)))%nat.

Definition days_in_month (y m : nat) : nat :=
  match m with
  | 1 | 3 | 5 | 7 | 8 | 10 | 12 => 31
  | 4 | 6 | 9 | 11 => 30
  | 2 => if leap_year y then 29 else 28
  | _ => 0
  end.

(** What the specification calls a valid calendar date, for a text
    [YYYY-MM-DD]: the month is 01..12 and the day exists in that month of
    that year. *)
Definition valid_calendar_date (d : string) : bool :=
  match Js.split "-" d with
  | [y; m; dd] =>
      (Regex.all Regex.digit y && Regex.all Regex.digit m && Regex.all Regex.digit dd
       && (String.length y =? 4) && (String.length m =? 2) && (String.length dd =? 2)
       && (1 <=? digits_value m) && (digits_value m <=? 12)
       && (1 <=? digits_value dd)
       && (digits_value dd <=? days_in_month (digits_value y) (digits_value m)))%nat
  | _ => false
  end.

(** How the count reported for participants compares with the rows
    inserted: equal ([exact]) or at least as large. *)
Definition count_rel (exact : bool) (inserted reported : nat) : Prop :=
  if exact then inserted = reported else inserted <= reported.

(** Over a run of [m] that returns, the number of rows inserted into
    [participants] compares as [count_rel] says with the advance of
    [participants_synced]. *)
Definition advances (exact : bool) (m : M SyncResult.t) (r : SyncResult.t) : Prop :=
  forall w,
    match m w with
    | Returned r' w' =>
        count_rel exact
          (FellowDatabase.participants_inserted (db w') + SyncResult.participants_synced r)
          (FellowDatabase.participants_inserted (db w) + SyncResult.participants_synced r')
    | Thrown _ _ => True
    | OutOfFuel _ => True
    end.

(** No row of [participants] pairs note [nid] with one of [emails]. *)
Definition no_row (d : FellowDatabase.t) (nid : string) (emails : list string) : Prop :=
  forall p, In p (FellowDatabase.participants d) ->
            StoredParticipant.note_id p = nid -> ~ In (StoredParticipant.email p) emails.

(** Every note the remote can list names each attendee once. *)
Definition attendees_listed_once (client : FellowClient.t) : Prop :=
  forall o page note,
    FellowClient.listNotes client o = Ok page -> In note (Page.data page) ->
    NoDup (attendee_emails note).

End Spec.

(* ------------------------------------------------------------------ *)
(** ** Due dates, in words *)

(** What a text must read for a due date to be taken from it, said without
    the patterns of the extractor. *)
Module DueDate.

Definition is_digit (c : ascii) : Prop := 48 <= nat_of_ascii c <= 57.

(** TAB, LF, VT, FF, CR, SP and NBSP. *)
Definition is_white (c : ascii) : Prop :=
  In (nat_of_ascii c) [9; 10; 11; 12; 13; 32; 160].

Fixpoint every (P : ascii -> Prop) (s : string) : Prop :=
  match s with
  | EmptyString => True
  | String c s' => P c /\ every P s'
  end.

(** [w] spells [k], a word in small letters, letter by letter in small or
    capital letters. *)
Fixpoint spells (k w : string) : Prop :=
  match k, w with
  | EmptyString, EmptyString => True
  | String a k', String c w' =>
      (c = a \/ nat_of_ascii c + 32 = nat_of_ascii a) /\ spells k' w'
  | _, _ => False
  end.

Definition keyword (w : string) : Prop :=
  spells "due" w \/ spells "by" w \/ spells "deadline" w.

(** A small letter of the alphabet. *)
Definition small (c : ascii) : Prop := 97 <= nat_of_ascii c <= 122.

(** A keyword, white space, at most one colon, white space: what announces
    the digits of a due date. *)
Definition announces (w : string) : Prop :=
  exists kw sp1 colon sp2,
    w = kw ++ sp1 ++ colon ++ sp2
    /\ keyword kw /\ every is_white sp1 /\ (colon = "" \/ colon = ":")
    /\ every is_white sp2.

(** Between [lo] and [hi] digits. *)
Definition number (lo hi : nat) (s : string) : Prop :=
  every is_digit s /\ lo <= String.length s <= hi.

(** From index [k] on, [text] reads an announcement and then [date], of the
    form DDDD-DD-DD. *)
Definition iso_at (text : string) (k : nat) (date : string) : Prop :=
  exists before intro y m d after,
    text = before ++ intro ++ date ++ after
    /\ String.length before = k /\ announces intro
    /\ date = y ++ "-" ++ m ++ "-" ++ d
    /\ number 4 4 y /\ number 2 2 m /\ number 2 2 d.

(** From index [k] on, [text] reads an announcement and then [m/d/y], of the
    form D(D)/D(D)/DD(DD), and then [after]. *)
Definition us_at (text : string) (k : nat) (m d y after : string) : Prop :=
  exists before intro,
    text = before ++ intro ++ m ++ "/" ++ d ++ "/" ++ y ++ after
    /\ String.length before = k /\ announces intro
    /\ number 1 2 m /\ number 1 2 d /\ number 2 4 y.

(** [after] does not go on with a digit. *)
Definition no_digit_next (after : string) : Prop :=
  match after with
  | String c _ => ~ is_digit c
  | EmptyString => True
  end.

(** A month or day of one digit gets a zero in front. *)
Definition two_digits (s : string) : string :=
  if (String.length s =? 1)%nat then "0" ++ s else s.

(** A year of two digits is taken for one of this century. *)
Definition full_year (y : string) : string :=
  if (String.length y =? 2)%nat then "20" ++ y else y.

End DueDate.


(* ------------------------------------------------------------------ *)
(** ** Concrete stores, remotes and inputs used by the examples below *)

Module Fixtures.

Definition checkbox_line : string := "- [x] Finish report @alice due: 2024-03-01".

Definition note_abc : StoredNote.t :=
  StoredNote.mk "n1" "abc" "2024-01-01T00:00:00Z" "2024-01-02T00:00:00Z"
    None None None None (Some "xyz") "2024-01-03T00:00:00Z".

(** The same note as a partial fetch delivers it: no content, a new title. *)
Definition note_abc_partial : StoredNote.t :=
  StoredNote.mk "n1" "abc (renamed)" "2024-01-01T00:00:00Z" "2024-01-05T00:00:00Z"
    None None None None None "".

Definition note_dashes : StoredNote.t :=
  StoredNote.mk "n2" "a---c" "2024-01-01T00:00:00Z" "2024-01-02T00:00:00Z"
    None None None None None "2024-01-03T00:00:00Z".

(** A cache holding one note. *)
Definition db_one_note : FellowDatabase.t :=
  FellowDatabase.mk [note_abc] [] [] 0 [] 0 0 None true Engine.backwards.

Definition db_two_notes : FellowDatabase.t :=
  FellowDatabase.mk [note_abc; note_dashes] [] [] 0 [] 0 0 None true Engine.backwards.

(** One note whose only participant is [a@x.com]. *)
Definition db_one_participant : FellowDatabase.t :=
  FellowDatabase.mk [note_abc] [] [] 0 [StoredParticipant.mk 1 "n1" "a@x.com"] 1 1 None true
    Engine.backwards.

(** A cache that was synced before and holds one open action item. *)
Definition db_cached_item : FellowDatabase.t :=
  FellowDatabase.mk [note_abc] []
    [StoredActionItem.mk 1 "n1" "Send the report" (Some "alice") None false
       "2024-01-03T00:00:00Z"] 1
    [] 0 0 (Some "2024-01-03T00:00:00Z") true Engine.backwards.

Definition api_error : string := "Fellow API error (500): boom".

(** A remote that answers every call with a 500. *)
Definition failing_client : FellowClient.t :=
  FellowClient.mk (fun _ => Err api_error) (fun _ => Err api_error).

Definition clock (n : nat) : string := "2024-02-01T00:00:0" ++ Js.ofNat n ++ "Z".

Definition api_note (id title : string) (content : option string)
  (attendees : option (list string)) : Note.t :=
  Note.mk id title "2024-01-01T00:00:00Z" "2024-01-02T00:00:00Z"
    None None None None None content attendees.

Definition api_recording (id : string) (note_id : option string) : Recording.t :=
  Recording.mk id "Weekly" note_id "2024-01-01T00:00:00Z" "2024-01-02T00:00:00Z"
    None None None None None None None.

Definition note_weekly : Note.t :=
  api_note "n1" "Weekly"
    (Some ("- [x] Finish report @alice due: 2024-03-01" ++ String "010" "TODO: book a room"))
    (Some ["a@x.com"; "b@x.com"]).

Definition note_retro : Note.t := api_note "n2" "Retro" None (Some ["c@x.com"]).

(** The same attendee twice. *)
Definition note_repeated_attendee : Note.t :=
  api_note "n3" "Planning" None (Some ["a@x.com"; "a@x.com"]).

(** A remote with two pages of notes and one page of recordings; the second
    recording belongs to a note the remote does not list. *)
Definition two_page_client : FellowClient.t :=
  FellowClient.mk
    (fun o =>
       match ListNotesOptions.cursor o with
       | None => Ok (Page.mk (Some "p2") 50 [note_weekly])
       | Some _ => Ok (Page.mk None 50 [note_retro])
       end)
    (fun _ =>
       Ok (Page.mk None 50 [api_recording "r1" (Some "n1"); api_recording "r2" (Some "ghost")])).

(** The same remote, failing when asked for the second page of notes. *)
Definition flaky_client : FellowClient.t :=
  FellowClient.mk
    (fun o =>
       match ListNotesOptions.cursor o with
       | None => Ok (Page.mk (Some "p2") 50 [note_weekly])
       | Some _ => Err api_error
       end)
    (FellowClient.listRecordings two_page_client).

(** A remote whose only note lists an attendee twice. *)
Definition repeated_attendee_client : FellowClient.t :=
  FellowClient.mk
    (fun _ => Ok (Page.mk None 50 [note_repeated_attendee]))
    (fun _ => Ok (Page.mk None 50 [])).

Definition fresh : Sync.World := Sync.mkWorld FellowDatabase.empty 0.

(** The world in which the pass against [flaky_client] throws, started from
    [db_cached_item]. *)
Definition flaky_world : Sync.World :=
  Eval vm_compute in
    match Sync.syncNotesFromApi clock flaky_client 5 SyncOptions.default
            (Sync.mkWorld db_cached_item 0) with
    | Sync.Thrown _ w' => w'
    | _ => fresh
    end.

(** The world the pass against [two_page_client] returns in, started from
    an empty store. *)
Definition two_page_world : Sync.World :=
  Eval vm_compute in
    match Sync.syncNotesFromApi clock two_page_client 5 SyncOptions.default fresh with
    | Sync.Returned _ w' => w'
    | _ => fresh
    end.

End Fixtures.

(* ------------------------------------------------------------------ *)
(** ** Further predicates on the store *)

Module Laws.

(** [J] is kept by every statement a sync pass executes; for
    [upsertRecording] it may rely on the guard of the recordings loop. *)
Definition kept_by_statements (J : FellowDatabase.t -> Prop) : Prop :=
  (forall d n now, J d -> J (FellowDatabase.upsertNote d n now))
  /\ (forall d i, J d -> J (FellowDatabase.clearActionItemsForNote d i))
  /\ (forall d x d', J d -> FellowDatabase.insertActionItem d x = Ok d' -> J d')
  /\ (forall d i, J d -> J (FellowDatabase.clearParticipantsForNote d i))
  /\ (forall d i e d', J d -> FellowDatabase.insertParticipant d i e = Ok d' -> J d')
  /\ (forall d r now d',
         J d ->
         (Js.truthy (StoredRecording.note_id r) = true ->
          Spec.is_none (FellowDatabase.getNote d (Js.nullish (StoredRecording.note_id r) ""))
          = false) ->
         FellowDatabase.upsertRecording d r now = Ok d' -> J d')
  /\ (forall d time, J d -> J (FellowDatabase.setLastSyncTime d time)).

(** [PRIMARY KEY] of [notes]. *)
Definition notes_keyed (d : FellowDatabase.t) : Prop :=
  NoDup (map StoredNote.id (FellowDatabase.notes d)).

(** The rowids of [action_items]: pairwise different and none above the
    AUTOINCREMENT counter. *)
Definition action_item_ids_fresh (d : FellowDatabase.t) : Prop :=
  NoDup (map StoredActionItem.id (FellowDatabase.action_items d))
  /\ Forall (fun a => StoredActionItem.id a <= FellowDatabase.action_items_seq d)
            (FellowDatabase.action_items d).

(** [UNIQUE(note_id, email)] of [participants]. *)
Definition participants_unique (d : FellowDatabase.t) : Prop :=
  NoDup (map (fun p => (StoredParticipant.note_id p, StoredParticipant.email p))
             (FellowDatabase.participants d)).

(** Note [i] is stored and has content. *)
Definition has_content (i : string) (d : FellowDatabase.t) : Prop :=
  exists n, FellowDatabase.getNote d i = Some n /\ StoredNote.content_markdown n <> None.

(** The columns of an action item the extractor decides. *)
Definition parsed_of (a : StoredActionItem.t) : ParsedActionItem.t :=
  ParsedActionItem.mk (StoredActionItem.content a) (StoredActionItem.assignee a)
    (StoredActionItem.due_date a) (StoredActionItem.is_completed a).

Definition action_items_of (d : FellowDatabase.t) (noteId : string)
  : list StoredActionItem.t :=
  filter (fun a => StoredActionItem.note_id a =? noteId) (FellowDatabase.action_items d).

Definition action_items_not_of (d : FellowDatabase.t) (noteId : string)
  : list StoredActionItem.t :=
  filter (fun a => negb (StoredActionItem.note_id a =? noteId))
         (FellowDatabase.action_items d).

(** [a >= b] on nullable TEXT, NULL below every value: the order of
    [ORDER BY .. DESC]. *)
Definition ge (a b : option string) : Prop := Sql.gt b a = false.

End Laws.

(** More concrete values for the examples. *)
Module MoreFixtures.

Definition recording_with_transcript : StoredRecording.t :=
  StoredRecording.mk "r1" (Some "n1") "Weekly" "c1" "u1" None None None None None None
    (Some "{}") "".

(** The same recording as a later listing without transcripts delivers it,
    with no note link. *)
Definition recording_without_transcript : StoredRecording.t :=
  StoredRecording.mk "r1" None "Weekly (renamed)" "c2" "u2" None None None None None None
    None "".

Definition db_with_transcript : FellowDatabase.t :=
  Eval vm_compute in
    match FellowDatabase.upsertRecording Fixtures.db_one_note recording_with_transcript "t1" with
    | Ok d => d
    | Err _ => Fixtures.db_one_note
    end.

Definition db_transcript_kept : FellowDatabase.t :=
  Eval vm_compute in
    match FellowDatabase.upsertRecording db_with_transcript recording_without_transcript "t2" with
    | Ok d => d
    | Err _ => db_with_transcript
    end.

End MoreFixtures.

Module PassFixtures.

(** A remote that lists note [n1] without content and without attendees. *)
Definition partial_fetch_client : FellowClient.t :=
  FellowClient.mk
    (fun _ => Ok (Page.mk None 50 [Fixtures.api_note "n1" "abc (renamed)" None None]))
    (fun _ => Ok (Page.mk None 50 [])).

End PassFixtures.

Module Counting.
Import Sync.

(** Over a run of [m] that returns, [measure] of the database and [count] of
    the result advance by the same amount. *)
Definition tracks (measure : FellowDatabase.t -> nat) (count : SyncResult.t -> nat)
  (m : M SyncResult.t) (r : SyncResult.t) : Prop :=
  forall w,
    match m w with
    | Returned r' w' => measure (db w') + count r = measure (db w) + count r'
    | Thrown _ _ => True
    | OutOfFuel _ => True
    end.

(** The rows inserted into [action_items] against [action_items_found]. *)
Definition found_tracks (m : M SyncResult.t) (r : SyncResult.t) : Prop :=
  tracks FellowDatabase.action_items_seq SyncResult.action_items_found m r.

End Counting.

Module ReplaceFixtures.

(** The world after the action-items block for [note_weekly], run on a
    cache that holds an older item of that note. *)
Definition weekly_items_world : Sync.World :=
  Eval vm_compute in
    match Sync.store_action_items Fixtures.clock Fixtures.note_weekly SyncResult.zero
            (Sync.mkWorld Fixtures.db_cached_item 0) with
    | Sync.Returned _ w' => w'
    | _ => Fixtures.fresh
    end.

End ReplaceFixtures.

Module ParticipantFixtures.

(** The world after the participants block for [note_weekly], run on a
    store where the note already has a participant that is no longer
    listed. *)
Definition db_old_participant : FellowDatabase.t :=
  FellowDatabase.mk [Fixtures.note_abc] [] [] 0
    [StoredParticipant.mk 1 "n1" "old@x.com"; StoredParticipant.mk 2 "n9" "a@x.com"] 2 2
    None true Engine.backwards.

Definition weekly_participants_world : Sync.World :=
  Eval vm_compute in
    match Sync.store_participants Fixtures.note_weekly SyncResult.zero
            (Sync.mkWorld db_old_participant 0) with
    | Sync.Returned _ w' => w'
    | _ => Fixtures.fresh
    end.

End ParticipantFixtures.

Module SearchLaws.

(** A text with the case of its ASCII letters folded, as [LIKE] compares
    characters. *)
Fixpoint fold_text (s : string) : string :=
  match s with
  | EmptyString => EmptyString
  | String c s' => String (Sql.fold_case c) (fold_text s')
  end.

(** [q] occurs in [s] up to the case of ASCII letters. *)
Definition occurs_in (q s : string) : Prop :=
  exists a q' b, s = a ++ q' ++ b /\ fold_text q' = fold_text q.

(** No character of the query is a wildcard of [LIKE]. *)
Fixpoint literal (q : string) : bool :=
  match q with
  | EmptyString => true
  | String c q' => negb (Ascii.eqb c "%") && negb (Ascii.eqb c "_") && literal q'
  end.

(** The text has no NUL character. *)
Fixpoint nul_free (s : string) : bool :=
  match s with
  | EmptyString => true
  | String c s' => negb (Ascii.eqb c Ascii.zero) && nul_free s'
  end.

(** [q] occurs, up to the case of ASCII letters, in the title of the note or
    in its content, each read up to its first NUL character as [LIKE] reads
    them. *)
Definition mentions (q : string) (n : StoredNote.t) : Prop :=
  occurs_in q (Sql.c_string (StoredNote.title n))
  \/ exists c, StoredNote.content_markdown n = Some c /\ occurs_in q (Sql.c_string c).

End SearchLaws.

Module Paging.

(** The pages of notes a pass goes through when it starts asking at
    [cursor]: the page the remote sends for [cursor], and the pages from that
    page's cursor on when it has one. *)
Inductive pages_from (client : FellowClient.t) (since : option string)
  : option string -> Page.t Note.t -> Prop :=
| page_here (cursor : option string) (page : Page.t Note.t) :
    FellowClient.listNotes client
      (ListNotesOptions.mk since true true cursor Sync.pageSize) = Ok page ->
    pages_from client since cursor page
| page_next (cursor : option string) (page later : Page.t Note.t) :
    FellowClient.listNotes client
      (ListNotesOptions.mk since true true cursor Sync.pageSize) = Ok page ->
    Js.truthy (Page.cursor page) = true ->
    pages_from client since (Page.cursor page) later ->
    pages_from client since cursor later.

Definition is_cached (i : string) (d : FellowDatabase.t) : Prop :=
  FellowDatabase.getNote d i <> None.

(** The note is in the cache, with content when the listing had content. *)
Definition brought (note : Note.t) (d : FellowDatabase.t) : Prop :=
  is_cached (Note.id note) d
  /\ (Note.content_markdown note <> None -> Laws.has_content (Note.id note) d).

End Paging.

(* ------------------------------------------------------------------ *)
(** ** The requests of a pass *)

Module Requests.

(** The requests of the notes loop: having started to ask at [cursor], the
    loop makes its request number [n] (counted from 0) with the cursor
    [asked], every request before it having been answered with a page that
    carries a cursor. *)
Inductive notes_asked (client : FellowClient.t) (since : option string)
  : option string -> nat -> option string -> Prop :=
| notes_asked_first (cursor : option string) :
    notes_asked client since cursor 0 cursor
| notes_asked_next (cursor : option string) (page : Page.t Note.t) (n : nat)
    (asked : option string) :
    FellowClient.listNotes client
      (ListNotesOptions.mk since true true cursor Sync.pageSize) = Ok page ->
    Js.truthy (Page.cursor page) = true ->
    notes_asked client since (Page.cursor page) n asked ->
    notes_asked client since cursor (S n) asked.

(** The same for the recordings loop. *)
Inductive recordings_asked (client : FellowClient.t) (since : option string)
  (include_transcript : bool) : option string -> nat -> option string -> Prop :=
| recordings_asked_first (cursor : option string) :
    recordings_asked client since include_transcript cursor 0 cursor
| recordings_asked_next (cursor : option string) (page : Page.t Recording.t) (n : nat)
    (asked : option string) :
    FellowClient.listRecordings client
      (ListRecordingsOptions.mk since include_transcript cursor Sync.pageSize) = Ok page ->
    Js.truthy (Page.cursor page) = true ->
    recordings_asked client since include_transcript (Page.cursor page) n asked ->
    recordings_asked client since include_transcript cursor (S n) asked.

(** The pages of recordings a pass goes through when it starts asking at
    [cursor]. *)
Inductive recording_pages_from (client : FellowClient.t) (since : option string)
  (include_transcript : bool) : option string -> Page.t Recording.t -> Prop :=
| recording_page_here (cursor : option string) (page : Page.t Recording.t) :
    FellowClient.listRecordings client
      (ListRecordingsOptions.mk since include_transcript cursor Sync.pageSize) = Ok page ->
    recording_pages_from client since include_transcript cursor page
| recording_page_next (cursor : option string) (page later : Page.t Recording.t) :
    FellowClient.listRecordings client
      (ListRecordingsOptions.mk since include_transcript cursor Sync.pageSize) = Ok page ->
    Js.truthy (Page.cursor page) = true ->
    recording_pages_from client since include_transcript (Page.cursor page) later ->
    recording_pages_from client since include_transcript cursor later.

(** The recording is in the cache. *)
Definition is_stored (i : string) (d : FellowDatabase.t) : Prop :=
  FellowDatabase.getRecording d i <> None.

(** Started in a world where [P] holds, [m] returns, in a world where [P]
    holds again. *)
Definition returns {A} (P : Sync.World -> Prop) (m : Sync.M A) : Prop :=
  forall w, P w -> exists a w', m w = Sync.Returned a w' /\ P w'.

(** [m] returns or throws the error of a violated foreign key. *)
Definition returns_or_violates {A} (m : Sync.M A) : Prop :=
  forall w,
    (exists a w', m w = Sync.Returned a w')
    \/ (exists w', m w = Sync.Thrown FellowDatabase.FOREIGN_KEY_failed w').

End Requests.


Module Grouping.

(** The key of a row in the map [byMeeting]. *)
Definition key_of (row : ActionItemRow.t) : string :=
  StoredActionItem.note_id (ActionItemRow.item row).

End Grouping.

Module MeetingFixtures.

(** Two open items of one meeting and a completed one of another. *)
Definition db_three_items : FellowDatabase.t :=
  FellowDatabase.mk [Fixtures.note_abc; Fixtures.note_dashes] []
    [StoredActionItem.mk 1 "n1" "Send the report" (Some "alice") None false
       "2024-01-03T00:00:00Z";
     StoredActionItem.mk 2 "n2" "Book a room" None None true "2024-01-03T00:00:00Z";
     StoredActionItem.mk 3 "n1" "Call Bob" (Some "bob") None false "2024-01-03T00:00:00Z"] 3
    [] 0 0 None true Engine.backwards.

Definition row_send_report : ActionItemRow.t :=
  ActionItemRow.mk
    (StoredActionItem.mk 1 "n1" "Send the report" (Some "alice") None false
       "2024-01-03T00:00:00Z")
    "abc" None.

(** The open items of that cache, as [getAllActionItems] returns them. *)
Definition rows_three_items : list ActionItemRow.t :=
  Eval vm_compute in
    FellowDatabase.action_item_rows db_three_items
      (Tools.filters_of (Tools.ActionItemsArgs.mk None None None)).

End MeetingFixtures.

(* ------------------------------------------------------------------ *)
(** ** Command line ([parseArgs]) *)

Module Cli.

(** The two variables [parseArgs] reads from [process.env]. *)
Record Env := mkEnv {
  FELLOW_API_KEY : option string;
  FELLOW_SUBDOMAIN : option string
}.

Record Config := mkConfig {
  apiKey : string;
  subdomain : string
}.

(** [a ?? b] where [b] may be undefined as well. *)
Definition nullish_or (a b : option string) : option string :=
  match a with
  | Some _ => a
  | None => b
  end.

(** [arg.split("=")[1]] *)
Definition after_equals (arg : string) : option string :=
  nth_error (Js.split "=" arg) 1.

(** The [for] loop over [args], from index [i] on: [args] is what is left
    from [args[i]] on, [apiKey] and [subdomain] the two variables of the
    function.  The first two branches skip [args[i + 1]]. *)
Fixpoint scan (args : list string) (apiKey subdomain : option string)
  : option string * option string :=
  match args with
  | [] => (apiKey, subdomain)
  | arg :: rest =>
      match rest with
      | next :: after =>
          if (arg =? "--api-key") && Js.truthy (Some next) then
            scan after (Some next) subdomain
          else if (arg =? "--subdomain") && Js.truthy (Some next) then
            scan after apiKey (Some next)
          else if Js.starts_with "--api-key=" arg then
            scan rest (after_equals arg) subdomain
          else if Js.starts_with "--subdomain=" arg then
            scan rest apiKey (after_equals arg)
          else scan rest apiKey subdomain
      | [] =>
          if Js.starts_with "--api-key=" arg then
            scan rest (after_equals arg) subdomain
          else if Js.starts_with "--subdomain=" arg then
            scan rest apiKey (after_equals arg)
          else scan rest apiKey subdomain
      end
  end.

Definition api_key_required : string :=
  "API key required: use --api-key <key> or set FELLOW_API_KEY env var".

Definition subdomain_required : string :=
  "Subdomain required: use --subdomain <subdomain> or set FELLOW_SUBDOMAIN env var".

(** [parseArgs()], reading [process.argv] and [process.env]. *)
Definition parseArgs (argv : list string) (env : Env) : result Config :=
  let args := skipn 2 argv in
  let seen := scan args None None in
  let apiKey := nullish_or (fst seen) (FELLOW_API_KEY env) in
  let subdomain := nullish_or (snd seen) (FELLOW_SUBDOMAIN env) in
  if negb (Js.truthy apiKey) then Err api_key_required
  else if negb (Js.truthy subdomain) then Err subdomain_required
  else Ok (mkConfig (Js.nullish apiKey "") (Js.nullish subdomain "")).

End Cli.

(* ------------------------------------------------------------------ *)
(** ** The handler of tool calls *)

Module Server.
Import Sync.

(** A call of one of the tools of the embedding, with its arguments. *)
Inductive request : Type :=
| call_sync_meetings (args : Tools.SyncArgs.t)
| call_get_all_action_items (args : Tools.ActionItemsArgs.t)
| call_get_meetings_by_participants (args : Tools.MeetingsArgs.t)
| call_search_cached_notes (query : option string).

Section WithProcess.

(** [process.argv] and [process.env] *)
Variable argv : list string.
Variable env : Cli.Env.
(** [new FellowClient(apiKey, subdomain)]: the remote these credentials
    reach. *)
Variable connect : Cli.Config -> FellowClient.t.
Variable clock : nat -> string.

(** [getClient()].  [cachedClient] is set by the first call that returns;
    [process.argv] and [process.env] being fixed, a later call returns the
    same client, and a call after one that raised raises again. *)
Definition getClient : M FellowClient.t :=
  fun w =>
    match Cli.parseArgs argv env with
    | Ok config => Returned (connect config) w
    | Err e => Thrown e w
    end.

(** The handler of [CallToolRequestSchema]: [getClient()] runs before the
    [try], so what it raises leaves the handler; the [case] of the tool runs
    inside the [try]. *)
Definition CallTool (fuel : nat) (call : request) : M ToolResult.t :=
  client <- getClient ;;
  match call with
  | call_sync_meetings args => Tools.sync_meetings clock client fuel args
  | call_get_all_action_items args => Tools.get_all_action_items clock client fuel args
  | call_get_meetings_by_participants args => Tools.get_meetings_by_participants args
  | call_search_cached_notes query => Tools.search_cached_notes query
  end.

End WithProcess.

(** A command line that carries both credentials, and one that carries
    none. *)
Definition argv_with_flags : list string :=
  ["node"; "index.js"; "--api-key"; "k"; "--subdomain"; "acme"].

Definition argv_bare : list string := ["node"; "index.js"].

End Server.

Module Growth.
Import Sync.

(** Over a run of [m] that returns, the worlds and results at its two ends
    are related by [R]. *)
Definition follows (R : World -> SyncResult.t -> World -> SyncResult.t -> Prop)
  (m : M SyncResult.t) (r : SyncResult.t) : Prop :=
  forall w,
    match m w with
    | Returned r' w' => R w r w' r'
    | Thrown _ _ => True
    | OutOfFuel _ => True
    end.

(** Neither [notes] nor [recordings] nor their two counts change. *)
Definition unchanged (w : World) (r : SyncResult.t) (w' : World) (r' : SyncResult.t)
  : Prop :=
  FellowDatabase.notes (db w') = FellowDatabase.notes (db w)
  /\ FellowDatabase.recordings (db w') = FellowDatabase.recordings (db w)
  /\ SyncResult.notes_synced r' = SyncResult.notes_synced r
  /\ SyncResult.recordings_synced r' = SyncResult.recordings_synced r.

(** [notes] and [recordings] lose no row, and gain at most as many rows as
    their counts advance. *)
Definition within (w : World) (r : SyncResult.t) (w' : World) (r' : SyncResult.t)
  : Prop :=
  List.length (FellowDatabase.notes (db w)) <= List.length (FellowDatabase.notes (db w'))
  /\ List.length (FellowDatabase.notes (db w')) + SyncResult.notes_synced r
     <= List.length (FellowDatabase.notes (db w)) + SyncResult.notes_synced r'
  /\ List.length (FellowDatabase.recordings (db w))
     <= List.length (FellowDatabase.recordings (db w'))
  /\ List.length (FellowDatabase.recordings (db w')) + SyncResult.recordings_synced r
     <= List.length (FellowDatabase.recordings (db w)) + SyncResult.recordings_synced r'.

End Growth.

(* ------------------------------------------------------------------ *)
(** * Properties *)

Unset Implicit Arguments.

(** ** Coalescing upsert of notes *)

Section UpsertNote.
Import FellowDatabase.

Lemma getNote_upsert_rows_same (e : StoredNote.t) (rows : list StoredNote.t) :
  find (fun r => StoredNote.id r =? StoredNote.id e) (upsert_note_rows e rows)
  = Some (match find (fun r => StoredNote.id r =? StoredNote.id e) rows with
          | Some old => note_on_conflict old e
          | None => e
          end).
Proof.
  induction rows as [|r rest IH]; simpl.
  - now rewrite String.eqb_refl.
  - destruct (StoredNote.id r =? StoredNote.id e) eqn:E; simpl.
    + now rewrite E.
    + now rewrite E.
Qed.

Lemma getNote_upsert_rows_other (e : StoredNote.t) (rows : list StoredNote.t) (i : string) :
  i <> StoredNote.id e ->
  find (fun r => StoredNote.id r =? i) (upsert_note_rows e rows)
  = find (fun r => StoredNote.id r =? i) rows.
Proof.
  intros Hi. induction rows as [|r rest IH]; simpl.
  - destruct (StoredNote.id e =? i) eqn:E; [|reflexivity].
    apply String.eqb_eq in E. congruence.
  - destruct (StoredNote.id r =? StoredNote.id e) eqn:E; simpl.
    + apply String.eqb_eq in E.
      destruct (StoredNote.id r =? i) eqn:E'; [|reflexivity].
      apply String.eqb_eq in E'. congruence.
    + now rewrite IH.
Qed.

(** What [getNote] finds for the id just upserted. *)
Lemma getNote_upsertNote_same (db : t) (n : StoredNote.t) (now : string) :
  exists stored,
    getNote (upsertNote db n now) (StoredNote.id n) = Some stored
    /\ StoredNote.id stored = StoredNote.id n
    /\ StoredNote.content_markdown stored
       = Sql.COALESCE (StoredNote.content_markdown n)
           (match getNote db (StoredNote.id n) with
            | Some old => StoredNote.content_markdown old
            | None => None
            end).
Proof.
  unfold getNote, upsertNote; simpl.
  pose proof (getNote_upsert_rows_same
    (StoredNote.mk (StoredNote.id n) (StoredNote.title n) (StoredNote.created_at n)
       (StoredNote.updated_at n) (StoredNote.event_start n) (StoredNote.event_end n)
       (StoredNote.event_guid n) (StoredNote.call_url n) (StoredNote.content_markdown n) now)
    (notes db)) as H.
  simpl in H. rewrite H. clear H.
  destruct (find (fun r => StoredNote.id r =? StoredNote.id n) (notes db)) as [old|] eqn:F.
  - eexists; split; [reflexivity|]. split.
    + simpl. apply find_some in F. destruct F as [_ F]. now apply String.eqb_eq in F.
    + reflexivity.
  - eexists; split; [reflexivity|]. split; [reflexivity|].
    simpl. now destruct (StoredNote.content_markdown n).
Qed.

Lemma getNote_upsertNote_other (db : t) (n : StoredNote.t) (now i : string) :
  i <> StoredNote.id n -> getNote (upsertNote db n now) i = getNote db i.
Proof.
  intros Hi. unfold getNote, upsertNote; simpl.
  now apply getNote_upsert_rows_other.
Qed.

(** C1. Upserting a note and then upserting the same id again keeps the
    stored [content_markdown] whenever the second call supplies none: after
    the second call the stored content is the second call's content when it
    supplies one and otherwise exactly what was stored after the first call.
    Hence stored content only changes when a value is supplied, content given
    by the first call survives a second call without content, and content
    that was stored is never turned into NULL. *)
Theorem upsertNote_never_regresses_content
  (db : t) (first second : StoredNote.t) (t1 t2 : string)
  (Hid : StoredNote.id second = StoredNote.id first) :
  exists s1 s2,
    getNote (upsertNote db first t1) (StoredNote.id first) = Some s1
    /\ getNote (upsertNote (upsertNote db first t1) second t2) (StoredNote.id first) = Some s2
    /\ (StoredNote.content_markdown second = None ->
        StoredNote.content_markdown s2 = StoredNote.content_markdown s1)
    /\ (StoredNote.content_markdown s2 <> StoredNote.content_markdown s1 ->
        exists c, StoredNote.content_markdown second = Some c
                  /\ StoredNote.content_markdown s2 = Some c)
    /\ (forall c, StoredNote.content_markdown first = Some c ->
                  StoredNote.content_markdown second = None ->
                  StoredNote.content_markdown s2 = Some c)
    /\ (StoredNote.content_markdown s1 <> None -> StoredNote.content_markdown s2 <> None).
Proof.
  destruct (getNote_upsertNote_same db first t1) as (s1 & G1 & I1 & C1).
  destruct (getNote_upsertNote_same (upsertNote db first t1) second t2) as (s2 & G2 & I2 & C2).
  rewrite Hid in G2. rewrite Hid, G1 in C2.
  exists s1, s2. repeat split; try assumption.
  - intros Hn. now rewrite C2, Hn.
  - intros Hne. rewrite C2 in *.
    destruct (StoredNote.content_markdown second) as [c|]; simpl in *.
    + now exists c.
    + congruence.
  - intros c Hc Hn. rewrite C2, Hn; simpl. now rewrite C1, Hc.
  - rewrite C2. destruct (StoredNote.content_markdown second); simpl; congruence.
Qed.

Lemma upsertNote_never_regresses_content_witness :
  exists s1 s2,
    getNote (upsertNote empty Fixtures.note_abc "t1") "n1" = Some s1
    /\ getNote (upsertNote (upsertNote empty Fixtures.note_abc "t1")
                          Fixtures.note_abc_partial "t2") "n1" = Some s2
    /\ (StoredNote.content_markdown Fixtures.note_abc_partial = None ->
        StoredNote.content_markdown s2 = StoredNote.content_markdown s1)
    /\ (StoredNote.content_markdown s2 <> StoredNote.content_markdown s1 ->
        exists c, StoredNote.content_markdown Fixtures.note_abc_partial = Some c
                  /\ StoredNote.content_markdown s2 = Some c)
    /\ (forall c, StoredNote.content_markdown Fixtures.note_abc = Some c ->
                  StoredNote.content_markdown Fixtures.note_abc_partial = None ->
                  StoredNote.content_markdown s2 = Some c)
    /\ (StoredNote.content_markdown s1 <> None -> StoredNote.content_markdown s2 <> None).
Proof.
  exact (upsertNote_never_regresses_content empty Fixtures.note_abc
           Fixtures.note_abc_partial "t1" "t2" eq_refl).
Defined.

(** The same on values: the second upsert changes the title and keeps the
    content. *)
Example upsertNote_twice_example :
  option_map (fun n => (StoredNote.title n, StoredNote.content_markdown n))
    (getNote (upsertNote (upsertNote empty Fixtures.note_abc "t1")
                         Fixtures.note_abc_partial "t2") "n1")
  = Some ("abc (renamed)", Some "xyz").
Proof. reflexivity. Qed.

End UpsertNote.

(** ** The extractor on the line of the specification *)

Section ExtractorExamples.
Import Extractor Fixtures.

(** C7. On the single line ["- [x] Finish report @alice due: 2024-03-01"]
    the extractor yields exactly one item, completed, with assignee ["alice"]
    and due date ["2024-03-01"].  The line is taken by the checkbox pattern
    (the mention-prefixed pattern does not match it), and the assignee and the
    due date are those of the scan of the item's content. *)
Theorem extractActionItems_checkbox_line :
  extractActionItems checkbox_line
  = Ok [ParsedActionItem.mk "Finish report @alice due: 2024-03-01"
          (Some "alice") (Some "2024-03-01") true]
  /\ (exists m, Regex.match_start re_checkbox checkbox_line = Some m
                /\ m 1 = Some "x"
                /\ m 2 = Some "Finish report @alice due: 2024-03-01")
  /\ Regex.match_start re_mention_line checkbox_line = None
  /\ parseAssigneeAndDueDate "Finish report @alice due: 2024-03-01"
     = Ok (Some "alice", Some "2024-03-01").
Proof.
  split; [vm_compute; reflexivity|].
  split.
  - unfold Regex.match_start.
    destruct (Regex.run re_checkbox checkbox_line Regex.no_captures) as [|x rest] eqn:R.
    + vm_compute in R. discriminate.
    + exists (snd x). split; [reflexivity|].
      assert (H : match Regex.run re_checkbox checkbox_line Regex.no_captures with
                  | y :: _ => (snd y 1, snd y 2)
                  | [] => (None, None)
                  end = (Some "x", Some "Finish report @alice due: 2024-03-01"))
        by (vm_compute; reflexivity).
      rewrite R in H. now inversion H.
  - split; vm_compute; reflexivity.
Qed.

End ExtractorExamples.

(** ** Facts about the SQL fragments and the string primitives *)

Section SqlFacts.

Lemma in_insert_desc {A} (key : A -> option string) (before : A -> A -> bool)
  (x row : A) (sorted : list A) :
  In x (Sql.insert_desc key before row sorted) <-> x = row \/ In x sorted.
Proof.
  induction sorted as [|r rest IH]; simpl.
  - intuition.
  - destruct (Sql.gt (key r) (key row) || _); simpl; rewrite ?IH; intuition.
Qed.

(** [ORDER BY] neither adds nor drops rows, whatever the engine does with
    equal keys. *)
Lemma in_order_by_desc {A} (key : A -> option string) (before : A -> A -> bool)
  (x : A) (rows : list A) :
  In x (Sql.order_by_desc key before rows) <-> In x rows.
Proof.
  unfold Sql.order_by_desc.
  induction rows as [|r rest IH]; simpl; [tauto|].
  rewrite in_insert_desc, IH. intuition.
Qed.

Lemma length_insert_desc {A} (key : A -> option string) (before : A -> A -> bool)
  (row : A) (sorted : list A) :
  List.length (Sql.insert_desc key before row sorted) = S (List.length sorted).
Proof.
  induction sorted as [|r rest IH]; simpl; [reflexivity|].
  destruct (Sql.gt (key r) (key row) || _); simpl; now rewrite ?IH.
Qed.

Lemma length_order_by_desc {A} (key : A -> option string) (before : A -> A -> bool)
  (rows : list A) :
  List.length (Sql.order_by_desc key before rows) = List.length rows.
Proof.
  unfold Sql.order_by_desc.
  induction rows as [|r rest IH]; simpl; [reflexivity|].
  now rewrite length_insert_desc, IH.
Qed.

Lemma starts_with_append (q rest : string) : Js.starts_with q (q ++ rest) = true.
Proof.
  induction q as [|c q IH]; simpl; [reflexivity|].
  now rewrite Ascii.eqb_refl, IH.
Qed.

Lemma includes_append_l (q a s : string) :
  Js.includes q s = true -> Js.includes q (a ++ s) = true.
Proof.
  unfold Js.includes. intros H.
  induction a as [|c a IH]; simpl; [assumption|].
  destruct (Js.starts_with q (String c (a ++ s))); [reflexivity|].
  destruct (Js.indexOf q (a ++ s)); [reflexivity|discriminate].
Qed.

(** A text built around [q] includes [q]. *)
Lemma includes_middle (q a b : string) : Js.includes q (a ++ q ++ b) = true.
Proof.
  apply includes_append_l. unfold Js.includes.
  destruct (q ++ b) eqn:E; simpl.
  - destruct q; [reflexivity|discriminate].
  - rewrite <- E, starts_with_append. reflexivity.
Qed.

Lemma searchNotes_raises (d : FellowDatabase.t) (q e : string) :
  FellowDatabase.searchNotes d q = Err e ->
  e = "LIKE or GLOB pattern too complex"
  /\ (50000 < Sql.utf8_bytes ("%" ++ q ++ "%"))%N
  /\ FellowDatabase.notes d <> [].
Proof.
  unfold FellowDatabase.searchNotes.
  destruct (0 <? List.length (FellowDatabase.notes d))%nat eqn:L; cbn [andb]; [|discriminate].
  destruct (Sql.like_refused ("%" ++ q ++ "%")) eqn:B; [|discriminate].
  intros H. split; [unfold Sql.pattern_too_complex in H; congruence|]. split.
  - unfold Sql.like_refused, Sql.LIKE_PATTERN_LENGTH in B. now apply N.ltb_lt in B.
  - intros N0. rewrite N0 in L. discriminate.
Qed.

Lemma getAllActionItems_raises (d : FellowDatabase.t) (f : ActionItemFilters.t)
  (e : string) :
  FellowDatabase.getAllActionItems d f = Err e ->
  e = "LIKE or GLOB pattern too complex"
  /\ exists who,
       ActionItemFilters.assignee f = Some who
       /\ (50000 < Sql.utf8_bytes ("%" ++ who ++ "%"))%N
       /\ FellowDatabase.action_items d <> [].
Proof.
  unfold FellowDatabase.getAllActionItems.
  destruct (Js.truthy (ActionItemFilters.assignee f)) eqn:T; cbn [andb]; [|discriminate].
  destruct (Sql.like_refused _) eqn:B; cbn [andb]; [|discriminate].
  destruct (_ || _) eqn:L; [|discriminate].
  intros H. split; [unfold Sql.pattern_too_complex in H; congruence|].
  destruct (ActionItemFilters.assignee f) as [who|]; [|discriminate].
  exists who. split; [reflexivity|]. split.
  - cbn [Js.nullish] in B. unfold Sql.like_refused, Sql.LIKE_PATTERN_LENGTH in B.
    now apply N.ltb_lt in B.
  - intros Hnone. apply orb_true_iff in L. destruct L as [L|L].
    + apply existsb_exists in L. destruct L as (r & Hr & _).
      unfold FellowDatabase.joined_action_items in Hr. rewrite Hnone in Hr. contradiction.
    + rewrite Hnone in L. discriminate.
Qed.

End SqlFacts.

(** ** Search over the cache *)

Section Search.
Import FellowDatabase Sync Tools Fixtures.

(** C10. [searchNotes] pastes the raw query between two [%], so [_] and [%]
    in the query are wildcards of [LIKE]: the query [a_c] finds the note
    titled [abc], and the query [a%c] the note titled [a---c], although
    neither title nor content contains the query as a substring (not even up
    to case), and the [search_cached_notes] tool lists these notes (the
    [case] of the tool, and the handler called with credentials on the
    command line).  The rows
    of [searchNotes] are the notes that match the pasted pattern, latest
    first; it returns them unless the cache holds a note and the pattern has
    more than 50000 bytes, when it raises the error of [LIKE]. *)
Theorem searchNotes_query_wildcards :
  (forall db query,
      match searchNotes db query with
      | Ok rows =>
          rows
          = Sql.order_by_desc StoredNote.event_start
              (Engine.notes_before (engine db) "searchNotes" ["%" ++ query ++ "%"])
              (filter (fun n => Sql.like ("%" ++ query ++ "%") (StoredNote.title n)
                                || Sql.like_nullable ("%" ++ query ++ "%")
                                     (StoredNote.content_markdown n))
                      (notes db))
      | Err e =>
          e = "LIKE or GLOB pattern too complex"
          /\ (50000 < Sql.utf8_bytes ("%" ++ query ++ "%"))%N
          /\ notes db <> []
      end)
  /\ (exists db query note r,
         Js.includes "_" query = true
         /\ (exists rows, searchNotes db query = Ok rows /\ In note rows)
         /\ Js.includes (Js.toLowerCase query) (Js.toLowerCase (StoredNote.title note)) = false
         /\ Js.includes (Js.toLowerCase query)
              (Js.toLowerCase (Js.nullish (StoredNote.content_markdown note) "")) = false
         /\ search_cached_notes (Some query) (mkWorld db 0) = Returned r (mkWorld db 0)
         /\ Server.CallTool Server.argv_with_flags (Cli.mkEnv None None)
              (fun _ => failing_client) clock 0
              (Server.call_search_cached_notes (Some query)) (mkWorld db 0)
            = Returned r (mkWorld db 0)
         /\ ToolResult.isError r = false
         /\ Js.includes ("- Note ID: " ++ StoredNote.id note) (ToolResult.text r) = true)
  /\ (exists db query note r,
         Js.includes "%" query = true
         /\ (exists rows, searchNotes db query = Ok rows /\ In note rows)
         /\ Js.includes (Js.toLowerCase query) (Js.toLowerCase (StoredNote.title note)) = false
         /\ Js.includes (Js.toLowerCase query)
              (Js.toLowerCase (Js.nullish (StoredNote.content_markdown note) "")) = false
         /\ search_cached_notes (Some query) (mkWorld db 0) = Returned r (mkWorld db 0)
         /\ Server.CallTool Server.argv_with_flags (Cli.mkEnv None None)
              (fun _ => failing_client) clock 0
              (Server.call_search_cached_notes (Some query)) (mkWorld db 0)
            = Returned r (mkWorld db 0)
         /\ ToolResult.isError r = false
         /\ Js.includes ("- Note ID: " ++ StoredNote.id note) (ToolResult.text r) = true).
Proof.
  split; [|split].
  - intros db query. destruct (searchNotes db query) as [rows|e] eqn:H.
    + unfold searchNotes in H.
      destruct ((0 <? List.length (notes db))%nat && _); [discriminate|].
      inversion H. reflexivity.
    + now apply searchNotes_raises.
  - exists db_one_note, "a_c", note_abc.
    eexists. split; [vm_compute; reflexivity|].
    split; [eexists; split; [vm_compute; reflexivity|cbn [In]; tauto]|].
    repeat split; vm_compute; reflexivity.
  - exists db_two_notes, "a%c", note_dashes.
    eexists. split; [vm_compute; reflexivity|].
    split; [eexists; split; [vm_compute; reflexivity|cbn [In]; tauto]|].
    repeat split; vm_compute; reflexivity.
Qed.

End Search.

(** ** Meetings by participants *)

Section Participants.
Import FellowDatabase Fixtures.

(** The "all" query keeps exactly the notes whose number of distinct
    matching emails equals the length of the list that was passed. *)
Lemma in_getMeetingsWithAllParticipants (db : t) (emails : list string) (n : StoredNote.t) :
  In n (getMeetingsWithAllParticipants db emails)
  <-> emails <> []
      /\ In n (notes db)
      /\ count_distinct_matching db emails n = List.length emails.
Proof.
  unfold getMeetingsWithAllParticipants.
  destruct emails as [|e rest]; simpl List.length; simpl Nat.eqb.
  - simpl. intuition.
  - rewrite in_order_by_desc, filter_In, Nat.eqb_eq.
    intuition discriminate.
Qed.

Lemma in_getMeetingsByParticipants (db : t) (emails : list string) (n : StoredNote.t) :
  In n (getMeetingsByParticipants db emails)
  <-> emails <> [] /\ In n (notes db) /\ matching_participants db emails n <> [].
Proof.
  unfold getMeetingsByParticipants.
  destruct emails as [|e rest]; simpl List.length; simpl Nat.eqb.
  - simpl. intuition.
  - rewrite in_order_by_desc, nodup_In, in_flat_map. split.
    + intros (m & Hm & Hin). apply in_map_iff in Hin. destruct Hin as (p & -> & Hp).
      repeat split; [discriminate|assumption|].
      intros E. rewrite E in Hp. exact Hp.
    + intros (_ & Hn & Hne). exists n. split; [assumption|].
      destruct (matching_participants db (e :: rest) n) as [|p ps]; [congruence|].
      simpl. now left.
Qed.

(** Every note of the "all" query is a note of the "any" query. *)
Lemma all_participants_subset_any (db : t) (emails : list string) (n : StoredNote.t) :
  In n (getMeetingsWithAllParticipants db emails) ->
  In n (getMeetingsByParticipants db emails).
Proof.
  rewrite in_getMeetingsWithAllParticipants, in_getMeetingsByParticipants.
  intros (Hne & Hn & Hc). repeat split; try assumption.
  intros E. unfold count_distinct_matching in Hc. rewrite E in Hc. simpl in Hc.
  destruct emails; [congruence|discriminate].
Qed.

Lemma in_matching_emails (db : t) (emails : list string) (n : StoredNote.t) (e : string) :
  In e (nodup string_dec (map StoredParticipant.email (matching_participants db emails n)))
  <-> In e emails /\ has_participant db (StoredNote.id n) e = true.
Proof.
  rewrite nodup_In, in_map_iff. unfold matching_participants, has_participant, Sql.in_list.
  split.
  - intros (p & <- & Hp). apply filter_In in Hp. destruct Hp as [Hp Hm].
    apply andb_true_iff in Hm. destruct Hm as [Hn He].
    apply existsb_exists in He. destruct He as (x & Hx & Ex).
    apply String.eqb_eq in Ex. subst x. split; [assumption|].
    apply existsb_exists. exists p. split; [assumption|].
    now rewrite Hn, String.eqb_refl.
  - intros [He Hh]. apply existsb_exists in Hh. destruct Hh as (p & Hp & Hm).
    apply andb_true_iff in Hm. destruct Hm as [Hn Ee]. apply String.eqb_eq in Ee.
    exists p. split; [assumption|]. apply filter_In. split; [assumption|].
    rewrite Hn. simpl. apply existsb_exists. exists e. split; [assumption|].
    rewrite Ee. apply String.eqb_refl.
Qed.

(** The count of distinct matching emails reaches the number of distinct
    emails asked for exactly when the note has a participant row for every
    email asked for. *)
Lemma count_distinct_matching_full (db : t) (emails : list string) (n : StoredNote.t) :
  count_distinct_matching db emails n = List.length (nodup string_dec emails)
  <-> forall e, In e emails -> has_participant db (StoredNote.id n) e = true.
Proof.
  unfold count_distinct_matching.
  set (found := nodup string_dec
                  (map StoredParticipant.email (matching_participants db emails n))).
  assert (Hnd : NoDup found) by apply NoDup_nodup.
  assert (Hne : NoDup (nodup string_dec emails)) by apply NoDup_nodup.
  assert (Hincl : incl found (nodup string_dec emails)).
  { intros e He. apply nodup_In. now apply in_matching_emails in He. }
  split.
  - intros Hlen e He.
    assert (Hback : incl (nodup string_dec emails) found).
    { apply NoDup_length_incl; [assumption|lia|assumption]. }
    assert (Hin : In e found) by (apply Hback; now apply nodup_In).
    now apply in_matching_emails in Hin.
  - intros Hall.
    assert (Hback : incl (nodup string_dec emails) found).
    { intros e He. apply nodup_In in He. apply in_matching_emails. auto. }
    apply Nat.le_antisymm; now apply NoDup_incl_length.
Qed.

(** For emails that are pairwise different the "all" query returns exactly
    the notes that have a participant row for each of them. *)
Lemma getMeetingsWithAllParticipants_distinct_emails
  (db : t) (emails : list string) (n : StoredNote.t) :
  NoDup emails -> emails <> [] ->
  (In n (getMeetingsWithAllParticipants db emails)
   <-> In n (notes db)
       /\ forall e, In e emails -> has_participant db (StoredNote.id n) e = true).
Proof.
  intros Hnd Hne. rewrite in_getMeetingsWithAllParticipants.
  rewrite <- count_distinct_matching_full, (nodup_fixed_point string_dec Hnd).
  tauto.
Qed.

(** With an email repeated in the list the "all" query returns nothing. *)
Lemma getMeetingsWithAllParticipants_repeated (db : t) (emails : list string) :
  ~ NoDup emails -> getMeetingsWithAllParticipants db emails = [].
Proof.
  intros Hdup.
  destruct (getMeetingsWithAllParticipants db emails) as [|n rest] eqn:E; [reflexivity|].
  exfalso.
  assert (Hin : In n (getMeetingsWithAllParticipants db emails)) by (rewrite E; now left).
  apply in_getMeetingsWithAllParticipants in Hin. destruct Hin as (_ & _ & Hc).
  assert (Hle : count_distinct_matching db emails n <= List.length (nodup string_dec emails)).
  { unfold count_distinct_matching. apply NoDup_incl_length; [apply NoDup_nodup|].
    intros e He. apply nodup_In. now apply in_matching_emails in He. }
  assert (Hlt : List.length (nodup string_dec emails) < List.length emails).
  { destruct (Nat.eq_dec (List.length (nodup string_dec emails)) (List.length emails))
      as [Heq|Hneq].
    - exfalso. apply Hdup.
      apply (NoDup_incl_NoDup (l := nodup string_dec emails)).
      + apply NoDup_nodup.
      + lia.
      + intros e He. exact (proj1 (nodup_In string_dec emails e) He).
    - pose proof (NoDup_incl_length (NoDup_nodup string_dec emails)
                    (fun e He => proj1 (nodup_In string_dec emails e) He)).
      lia. }
  lia.
Qed.

(** C5, at a list that names one email twice.  The note has a participant
    row for every email asked for: its count of distinct matching emails is 1
    and the input holds 1 distinct email.  The "any" query returns it, the
    "all" query compares the count with [emails.length] = 2 and returns
    nothing, so the tool reports that no meeting was found (the [case] of the
    tool, and the handler called with credentials on the command line);
    asked with the email once the "all" query returns the note. *)
Theorem getMeetingsWithAllParticipants_repeated_email :
  let emails := ["a@x.com"; "a@x.com"] in
  In note_abc (notes db_one_participant)
  /\ count_distinct_matching db_one_participant emails note_abc = 1
  /\ List.length (nodup string_dec emails) = 1
  /\ getMeetingsByParticipants db_one_participant emails = [note_abc]
  /\ getMeetingsWithAllParticipants db_one_participant emails = []
  /\ getMeetingsWithAllParticipants db_one_participant ["a@x.com"] = [note_abc]
  /\ Tools.get_meetings_by_participants (Tools.MeetingsArgs.mk (Some emails) (Some true))
       (Sync.mkWorld db_one_participant 0)
     = Sync.Returned
         (ToolResult.mk "No meetings found with all of: a@x.com, a@x.com" false)
         (Sync.mkWorld db_one_participant 0)
  /\ Server.CallTool Server.argv_with_flags (Cli.mkEnv None None)
       (fun _ => failing_client) clock 0
       (Server.call_get_meetings_by_participants
          (Tools.MeetingsArgs.mk (Some emails) (Some true)))
       (Sync.mkWorld db_one_participant 0)
     = Sync.Returned
         (ToolResult.mk "No meetings found with all of: a@x.com, a@x.com" false)
         (Sync.mkWorld db_one_participant 0).
Proof.
  repeat split; try (vm_compute; reflexivity).
  vm_compute. tauto.
Qed.

End Participants.

(** ** A program logic for the orchestrator's runs *)

Section Triples.
Import Sync Spec.

Lemma triple_ret {A} (P : World -> Prop) (a : A) (Q : A -> World -> Prop) (E : World -> Prop) :
  (forall w, P w -> Q a w) -> triple P (ret a) Q E.
Proof. intros H w Hw. simpl. auto. Qed.

Lemma triple_bind {A B} (P : World -> Prop) (m : M A) (R : A -> World -> Prop)
  (k : A -> M B) (Q : B -> World -> Prop) (E : World -> Prop) :
  triple P m R E -> (forall a, triple (R a) (k a) Q E) -> triple P (bind m k) Q E.
Proof.
  intros Hm Hk w Hw. unfold bind. specialize (Hm w Hw).
  destruct (m w) as [a w'|e w'|w']; [|assumption|assumption].
  apply (Hk a w' Hm).
Qed.

Lemma triple_weaken {A} (P P' : World -> Prop) (m : M A) (Q Q' : A -> World -> Prop)
  (E E' : World -> Prop) :
  triple P' m Q' E' ->
  (forall w, P w -> P' w) -> (forall a w, Q' a w -> Q a w) -> (forall w, E' w -> E w) ->
  triple P m Q E.
Proof.
  intros H HP HQ HE w Hw. specialize (H w (HP w Hw)).
  destruct (m w); auto.
Qed.

Lemma triple_await {A} (P : World -> Prop) (r : result A) (E : World -> Prop) :
  (forall w, P w -> E w) -> triple P (await r) (fun _ w => P w) E.
Proof. intros H w Hw. unfold await. destruct r; auto. Qed.

Lemma triple_query {A} (P : World -> Prop) (f : FellowDatabase.t -> A) (E : World -> Prop) :
  triple P (query f) (fun a w => P w /\ a = f (db w)) E.
Proof. intros w Hw. simpl. auto. Qed.

Lemma triple_run (P Q : World -> Prop) (f : FellowDatabase.t -> FellowDatabase.t)
  (E : World -> Prop) :
  (forall w, P w -> Q (mkWorld (f (db w)) (ticks w))) ->
  triple P (run f) (fun _ w => Q w) E.
Proof. intros H w Hw. simpl. auto. Qed.

Lemma triple_run_checked (P Q : World -> Prop)
  (f : FellowDatabase.t -> result FellowDatabase.t) (E : World -> Prop) :
  (forall w d, P w -> f (db w) = Ok d -> Q (mkWorld d (ticks w))) ->
  (forall w, P w -> E w) ->
  triple P (run_checked f) (fun _ w => Q w) E.
Proof.
  intros H HE w Hw. unfold run_checked.
  destruct (f (db w)) as [d|e] eqn:F; auto.
Qed.

Lemma triple_clock (clock : nat -> string) (P Q : World -> Prop) (E : World -> Prop) :
  (forall w, P w -> Q (mkWorld (db w) (S (ticks w)))) ->
  triple P (new_Date_toISOString clock) (fun _ w => Q w) E.
Proof. intros H w Hw. simpl. auto. Qed.

(** The rule of [for .. of]: an invariant of the body is an invariant of the
    loop. *)
Lemma triple_for_of {A S} (I : S -> World -> Prop) (E : World -> Prop)
  (xs : list A) (body : A -> S -> M S) :
  (forall x st, In x xs -> triple (I st) (body x st) I E) ->
  forall st, triple (I st) (for_of xs body st) I E.
Proof.
  induction xs as [|x rest IH]; intros Hbody st; simpl.
  - apply triple_ret. auto.
  - eapply triple_bind.
    + apply Hbody. now left.
    + intros st'. apply IH. intros y st'' Hy. apply Hbody. now right.
Qed.

End Triples.

(** ** Invariants of the database along a sync pass *)

Section StoreInvariant.
Import FellowDatabase Sync Spec.

Variable clock : nat -> string.
Variable client : FellowClient.t.

(** [J] is kept by every statement the two loops execute; for
    [upsertRecording] it may rely on the guard of the recordings loop. *)
Variable J : FellowDatabase.t -> Prop.
Hypothesis J_upsertNote : forall d n now, J d -> J (upsertNote d n now).
Hypothesis J_clearActionItems : forall d i, J d -> J (clearActionItemsForNote d i).
Hypothesis J_insertActionItem : forall d x d', J d -> insertActionItem d x = Ok d' -> J d'.
Hypothesis J_clearParticipants : forall d i, J d -> J (clearParticipantsForNote d i).
Hypothesis J_insertParticipant :
  forall d i e d', J d -> insertParticipant d i e = Ok d' -> J d'.
Hypothesis J_upsertRecording :
  forall d r now d',
    J d ->
    (Js.truthy (StoredRecording.note_id r) = true ->
     is_none (getNote d (Js.nullish (StoredRecording.note_id r) "")) = false) ->
    upsertRecording d r now = Ok d' -> J d'.

Let Jw : World -> Prop := fun w => J (db w).

Lemma store_action_item_keeps (i : string) (item : ParsedActionItem.t) (r : SyncResult.t) :
  triple Jw (store_action_item clock i item r) (fun _ => Jw) Jw.
Proof.
  unfold store_action_item.
  eapply triple_bind with (R := fun _ => Jw).
  - apply triple_clock. auto.
  - intros now. eapply triple_bind with (R := fun _ => Jw).
    + apply triple_run_checked; [|auto].
      intros w d Hw Hd. apply (J_insertActionItem _ _ _ Hw Hd).
    + intros _. apply triple_ret. auto.
Qed.

Lemma store_participant_keeps (i email : string) (r : SyncResult.t) :
  triple Jw (store_participant i email r) (fun _ => Jw) Jw.
Proof.
  unfold store_participant.
  destruct (Js.truthy (Some email) && Js.truthy (Some (Js.trim email))).
  - eapply triple_bind with (R := fun _ => Jw).
    + apply triple_run_checked; [|auto].
      intros w d Hw Hd. apply (J_insertParticipant _ _ _ _ Hw Hd).
    + intros _. apply triple_ret. auto.
  - apply triple_ret. auto.
Qed.

Lemma sync_note_keeps (note : Note.t) (r : SyncResult.t) :
  triple Jw (sync_note clock note r) (fun _ => Jw) Jw.
Proof.
  unfold sync_note, store_note, store_action_items, store_participants.
  eapply triple_bind with (R := fun _ => Jw).
  { eapply triple_bind with (R := fun _ => Jw).
    - apply triple_clock. auto.
    - intros now. apply triple_run. intros w Hw. apply J_upsertNote. exact Hw. }
  intros _. eapply triple_bind with (R := fun _ => Jw).
  { destruct (Js.truthy (Note.content_markdown note)).
    - eapply triple_bind with (R := fun _ => Jw).
      + apply triple_run. intros w Hw. apply J_clearActionItems. exact Hw.
      + intros _. eapply triple_bind with (R := fun _ => Jw).
        * apply triple_await. auto.
        * intros items. apply triple_for_of with (I := fun _ => Jw).
          intros x st _. apply store_action_item_keeps.
    - apply triple_ret. auto. }
  intros r'. destruct (Note.event_attendees note) as [attendees|].
  - destruct (0 <? List.length attendees)%nat.
    + eapply triple_bind with (R := fun _ => Jw).
      * apply triple_run. intros w Hw. apply J_clearParticipants. exact Hw.
      * intros _. apply triple_for_of with (I := fun _ => Jw).
        intros x st _. apply store_participant_keeps.
    + apply triple_ret. auto.
  - apply triple_ret. auto.
Qed.

Lemma notes_loop_keeps (fuel : nat) :
  forall (since cursor : option string) (r : SyncResult.t),
    triple Jw (notes_loop clock client fuel since cursor r) (fun _ => Jw) Jw.
Proof.
  induction fuel as [|fuel IH]; intros since cursor r; simpl.
  - intros w Hw. exact Hw.
  - eapply triple_bind with (R := fun _ => Jw).
    + apply triple_await. auto.
    + intros page. eapply triple_bind with (R := fun _ => Jw).
      * apply triple_for_of with (I := fun _ => Jw).
        intros x st _. apply sync_note_keeps.
      * intros r'. destruct (Js.truthy (Page.cursor page)).
        -- apply IH.
        -- apply triple_ret. auto.
Qed.

Lemma sync_recording_keeps (recording : Recording.t) (r : SyncResult.t) :
  triple Jw (sync_recording clock recording r) (fun _ => Jw) Jw.
Proof.
  intros w Hw. unfold sync_recording, bind, query, ret.
  destruct (Js.truthy (Recording.note_id recording)
            && match getNote (db w) (Js.nullish (Recording.note_id recording) "") with
               | Some _ => false
               | None => true
               end) eqn:G.
  - exact Hw.
  - unfold new_Date_toISOString, run_checked. simpl.
    match goal with
    | |- context [upsertRecording ?d ?row ?now] =>
        destruct (upsertRecording d row now) as [d'|e] eqn:U
    end.
    + simpl. unfold Jw. simpl.
      eapply J_upsertRecording; [exact Hw| |exact U].
      simpl. intros T. rewrite T in G. simpl in G.
      unfold is_none. exact G.
    + exact Hw.
Qed.

Lemma recordings_loop_keeps (fuel : nat) :
  forall (since : option string) (tr : bool) (cursor : option string) (r : SyncResult.t),
    triple Jw (recordings_loop clock client fuel since tr cursor r) (fun _ => Jw) Jw.
Proof.
  induction fuel as [|fuel IH]; intros since tr cursor r; simpl.
  - intros w Hw. exact Hw.
  - eapply triple_bind with (R := fun _ => Jw).
    + apply triple_await. auto.
    + intros page. eapply triple_bind with (R := fun _ => Jw).
      * apply triple_for_of with (I := fun _ => Jw).
        intros x st _. apply sync_recording_keeps.
      * intros r'. destruct (Js.truthy (Page.cursor page)).
        -- apply IH.
        -- apply triple_ret. auto.
Qed.

(** The two loops keep [J], whether they finish or throw. *)
Lemma sync_pages_keeps (fuel : nat) (options : SyncOptions.t) :
  triple Jw (sync_pages clock client fuel options) (fun _ => Jw) Jw.
Proof.
  unfold sync_pages.
  eapply triple_bind with (R := fun _ => Jw).
  - apply notes_loop_keeps.
  - intros r. apply recordings_loop_keeps.
Qed.

End StoreInvariant.

(** ** The watermark *)

Section Watermark.
Import FellowDatabase Sync Spec Fixtures.

Lemma sync_pages_keeps_watermark (clk : nat -> string) (client : FellowClient.t)
  (fuel : nat) (options : SyncOptions.t) (w : World) :
  leaves (sync_pages clk client fuel options w)
         (fun d => getLastSyncTime d = getLastSyncTime (db w)).
Proof.
  pose proof (sync_pages_keeps clk client
                (fun d => getLastSyncTime d = getLastSyncTime (db w))) as H.
  unfold triple in H. unfold leaves.
  assert (K : match sync_pages clk client fuel options w with
              | Returned _ w' => getLastSyncTime (db w') = getLastSyncTime (db w)
              | Thrown _ w' => getLastSyncTime (db w') = getLastSyncTime (db w)
              | OutOfFuel w' => getLastSyncTime (db w') = getLastSyncTime (db w)
              end).
  { apply H; try reflexivity; clear H.
    - intros d n now Hd. exact Hd.
    - intros d i Hd. exact Hd.
    - intros d x d' Hd Hx. unfold insertActionItem in Hx.
      destruct (references_note d _); inversion Hx; subst. exact Hd.
    - intros d i Hd. exact Hd.
    - intros d i e d' Hd Hx. unfold insertParticipant in Hx.
      destruct (has_participant d i e); [inversion Hx; subst; exact Hd|].
      destruct (references_note d _); inversion Hx; subst. exact Hd.
    - intros d r now d' Hd _ Hx. unfold upsertRecording in Hx.
      destruct (references_note d _); inversion Hx; subst. exact Hd. }
  exact K.
Qed.

(** C3. With no watermark stored, the incremental entry point is the full
    sync: [performIncrementalSync] ends exactly as [syncNotesFromApi] called
    without [since] (and, like the incremental entry point, not asking for
    transcripts) ends on the same remote, clock and store: the same error, or
    the same four counts and the same store. *)
Theorem incremental_sync_without_watermark_is_full_sync
  (clk : nat -> string) (client : FellowClient.t) (fuel : nat) (w : World)
  (includeTranscripts : option bool)
  (Hnone : Js.truthy (getLastSyncTime (db w)) = false)
  (Hplain : Js.nullish includeTranscripts false = false) :
  performIncrementalSync clk client fuel w
  = syncNotesFromApi clk client fuel (SyncOptions.mk None includeTranscripts) w
  /\ forall full_result full_world,
       syncNotesFromApi clk client fuel (SyncOptions.mk None includeTranscripts) w
       = Returned full_result full_world ->
       exists incremental_result incremental_world,
         performIncrementalSync clk client fuel w
         = Returned incremental_result incremental_world
         /\ SyncResult.notes_synced incremental_result = SyncResult.notes_synced full_result
         /\ SyncResult.recordings_synced incremental_result
            = SyncResult.recordings_synced full_result
         /\ SyncResult.action_items_found incremental_result
            = SyncResult.action_items_found full_result
         /\ SyncResult.participants_synced incremental_result
            = SyncResult.participants_synced full_result
         /\ db incremental_world = db full_world.
Proof.
  assert (E : performIncrementalSync clk client fuel w
              = syncNotesFromApi clk client fuel (SyncOptions.mk None includeTranscripts) w).
  { unfold performIncrementalSync, bind, query. rewrite Hnone. simpl.
    unfold syncNotesFromApi, sync_pages. simpl. now rewrite Hplain. }
  split; [exact E|].
  intros r w' H. exists r, w'. rewrite E. repeat split. exact H.
Qed.

Lemma incremental_sync_without_watermark_is_full_sync_witness :
  performIncrementalSync clock two_page_client 5 fresh
  = syncNotesFromApi clock two_page_client 5 (SyncOptions.mk None (Some false)) fresh
  /\ forall full_result full_world,
       syncNotesFromApi clock two_page_client 5 (SyncOptions.mk None (Some false)) fresh
       = Returned full_result full_world ->
       exists incremental_result incremental_world,
         performIncrementalSync clock two_page_client 5 fresh
         = Returned incremental_result incremental_world
         /\ SyncResult.notes_synced incremental_result = SyncResult.notes_synced full_result
         /\ SyncResult.recordings_synced incremental_result
            = SyncResult.recordings_synced full_result
         /\ SyncResult.action_items_found incremental_result
            = SyncResult.action_items_found full_result
         /\ SyncResult.participants_synced incremental_result
            = SyncResult.participants_synced full_result
         /\ db incremental_world = db full_world.
Proof.
  apply (incremental_sync_without_watermark_is_full_sync clock two_page_client 5 fresh
           (Some false)); reflexivity.
Defined.

End Watermark.

(** ** Recordings of notes the store does not hold *)

Section Orphans.
Import FellowDatabase Sync Spec Fixtures.

Lemma getNote_upsertNote_stays (d : t) (n : StoredNote.t) (now i : string) :
  is_none (getNote d i) = false -> is_none (getNote (upsertNote d n now) i) = false.
Proof.
  intros H. destruct (string_dec i (StoredNote.id n)) as [->|Hne].
  - destruct (getNote_upsertNote_same d n now) as (s & G & _). now rewrite G.
  - now rewrite getNote_upsertNote_other.
Qed.

Lemma referential_same_tables (strict : bool) (d d' : t) :
  notes d' = notes d -> recordings d' = recordings d -> foreign_keys d' = foreign_keys d ->
  referential strict d -> referential strict d'.
Proof.
  intros Hn Hr Hf [Hfk Ho]. split.
  - now rewrite Hf.
  - unfold no_orphans, is_orphan, getNote in *. now rewrite Hr, Hn.
Qed.

Lemma referential_upsertNote (strict : bool) (d : t) (n : StoredNote.t) (now : string) :
  referential strict d -> referential strict (upsertNote d n now).
Proof.
  intros [Hfk Ho]. split; [exact Hfk|].
  unfold no_orphans in *. simpl recordings.
  rewrite forallb_forall in *. intros r Hr. specialize (Ho r Hr).
  unfold is_orphan in *. destruct (StoredRecording.note_id r) as [nid|]; [|reflexivity].
  destruct (strict || negb (nid =? "")); [|reflexivity]. simpl in *.
  apply negb_true_iff in Ho. apply negb_true_iff.
  now apply getNote_upsertNote_stays.
Qed.

Lemma in_upsert_recording_rows (e x : StoredRecording.t) (rows : list StoredRecording.t) :
  In x (upsert_recording_rows e rows) ->
  In x rows \/ StoredRecording.note_id x = StoredRecording.note_id e.
Proof.
  induction rows as [|r rest IH]; simpl.
  - intros [<-|[]]. now right.
  - destruct (StoredRecording.id r =? StoredRecording.id e); simpl.
    + intros [<-|H]; [now right|now left; right].
    + intros [<-|H]; [now left; left|]. destruct (IH H); [left; now right|now right].
Qed.

Lemma referential_upsertRecording (strict : bool) (d d' : t) (r : StoredRecording.t)
  (now : string) :
  referential strict d ->
  (Js.truthy (StoredRecording.note_id r) = true ->
   is_none (getNote d (Js.nullish (StoredRecording.note_id r) "")) = false) ->
  upsertRecording d r now = Ok d' -> referential strict d'.
Proof.
  intros [Hfk Ho] Hguard Hu. unfold upsertRecording in Hu.
  destruct (references_note d (StoredRecording.note_id r)) eqn:Href; [|discriminate].
  inversion Hu; subst d'; clear Hu. split; [exact Hfk|].
  unfold no_orphans in *. simpl recordings.
  rewrite forallb_forall in *. intros x Hx.
  apply in_upsert_recording_rows in Hx. destruct Hx as [Hx|Hx].
  - apply (Ho x Hx).
  - simpl in Hx. unfold is_orphan. rewrite Hx.
    destruct (StoredRecording.note_id r) as [nid|]; [|reflexivity].
    change (getNote (with_recordings d _) nid) with (getNote d nid).
    destruct strict; simpl.
    + simpl in Href. rewrite (Hfk eq_refl) in Href. simpl in Href.
      unfold is_none. now destruct (getNote d nid).
    + destruct (nid =? "") eqn:En; [reflexivity|]. simpl.
      simpl in Hguard. rewrite En in Hguard. now rewrite (Hguard eq_refl).
Qed.

Lemma sync_pages_referential (strict : bool) (clk : nat -> string)
  (client : FellowClient.t) (fuel : nat) (options : SyncOptions.t) :
  triple (fun w => referential strict (db w)) (sync_pages clk client fuel options)
         (fun _ w => referential strict (db w)) (fun w => referential strict (db w)).
Proof.
  apply (sync_pages_keeps clk client (referential strict)).
  - intros d n now. apply referential_upsertNote.
  - intros d i. now apply referential_same_tables.
  - intros d x d' Hd Hx. unfold insertActionItem in Hx.
    destruct (references_note d _); inversion Hx; subst.
    revert Hd. now apply referential_same_tables.
  - intros d i. now apply referential_same_tables.
  - intros d i e d' Hd Hx. unfold insertParticipant in Hx.
    destruct (has_participant d i e); [inversion Hx; subst; exact Hd|].
    destruct (references_note d _); inversion Hx; subst.
    revert Hd. now apply referential_same_tables.
  - intros d r now d'. apply referential_upsertRecording.
Qed.

Lemma syncNotesFromApi_referential (strict : bool) (clk : nat -> string)
  (client : FellowClient.t) (fuel : nat) (options : SyncOptions.t) (w : World) :
  referential strict (db w) ->
  leaves (syncNotesFromApi clk client fuel options w) (referential strict).
Proof.
  intros Hw. pose proof (sync_pages_referential strict clk client fuel options w Hw) as H.
  unfold syncNotesFromApi, bind, leaves.
  destruct (sync_pages clk client fuel options w) as [r mid|e w'|]; simpl in *.
  - revert H. now apply referential_same_tables.
  - exact H.
  - exact H.
Qed.

(** C2. A recording whose [note_id] names a note that is not in the store is
    skipped by the recordings loop: no statement runs, the store and the
    counts stay as they are.  Hence a sync pass, full or incremental, whether
    it returns, throws or is still asking for pages, never leaves a recording
    in the store whose note is missing, provided there was none to begin
    with.  A [note_id] names a note when it
    is truthy, as in the source's guard; with foreign keys enforced, as
    [better-sqlite3] does, the same holds for the empty string as well
    ([strict]). *)
Theorem sync_never_persists_orphan_recordings
  (clk : nat -> string) (client : FellowClient.t) (strict : bool)
  (fuel : nat) (options : SyncOptions.t) (w : World)
  (Hfk : strict = true -> foreign_keys (db w) = true)
  (Hclean : no_orphans strict (db w)) :
  (forall recording result st,
      Js.truthy (Recording.note_id recording) = true ->
      getNote (db st) (Js.nullish (Recording.note_id recording) "") = None ->
      sync_recording clk recording result st = Returned result st)
  /\ leaves (syncNotesFromApi clk client fuel options w) (no_orphans strict)
  /\ leaves (performIncrementalSync clk client fuel w) (no_orphans strict).
Proof.
  split; [|split].
  - intros recording result st Ht Hn.
    unfold sync_recording, bind, query. rewrite Ht, Hn. reflexivity.
  - pose proof (syncNotesFromApi_referential strict clk client fuel options w
                  (conj Hfk Hclean)) as H.
    unfold leaves in *. destruct (syncNotesFromApi clk client fuel options w); try apply H; exact H.
  - unfold performIncrementalSync, bind, query.
    destruct (negb (Js.truthy (getLastSyncTime (db w)))).
    + pose proof (syncNotesFromApi_referential strict clk client fuel SyncOptions.default w
                    (conj Hfk Hclean)) as H.
      unfold leaves in *.
      destruct (syncNotesFromApi clk client fuel SyncOptions.default w); try apply H; exact H.
    + pose proof (syncNotesFromApi_referential strict clk client fuel
                    (SyncOptions.mk (getLastSyncTime (db w)) None) w
                    (conj Hfk Hclean)) as H.
      unfold leaves in *.
      destruct (syncNotesFromApi clk client fuel _ w); try apply H; exact H.
Qed.

(** The remote lists recording [r2] of a note [ghost] it does not list: the
    pass stores [r1], skips [r2] and leaves no orphan. *)
Lemma sync_never_persists_orphan_recordings_witness :
  syncNotesFromApi clock two_page_client 5 SyncOptions.default fresh
  = Returned (SyncResult.mk 2 1 2 3) two_page_world
  /\ is_none (getRecording (db two_page_world) "r1") = false
  /\ getRecording (db two_page_world) "r2" = None
  /\ leaves (syncNotesFromApi clock two_page_client 5 SyncOptions.default fresh)
            (no_orphans true).
Proof.
  split; [vm_compute; reflexivity|].
  split; [reflexivity|]. split; [reflexivity|].
  exact (proj1 (proj2 (sync_never_persists_orphan_recordings clock two_page_client true 5
                         SyncOptions.default fresh (fun _ => eq_refl) eq_refl))).
Defined.

End Orphans.

(** ** The count of participants *)

Section ParticipantsCount.
Import FellowDatabase Sync Spec Fixtures.

Variable clk : nat -> string.
Variable client : FellowClient.t.
Variable exact : bool.

Lemma count_rel_refl (n : nat) : count_rel exact n n.
Proof. unfold count_rel. destruct exact; lia. Qed.

Lemma advances_ret (r : SyncResult.t) : advances exact (ret r) r.
Proof. intros w. simpl. apply count_rel_refl. Qed.

Lemma advances_bind (m : M SyncResult.t) (k : SyncResult.t -> M SyncResult.t)
  (r : SyncResult.t) :
  advances exact m r -> (forall r1, advances exact (k r1) r1) ->
  advances exact (bind m k) r.
Proof.
  intros Hm Hk w. unfold bind. specialize (Hm w).
  destruct (m w) as [r1 w1|e w1|]; [|exact I|exact I].
  specialize (Hk r1 w1). destruct (k r1 w1) as [r2 w2|e w2|]; [|exact I|exact I].
  unfold count_rel in *. destruct exact; lia.
Qed.

Lemma advances_for_of {A} (xs : list A) (body : A -> SyncResult.t -> M SyncResult.t) :
  (forall x st, In x xs -> advances exact (body x st) st) ->
  forall st, advances exact (for_of xs body st) st.
Proof.
  induction xs as [|x rest IH]; intros Hbody st; simpl.
  - apply advances_ret.
  - apply advances_bind.
    + apply Hbody. now left.
    + intros r1. apply IH. intros y st' Hy. apply Hbody. now right.
Qed.

(** A step that leaves counter and count alone. *)
Lemma advances_frame (m : M SyncResult.t) (r : SyncResult.t) :
  (forall w, match m w with
             | Returned r' w' =>
                 participants_inserted (db w') = participants_inserted (db w)
                 /\ SyncResult.participants_synced r' = SyncResult.participants_synced r
             | _ => True
             end) ->
  advances exact m r.
Proof.
  intros H w. specialize (H w). destruct (m w) as [r' w'|e w'|]; try exact I.
  destruct H as [-> ->]. apply count_rel_refl.
Qed.

Lemma insertParticipant_cases (d d' : t) (nid email : string) :
  insertParticipant d nid email = Ok d' ->
  (has_participant d nid email = true
   /\ d' = with_participants d (participants d) (S (participants_seq d))
             (participants_inserted d))
  \/ (has_participant d nid email = false
      /\ d' = with_participants d
                (participants d ++ [StoredParticipant.mk (S (participants_seq d)) nid email])%list
                (S (participants_seq d)) (S (participants_inserted d))).
Proof.
  unfold insertParticipant. destruct (has_participant d nid email).
  - intros H. inversion H. now left.
  - destruct (references_note d (Some nid)); [|discriminate].
    intros H. inversion H. now right.
Qed.

Lemma no_row_has_participant (d : t) (nid email : string) (rest : list string) :
  no_row d nid (email :: rest) -> has_participant d nid email = false.
Proof.
  intros H. unfold has_participant.
  destruct (existsb _ (participants d)) eqn:E; [|reflexivity].
  apply existsb_exists in E. destruct E as (p & Hp & Hm).
  apply andb_true_iff in Hm. destruct Hm as [Hn He].
  apply String.eqb_eq in Hn. apply String.eqb_eq in He.
  exfalso. apply (H p Hp Hn). left. now symmetry.
Qed.

(** The participants loop: every kept attendee adds one to the count and at
    most one row; exactly one row when the trimmed emails are pairwise
    different and none of them is in the table for this note. *)
Lemma store_participant_loop (nid : string) (attendees : list string) :
  forall (r : SyncResult.t) (w : World),
    (exact = true ->
     NoDup (map Js.trim (filter kept attendees))
     /\ no_row (db w) nid (map Js.trim (filter kept attendees))) ->
    match for_of attendees (store_participant nid) r w with
    | Returned r' w' =>
        count_rel exact
          (participants_inserted (db w') + SyncResult.participants_synced r)
          (participants_inserted (db w) + SyncResult.participants_synced r')
    | _ => True
    end.
Proof.
  induction attendees as [|a rest IH]; intros r w Hpre; simpl.
  - apply count_rel_refl.
  - unfold bind at 1. unfold store_participant at 1. fold (kept a).
    simpl filter in Hpre. destruct (kept a) eqn:K.
    + unfold bind, run_checked.
      destruct (insertParticipant (db w) nid (Js.trim a)) as [d'|e] eqn:Ins; [|exact I].
      simpl.
      apply insertParticipant_cases in Ins.
      assert (Hnext : exact = true ->
                NoDup (map Js.trim (filter kept rest))
                /\ no_row d' nid (map Js.trim (filter kept rest))).
      { intros Hx. destruct (Hpre Hx) as [Hnd Hrow]. simpl in Hnd, Hrow.
        inversion Hnd as [|? ? Hnotin Hnd']; subst. split; [assumption|].
        destruct Ins as [[Hhas _]|[_ ->]].
        - rewrite (no_row_has_participant _ _ _ _ Hrow) in Hhas. discriminate.
        - intros p Hp Hn Hin. simpl in Hp. apply in_app_or in Hp.
          destruct Hp as [Hp|[<-|[]]].
          + apply (Hrow p Hp Hn). now right.
          + simpl in Hin. contradiction. }
      specialize (IH (SyncResult.incr_participants r) (mkWorld d' (ticks w)) Hnext).
      destruct (for_of rest (store_participant nid) (SyncResult.incr_participants r)
                       (mkWorld d' (ticks w))) as [r' w'|e w'|]; try exact I.
      simpl in IH. unfold count_rel in *.
      destruct exact.
      * destruct Ins as [[Hhas _]|[_ ->]].
        -- destruct (Hpre eq_refl) as [_ Hrow]. simpl in Hrow.
           rewrite (no_row_has_participant _ _ _ _ Hrow) in Hhas. discriminate.
        -- simpl in IH. lia.
      * destruct Ins as [[_ ->]|[_ ->]]; simpl in IH; lia.
    + simpl. apply IH. intros Hx. destruct (Hpre Hx) as [Hnd Hrow]. split; assumption.
Qed.

Lemma store_participants_advances (note : Note.t) (r : SyncResult.t) :
  (exact = true -> NoDup (attendee_emails note)) ->
  advances exact (store_participants note r) r.
Proof.
  intros Hgood w. unfold store_participants.
  unfold attendee_emails in Hgood.
  destruct (Note.event_attendees note) as [attendees|]; [|apply count_rel_refl].
  destruct (0 <? List.length attendees)%nat; [|apply count_rel_refl].
  unfold bind, run.
  pose proof (store_participant_loop (Note.id note) attendees r
                (mkWorld (clearParticipantsForNote (db w) (Note.id note)) (ticks w))) as H.
  simpl in H. apply H. intros Hx. split; [now apply Hgood|].
  intros p Hp Hn _. simpl in Hp. apply filter_In in Hp. destruct Hp as [_ Hp].
  apply negb_true_iff in Hp. apply String.eqb_neq in Hp. contradiction.
Qed.

Lemma store_action_item_frame (nid : string) (item : ParsedActionItem.t)
  (r : SyncResult.t) :
  advances exact (store_action_item clk nid item r) r.
Proof.
  apply advances_frame. intros w.
  unfold store_action_item, bind, new_Date_toISOString, run_checked.
  cbn [db ticks]. unfold insertActionItem. cbn [StoredActionItem.note_id].
  destruct (references_note (db w) (Some nid)); simpl; auto.
Qed.

Lemma store_action_items_frame (note : Note.t) (r : SyncResult.t) :
  advances exact (store_action_items clk note r) r.
Proof.
  unfold store_action_items.
  destruct (Js.truthy (Note.content_markdown note)); [|apply advances_ret].
  intros w. unfold bind at 1. unfold run. unfold bind at 1. unfold await.
  destruct (Extractor.extractActionItems _) as [items|e]; [|exact I].
  pose proof (advances_for_of items (store_action_item clk (Note.id note))
                (fun x st _ => store_action_item_frame (Note.id note) x st) r
                (mkWorld (clearActionItemsForNote (db w) (Note.id note)) (ticks w))) as H.
  exact H.
Qed.

Lemma sync_note_advances (note : Note.t) (r : SyncResult.t) :
  (exact = true -> NoDup (attendee_emails note)) ->
  advances exact (sync_note clk note r) r.
Proof.
  intros Hgood w. unfold sync_note. unfold bind at 1.
  unfold store_note, bind, new_Date_toISOString, run. simpl.
  set (w1 := mkWorld _ _).
  pose proof (advances_bind (store_action_items clk note (SyncResult.incr_notes r))
                (store_participants note) (SyncResult.incr_notes r)
                (store_action_items_frame note (SyncResult.incr_notes r))
                (fun r1 => store_participants_advances note r1 Hgood) w1) as H.
  unfold bind in H. exact H.
Qed.

Lemma sync_recording_frame (recording : Recording.t) (r : SyncResult.t) :
  advances exact (sync_recording clk recording r) r.
Proof.
  apply advances_frame. intros w. unfold sync_recording, bind, query, ret.
  destruct (Js.truthy (Recording.note_id recording) && _); [auto|].
  unfold new_Date_toISOString, run_checked, upsertRecording.
  cbn [db ticks StoredRecording.note_id].
  destruct (references_note (db w) (Recording.note_id recording)); simpl; auto.
Qed.

Hypothesis Hclient : exact = true -> attendees_listed_once client.

Lemma notes_loop_advances (fuel : nat) :
  forall (since cursor : option string) (r : SyncResult.t),
    advances exact (notes_loop clk client fuel since cursor r) r.
Proof.
  induction fuel as [|fuel IH]; intros since cursor r; simpl.
  - intros w. exact I.
  - intros w. unfold bind at 1. unfold await.
    destruct (FellowClient.listNotes client _) as [page|e] eqn:L; [|exact I].
    apply (advances_bind (for_of (Page.data page) (sync_note clk) r)
             (fun result => if Js.truthy (Page.cursor page)
                            then notes_loop clk client fuel since (Page.cursor page) result
                            else ret result)).
    + apply advances_for_of. intros note st Hin. apply sync_note_advances.
      intros Hx. apply (Hclient Hx _ _ _ L Hin).
    + intros r1. destruct (Js.truthy (Page.cursor page)); [apply IH|apply advances_ret].
Qed.

Lemma recordings_loop_advances (fuel : nat) :
  forall (since : option string) (tr : bool) (cursor : option string) (r : SyncResult.t),
    advances exact (recordings_loop clk client fuel since tr cursor r) r.
Proof.
  induction fuel as [|fuel IH]; intros since tr cursor r; simpl.
  - intros w. exact I.
  - intros w. unfold bind at 1. unfold await.
    destruct (FellowClient.listRecordings client _) as [page|e]; [|exact I].
    apply (advances_bind (for_of (Page.data page) (sync_recording clk) r)
             (fun result => if Js.truthy (Page.cursor page)
                            then recordings_loop clk client fuel since tr (Page.cursor page) result
                            else ret result)).
    + apply advances_for_of. intros rec st _. apply sync_recording_frame.
    + intros r1. destruct (Js.truthy (Page.cursor page)); [apply IH|apply advances_ret].
Qed.

Lemma syncNotesFromApi_advances (fuel : nat) (options : SyncOptions.t) :
  advances exact (syncNotesFromApi clk client fuel options) SyncResult.zero.
Proof.
  unfold syncNotesFromApi. apply advances_bind.
  - unfold sync_pages. apply advances_bind.
    + apply notes_loop_advances.
    + intros r1. apply recordings_loop_advances.
  - intros r1. apply advances_frame. intros w. simpl. auto.
Qed.

End ParticipantsCount.

Section ParticipantsSynced.
Import FellowDatabase Sync Spec Fixtures.

(** C9, as stated, fails: the only note lists [a@x.com] twice.  The second
    [INSERT OR IGNORE] inserts nothing, yet the pass reports 2 participants:
    one row was inserted and the table holds 1 row. *)
Lemma participants_synced_exceeds_rows_inserted :
  exists result w',
    syncNotesFromApi clock repeated_attendee_client 5 SyncOptions.default fresh
    = Returned result w'
    /\ SyncResult.participants_synced result = 2
    /\ participants_inserted (db w') - participants_inserted (db fresh) = 1
    /\ List.length (participants (db w')) = 1
    /\ SyncResult.participants_synced result
       <> participants_inserted (db w') - participants_inserted (db fresh).
Proof.
  eexists. eexists. split; [vm_compute; reflexivity|].
  repeat split; try reflexivity. simpl. discriminate.
Qed.

(** C9, amended.  For every sync pass that returns, the number of
    participant rows inserted during the pass is at most the [participants]
    field of the result, and equals it when no note of the pass lists the same
    trimmed email twice, whatever rows were stored for the note before (they
    are deleted first). *)
Theorem participants_synced_bounds_rows_inserted
  (clk : nat -> string) (client : FellowClient.t) (fuel : nat)
  (options : SyncOptions.t) (w w' : World) (result : SyncResult.t)
  (Hret : syncNotesFromApi clk client fuel options w = Returned result w') :
  participants_inserted (db w') - participants_inserted (db w)
  <= SyncResult.participants_synced result
  /\ (attendees_listed_once client ->
      SyncResult.participants_synced result
      = participants_inserted (db w') - participants_inserted (db w)).
Proof.
  split.
  - pose proof (syncNotesFromApi_advances clk client false
                  (fun H => False_ind _ (Bool.diff_false_true H)) fuel options w) as H.
    rewrite Hret in H. simpl in H. lia.
  - intros Honce.
    pose proof (syncNotesFromApi_advances clk client true (fun _ => Honce)
                  fuel options w) as H.
    rewrite Hret in H. simpl in H. lia.
Qed.

Lemma two_page_client_listed_once : attendees_listed_once two_page_client.
Proof.
  intros o page note Hpage Hin. simpl in Hpage.
  destruct (ListNotesOptions.cursor o); inversion Hpage; subst; simpl in Hin;
    destruct Hin as [<-|[]]; vm_compute;
    repeat (constructor; [simpl; intuition discriminate|]); constructor.
Qed.

(** Two notes with three attendees in all, none repeated: three rows. *)
Lemma participants_synced_bounds_rows_inserted_witness :
  participants_inserted (db two_page_world) - participants_inserted (db fresh) <= 3
  /\ 3 = participants_inserted (db two_page_world) - participants_inserted (db fresh).
Proof.
  assert (E : syncNotesFromApi clock two_page_client 5 SyncOptions.default fresh
              = Returned (SyncResult.mk 2 1 2 3) two_page_world)
    by (vm_compute; reflexivity).
  destruct (participants_synced_bounds_rows_inserted clock two_page_client 5
              SyncOptions.default fresh two_page_world (SyncResult.mk 2 1 2 3) E)
    as [Hle Heq].
  split; [exact Hle|exact (Heq two_page_client_listed_once)].
Defined.

End ParticipantsSynced.

(** ** Strings *)

Section StringFacts.

Lemma append_assoc (a b c : string) : (a ++ b) ++ c = a ++ b ++ c.
Proof. induction a as [|x a IH]; simpl; [reflexivity|now rewrite IH]. Qed.

Lemma append_empty_r (a : string) : a ++ "" = a.
Proof. induction a as [|x a IH]; simpl; [reflexivity|now rewrite IH]. Qed.

Lemma length_append (a b : string) :
  String.length (a ++ b) = String.length a + String.length b.
Proof. induction a as [|x a IH]; simpl; [reflexivity|now rewrite IH]. Qed.

Lemma take_drop (k : nat) (s : string) : Js.take k s ++ Js.drop k s = s.
Proof.
  revert s. induction k as [|k IH]; intros [|c s]; simpl; try reflexivity.
  now rewrite IH.
Qed.

Lemma take_append_exact (w rest : string) : Js.take (String.length w) (w ++ rest) = w.
Proof. induction w as [|c w IH]; simpl; [now destruct rest|now rewrite IH]. Qed.

Lemma take_prefix (w rest : string) :
  Js.take (String.length (w ++ rest) - String.length rest) (w ++ rest) = w.
Proof.
  rewrite length_append.
  replace (String.length w + String.length rest - String.length rest)
    with (String.length w) by lia.
  apply take_append_exact.
Qed.

Lemma all_append (p : Regex.charset) (a b : string) :
  Regex.all p (a ++ b) = Regex.all p a && Regex.all p b.
Proof.
  induction a as [|x a IH]; simpl; [reflexivity|].
  now rewrite IH, andb_assoc.
Qed.

Lemma take_within_span (p : Regex.charset) (k : nat) (s : string) :
  k <= Regex.span p s ->
  Regex.all p (Js.take k s) = true /\ String.length (Js.take k s) = k.
Proof.
  revert s. induction k as [|k IH]; intros s Hk.
  - destruct s; simpl; auto.
  - destruct s as [|c s]; simpl in *; [lia|].
    destruct (p c) eqn:Pc; [|lia].
    destruct (IH s) as [Ha Hl]; [lia|].
    simpl. rewrite ?Pc, Ha, Hl. auto.
Qed.

End StringFacts.

(** ** The matcher *)

Section RegexFacts.
Import Regex.

Lemma in_counts (lo top k : nat) (greedy : bool) :
  In k (counts lo top greedy) -> lo <= k <= top.
Proof.
  unfold counts. intros H.
  assert (H' : In k (seq lo (S top - lo))).
  { destruct greedy; [now apply in_rev|assumption]. }
  apply in_seq in H'. lia.
Qed.

(** Every way [run] reports splits the input into a text of the pattern and
    the rest. *)
Lemma run_sound (r : Regex.t) :
  forall s caps rest caps',
    In (rest, caps') (run r s caps) -> exists w, s = w ++ rest /\ lang r w.
Proof.
  induction r as [|p|p lo hi greedy|a IHa b IHb|a IHa b IHb|i r IH];
    intros s caps rest caps' H; simpl in H.
  - destruct H as [H|[]]. inversion H; subst. exists "". simpl. auto.
  - destruct s as [|c s]; [contradiction|].
    destruct (p c) eqn:Pc; [|contradiction].
    destruct H as [H|[]]. inversion H; subst.
    exists (String c ""). simpl. split; [reflexivity|]. exists c. auto.
  - apply in_map_iff in H. destruct H as (k & Hk & Hin).
    inversion Hk; subst. apply in_counts in Hin.
    assert (Hspan : k <= span p s).
    { destruct hi as [h|]; [|lia]. pose proof (Nat.le_min_r h (span p s)). lia. }
    destruct (take_within_span p k s Hspan) as [Hall Hlen].
    exists (Js.take k s). split; [now rewrite take_drop|].
    simpl. rewrite Hall, Hlen. repeat split; try lia.
    destruct hi as [h|]; [|exact I]. pose proof (Nat.le_min_l h (span p s)). lia.
  - apply in_flat_map in H. destruct H as ([mid capsm] & Ha & Hb). simpl in Hb.
    destruct (IHa _ _ _ _ Ha) as (wa & -> & La).
    destruct (IHb _ _ _ _ Hb) as (wb & -> & Lb).
    exists (wa ++ wb). split; [now rewrite append_assoc|].
    simpl. exists wa, wb. auto.
  - apply in_app_or in H. destruct H as [H|H].
    + destruct (IHa _ _ _ _ H) as (w & -> & L). exists w. simpl. auto.
    + destruct (IHb _ _ _ _ H) as (w & -> & L). exists w. simpl. auto.
  - apply in_map_iff in H. destruct H as ([rest0 caps0] & Heq & Hin).
    simpl in Heq. inversion Heq; subst.
    destruct (IH _ _ _ _ Hin) as (w & -> & L). exists w. auto.
Qed.

(** Groups that are set stay set. *)
Lemma run_keeps_captures (r : Regex.t) :
  forall s caps rest caps' i,
    In (rest, caps') (run r s caps) -> caps i <> None -> caps' i <> None.
Proof.
  induction r as [|p|p lo hi greedy|a IHa b IHb|a IHa b IHb|j r IH];
    intros s caps rest caps' i H Hset; simpl in H.
  - destruct H as [H|[]]. now inversion H; subst.
  - destruct s as [|c s]; [contradiction|].
    destruct (p c); [|contradiction]. destruct H as [H|[]]. now inversion H; subst.
  - apply in_map_iff in H. destruct H as (k & Hk & _). now inversion Hk; subst.
  - apply in_flat_map in H. destruct H as ([mid capsm] & Ha & Hb). simpl in Hb.
    eapply IHb; [exact Hb|]. eapply IHa; [exact Ha|exact Hset].
  - apply in_app_or in H. destruct H as [H|H]; [eapply IHa|eapply IHb]; eauto.
  - apply in_map_iff in H. destruct H as ([rest0 caps0] & Heq & Hin).
    simpl in Heq. inversion Heq; subst. unfold set_capture.
    destruct (Nat.eqb i j); [discriminate|]. eapply IH; eauto.
Qed.

Lemma run_binds (r : Regex.t) :
  forall s caps rest caps' i,
    binds r i = true -> In (rest, caps') (run r s caps) -> caps' i <> None.
Proof.
  induction r as [|p|p lo hi greedy|a IHa b IHb|a IHa b IHb|j r IH];
    intros s caps rest caps' i Hb H; simpl in Hb; try discriminate; simpl in H.
  - apply in_flat_map in H. destruct H as ([mid capsm] & Ha & Hr). simpl in Hr.
    apply orb_true_iff in Hb. destruct Hb as [Hb|Hb].
    + eapply run_keeps_captures; [exact Hr|]. eapply IHa; eauto.
    + eapply IHb; eauto.
  - apply andb_true_iff in Hb. destruct Hb as [Hba Hbb].
    apply in_app_or in H. destruct H as [H|H]; [eapply IHa|eapply IHb]; eauto.
  - apply in_map_iff in H. destruct H as ([rest0 caps0] & Heq & Hin).
    simpl in Heq. inversion Heq; subst. unfold set_capture.
    destruct (Nat.eqb i j) eqn:E; [discriminate|].
    simpl in Hb. eapply IH; eauto.
Qed.

(** A successful [search] is the first way of [run] at some suffix. *)
Lemma search_some (r : Regex.t) (s : string) (m : captures) :
  search r s = Some m ->
  exists suffix rest more, run r suffix no_captures = (rest, m) :: more.
Proof.
  induction s as [|c s IH]; simpl.
  - destruct (run r "" no_captures) as [|[rest caps] more] eqn:R; [discriminate|].
    intros H. inversion H; subst. now exists "", rest, more.
  - destruct (run r (String c s) no_captures) as [|[rest caps] more] eqn:R.
    + apply IH.
    + intros H. inversion H; subst. now exists (String c s), rest, more.
Qed.

Lemma match_start_some (r : Regex.t) (s : string) (m : captures) :
  match_start r s = Some m -> exists rest more, run r s no_captures = (rest, m) :: more.
Proof.
  unfold match_start.
  destruct (run r s no_captures) as [|[rest caps] more]; [discriminate|].
  intros H. inversion H; subst. now exists rest, more.
Qed.

(** When a pattern ends in a group, a match sets the group to a text of the
    group's pattern. *)
Lemma run_last_group (k g : Regex.t) (i : nat) (s rest : string) (caps m : captures) :
  In (rest, m) (run (Seq k (Grp i g)) s caps) ->
  exists w, m i = Some w /\ lang g w.
Proof.
  simpl. intros H. apply in_flat_map in H. destruct H as ([mid capsm] & _ & Hg).
  simpl in Hg. apply in_map_iff in Hg. destruct Hg as ([rest0 caps0] & Heq & Hin).
  simpl in Heq. inversion Heq; subst.
  destruct (run_sound _ _ _ _ _ Hin) as (w & -> & L).
  exists w. split; [|exact L].
  unfold set_capture. rewrite Nat.eqb_refl. now rewrite take_prefix.
Qed.

End RegexFacts.

(** ** Due dates *)

Section DueDates.
Import Regex Extractor Spec.

Lemma chr_eq (a c : ascii) : chr a c = true -> c = a.
Proof. unfold chr. intros H. apply Ascii.eqb_eq in H. now symmetry. Qed.

Lemma digit_not (sep : ascii) (c : ascii) :
  digit sep = false -> digit c = true -> Ascii.eqb c sep = false.
Proof.
  intros Hs Hc. destruct (Ascii.eqb c sep) eqn:E; [|reflexivity].
  apply Ascii.eqb_eq in E. subst. congruence.
Qed.

Lemma split_digits (sep : ascii) (a : string) :
  digit sep = false -> all digit a = true -> Js.split sep a = [a].
Proof.
  intros Hs. induction a as [|c a IH]; simpl; [reflexivity|].
  intros H. apply andb_true_iff in H. destruct H as [Hc Ha].
  now rewrite (digit_not sep c Hs Hc), (IH Ha).
Qed.

Lemma split_digits_then (sep : ascii) (a rest : string) :
  digit sep = false -> all digit a = true ->
  Js.split sep (a ++ String sep rest) = a :: Js.split sep rest.
Proof.
  intros Hs. induction a as [|c a IH]; simpl.
  - intros _. now rewrite Ascii.eqb_refl.
  - intros H. apply andb_true_iff in H. destruct H as [Hc Ha].
    now rewrite (digit_not sep c Hs Hc), (IH Ha).
Qed.

Lemma iso_digits_shape (w : string) : lang re_iso_digits w -> due_shape w.
Proof.
  unfold re_iso_digits, times. cbn [lang lit]. intros (y & r1 & -> & (Hy & Hy1 & Hy2) & d1 & r2 & -> & (c1 & -> & Hc1)
                 & m & r3 & -> & (Hm & Hm1 & Hm2) & d2 & dd & -> & (c2 & -> & Hc2)
                 & (Hd & Hd1 & Hd2)).
  apply chr_eq in Hc1. apply chr_eq in Hc2. subst.
  exists y, m, dd. repeat split; try assumption; lia.
Qed.

Lemma padStart_digits (a : string) :
  all digit a = true -> 1 <= String.length a <= 2 ->
  all digit (Js.padStart 2 "0" a) = true /\ String.length (Js.padStart 2 "0" a) = 2.
Proof.
  intros Ha Hl. unfold Js.padStart.
  destruct a as [|c1 [|c2 [|c3 a]]]; simpl in *; try lia.
  - split; [|reflexivity]. exact Ha.
  - split; [|reflexivity]. exact Ha.
Qed.

(** The US branch never raises and produces a text of the shape. *)
Lemma us_digits_normalise (w : string) :
  lang re_us_digits w -> exists d, normalise_us w = Ok d /\ due_shape d.
Proof.
  unfold re_us_digits, times. cbn [lang lit]. intros (a & r1 & -> & (Ha & Ha1 & Ha2) & d1 & r2 & -> & (c1 & -> & Hc1)
                 & b & r3 & -> & (Hb & Hb1 & Hb2) & d2 & c & -> & (c2 & -> & Hc2)
                 & (Hc & Hcl1 & Hcl2)).
  apply chr_eq in Hc1. apply chr_eq in Hc2. subst.
  unfold normalise_us. simpl append.
  rewrite (split_digits_then "/" a _ eq_refl Ha).
  rewrite (split_digits_then "/" b _ eq_refl Hb).
  rewrite (split_digits "/" c eq_refl Hc).
  cbn [nth_error defined Extractor.bind].
  destruct (padStart_digits a Ha (conj Ha1 Ha2)) as [Pa La].
  destruct (padStart_digits b Hb (conj Hb1 Hb2)) as [Pb Lb].
  eexists. split; [reflexivity|].
  exists (if (String.length c =? 2)%nat then "20" ++ c else c),
         (Js.padStart 2 "0" a), (Js.padStart 2 "0" b).
  split; [reflexivity|].
  destruct (Nat.eqb_spec (String.length c) 2) as [E|E].
  - repeat split; try assumption; simpl; try lia.
  - repeat split; try assumption; lia.
Qed.

Lemma shape_not_empty (d : string) : due_shape d -> Js.truthy (Some d) = true.
Proof.
  intros (y & m & dd & -> & _ & _ & _ & Hy & _). simpl.
  destruct y; simpl in *; [lia|reflexivity].
Qed.

Lemma search_iso_date (text : string) (m : captures) :
  search re_iso_date text = Some m -> exists d, m 1 = Some d /\ due_shape d.
Proof.
  intros H. apply search_some in H. destruct H as (suffix & rest & more & R).
  assert (Hin : In (rest, m) (run re_iso_date suffix no_captures))
    by (rewrite R; now left).
  unfold re_iso_date in Hin. apply run_last_group in Hin.
  destruct Hin as (w & Hw & L). exists w. split; [exact Hw|].
  now apply iso_digits_shape.
Qed.

Lemma search_us_date (text : string) (m : captures) :
  search re_us_date text = Some m ->
  exists w d, m 1 = Some w /\ normalise_us w = Ok d /\ due_shape d.
Proof.
  intros H. apply search_some in H. destruct H as (suffix & rest & more & R).
  assert (Hin : In (rest, m) (run re_us_date suffix no_captures))
    by (rewrite R; now left).
  unfold re_us_date in Hin. apply run_last_group in Hin.
  destruct Hin as (w & Hw & L).
  destruct (us_digits_normalise w L) as (d & Hd & Hs). now exists w, d.
Qed.

(** [parseAssigneeAndDueDate] never raises; its due date is absent exactly
    when neither date pattern occurs in the text, and has the shape
    otherwise. *)
Lemma parseAssigneeAndDueDate_total (text : string) :
  exists assignee dueDate,
    parseAssigneeAndDueDate text = Ok (assignee, dueDate)
    /\ (forall d, dueDate = Some d -> due_shape d)
    /\ (dueDate = None <->
        search re_iso_date text = None /\ search re_us_date text = None).
Proof.
  unfold parseAssigneeAndDueDate.
  set (assignee := match search re_mention text with Some m => m 1 | None => None end).
  destruct (search re_iso_date text) as [mi|] eqn:Si.
  - destruct (search_iso_date text mi Si) as (d & Hd & Hs).
    rewrite Hd, (shape_not_empty d Hs). simpl.
    exists assignee, (Some d).
    split; [now destruct (search re_us_date text)|].
    split; [intros d' H; inversion H; now subst|].
    split; [discriminate|intros [H _]; discriminate].
  - simpl. destruct (search re_us_date text) as [mu|] eqn:Su.
    + destruct (search_us_date text mu Su) as (w & d & Hw & Hn & Hs).
      rewrite Hw. simpl. rewrite Hn. simpl.
      exists assignee, (Some d). split; [reflexivity|].
      split; [intros d' H; inversion H; now subst|].
      split; [discriminate|intros [_ H]; discriminate].
    + exists assignee, None. split; [reflexivity|].
      split; [discriminate|]. split; auto.
Qed.

Lemma match_start_binds (r : Regex.t) (s : string) (m : captures) (i : nat) :
  binds r i = true -> match_start r s = Some m -> exists v, m i = Some v.
Proof.
  intros Hb H. apply match_start_some in H. destruct H as (rest & more & R).
  assert (Hin : In (rest, m) (run r s no_captures)) by (rewrite R; now left).
  pose proof (run_binds r s no_captures rest m i Hb Hin) as Hn.
  destruct (m i) as [v|]; [now exists v|congruence].
Qed.

(** A line never makes the extractor raise, and the item it yields, if any,
    has no due date or one of the shape. *)
Lemma extract_line_total (line : string) :
  exists item,
    extract_line line = Ok item
    /\ forall i d, item = Some i -> ParsedActionItem.due_date i = Some d -> due_shape d.
Proof.
  unfold extract_line.
  destruct (match_start re_checkbox line) as [m|] eqn:M1.
  { destruct (match_start_binds re_checkbox line m 1 eq_refl M1) as (v1 & H1).
    destruct (match_start_binds re_checkbox line m 2 eq_refl M1) as (v2 & H2).
    rewrite H1, H2. simpl.
    destruct (parseAssigneeAndDueDate_total (Js.trim v2)) as (a & dd & Hp & Hs & _).
    rewrite Hp. simpl. eexists. split; [reflexivity|].
    intros i d Hi Hd. inversion Hi; subst. simpl in Hd. now apply Hs. }
  destruct (match_start re_action line) as [m|] eqn:M2.
  { destruct (match_start_binds re_action line m 1 eq_refl M2) as (v1 & H1).
    rewrite H1. simpl.
    destruct (parseAssigneeAndDueDate_total (Js.trim v1)) as (a & dd & Hp & Hs & _).
    rewrite Hp. simpl. eexists. split; [reflexivity|].
    intros i d Hi Hd. inversion Hi; subst. simpl in Hd. now apply Hs. }
  destruct (match_start re_mention_line line) as [m|] eqn:M3.
  { destruct (match_start_binds re_mention_line line m 1 eq_refl M3) as (v1 & H1).
    destruct (match_start_binds re_mention_line line m 2 eq_refl M3) as (v2 & H2).
    rewrite H1, H2. simpl.
    destruct (parseAssigneeAndDueDate_total (Js.trim v2)) as (a & dd & Hp & Hs & _).
    rewrite Hp. simpl. eexists. split; [reflexivity|].
    intros i d Hi Hd. inversion Hi; subst. simpl in Hd. now apply Hs. }
  exists None. split; [reflexivity|]. discriminate.
Qed.

Lemma extract_lines_total (lines : list string) :
  exists items,
    extract_lines lines = Ok items
    /\ forall i d, In i items -> ParsedActionItem.due_date i = Some d -> due_shape d.
Proof.
  induction lines as [|line rest (items & Hr & Hs)]; simpl.
  - exists []. split; [reflexivity|]. intros i d [].
  - destruct (extract_line_total line) as (item & Hl & Hi).
    rewrite Hl, Hr. simpl. eexists. split; [reflexivity|].
    intros i d Hin Hd. destruct item as [x|].
    + destruct Hin as [<-|Hin]; [now apply (Hi x d eq_refl)|now apply (Hs i d)].
    + now apply (Hs i d).
Qed.

(** C8, as stated, fails: month 13 and day 45, and the 30th of February, come
    out as due dates. *)
Lemma due_date_is_not_checked_against_the_calendar :
  parseAssigneeAndDueDate "due: 2024-13-45" = Ok (None, Some "2024-13-45")
  /\ valid_calendar_date "2024-13-45" = false
  /\ extractActionItems "- [ ] File the report by 2/30/24"
     = Ok [ParsedActionItem.mk "File the report by 2/30/24" None (Some "2024-02-30") false]
  /\ valid_calendar_date "2024-02-30" = false
  /\ valid_calendar_date "2024-02-29" = true.
Proof. repeat split; vm_compute; reflexivity. Qed.

End DueDates.

(* ------------------------------------------------------------------ *)
(** * Further properties of the store *)

Section StoreLaws.
Import FellowDatabase Sync Spec Laws Fixtures MoreFixtures.

Lemma getRecording_upsert_rows_same (e : StoredRecording.t) (rows : list StoredRecording.t) :
  find (fun r => StoredRecording.id r =? StoredRecording.id e) (upsert_recording_rows e rows)
  = Some (match find (fun r => StoredRecording.id r =? StoredRecording.id e) rows with
          | Some old => recording_on_conflict old e
          | None => e
          end).
Proof.
  induction rows as [|r rest IH]; simpl.
  - now rewrite String.eqb_refl.
  - destruct (StoredRecording.id r =? StoredRecording.id e) eqn:E; simpl; now rewrite E.
Qed.

(** What [getRecording] finds for the id just upserted. *)
Lemma getRecording_upsertRecording_same (d d' : t) (r : StoredRecording.t) (now : string) :
  upsertRecording d r now = Ok d' ->
  exists stored,
    getRecording d' (StoredRecording.id r) = Some stored
    /\ StoredRecording.note_id stored = StoredRecording.note_id r
    /\ StoredRecording.transcript_json stored
       = Sql.COALESCE (StoredRecording.transcript_json r)
           (match getRecording d (StoredRecording.id r) with
            | Some old => StoredRecording.transcript_json old
            | None => None
            end)
    /\ StoredRecording.created_at stored
       = match getRecording d (StoredRecording.id r) with
         | Some old => StoredRecording.created_at old
         | None => StoredRecording.created_at r
         end.
Proof.
  unfold upsertRecording. destruct (references_note d _); [|discriminate].
  intros H. inversion H; subst d'; clear H. unfold getRecording. simpl.
  match goal with
  | |- context [upsert_recording_rows ?e _] =>
      pose proof (getRecording_upsert_rows_same e (recordings d)) as R
  end.
  simpl in R. rewrite R. clear R.
  destruct (find (fun r0 => StoredRecording.id r0 =? StoredRecording.id r) (recordings d))
    as [old|]; eexists; (split; [reflexivity|]); simpl; repeat split.
  now destruct (StoredRecording.transcript_json r).
Qed.

(** X1. Upserting a recording again without a transcript keeps the stored
    transcript, and keeps [created_at]; the link to the note is not protected
    this way: the second upsert's [note_id] is stored even when it is
    absent. *)
Theorem upsertRecording_keeps_transcript
  (d d1 d2 : t) (first second : StoredRecording.t) (t1 t2 : string)
  (Hid : StoredRecording.id second = StoredRecording.id first)
  (H1 : upsertRecording d first t1 = Ok d1)
  (H2 : upsertRecording d1 second t2 = Ok d2) :
  exists s1 s2,
    getRecording d1 (StoredRecording.id first) = Some s1
    /\ getRecording d2 (StoredRecording.id first) = Some s2
    /\ StoredRecording.transcript_json s2
       = Sql.COALESCE (StoredRecording.transcript_json second)
                      (StoredRecording.transcript_json s1)
    /\ (StoredRecording.transcript_json s1 <> None ->
        StoredRecording.transcript_json s2 <> None)
    /\ StoredRecording.created_at s2 = StoredRecording.created_at s1
    /\ StoredRecording.note_id s2 = StoredRecording.note_id second.
Proof.
  destruct (getRecording_upsertRecording_same d d1 first t1 H1) as (s1 & G1 & _ & _ & _).
  destruct (getRecording_upsertRecording_same d1 d2 second t2 H2) as (s2 & G2 & N2 & T2 & C2).
  rewrite Hid in G2, T2, C2. rewrite G1 in T2, C2.
  exists s1, s2. repeat split; try assumption.
  rewrite T2. destruct (StoredRecording.transcript_json second); simpl; congruence.
Qed.

Lemma upsertRecording_keeps_transcript_witness :
  exists s1 s2,
    getRecording db_with_transcript "r1" = Some s1
    /\ getRecording db_transcript_kept "r1" = Some s2
    /\ StoredRecording.transcript_json s2
       = Sql.COALESCE (StoredRecording.transcript_json recording_without_transcript)
                      (StoredRecording.transcript_json s1)
    /\ (StoredRecording.transcript_json s1 <> None ->
        StoredRecording.transcript_json s2 <> None)
    /\ StoredRecording.created_at s2 = StoredRecording.created_at s1
    /\ StoredRecording.note_id s2 = StoredRecording.note_id recording_without_transcript.
Proof.
  exact (upsertRecording_keeps_transcript db_one_note db_with_transcript db_transcript_kept
           recording_with_transcript recording_without_transcript "t1" "t2"
           eq_refl eq_refl eq_refl).
Defined.

(** X2. [created_at] and [id] of a stored note are written once: an upsert
    leaves every other note as it is, and of the note it hits it keeps [id]
    and [created_at] and replaces title, [updated_at], the event fields and
    [call_url] by the new values, absent ones included. *)
Theorem upsertNote_keeps_created_at
  (d : t) (n old : StoredNote.t) (now i : string)
  (Hold : getNote d i = Some old) :
  exists stored,
    getNote (upsertNote d n now) i = Some stored
    /\ StoredNote.id stored = StoredNote.id old
    /\ StoredNote.created_at stored = StoredNote.created_at old
    /\ (i <> StoredNote.id n -> stored = old)
    /\ (i = StoredNote.id n ->
        StoredNote.title stored = StoredNote.title n
        /\ StoredNote.updated_at stored = StoredNote.updated_at n
        /\ StoredNote.event_start stored = StoredNote.event_start n
        /\ StoredNote.event_end stored = StoredNote.event_end n
        /\ StoredNote.event_guid stored = StoredNote.event_guid n
        /\ StoredNote.call_url stored = StoredNote.call_url n
        /\ StoredNote.synced_at stored = now).
Proof.
  destruct (string_dec i (StoredNote.id n)) as [->|Hne].
  - unfold getNote, upsertNote in *. simpl.
    match goal with
    | |- context [upsert_note_rows ?e _] =>
        pose proof (getNote_upsert_rows_same e (notes d)) as R
    end.
    simpl in R. rewrite R, Hold. clear R.
    eexists. split; [reflexivity|]. simpl. repeat split; congruence.
  - exists old. rewrite (getNote_upsertNote_other d n now i Hne).
    repeat split; try assumption; congruence.
Qed.

Lemma upsertNote_keeps_created_at_witness :
  exists stored,
    getNote (upsertNote db_one_note note_abc_partial "t2") "n1" = Some stored
    /\ StoredNote.id stored = StoredNote.id note_abc
    /\ StoredNote.created_at stored = StoredNote.created_at note_abc
    /\ ("n1" <> StoredNote.id note_abc_partial -> stored = note_abc)
    /\ ("n1" = StoredNote.id note_abc_partial ->
        StoredNote.title stored = StoredNote.title note_abc_partial
        /\ StoredNote.updated_at stored = StoredNote.updated_at note_abc_partial
        /\ StoredNote.event_start stored = StoredNote.event_start note_abc_partial
        /\ StoredNote.event_end stored = StoredNote.event_end note_abc_partial
        /\ StoredNote.event_guid stored = StoredNote.event_guid note_abc_partial
        /\ StoredNote.call_url stored = StoredNote.call_url note_abc_partial
        /\ StoredNote.synced_at stored = "t2").
Proof.
  exact (upsertNote_keeps_created_at db_one_note note_abc_partial note_abc "t2" "n1" eq_refl).
Defined.

Lemma map_id_upsert_note_rows (e : StoredNote.t) (rows : list StoredNote.t) :
  map StoredNote.id (upsert_note_rows e rows)
  = if existsb (fun r => StoredNote.id r =? StoredNote.id e) rows
    then map StoredNote.id rows
    else (map StoredNote.id rows ++ [StoredNote.id e])%list.
Proof.
  induction rows as [|r rest IH]; simpl; [reflexivity|].
  destruct (StoredNote.id r =? StoredNote.id e) eqn:E; simpl.
  - reflexivity.
  - rewrite IH. now destruct (existsb _ rest).
Qed.

Lemma existsb_find_id (rows : list StoredNote.t) (i : string) :
  existsb (fun r => StoredNote.id r =? i) rows
  = negb (is_none (find (fun r => StoredNote.id r =? i) rows)).
Proof.
  induction rows as [|r rest IH]; simpl; [reflexivity|].
  destruct (StoredNote.id r =? i); simpl; [reflexivity|exact IH].
Qed.

(** X3. [upsertNote] keeps the primary key of [notes]: ids stay pairwise
    different, the ids already stored stay in place, and the table grows by
    exactly one row when the id is new and not at all when it is stored. *)
Theorem upsertNote_keeps_primary_key (d : t) (n : StoredNote.t) (now : string)
  (Hkey : notes_keyed d) :
  notes_keyed (upsertNote d n now)
  /\ map StoredNote.id (notes (upsertNote d n now))
     = (if is_none (getNote d (StoredNote.id n))
        then map StoredNote.id (notes d) ++ [StoredNote.id n]
        else map StoredNote.id (notes d))%list
  /\ List.length (notes (upsertNote d n now))
     = if is_none (getNote d (StoredNote.id n))
       then S (List.length (notes d)) else List.length (notes d).
Proof.
  unfold notes_keyed, upsertNote, getNote in *. simpl.
  match goal with
  | |- context [upsert_note_rows ?e _] =>
      pose proof (map_id_upsert_note_rows e (notes d)) as M
  end.
  simpl in M. rewrite existsb_find_id in M.
  destruct (is_none (find (fun r => StoredNote.id r =? StoredNote.id n) (notes d))) eqn:F;
    simpl in M.
  - split; [|split].
    + rewrite M. apply NoDup_app; [assumption|repeat constructor; auto| ].
      intros x Hx [<-|[]]. apply in_map_iff in Hx. destruct Hx as (r & Hr & Hin).
      unfold is_none in F.
      destruct (find (fun r0 => StoredNote.id r0 =? StoredNote.id n) (notes d)) eqn:G;
        [discriminate|].
      pose proof (find_none _ _ G r Hin) as K. simpl in K.
      rewrite Hr, String.eqb_refl in K. discriminate.
    + exact M.
    + rewrite <- (length_map StoredNote.id), M, length_app, length_map. simpl. lia.
  - split; [|split].
    + now rewrite M.
    + exact M.
    + now rewrite <- (length_map StoredNote.id), M, length_map.
Qed.

Lemma upsertNote_keeps_primary_key_witness :
  notes_keyed (upsertNote db_two_notes note_abc_partial "t2")
  /\ map StoredNote.id (notes (upsertNote db_two_notes note_abc_partial "t2"))
     = (if is_none (getNote db_two_notes (StoredNote.id note_abc_partial))
        then map StoredNote.id (notes db_two_notes) ++ [StoredNote.id note_abc_partial]
        else map StoredNote.id (notes db_two_notes))%list
  /\ List.length (notes (upsertNote db_two_notes note_abc_partial "t2"))
     = if is_none (getNote db_two_notes (StoredNote.id note_abc_partial))
       then S (List.length (notes db_two_notes)) else List.length (notes db_two_notes).
Proof.
  apply (upsertNote_keeps_primary_key db_two_notes note_abc_partial "t2").
  unfold notes_keyed. simpl. repeat constructor; simpl; intuition discriminate.
Defined.

Lemma note_on_conflict_twice (r e : StoredNote.t) :
  note_on_conflict (note_on_conflict r e) e = note_on_conflict r e.
Proof.
  unfold note_on_conflict. simpl. f_equal.
  now destruct (StoredNote.content_markdown e).
Qed.

Lemma upsert_note_rows_twice (e : StoredNote.t) (rows : list StoredNote.t) :
  upsert_note_rows e (upsert_note_rows e rows) = upsert_note_rows e rows.
Proof.
  induction rows as [|r rest IH]; simpl.
  - rewrite String.eqb_refl. f_equal. destruct e; unfold note_on_conflict; simpl.
    f_equal. now destruct content_markdown.
  - destruct (StoredNote.id r =? StoredNote.id e) eqn:E; simpl; rewrite E.
    + now rewrite note_on_conflict_twice.
    + now rewrite IH.
Qed.

(** X4. Upserts are idempotent per entity: upserting the same note a second
    time at the same clock reading changes nothing. *)
Theorem upsertNote_idempotent (d : t) (n : StoredNote.t) (now : string) :
  upsertNote (upsertNote d n now) n now = upsertNote d n now.
Proof.
  unfold upsertNote, with_notes. simpl. f_equal. apply upsert_note_rows_twice.
Qed.

End StoreLaws.

(** ** What a whole pass keeps *)

Section PassInvariants.
Import FellowDatabase Sync Spec Laws Fixtures PassFixtures.

(** A property every statement keeps holds of the database a pass leaves,
    however the pass ends. *)
Lemma syncNotesFromApi_leaves (J : FellowDatabase.t -> Prop)
  (clk : nat -> string) (client : FellowClient.t) (fuel : nat)
  (options : SyncOptions.t) (w : World) :
  kept_by_statements J -> J (db w) ->
  leaves (syncNotesFromApi clk client fuel options w) J.
Proof.
  intros (H1 & H2 & H3 & H4 & H5 & H6 & H7) Hw.
  pose proof (sync_pages_keeps clk client J H1 H2 H3 H4 H5 H6 fuel options w Hw) as H.
  unfold syncNotesFromApi, bind, leaves.
  destruct (sync_pages clk client fuel options w) as [r mid|e w'|w']; simpl in *.
  - now apply H7.
  - exact H.
  - exact H.
Qed.

Lemma performIncrementalSync_leaves (J : FellowDatabase.t -> Prop)
  (clk : nat -> string) (client : FellowClient.t) (fuel : nat) (w : World) :
  kept_by_statements J -> J (db w) ->
  leaves (performIncrementalSync clk client fuel w) J.
Proof.
  intros HJ Hw. unfold performIncrementalSync, bind, query.
  destruct (negb (Js.truthy (getLastSyncTime (db w)))); now apply syncNotesFromApi_leaves.
Qed.

Lemma insertActionItem_rows (d d' : t) (x : StoredActionItem.t) :
  insertActionItem d x = Ok d' ->
  action_items d'
  = (action_items d
     ++ [StoredActionItem.mk (S (action_items_seq d)) (StoredActionItem.note_id x)
           (StoredActionItem.content x) (StoredActionItem.assignee x)
           (StoredActionItem.due_date x) (StoredActionItem.is_completed x)
           (StoredActionItem.created_at x)])%list
  /\ action_items_seq d' = S (action_items_seq d)
  /\ notes d' = notes d /\ recordings d' = recordings d
  /\ participants d' = participants d.
Proof.
  unfold insertActionItem. destruct (references_note d _); [|discriminate].
  intros H. inversion H; subst. simpl. auto.
Qed.

Lemma action_item_ids_fresh_kept : kept_by_statements action_item_ids_fresh.
Proof.
  unfold kept_by_statements, action_item_ids_fresh. repeat split.
  - apply H.
  - apply H.
  - destruct H as [Hn _]. simpl. revert Hn.
    induction (action_items d) as [|a rest IH]; simpl; [constructor|].
    intros Hn. inversion Hn; subst.
    destruct (negb (StoredActionItem.note_id a =? i)); simpl; [|now apply IH].
    constructor; [|now apply IH].
    intros Hin. apply H1. apply in_map_iff in Hin. destruct Hin as (y & Hy & Hin).
    apply filter_In in Hin. apply in_map_iff. exists y. tauto.
  - destruct H as [_ Hf]. simpl. rewrite Forall_forall in *.
    intros a Ha. apply filter_In in Ha. now apply Hf.
  - destruct H as [Hn Hf]. apply insertActionItem_rows in H0.
    destruct H0 as (-> & _). rewrite map_app. simpl.
    apply NoDup_app; [assumption|repeat constructor; auto|].
    intros y Hy [<-|[]]. apply in_map_iff in Hy. destruct Hy as (a & Ha & Hin).
    rewrite Forall_forall in Hf. specialize (Hf a Hin). lia.
  - destruct H as [_ Hf]. apply insertActionItem_rows in H0.
    destruct H0 as (-> & -> & _). apply Forall_app. split.
    + rewrite Forall_forall in *. intros a Ha. specialize (Hf a Ha). lia.
    + repeat constructor.
  - apply H.
  - apply H.
  - unfold insertParticipant in H0.
    destruct (has_participant d i e); [inversion H0; subst; apply H|].
    destruct (references_note d _); inversion H0; subst. apply H.
  - unfold insertParticipant in H0.
    destruct (has_participant d i e); [inversion H0; subst; apply H|].
    destruct (references_note d _); inversion H0; subst. apply H.
  - unfold upsertRecording in H1.
    destruct (references_note d _); inversion H1; subst. apply H.
  - unfold upsertRecording in H1.
    destruct (references_note d _); inversion H1; subst. apply H.
  - apply H.
  - apply H.
Qed.

(** X5. Rowids of action items are never reused: if the stored action items
    have pairwise different ids, none above the AUTOINCREMENT counter, the
    same holds after a sync pass, full or incremental, however it ends,
    although every synced note's items are deleted and inserted again. *)
Theorem sync_keeps_action_item_ids_fresh
  (clk : nat -> string) (client : FellowClient.t) (fuel : nat)
  (options : SyncOptions.t) (w : World)
  (Hfresh : action_item_ids_fresh (db w)) :
  leaves (syncNotesFromApi clk client fuel options w) action_item_ids_fresh
  /\ leaves (performIncrementalSync clk client fuel w) action_item_ids_fresh.
Proof.
  split.
  - apply syncNotesFromApi_leaves; [apply action_item_ids_fresh_kept|assumption].
  - apply performIncrementalSync_leaves; [apply action_item_ids_fresh_kept|assumption].
Qed.

Lemma db_cached_item_ids_fresh : action_item_ids_fresh db_cached_item.
Proof.
  split; simpl.
  - repeat constructor. simpl. tauto.
  - repeat constructor.
Qed.

Lemma sync_keeps_action_item_ids_fresh_witness :
  leaves (syncNotesFromApi clock two_page_client 5 SyncOptions.default
            (mkWorld db_cached_item 0)) action_item_ids_fresh
  /\ leaves (performIncrementalSync clock two_page_client 5 (mkWorld db_cached_item 0))
            action_item_ids_fresh.
Proof.
  exact (sync_keeps_action_item_ids_fresh clock two_page_client 5 SyncOptions.default
           (mkWorld db_cached_item 0) db_cached_item_ids_fresh).
Defined.

Lemma has_participant_in (d : t) (i e : string) :
  has_participant d i e = false ->
  ~ In (i, e) (map (fun p => (StoredParticipant.note_id p, StoredParticipant.email p))
                   (participants d)).
Proof.
  intros H Hin. apply in_map_iff in Hin. destruct Hin as (p & Hp & Hin).
  inversion Hp; subst. unfold has_participant in H.
  assert (K : existsb (fun q => (StoredParticipant.note_id q =? StoredParticipant.note_id p)
                                && (StoredParticipant.email q =? StoredParticipant.email p))
                      (participants d) = true).
  { apply existsb_exists. exists p. split; [assumption|].
    now rewrite !String.eqb_refl. }
  congruence.
Qed.

Lemma participants_unique_kept : kept_by_statements participants_unique.
Proof.
  unfold kept_by_statements, participants_unique. repeat split.
  - intros d n now H. exact H.
  - intros d i H. exact H.
  - intros d x d' H Hx. apply insertActionItem_rows in Hx.
    destruct Hx as (_ & _ & _ & _ & ->). exact H.
  - intros d i H. simpl. revert H.
    induction (participants d) as [|p rest IH]; simpl; [constructor|].
    intros Hn. inversion Hn; subst.
    destruct (negb (StoredParticipant.note_id p =? i)); simpl; [|now apply IH].
    constructor; [|now apply IH].
    intros Hin. apply H1. apply in_map_iff in Hin. destruct Hin as (y & Hy & Hin).
    apply filter_In in Hin. apply in_map_iff. exists y. tauto.
  - intros d i e d' H Hx. unfold insertParticipant in Hx.
    destruct (has_participant d i e) eqn:Hp; [inversion Hx; subst; exact H|].
    destruct (references_note d _); inversion Hx; subst. simpl.
    rewrite map_app. simpl.
    apply NoDup_app; [assumption|repeat constructor; auto|].
    intros y Hy [<-|[]]. now apply (has_participant_in d i e Hp).
  - intros d r now d' H _ Hx. unfold upsertRecording in Hx.
    destruct (references_note d _); inversion Hx; subst. exact H.
  - intros d time H. exact H.
Qed.

(** X6. The constraint [UNIQUE(note_id, email)] survives a sync pass: no
    pass, full or incremental, however it ends, leaves the same email twice
    on one note, whatever the remote lists. *)
Theorem sync_keeps_participants_unique
  (clk : nat -> string) (client : FellowClient.t) (fuel : nat)
  (options : SyncOptions.t) (w : World)
  (Huniq : participants_unique (db w)) :
  leaves (syncNotesFromApi clk client fuel options w) participants_unique
  /\ leaves (performIncrementalSync clk client fuel w) participants_unique.
Proof.
  split.
  - apply syncNotesFromApi_leaves; [apply participants_unique_kept|assumption].
  - apply performIncrementalSync_leaves; [apply participants_unique_kept|assumption].
Qed.

Lemma sync_keeps_participants_unique_witness :
  leaves (syncNotesFromApi clock repeated_attendee_client 5 SyncOptions.default fresh)
         participants_unique
  /\ leaves (performIncrementalSync clock repeated_attendee_client 5 fresh)
            participants_unique.
Proof.
  exact (sync_keeps_participants_unique clock repeated_attendee_client 5
           SyncOptions.default fresh (NoDup_nil _)).
Defined.

Lemma has_content_kept (i : string) : kept_by_statements (has_content i).
Proof.
  unfold kept_by_statements, has_content. repeat split.
  - intros d n now (old & G & C).
    destruct (string_dec i (StoredNote.id n)) as [->|Hne].
    + destruct (getNote_upsertNote_same d n now) as (s & Gs & _ & Cs).
      exists s. split; [exact Gs|]. rewrite Cs, G.
      destruct (StoredNote.content_markdown n); simpl; congruence.
    + exists old. now rewrite getNote_upsertNote_other.
  - intros d j H. exact H.
  - intros d x d' H Hx. apply insertActionItem_rows in Hx.
    destruct Hx as (_ & _ & Hn & _). unfold getNote in *. now rewrite Hn.
  - intros d j H. exact H.
  - intros d j e d' H Hx. unfold insertParticipant in Hx.
    destruct (has_participant d j e); [inversion Hx; subst; exact H|].
    destruct (references_note d _); inversion Hx; subst. exact H.
  - intros d r now d' H _ Hx. unfold upsertRecording in Hx.
    destruct (references_note d _); inversion Hx; subst. exact H.
  - intros d time H. exact H.
Qed.

(** X7. A sync pass never removes a note and never empties one: a note that
    is stored with content before a pass, full or incremental, is stored with
    content after it, however the pass ends and whatever the remote sends for
    that note. *)
Theorem sync_keeps_note_content
  (clk : nat -> string) (client : FellowClient.t) (fuel : nat)
  (options : SyncOptions.t) (w : World) (i : string)
  (Hstored : has_content i (db w)) :
  leaves (syncNotesFromApi clk client fuel options w) (has_content i)
  /\ leaves (performIncrementalSync clk client fuel w) (has_content i).
Proof.
  split.
  - apply syncNotesFromApi_leaves; [apply has_content_kept|assumption].
  - apply performIncrementalSync_leaves; [apply has_content_kept|assumption].
Qed.

Lemma sync_keeps_note_content_witness :
  leaves (syncNotesFromApi clock partial_fetch_client 5 SyncOptions.default
            (mkWorld db_one_note 0)) (has_content "n1")
  /\ leaves (performIncrementalSync clock partial_fetch_client 5 (mkWorld db_one_note 0))
            (has_content "n1").
Proof.
  apply (sync_keeps_note_content clock partial_fetch_client 5 SyncOptions.default
           (mkWorld db_one_note 0) "n1").
  exists note_abc. split; [reflexivity|discriminate].
Defined.

End PassInvariants.

(** ** Replacing a note's action items and participants *)

Section Replace.
Import FellowDatabase Sync Spec Laws Counting Fixtures ReplaceFixtures.

Lemma store_action_item_loop (clk : nat -> string) (nid : string)
  (items : list ParsedActionItem.t) :
  forall (r r' : SyncResult.t) (w w' : World),
    for_of items (store_action_item clk nid) r w = Returned r' w' ->
    exists new,
      action_items (db w') = (action_items (db w) ++ new)%list
      /\ map parsed_of new = items
      /\ Forall (fun a => StoredActionItem.note_id a = nid) new
      /\ SyncResult.action_items_found r'
         = SyncResult.action_items_found r + List.length items
      /\ action_items_seq (db w') = action_items_seq (db w) + List.length items.
Proof.
  induction items as [|item rest IH]; intros r r' w w' H; simpl in H.
  - inversion H; subst. exists []. split; [symmetry; apply app_nil_r|].
    simpl. repeat split; auto.
  - unfold bind at 1 in H. unfold store_action_item in H.
    unfold bind, new_Date_toISOString, run_checked in H. cbn [db ticks] in H.
    match type of H with
    | context [insertActionItem ?d ?x] =>
        destruct (insertActionItem d x) as [d1|e] eqn:Ins; [|discriminate]
    end.
    cbn [ret] in H. apply insertActionItem_rows in Ins.
    destruct Ins as (Rows & Seq & _). simpl in Rows.
    apply IH in H. destruct H as (new & Hrows & Hmap & Hall & Hfound & Hseq).
    cbn [db] in *. rewrite Rows in Hrows. rewrite <- app_assoc in Hrows.
    eexists. split; [exact Hrows|]. simpl. repeat split.
    + now rewrite Hmap; destruct item.
    + constructor; [reflexivity|assumption].
    + rewrite Hfound. simpl. lia.
    + rewrite Hseq, Seq. lia.
Qed.

Lemma filter_filter_neg {A} (p : A -> bool) (l : list A) :
  filter p (filter (fun x => negb (p x)) l) = [].
Proof.
  induction l as [|x l IH]; simpl; [reflexivity|].
  destruct (p x) eqn:E; simpl; [exact IH|]. now rewrite E.
Qed.

Lemma filter_idem {A} (p : A -> bool) (l : list A) : filter p (filter p l) = filter p l.
Proof.
  induction l as [|x l IH]; simpl; [reflexivity|].
  destruct (p x) eqn:E; simpl; [now rewrite E, IH|exact IH].
Qed.

Lemma filter_all {A} (p : A -> bool) (l : list A) :
  Forall (fun x => p x = true) l -> filter p l = l.
Proof.
  induction 1 as [|x l Hx _ IH]; simpl; [reflexivity|]. now rewrite Hx, IH.
Qed.

Lemma filter_none {A} (p : A -> bool) (l : list A) :
  Forall (fun x => p x = false) l -> filter p l = [].
Proof.
  induction 1 as [|x l Hx _ IH]; simpl; [reflexivity|]. now rewrite Hx.
Qed.

(** X8. Action items are replaced per note.  When a synced note has content
    and the block returns, the stored action items of that note are exactly
    the items the extractor derives from the content, in order, whatever was
    stored for the note before; the items of other notes are untouched, and
    [action_items_found] grows by the number of items.  When the note comes
    without content (absent or empty) the block does nothing, so the items
    stored for it earlier stay. *)
Theorem store_action_items_replaces (clk : nat -> string) (note : Note.t)
  (r r' : SyncResult.t) (w w' : World)
  (Hret : store_action_items clk note r w = Returned r' w') :
  if Js.truthy (Note.content_markdown note) then
    exists items,
      Extractor.extractActionItems (Js.nullish (Note.content_markdown note) "") = Ok items
      /\ map parsed_of (action_items_of (db w') (Note.id note)) = items
      /\ action_items_not_of (db w') (Note.id note)
         = action_items_not_of (db w) (Note.id note)
      /\ SyncResult.action_items_found r'
         = SyncResult.action_items_found r + List.length items
  else w' = w /\ r' = r.
Proof.
  unfold store_action_items in Hret.
  destruct (Js.truthy (Note.content_markdown note)).
  - unfold bind at 1 in Hret. unfold run in Hret. unfold bind at 1 in Hret.
    unfold await in Hret.
    destruct (Extractor.extractActionItems _) as [items|e]; [|discriminate].
    apply store_action_item_loop in Hret.
    destruct Hret as (new & Hrows & Hmap & Hall & Hfound & _).
    cbn [db] in Hrows. simpl action_items in Hrows.
    exists items. split; [reflexivity|].
    unfold action_items_of, action_items_not_of. rewrite Hrows, !filter_app.
    repeat split.
    + rewrite filter_filter_neg. simpl. rewrite filter_all; [exact Hmap|].
      eapply Forall_impl; [|exact Hall]. intros a Ha. simpl in Ha.
      rewrite Ha. apply String.eqb_refl.
    + rewrite filter_idem, (filter_none _ new); [now rewrite app_nil_r|].
      eapply Forall_impl; [|exact Hall]. intros a Ha. simpl in Ha.
      rewrite Ha, String.eqb_refl. reflexivity.
    + exact Hfound.
  - inversion Hret. auto.
Qed.

Lemma store_action_items_replaces_witness :
  if Js.truthy (Note.content_markdown note_weekly) then
    exists items,
      Extractor.extractActionItems (Js.nullish (Note.content_markdown note_weekly) "")
      = Ok items
      /\ map parsed_of (action_items_of (db weekly_items_world) (Note.id note_weekly)) = items
      /\ action_items_not_of (db weekly_items_world) (Note.id note_weekly)
         = action_items_not_of (db (mkWorld db_cached_item 0)) (Note.id note_weekly)
      /\ SyncResult.action_items_found (SyncResult.mk 0 0 2 0)
         = SyncResult.action_items_found SyncResult.zero + List.length items
  else weekly_items_world = mkWorld db_cached_item 0
       /\ SyncResult.mk 0 0 2 0 = SyncResult.zero.
Proof.
  assert (E : store_action_items clock note_weekly SyncResult.zero (mkWorld db_cached_item 0)
              = Returned (SyncResult.mk 0 0 2 0) weekly_items_world)
    by (vm_compute; reflexivity).
  exact (store_action_items_replaces clock note_weekly SyncResult.zero
           (SyncResult.mk 0 0 2 0) (mkWorld db_cached_item 0) weekly_items_world E).
Defined.

End Replace.

Section ReplaceParticipants.
Import FellowDatabase Sync Spec Laws Fixtures ParticipantFixtures.

Lemma has_participant_iff (d : t) (nid e : string) :
  has_participant d nid e = true <-> In e (getParticipantsForNote d nid).
Proof.
  unfold has_participant, getParticipantsForNote.
  rewrite existsb_exists, in_map_iff. split.
  - intros (p & Hp & Hm). apply andb_true_iff in Hm. destruct Hm as [Hn He].
    apply String.eqb_eq in He. exists p. split; [assumption|].
    apply filter_In. auto.
  - intros (p & He & Hp). apply filter_In in Hp. destruct Hp as [Hp Hn].
    exists p. split; [assumption|]. rewrite Hn, He. simpl. apply String.eqb_refl.
Qed.

Lemma store_participant_loop_emails (nid : string) (attendees : list string) :
  forall (r r' : SyncResult.t) (w w' : World),
    for_of attendees (store_participant nid) r w = Returned r' w' ->
    (forall e, In e (getParticipantsForNote (db w') nid)
               <-> In e (getParticipantsForNote (db w) nid)
                   \/ In e (map Js.trim (filter kept attendees)))
    /\ (forall j, j <> nid ->
                  getParticipantsForNote (db w') j = getParticipantsForNote (db w) j)
    /\ SyncResult.participants_synced r'
       = SyncResult.participants_synced r + List.length (filter kept attendees).
Proof.
  induction attendees as [|a rest IH]; intros r r' w w' H; simpl in H.
  - inversion H; subst. simpl. repeat split; try tauto; auto.
  - unfold bind at 1 in H. unfold store_participant at 1 in H. fold (kept a) in H.
    simpl filter. destruct (kept a) eqn:K.
    + unfold bind, run_checked in H.
      destruct (insertParticipant (db w) nid (Js.trim a)) as [d1|e1] eqn:Ins;
        [|discriminate].
      cbn [ret] in H. apply IH in H. destruct H as (Hin & Hother & Hcount).
      cbn [db] in *. apply insertParticipant_cases in Ins.
      assert (Hnid : forall e, In e (getParticipantsForNote d1 nid)
                               <-> In e (getParticipantsForNote (db w) nid) \/ e = Js.trim a).
      { intros e. destruct Ins as [[Hhas ->]|[_ ->]].
        - unfold getParticipantsForNote at 1. simpl participants.
          fold (getParticipantsForNote (db w) nid).
          apply has_participant_iff in Hhas. split; [tauto|].
          intros [H| ->]; assumption.
        - unfold getParticipantsForNote at 1. simpl participants.
          rewrite filter_app, map_app, in_app_iff. simpl.
          rewrite String.eqb_refl. simpl.
          fold (getParticipantsForNote (db w) nid). intuition. }
      assert (Hoth : forall j, j <> nid ->
                getParticipantsForNote d1 j = getParticipantsForNote (db w) j).
      { intros j Hj. destruct Ins as [[_ ->]|[_ ->]]; [reflexivity|].
        unfold getParticipantsForNote. simpl participants.
        rewrite filter_app, map_app. simpl.
        destruct (nid =? j) eqn:E; [apply String.eqb_eq in E; congruence|].
        simpl. now rewrite app_nil_r. }
      repeat split.
      * intros He. apply Hin in He. destruct He as [He|He].
        -- apply Hnid in He. simpl. destruct He as [He| ->]; auto.
        -- simpl. auto.
      * intros He. apply Hin. simpl in He. rewrite Hnid.
        destruct He as [He|[He|He]]; auto.
      * intros j Hj. rewrite (Hother j Hj). now apply Hoth.
      * rewrite Hcount. simpl. lia.
    + simpl in H. apply IH in H. exact H.
Qed.

(** X9. Participants are replaced per note.  When a synced note lists
    attendees and the block returns, the emails stored for the note are
    exactly the trimmed, non-blank attendee emails of the listing, whatever was
    stored for the note before; the participants of other notes are untouched,
    and [participants_synced] grows by the number of non-blank attendee
    entries.  When the listing has no attendees (absent or an empty list) the
    block does nothing, so the participants stored earlier stay. *)
Theorem store_participants_replaces (note : Note.t) (r r' : SyncResult.t) (w w' : World)
  (Hret : store_participants note r w = Returned r' w') :
  match Note.event_attendees note with
  | Some (_ :: _) =>
      (forall e, In e (getParticipantsForNote (db w') (Note.id note))
                 <-> In e (attendee_emails note))
      /\ (forall j, j <> Note.id note ->
                    getParticipantsForNote (db w') j = getParticipantsForNote (db w) j)
      /\ SyncResult.participants_synced r'
         = SyncResult.participants_synced r + List.length (attendee_emails note)
  | _ => w' = w /\ r' = r
  end.
Proof.
  unfold store_participants, attendee_emails in *.
  destruct (Note.event_attendees note) as [[|a rest]|].
  - simpl in Hret. inversion Hret. auto.
  - change (0 <? List.length (a :: rest))%nat with true in Hret.
    unfold bind at 1 in Hret. unfold run in Hret.
    apply store_participant_loop_emails in Hret.
    destruct Hret as (Hin & Hother & Hcount). cbn [db] in *.
    assert (Hclear : getParticipantsForNote
                       (clearParticipantsForNote (db w) (Note.id note)) (Note.id note) = []).
    { unfold getParticipantsForNote, clearParticipantsForNote. simpl participants.
      now rewrite filter_filter_neg. }
    repeat split.
    + intros He. apply Hin in He. rewrite Hclear in He. simpl in He. tauto.
    + intros He. apply Hin. now right.
    + intros j Hj. rewrite (Hother j Hj).
      unfold getParticipantsForNote, clearParticipantsForNote. simpl participants.
      f_equal. clear -Hj. induction (participants (db w)) as [|p ps IH]; simpl; [reflexivity|].
      destruct (StoredParticipant.note_id p =? Note.id note) eqn:E1; simpl.
      * destruct (StoredParticipant.note_id p =? j) eqn:E2; [|exact IH].
        apply String.eqb_eq in E1. apply String.eqb_eq in E2. congruence.
      * destruct (StoredParticipant.note_id p =? j); [now rewrite IH|exact IH].
    + rewrite Hcount. now rewrite length_map.
  - inversion Hret. auto.
Qed.

Lemma store_participants_replaces_witness :
  match Note.event_attendees note_weekly with
  | Some (_ :: _) =>
      (forall e, In e (getParticipantsForNote (db weekly_participants_world)
                         (Note.id note_weekly))
                 <-> In e (attendee_emails note_weekly))
      /\ (forall j, j <> Note.id note_weekly ->
                    getParticipantsForNote (db weekly_participants_world) j
                    = getParticipantsForNote (db (mkWorld db_old_participant 0)) j)
      /\ SyncResult.participants_synced (SyncResult.mk 0 0 0 2)
         = SyncResult.participants_synced SyncResult.zero
           + List.length (attendee_emails note_weekly)
  | _ => weekly_participants_world = mkWorld db_old_participant 0
         /\ SyncResult.mk 0 0 0 2 = SyncResult.zero
  end.
Proof.
  assert (E : store_participants note_weekly SyncResult.zero (mkWorld db_old_participant 0)
              = Returned (SyncResult.mk 0 0 0 2) weekly_participants_world)
    by (vm_compute; reflexivity).
  exact (store_participants_replaces note_weekly SyncResult.zero (SyncResult.mk 0 0 0 2)
           (mkWorld db_old_participant 0) weekly_participants_world E).
Defined.

End ReplaceParticipants.

(** ** The count of action items *)

Section ActionItemsCount.
Import FellowDatabase Sync Spec Laws Counting Fixtures.

Lemma tracks_ret (r : SyncResult.t) : found_tracks (ret r) r.
Proof. intros w. reflexivity. Qed.

Lemma tracks_bind (m : M SyncResult.t) (k : SyncResult.t -> M SyncResult.t)
  (r : SyncResult.t) :
  found_tracks m r -> (forall r1, found_tracks (k r1) r1) -> found_tracks (bind m k) r.
Proof.
  intros Hm Hk w. unfold bind. specialize (Hm w).
  destruct (m w) as [r1 w1|e w1|w1]; [|exact I|exact I].
  specialize (Hk r1 w1). destruct (k r1 w1) as [r2 w2|e w2|w2]; [|exact I|exact I].
  lia.
Qed.

Lemma tracks_for_of {A} (xs : list A) (body : A -> SyncResult.t -> M SyncResult.t) :
  (forall x st, found_tracks (body x st) st) ->
  forall st, found_tracks (for_of xs body st) st.
Proof.
  intros Hbody. induction xs as [|x rest IH]; intros st; simpl.
  - apply tracks_ret.
  - apply tracks_bind; [apply Hbody|exact IH].
Qed.

Lemma store_action_item_tracks (clk : nat -> string) (nid : string)
  (item : ParsedActionItem.t) (r : SyncResult.t) :
  found_tracks (store_action_item clk nid item r) r.
Proof.
  intros w. unfold store_action_item, bind, new_Date_toISOString, run_checked.
  cbn [db ticks].
  match goal with
  | |- context [insertActionItem ?d ?x] =>
      destruct (insertActionItem d x) as [d1|e] eqn:Ins; [|exact I]
  end.
  apply insertActionItem_rows in Ins. destruct Ins as (_ & Seq & _).
  simpl. rewrite Seq. lia.
Qed.

Lemma store_participant_tracks (nid email : string) (r : SyncResult.t) :
  found_tracks (store_participant nid email r) r.
Proof.
  intros w. unfold store_participant.
  destruct (Js.truthy (Some email) && Js.truthy (Some (Js.trim email))); [|reflexivity].
  unfold bind, run_checked.
  destruct (insertParticipant (db w) nid (Js.trim email)) as [d1|e] eqn:Ins; [|exact I].
  apply insertParticipant_cases in Ins.
  destruct Ins as [[_ ->]|[_ ->]]; reflexivity.
Qed.

Lemma sync_note_tracks (clk : nat -> string) (note : Note.t) (r : SyncResult.t) :
  found_tracks (sync_note clk note r) r.
Proof.
  intros w. unfold sync_note. unfold bind at 1.
  unfold store_note, bind, new_Date_toISOString, run. cbn [db ticks].
  set (w1 := mkWorld _ _).
  assert (H : found_tracks
                (bind (store_action_items clk note (SyncResult.incr_notes r))
                      (store_participants note))
                (SyncResult.incr_notes r)).
  { apply tracks_bind.
    - unfold store_action_items.
      destruct (Js.truthy (Note.content_markdown note)); [|apply tracks_ret].
      intros w2. unfold bind at 1. unfold run. unfold bind at 1. unfold await.
      destruct (Extractor.extractActionItems _) as [items|e]; [|exact I].
      exact (tracks_for_of items (store_action_item clk (Note.id note))
               (store_action_item_tracks clk (Note.id note)) (SyncResult.incr_notes r)
               (mkWorld (clearActionItemsForNote (db w2) (Note.id note)) (ticks w2))).
    - intros r1. unfold store_participants.
      destruct (Note.event_attendees note) as [attendees|]; [|apply tracks_ret].
      destruct (0 <? List.length attendees)%nat; [|apply tracks_ret].
      intros w2. unfold bind, run.
      exact (tracks_for_of attendees (store_participant (Note.id note))
               (store_participant_tracks (Note.id note)) r1
               (mkWorld (clearParticipantsForNote (db w2) (Note.id note)) (ticks w2))). }
  specialize (H w1). unfold bind in H. exact H.
Qed.

Lemma sync_recording_tracks (clk : nat -> string) (recording : Recording.t)
  (r : SyncResult.t) :
  found_tracks (sync_recording clk recording r) r.
Proof.
  intros w. unfold sync_recording, bind, query, ret.
  destruct (Js.truthy (Recording.note_id recording) && _); [reflexivity|].
  unfold new_Date_toISOString, run_checked, upsertRecording.
  cbn [db ticks StoredRecording.note_id].
  destruct (references_note (db w) (Recording.note_id recording)); simpl; auto.
Qed.

Lemma notes_loop_tracks (clk : nat -> string) (client : FellowClient.t) (fuel : nat) :
  forall (since cursor : option string) (r : SyncResult.t),
    found_tracks (notes_loop clk client fuel since cursor r) r.
Proof.
  induction fuel as [|fuel IH]; intros since cursor r; simpl.
  - intros w. exact I.
  - intros w. unfold bind at 1. unfold await.
    destruct (FellowClient.listNotes client _) as [page|e]; [|exact I].
    apply (tracks_bind (for_of (Page.data page) (sync_note clk) r)
             (fun result => if Js.truthy (Page.cursor page)
                            then notes_loop clk client fuel since (Page.cursor page) result
                            else ret result)).
    + apply tracks_for_of. apply sync_note_tracks.
    + intros r1. destruct (Js.truthy (Page.cursor page)); [apply IH|apply tracks_ret].
Qed.

Lemma recordings_loop_tracks (clk : nat -> string) (client : FellowClient.t) (fuel : nat) :
  forall (since : option string) (tr : bool) (cursor : option string) (r : SyncResult.t),
    found_tracks (recordings_loop clk client fuel since tr cursor r) r.
Proof.
  induction fuel as [|fuel IH]; intros since tr cursor r; simpl.
  - intros w. exact I.
  - intros w. unfold bind at 1. unfold await.
    destruct (FellowClient.listRecordings client _) as [page|e]; [|exact I].
    apply (tracks_bind (for_of (Page.data page) (sync_recording clk) r)
             (fun result => if Js.truthy (Page.cursor page)
                            then recordings_loop clk client fuel since tr (Page.cursor page) result
                            else ret result)).
    + apply tracks_for_of. apply sync_recording_tracks.
    + intros r1. destruct (Js.truthy (Page.cursor page)); [apply IH|apply tracks_ret].
Qed.

(** X10. Unlike the count of participants, the count of action items is
    exact: for every sync pass that returns, [action_items_found] is the
    number of rows the pass inserted into [action_items], which is the advance
    of the table's AUTOINCREMENT counter. *)
Theorem action_items_found_counts_rows
  (clk : nat -> string) (client : FellowClient.t) (fuel : nat)
  (options : SyncOptions.t) (w w' : World) (result : SyncResult.t)
  (Hret : syncNotesFromApi clk client fuel options w = Returned result w') :
  action_items_seq (db w') = action_items_seq (db w) + SyncResult.action_items_found result.
Proof.
  assert (H : found_tracks (syncNotesFromApi clk client fuel options) SyncResult.zero).
  { unfold syncNotesFromApi. apply tracks_bind.
    - unfold sync_pages. apply tracks_bind.
      + apply notes_loop_tracks.
      + intros r1. apply recordings_loop_tracks.
    - intros r1 w1. reflexivity. }
  specialize (H w). rewrite Hret in H. simpl in H. lia.
Qed.

Lemma action_items_found_counts_rows_witness :
  action_items_seq (db two_page_world)
  = action_items_seq (db fresh) + SyncResult.action_items_found (SyncResult.mk 2 1 2 3).
Proof.
  assert (E : syncNotesFromApi clock two_page_client 5 SyncOptions.default fresh
              = Returned (SyncResult.mk 2 1 2 3) two_page_world)
    by (vm_compute; reflexivity).
  exact (action_items_found_counts_rows clock two_page_client 5 SyncOptions.default
           fresh two_page_world (SyncResult.mk 2 1 2 3) E).
Defined.

End ActionItemsCount.

(* ------------------------------------------------------------------ *)
(** * Further properties of the search *)

Section SearchLaws.
Import FellowDatabase Sync Tools Fixtures SearchLaws.

Lemma like_percent (p t : string) :
  Sql.patternCompare (String "%" p) t
  = Sql.patternCompare p t
    || match t with
       | EmptyString => false
       | String _ t' => Sql.patternCompare (String "%" p) t'
       end.
Proof. destruct t; reflexivity. Qed.

Lemma like_char (c : ascii) (p t : string) :
  Ascii.eqb c "%" = false ->
  Sql.patternCompare (String c p) t
  = match t with
    | EmptyString => false
    | String d t' =>
        (Ascii.eqb c "_" || Ascii.eqb (Sql.fold_case c) (Sql.fold_case d))
        && Sql.patternCompare p t'
    end.
Proof. intros H. simpl. rewrite H. reflexivity. Qed.

Lemma like_any (t : string) : Sql.patternCompare "%" t = true.
Proof.
  induction t as [|c t IH]; rewrite like_percent; [reflexivity|].
  rewrite IH. apply orb_true_r.
Qed.

Lemma like_percent_skip (a p t : string) :
  Sql.patternCompare p t = true -> Sql.patternCompare (String "%" p) (a ++ t) = true.
Proof.
  intros H. induction a as [|c a IH]; simpl append; rewrite like_percent.
  - rewrite H. reflexivity.
  - rewrite IH. apply orb_true_r.
Qed.

Lemma like_prefix (q : string) :
  forall q' b, fold_text q' = fold_text q ->
               Sql.patternCompare (q ++ "%") (q' ++ b) = true.
Proof.
  induction q as [|c q IH]; intros q' b H.
  - destruct q'; [|discriminate]. apply like_any.
  - destruct q' as [|c' q']; [discriminate|]. simpl in H. inversion H as [[Hc Hq]].
    simpl append. destruct (Ascii.eqb c "%") eqn:E.
    + apply Ascii.eqb_eq in E. subst c.
      rewrite like_percent.
      pose proof (like_percent_skip "" _ _ (IH q' b Hq)) as K. simpl append in K.
      rewrite K. apply orb_true_r.
    + rewrite (like_char c _ _ E). rewrite Hc, Ascii.eqb_refl, orb_true_r.
      simpl. now apply IH.
Qed.

Lemma like_occurs (q s : string) :
  occurs_in q s -> Sql.patternCompare ("%" ++ q ++ "%") s = true.
Proof.
  intros (a & q' & b & -> & H). simpl append.
  apply like_percent_skip. now apply like_prefix.
Qed.

Lemma like_percent_inv (p t : string) :
  Sql.patternCompare (String "%" p) t = true ->
  exists a t', t = a ++ t' /\ Sql.patternCompare p t' = true.
Proof.
  induction t as [|c t IH]; rewrite like_percent; intros H;
    apply orb_true_iff in H; destruct H as [H|H].
  - now exists "", "".
  - discriminate.
  - now exists "", (String c t).
  - destruct (IH H) as (a & t' & -> & L). now exists (String c a), t'.
Qed.

Lemma like_literal_prefix (q : string) :
  literal q = true ->
  forall t, Sql.patternCompare (q ++ "%") t = true ->
            exists q' b, t = q' ++ b /\ fold_text q' = fold_text q.
Proof.
  induction q as [|c q IH]; intros L t H.
  - now exists "", t.
  - simpl in L. apply andb_true_iff in L. destruct L as [L Lq].
    apply andb_true_iff in L. destruct L as [Lp Lu].
    apply negb_true_iff in Lp. apply negb_true_iff in Lu.
    simpl append in H. rewrite (like_char c _ _ Lp) in H.
    destruct t as [|d t]; [discriminate|].
    rewrite Lu in H. simpl in H. apply andb_true_iff in H. destruct H as [Hc Ht].
    apply Ascii.eqb_eq in Hc.
    destruct (IH Lq t Ht) as (q' & b & -> & Hq).
    exists (String d q'), b. split; [reflexivity|]. simpl. now rewrite Hc, Hq.
Qed.

Lemma like_literal_occurs (q s : string) :
  literal q = true -> Sql.patternCompare ("%" ++ q ++ "%") s = true -> occurs_in q s.
Proof.
  intros L H. simpl append in H. apply like_percent_inv in H.
  destruct H as (a & t' & -> & H).
  destruct (like_literal_prefix q L t' H) as (q' & b & -> & Hq).
  now exists a, q', b.
Qed.

Lemma c_string_append (a b : string) :
  nul_free a = true -> Sql.c_string (a ++ b) = a ++ Sql.c_string b.
Proof.
  induction a as [|c a IH]; simpl; [reflexivity|].
  intros H. apply andb_true_iff in H. destruct H as [Hc Ha].
  apply negb_true_iff in Hc. now rewrite Hc, IH.
Qed.

(** A query without NUL reaches [patternCompare] whole, between its two
    [%]. *)
Lemma c_string_pattern (q : string) :
  nul_free q = true -> Sql.c_string ("%" ++ q ++ "%") = "%" ++ q ++ "%".
Proof.
  intros H. change ("%" ++ q ++ "%") with (String "%" (q ++ "%")).
  simpl Sql.c_string. change (Ascii.eqb "%" Ascii.zero) with false. cbv iota.
  now rewrite (c_string_append q "%" H).
Qed.

Lemma in_search_rows (d : t) (q : string) (n : StoredNote.t) :
  In n (search_rows d ("%" ++ q ++ "%"))
  <-> In n (notes d)
      /\ (Sql.like ("%" ++ q ++ "%") (StoredNote.title n)
          || Sql.like_nullable ("%" ++ q ++ "%") (StoredNote.content_markdown n)) = true.
Proof.
  unfold search_rows. rewrite in_order_by_desc, filter_In. reflexivity.
Qed.

Lemma searchNotes_rows (d : t) (q : string) (rows : list StoredNote.t) :
  searchNotes d q = Ok rows -> rows = search_rows d ("%" ++ q ++ "%").
Proof.
  unfold searchNotes. destruct ((0 <? List.length (notes d))%nat && _); [discriminate|].
  intros H. now inversion H.
Qed.

(** X11. The search is complete.  For a query without NUL characters, a
    cached note whose title or content contains the query is among the rows
    [searchNotes] returns; "contains" is up to the case of ASCII letters, and
    title and content count up to their first NUL character, which is where
    [LIKE] stops reading.  [searchNotes] returns unless the query, with the
    two [%] around it, has more than 50000 bytes: then it raises the error of
    [LIKE]. *)
Theorem searchNotes_finds_occurrences (d : t) (q : string) (n : StoredNote.t)
  (Hq : nul_free q = true)
  (Hin : In n (notes d))
  (Hocc : mentions q n) :
  match searchNotes d q with
  | Ok rows => In n rows
  | Err e =>
      e = "LIKE or GLOB pattern too complex"
      /\ (50000 < Sql.utf8_bytes ("%" ++ q ++ "%"))%N
  end.
Proof.
  destruct (searchNotes d q) as [rows|e] eqn:Hrows.
  - rewrite (searchNotes_rows d q rows Hrows).
    apply in_search_rows. split; [assumption|].
    unfold Sql.like_nullable, Sql.like. rewrite (c_string_pattern q Hq).
    destruct Hocc as [H|(c & Hc & H)].
    + rewrite (like_occurs _ _ H). reflexivity.
    + rewrite Hc. rewrite (like_occurs _ _ H). apply orb_true_r.
  - destruct (searchNotes_raises d q e Hrows) as (He & Hlong & _). auto.
Qed.

Lemma searchNotes_finds_occurrences_witness :
  exists rows, searchNotes db_one_note "B" = Ok rows /\ In note_abc rows.
Proof.
  pose proof (searchNotes_finds_occurrences db_one_note "B" note_abc eq_refl
                (or_introl eq_refl)
                (or_introl (ex_intro _ "a" (ex_intro _ "b" (ex_intro _ "c"
                   (conj eq_refl eq_refl)))))) as K.
  assert (E : searchNotes db_one_note "B" = Ok (search_rows db_one_note "%B%"))
    by reflexivity.
  rewrite E in K. exists (search_rows db_one_note "%B%"). split; [exact E|exact K].
Defined.

(** X12. For a query without [%], [_] and NUL the search is also exact:
    every row [searchNotes] returns is a cached note whose title or content,
    read up to its first NUL character, contains the query up to the case of
    ASCII letters.  When [searchNotes] does not return, it raises the error of
    [LIKE]: the cache is not empty and the query, with the two [%] around it,
    has more than 50000 bytes. *)
Theorem searchNotes_literal_query_exact (d : t) (q : string)
  (Hlit : literal q = true)
  (Hq : nul_free q = true) :
  match searchNotes d q with
  | Ok rows => forall n, In n rows -> In n (notes d) /\ mentions q n
  | Err e =>
      e = "LIKE or GLOB pattern too complex"
      /\ (50000 < Sql.utf8_bytes ("%" ++ q ++ "%"))%N
      /\ notes d <> []
  end.
Proof.
  destruct (searchNotes d q) as [rows|e] eqn:Hrows.
  - intros n Hin. rewrite (searchNotes_rows d q rows Hrows) in Hin.
    apply in_search_rows in Hin. destruct Hin as [Hn H]. split; [assumption|].
    unfold Sql.like_nullable, Sql.like in H. rewrite (c_string_pattern q Hq) in H.
    apply orb_true_iff in H. destruct H as [H|H].
    + left. now apply like_literal_occurs.
    + right. destruct (StoredNote.content_markdown n) as [c|]; [|discriminate].
      exists c. split; [reflexivity|]. now apply like_literal_occurs.
  - now apply searchNotes_raises.
Qed.

Lemma searchNotes_literal_query_exact_witness :
  In note_abc (notes db_two_notes) /\ mentions "YZ" note_abc.
Proof.
  pose proof (searchNotes_literal_query_exact db_two_notes "YZ" eq_refl eq_refl) as K.
  assert (E : searchNotes db_two_notes "YZ" = Ok (search_rows db_two_notes "%YZ%"))
    by reflexivity.
  rewrite E in K. apply (K note_abc). vm_compute. left. reflexivity.
Defined.

End SearchLaws.

(* ------------------------------------------------------------------ *)
(** * Further properties of the tools *)

Section ToolLaws.
Import FellowDatabase Sync Tools Spec Fixtures.

Lemma includes_inside (q s a b : string) : s = a ++ q ++ b -> Js.includes q s = true.
Proof. intros ->. apply includes_middle. Qed.

Lemma starts_with_split (q : string) :
  forall s, Js.starts_with q s = true -> exists b, s = q ++ b.
Proof.
  induction q as [|c q IH]; intros s H.
  - now exists s.
  - destruct s as [|d s]; [discriminate|]. simpl in H.
    apply andb_true_iff in H. destruct H as [Hc Hs].
    apply Ascii.eqb_eq in Hc. subst d.
    destruct (IH s Hs) as (b & ->). now exists b.
Qed.

Lemma includes_split (q s : string) :
  Js.includes q s = true -> exists a b, s = a ++ q ++ b.
Proof.
  unfold Js.includes. induction s as [|c s IH].
  - simpl. destruct (Js.starts_with q "") eqn:E; [|discriminate].
    intros _. destruct (starts_with_split q "" E) as (b & Hb). now exists "", b.
  - simpl. destruct (Js.starts_with q (String c s)) eqn:E.
    + intros _. destruct (starts_with_split q _ E) as (b & Hb). now exists "", b.
    + destruct (Js.indexOf q s); [|discriminate].
      intros _. destruct (IH eq_refl) as (a & b & ->). now exists (String c a), b.
Qed.

Lemma includes_append_r (q s b : string) :
  Js.includes q s = true -> Js.includes q (s ++ b) = true.
Proof.
  intros H. destruct (includes_split q s H) as (a & b' & ->).
  apply (includes_inside q _ a (b' ++ b)). now rewrite !append_assoc.
Qed.

Lemma concat_empty_cons (x : string) (xs : list string) :
  String.concat "" (x :: xs) = x ++ String.concat "" xs.
Proof.
  destruct xs as [|y ys]; simpl; [now rewrite append_empty_r|reflexivity].
Qed.

Lemma concat_map_in {A} (f : A -> string) (x : A) (xs : list A) :
  In x xs -> exists a b, String.concat "" (map f xs) = a ++ f x ++ b.
Proof.
  induction xs as [|y ys IH]; intros H; [contradiction|].
  cbn [map]. rewrite concat_empty_cons. destruct H as [->|H].
  - now exists "", (String.concat "" (map f ys)).
  - destruct (IH H) as (a & b & ->). exists (f y ++ a), b.
    now rewrite !append_assoc.
Qed.

Lemma trim_empty_query (q : string) : Js.trim q <> "" -> Js.truthy (Some q) = true.
Proof.
  intros H. simpl. destruct q; [now contradiction H|reflexivity].
Qed.

Lemma CallTool_with_client (argv : list string) (env : Cli.Env)
  (connect : Cli.Config -> FellowClient.t) (clk : nat -> string) (fuel : nat)
  (config : Cli.Config) (call : Server.request) (w : World) :
  Cli.parseArgs argv env = Ok config ->
  Server.CallTool argv env connect clk fuel call w
  = match call with
    | Server.call_sync_meetings args =>
        Tools.sync_meetings clk (connect config) fuel args w
    | Server.call_get_all_action_items args =>
        Tools.get_all_action_items clk (connect config) fuel args w
    | Server.call_get_meetings_by_participants args =>
        Tools.get_meetings_by_participants args w
    | Server.call_search_cached_notes query => Tools.search_cached_notes query w
    end.
Proof.
  intros H. unfold Server.CallTool, Server.getClient, bind. rewrite H.
  destruct call; reflexivity.
Qed.

Lemma CallTool_without_client (argv : list string) (env : Cli.Env)
  (connect : Cli.Config -> FellowClient.t) (clk : nat -> string) (fuel : nat)
  (e : string) (call : Server.request) (w : World) :
  Cli.parseArgs argv env = Err e ->
  Server.CallTool argv env connect clk fuel call w = Thrown e w.
Proof.
  intros H. unfold Server.CallTool, Server.getClient, bind. now rewrite H.
Qed.

(** X13. The [search_cached_notes] tool, called with credentials in place
    and a query that is not blank, reads the cache and nothing else.  When
    the statement of [searchNotes] returns, the tool replies without an error
    flag, in the world it started in, with a text that holds the [Note ID]
    line of every row.  When the statement raises, which it does exactly when
    the cache holds a note and the pattern has more than 50000 bytes, the
    tool replies with the error flag and the message after [Error: ]. *)
Theorem search_cached_notes_lists_every_hit
  (argv : list string) (env : Cli.Env) (connect : Cli.Config -> FellowClient.t)
  (clk : nat -> string) (fuel : nat) (config : Cli.Config) (q : string) (w : World)
  (Hclient : Cli.parseArgs argv env = Ok config)
  (Hq : Js.trim q <> "") :
  match searchNotes (db w) q with
  | Ok rows =>
      exists text,
        Server.CallTool argv env connect clk fuel
          (Server.call_search_cached_notes (Some q)) w
        = Returned (ToolResult.mk text false) w
        /\ forall n, In n rows ->
                     Js.includes ("- Note ID: " ++ StoredNote.id n ++ nl) text = true
  | Err e =>
      Server.CallTool argv env connect clk fuel
        (Server.call_search_cached_notes (Some q)) w
      = Returned (ToolResult.mk ("Error: " ++ e) true) w
      /\ e = "LIKE or GLOB pattern too complex"
      /\ notes (db w) <> []
      /\ (50000 < Sql.utf8_bytes ("%" ++ q ++ "%"))%N
  end
  /\ (notes (db w) <> [] -> (50000 < Sql.utf8_bytes ("%" ++ q ++ "%"))%N ->
      searchNotes (db w) q = Err "LIKE or GLOB pattern too complex").
Proof.
  rewrite (CallTool_with_client argv env connect clk fuel config _ w Hclient).
  split.
  - unfold search_cached_notes, guarded, try_catch.
    rewrite (trim_empty_query q Hq). cbn [negb orb Js.nullish].
    destruct (Nat.eqb_spec (String.length (Js.trim q)) 0) as [E|_].
    { destruct (Js.trim q); [now contradiction Hq|discriminate]. }
    unfold bind, statement.
    destruct (searchNotes (db w) q) as [rows|e] eqn:S.
    + unfold reply, ret.
      destruct (Nat.eqb_spec (List.length rows) 0) as [E|_].
      { destruct rows; [|discriminate]. eexists. split; [reflexivity|].
        intros n []. }
      eexists. split; [reflexivity|]. intros n Hin.
      destruct (concat_map_in (render_search_hit q) n _ Hin) as (a & b & ->).
      assert (Hhit : Js.includes ("- Note ID: " ++ StoredNote.id n ++ nl)
                       (a ++ render_search_hit q n ++ b) = true).
      { apply includes_append_l, includes_append_r. unfold render_search_hit.
        apply (includes_inside _ _
                 ("## " ++ StoredNote.title n ++ nl ++ "- Date: "
                  ++ Js.nullish (StoredNote.event_start n) "N/A" ++ nl)
                 ((if Js.truthy (StoredNote.content_markdown n)
                   then render_snippet q (Js.nullish (StoredNote.content_markdown n) "")
                   else "") ++ nl)).
        now rewrite !append_assoc. }
      revert Hhit. generalize (a ++ render_search_hit q n ++ b). intros body Hbody.
      repeat apply includes_append_l. exact Hbody.
    + unfold searchNotes in S.
      destruct (0 <? List.length (notes (db w)))%nat eqn:L; cbn [andb] in S;
        [|discriminate].
      destruct (Sql.like_refused ("%" ++ q ++ "%")) eqn:B; [|discriminate].
      assert (e = Sql.pattern_too_complex) by congruence. subst e.
      split; [reflexivity|]. split; [reflexivity|]. split.
      * intros N0. rewrite N0 in L. discriminate.
      * unfold Sql.like_refused, Sql.LIKE_PATTERN_LENGTH in B.
        now apply N.ltb_lt in B.
  - intros Hn Hb. unfold searchNotes.
    destruct (notes (db w)); [congruence|]. cbn [List.length Nat.ltb Nat.leb andb].
    unfold Sql.like_refused, Sql.LIKE_PATTERN_LENGTH.
    apply N.ltb_lt in Hb. now rewrite Hb.
Qed.

Lemma search_cached_notes_lists_every_hit_witness :
  match searchNotes (db (mkWorld db_one_note 0)) "B" with
  | Ok rows =>
      exists text,
        Server.CallTool Server.argv_with_flags (Cli.mkEnv None None) (fun _ => failing_client)
          clock 5 (Server.call_search_cached_notes (Some "B")) (mkWorld db_one_note 0)
        = Returned (ToolResult.mk text false) (mkWorld db_one_note 0)
        /\ forall n, In n rows ->
                     Js.includes ("- Note ID: " ++ StoredNote.id n ++ nl) text = true
  | Err e =>
      Server.CallTool Server.argv_with_flags (Cli.mkEnv None None) (fun _ => failing_client)
        clock 5 (Server.call_search_cached_notes (Some "B")) (mkWorld db_one_note 0)
      = Returned (ToolResult.mk ("Error: " ++ e) true) (mkWorld db_one_note 0)
      /\ e = "LIKE or GLOB pattern too complex"
      /\ notes (db (mkWorld db_one_note 0)) <> []
      /\ (50000 < Sql.utf8_bytes ("%" ++ "B" ++ "%"))%N
  end
  /\ (notes (db (mkWorld db_one_note 0)) <> [] ->
      (50000 < Sql.utf8_bytes ("%" ++ "B" ++ "%"))%N ->
      searchNotes (db (mkWorld db_one_note 0)) "B" = Err "LIKE or GLOB pattern too complex").
Proof.
  apply (search_cached_notes_lists_every_hit Server.argv_with_flags (Cli.mkEnv None None)
           (fun _ => failing_client) clock 5 (Cli.mkConfig "k" "acme") "B"
           (mkWorld db_one_note 0)).
  - reflexivity.
  - discriminate.
Defined.

Lemma syncNotesFromApi_watermark (clk : nat -> string) (client : FellowClient.t)
  (fuel : nat) (options : SyncOptions.t) (w : World) :
  match syncNotesFromApi clk client fuel options w with
  | Returned _ w' =>
      0 < ticks w' /\ getLastSyncTime (db w') = Some (clk (ticks w' - 1))
  | Thrown _ w' => getLastSyncTime (db w') = getLastSyncTime (db w)
  | OutOfFuel w' => getLastSyncTime (db w') = getLastSyncTime (db w)
  end.
Proof.
  pose proof (sync_pages_keeps_watermark clk client fuel options w) as K.
  unfold syncNotesFromApi, bind.
  destruct (sync_pages clk client fuel options w) as [r mid|e w'|w']; simpl in *.
  - split; [lia|]. now rewrite Nat.sub_0_r.
  - exact K.
  - exact K.
Qed.

Lemma performIncrementalSync_watermark (clk : nat -> string) (client : FellowClient.t)
  (fuel : nat) (w : World) :
  match performIncrementalSync clk client fuel w with
  | Returned _ w' =>
      0 < ticks w' /\ getLastSyncTime (db w') = Some (clk (ticks w' - 1))
  | Thrown _ w' => getLastSyncTime (db w') = getLastSyncTime (db w)
  | OutOfFuel w' => getLastSyncTime (db w') = getLastSyncTime (db w)
  end.
Proof.
  unfold performIncrementalSync, bind, query.
  destruct (negb (Js.truthy (getLastSyncTime (db w)))); apply syncNotesFromApi_watermark.
Qed.

(** X14. A call of the [sync_meetings] tool throws only while the
    credentials are missing: the client is built before the handler starts to
    catch, so the message of [parseArgs] leaves the handler as an exception
    and the cache is not touched.  With credentials in place the call never
    throws.  A reply flagged as an error carries the message of the failed
    pass after [Error: ] and comes with the watermark as it was before the
    call, as does a pass cut off while paging; every other reply comes with
    the watermark set to the clock reading taken at the end of the pass, and
    that reading is what the reply prints after [Last sync: ], at the very
    end of its text. *)
Theorem sync_meetings_reply_and_watermark
  (argv : list string) (env : Cli.Env) (connect : Cli.Config -> FellowClient.t)
  (clk : nat -> string) (fuel : nat) (args : SyncArgs.t) (w : World) :
  match Cli.parseArgs argv env with
  | Err e =>
      Server.CallTool argv env connect clk fuel (Server.call_sync_meetings args) w
      = Thrown e w
  | Ok _ =>
      match Server.CallTool argv env connect clk fuel
              (Server.call_sync_meetings args) w with
      | Returned r w' =>
          if ToolResult.isError r
          then getLastSyncTime (db w') = getLastSyncTime (db w)
               /\ Js.starts_with "Error: " (ToolResult.text r) = true
          else getLastSyncTime (db w') = Some (clk (ticks w' - 1))
               /\ exists head,
                    ToolResult.text r = head ++ "Last sync: " ++ clk (ticks w' - 1)
      | Thrown _ _ => False
      | OutOfFuel w' => getLastSyncTime (db w') = getLastSyncTime (db w)
      end
  end.
Proof.
  destruct (Cli.parseArgs argv env) as [config|e] eqn:P.
  2: { now apply CallTool_without_client. }
  rewrite (CallTool_with_client argv env connect clk fuel config _ w P).
  generalize (connect config). intros client.
  unfold sync_meetings, guarded, try_catch. unfold bind at 1.
  set (pass := if Js.nullish (SyncArgs.force args) false
               then syncNotesFromApi clk client fuel
                      (SyncOptions.mk None (SyncArgs.include_transcripts args))
               else performIncrementalSync clk client fuel).
  assert (K : match pass w with
              | Returned _ w' =>
                  0 < ticks w' /\ getLastSyncTime (db w') = Some (clk (ticks w' - 1))
              | Thrown _ w' => getLastSyncTime (db w') = getLastSyncTime (db w)
              | OutOfFuel w' => getLastSyncTime (db w') = getLastSyncTime (db w)
              end).
  { unfold pass. destruct (Js.nullish (SyncArgs.force args) false);
      [apply syncNotesFromApi_watermark|apply performIncrementalSync_watermark]. }
  destruct (pass w) as [r w'|e w'|w'].
  - destruct K as [_ K]. unfold bind, query, reply, ret.
    cbn [ToolResult.isError ToolResult.text]. split; [exact K|].
    rewrite K. cbn [Js.nullish]. eexists.
    rewrite <- !append_assoc. reflexivity.
  - cbn [ret ToolResult.isError ToolResult.text]. split; [exact K|reflexivity].
  - exact K.
Qed.

End ToolLaws.

(* ------------------------------------------------------------------ *)
(** * Further properties of the extractor *)

Section ExtractorLaws.
Import Regex Extractor Spec Tools.

Lemma split_not_nil (sep : ascii) (s : string) : Js.split sep s <> [].
Proof.
  destruct s as [|c s]; simpl; [discriminate|].
  destruct (Ascii.eqb c sep); [discriminate|].
  destruct (Js.split sep s); discriminate.
Qed.

Lemma split_append (sep : ascii) (a b : string) :
  Js.split sep (a ++ String sep b) = (Js.split sep a ++ Js.split sep b)%list.
Proof.
  induction a as [|c a IH]; simpl.
  - now rewrite Ascii.eqb_refl.
  - destruct (Ascii.eqb c sep); [now rewrite IH|].
    rewrite IH. pose proof (split_not_nil sep a) as N.
    destruct (Js.split sep a); [contradiction|reflexivity].
Qed.

Lemma extract_lines_append (l1 l2 : list string) (i1 i2 : list ParsedActionItem.t) :
  extract_lines l1 = Ok i1 -> extract_lines l2 = Ok i2 ->
  extract_lines (l1 ++ l2) = Ok (i1 ++ i2)%list.
Proof.
  revert i1. induction l1 as [|line rest IH]; intros i1 H1 H2; simpl in *.
  - inversion H1. exact H2.
  - destruct (extract_line line) as [item|e]; [|discriminate]. simpl in *.
    destruct (extract_lines rest) as [items|e]; [|discriminate]. simpl in *.
    rewrite (IH items eq_refl H2). simpl. inversion H1.
    now destruct item.
Qed.

(** X15. The extractor works line by line: the action items of two texts
    joined by a line feed are the items of the first followed by the items of
    the second, so no pattern sees more than one line and an item never
    depends on the lines around it. *)
Theorem extractActionItems_line_by_line (a b : string) :
  exists items_a items_b,
    extractActionItems a = Ok items_a
    /\ extractActionItems b = Ok items_b
    /\ extractActionItems (a ++ nl ++ b) = Ok (items_a ++ items_b)%list.
Proof.
  destruct (extract_lines_total (Js.split "010" a)) as (ia & Ha & _).
  destruct (extract_lines_total (Js.split "010" b)) as (ib & Hb & _).
  exists ia, ib. unfold extractActionItems. repeat split; try assumption.
  unfold nl. simpl append. rewrite split_append. now apply extract_lines_append.
Qed.

End ExtractorLaws.

(* ------------------------------------------------------------------ *)
(** * The listing of action items *)

Section Listing.
Import FellowDatabase Sync Tools Spec Fixtures Grouping MeetingFixtures.

Lemma group_push_keys_old (key : string) (row : ActionItemRow.t)
  (groups : list (string * list ActionItemRow.t)) :
  In key (map fst groups) -> map fst (group_push key row groups) = map fst groups.
Proof.
  induction groups as [|[k rows] rest IH]; simpl; [contradiction|].
  destruct (String.eqb_spec k key) as [E|E]; [reflexivity|].
  intros [H|H]; [contradiction|]. simpl. now rewrite IH.
Qed.

Lemma group_push_keys_new (key : string) (row : ActionItemRow.t)
  (groups : list (string * list ActionItemRow.t)) :
  ~ In key (map fst groups) ->
  group_push key row groups = (groups ++ [(key, [row])])%list.
Proof.
  induction groups as [|[k rows] rest IH]; simpl; [reflexivity|].
  intros H. destruct (String.eqb_spec k key) as [E|E]; [tauto|].
  rewrite IH; tauto.
Qed.

Lemma in_group_push (key : string) (row : ActionItemRow.t)
  (groups : list (string * list ActionItemRow.t)) (k : string)
  (rows : list ActionItemRow.t) :
  NoDup (map fst groups) -> In key (map fst groups) ->
  In (k, rows) (group_push key row groups) ->
  (k <> key /\ In (k, rows) groups)
  \/ (k = key /\ exists rows0, In (k, rows0) groups /\ rows = (rows0 ++ [row])%list).
Proof.
  induction groups as [|[k0 rows0] rest IH]; simpl; [contradiction|].
  intros N Hkey Hin. inversion N as [|? ? Hfresh Nrest]; subst.
  destruct (String.eqb_spec k0 key) as [E|E].
  - subst k0. destruct Hin as [Hin|Hin].
    + inversion Hin; subst. right. split; [reflexivity|]. exists rows0. auto.
    + left. split; [|now right]. intros ->. apply Hfresh.
      change key with (fst (key, rows)). now apply in_map.
  - destruct Hkey as [Hkey|Hkey]; [contradiction|].
    destruct Hin as [Hin|Hin].
    + inversion Hin; subst. left. split; [assumption|now left].
    + destruct (IH Nrest Hkey Hin) as [[Hk H]|[Hk (r0 & H & Hr)]].
      * left. split; [assumption|now right].
      * right. split; [assumption|]. exists r0. split; [now right|assumption].
Qed.

(** What the loop over [actionItems] keeps: the keys of the map are
    distinct, every key is bound to the rows seen so far of that note, none
    of them to an empty list, and every row seen has its note as a key. *)
Lemma byMeeting_loop (items seen : list ActionItemRow.t)
  (groups : list (string * list ActionItemRow.t)) :
  NoDup (map fst groups) ->
  (forall k rows, In (k, rows) groups ->
                  rows <> [] /\ rows = filter (fun r => key_of r =? k) seen) ->
  (forall r, In r seen -> In (key_of r) (map fst groups)) ->
  let final := fold_left (fun groups row => group_push (key_of row) row groups)
                         items groups in
  NoDup (map fst final)
  /\ (forall k rows, In (k, rows) final ->
                     rows <> []
                     /\ rows = filter (fun r => key_of r =? k) (seen ++ items)%list)
  /\ (forall r, In r (seen ++ items)%list -> In (key_of r) (map fst final)).
Proof.
  revert seen groups. induction items as [|row items IH]; intros seen groups N Hrows Hkeys.
  - simpl. rewrite app_nil_r. auto.
  - cbn [fold_left].
    replace (seen ++ row :: items)%list with ((seen ++ [row]) ++ items)%list
      by (now rewrite <- app_assoc).
    apply IH.
    + destruct (in_dec string_dec (key_of row) (map fst groups)) as [Hk|Hk].
      * now rewrite group_push_keys_old.
      * rewrite group_push_keys_new by assumption. rewrite map_app. simpl.
        apply NoDup_app; [assumption|repeat constructor; simpl; tauto|].
        intros x Hx [<-|[]]. contradiction.
    + intros k rows Hin. rewrite filter_app. simpl.
      destruct (in_dec string_dec (key_of row) (map fst groups)) as [Hk|Hk].
      * destruct (in_group_push _ _ _ _ _ N Hk Hin) as [[Hne H]|[-> (r0 & H & ->)]].
        -- destruct (Hrows k rows H) as [Hn Hf]. split; [assumption|].
           destruct (String.eqb_spec (key_of row) k) as [E|E]; [congruence|].
           now rewrite app_nil_r.
        -- destruct (Hrows _ r0 H) as [Hn Hf]. split; [now destruct r0|].
           rewrite String.eqb_refl. now rewrite <- Hf.
      * rewrite group_push_keys_new in Hin by assumption.
        apply in_app_or in Hin. destruct Hin as [Hin|[Hin|[]]].
        -- destruct (Hrows k rows Hin) as [Hn Hf]. split; [assumption|].
           destruct (String.eqb_spec (key_of row) k) as [E|E].
           ++ exfalso. apply Hk. rewrite E.
              change k with (fst (k, rows)). now apply in_map.
           ++ now rewrite app_nil_r.
        -- inversion Hin; subst. split; [discriminate|].
           rewrite String.eqb_refl.
           rewrite filter_none; [reflexivity|].
           apply Forall_forall. intros r Hr. destruct (String.eqb_spec (key_of r) (key_of row)) as [E|E];
             [|reflexivity].
           exfalso. apply Hk. rewrite <- E. now apply Hkeys.
    + intros r Hr. apply in_app_or in Hr.
      destruct (in_dec string_dec (key_of row) (map fst groups)) as [Hk|Hk].
      * rewrite group_push_keys_old by assumption.
        destruct Hr as [Hr|[<-|[]]]; [now apply Hkeys|assumption].
      * rewrite group_push_keys_new by assumption. rewrite map_app, in_app_iff. simpl.
        destruct Hr as [Hr|[<-|[]]]; [left; now apply Hkeys|now right; left].
Qed.

(** X16. The grouping of the listing is a partition by meeting: the map
    [byMeeting] has one key for each note that has an item in the result, no
    key twice, and binds each key to exactly the items of that note, in the
    order of the result; so the [N items from M meetings] of the header counts
    every listed item once and every meeting with a listed item once. *)
Theorem byMeeting_partitions_by_note (items : list ActionItemRow.t) :
  NoDup (map fst (byMeeting items))
  /\ (forall k rows,
         In (k, rows) (byMeeting items) ->
         rows <> []
         /\ rows = filter (fun r => StoredActionItem.note_id (ActionItemRow.item r) =? k)
                          items)
  /\ (forall r, In r items ->
                In (StoredActionItem.note_id (ActionItemRow.item r))
                   (map fst (byMeeting items))).
Proof.
  unfold byMeeting.
  apply (byMeeting_loop items [] []).
  - constructor.
  - intros k rows [].
  - intros r [].
Qed.

Lemma in_action_item_rows (d : t) (f : ActionItemFilters.t) (row : ActionItemRow.t) :
  In row (action_item_rows d f) ->
  (exists n, In n (notes d)
             /\ StoredNote.id n = StoredActionItem.note_id (ActionItemRow.item row)
             /\ ActionItemRow.note_title row = StoredNote.title n
             /\ ActionItemRow.event_start row = StoredNote.event_start n)
  /\ In (ActionItemRow.item row) (action_items d)
  /\ (Js.truthy (ActionItemFilters.assignee f) = true ->
      Sql.like_nullable ("%" ++ Js.nullish (ActionItemFilters.assignee f) "" ++ "%")
        (StoredActionItem.assignee (ActionItemRow.item row)) = true)
  /\ (forall flag, ActionItemFilters.is_completed f = Some flag ->
                   StoredActionItem.is_completed (ActionItemRow.item row) = flag)
  /\ (Js.truthy (ActionItemFilters.since f) = true ->
      Sql.ge_nullable (ActionItemRow.event_start row)
        (Js.nullish (ActionItemFilters.since f) "") = true).
Proof.
  unfold action_item_rows, joined_action_items. rewrite in_order_by_desc.
  set (joined := flat_map _ (action_items d)).
  assert (Hjoined : In row joined ->
            (exists n, In n (notes d)
               /\ StoredNote.id n = StoredActionItem.note_id (ActionItemRow.item row)
               /\ ActionItemRow.note_title row = StoredNote.title n
               /\ ActionItemRow.event_start row = StoredNote.event_start n)
            /\ In (ActionItemRow.item row) (action_items d)).
  { unfold joined. intros H. apply in_flat_map in H. destruct H as (a & Ha & H).
    apply in_map_iff in H. destruct H as (n & <- & Hn).
    apply filter_In in Hn. destruct Hn as [Hn E]. apply String.eqb_eq in E.
    simpl. split; [|assumption]. exists n. auto. }
  set (by_assignee := if Js.truthy (ActionItemFilters.assignee f) then _ else joined).
  set (by_completion := match ActionItemFilters.is_completed f with
                        | Some _ => _ | None => by_assignee end).
  intros H.
  assert (H3 : In row by_completion
               /\ (Js.truthy (ActionItemFilters.since f) = true ->
                   Sql.ge_nullable (ActionItemRow.event_start row)
                     (Js.nullish (ActionItemFilters.since f) "") = true)).
  { destruct (Js.truthy (ActionItemFilters.since f)).
    - apply filter_In in H. destruct H. auto.
    - split; [assumption|discriminate]. }
  destruct H3 as [H3 Hsince].
  assert (H2 : In row by_assignee
               /\ forall flag, ActionItemFilters.is_completed f = Some flag ->
                    StoredActionItem.is_completed (ActionItemRow.item row) = flag).
  { unfold by_completion in H3. destruct (ActionItemFilters.is_completed f) as [flag|].
    - apply filter_In in H3. destruct H3 as [H3 E]. split; [assumption|].
      intros flag' Hf. inversion Hf; subst. now apply Bool.eqb_prop.
    - split; [assumption|discriminate]. }
  destruct H2 as [H2 Hflag].
  assert (H1 : In row joined
               /\ (Js.truthy (ActionItemFilters.assignee f) = true ->
                   Sql.like_nullable
                     ("%" ++ Js.nullish (ActionItemFilters.assignee f) "" ++ "%")
                     (StoredActionItem.assignee (ActionItemRow.item row)) = true)).
  { unfold by_assignee in H2. destruct (Js.truthy (ActionItemFilters.assignee f)).
    - apply filter_In in H2. destruct H2. auto.
    - split; [assumption|discriminate]. }
  destruct H1 as [H1 Hassignee].
  destruct (Hjoined H1) as [Hn Ha]. auto.
Qed.

Lemma getAllActionItems_rows (d : t) (f : ActionItemFilters.t)
  (rows : list ActionItemRow.t) :
  getAllActionItems d f = Ok rows -> rows = action_item_rows d f.
Proof.
  unfold getAllActionItems.
  destruct (_ && _ && _); [discriminate|]. congruence.
Qed.

(** X17. What [get_all_action_items] can list.  Every row the tool reads
    from the cache, when the statement of [getAllActionItems] returns, is an
    item stored for a cached note, shown under that note's title and date.
    Unless [show_completed] is set, no completed item is among them.  With
    [since], every listed item belongs to a meeting that has a start time,
    one that is not before [since] as a text; with [assignee], no unassigned
    item is listed.  When the statement does not return it raises the error
    of [LIKE]: the [assignee], with the two [%] around it, has more than 50000
    bytes, and the cache holds an action item. *)
Theorem get_all_action_items_filters (d : t) (args : ActionItemsArgs.t) :
  match getAllActionItems d (filters_of args) with
  | Ok rows =>
      forall row, In row rows ->
        (exists n, getNote d (StoredActionItem.note_id (ActionItemRow.item row)) <> None
                   /\ In n (notes d)
                   /\ StoredNote.id n = StoredActionItem.note_id (ActionItemRow.item row)
                   /\ ActionItemRow.note_title row = StoredNote.title n
                   /\ ActionItemRow.event_start row = StoredNote.event_start n)
        /\ In (ActionItemRow.item row) (action_items d)
        /\ (Js.nullish (ActionItemsArgs.show_completed args) false = false ->
            StoredActionItem.is_completed (ActionItemRow.item row) = false)
        /\ (Js.truthy (ActionItemsArgs.since args) = true ->
            exists start,
              ActionItemRow.event_start row = Some start
              /\ String.leb (Js.nullish (ActionItemsArgs.since args) "") start = true)
        /\ (Js.truthy (ActionItemsArgs.assignee args) = true ->
            StoredActionItem.assignee (ActionItemRow.item row) <> None)
  | Err e =>
      e = "LIKE or GLOB pattern too complex"
      /\ exists who,
           ActionItemsArgs.assignee args = Some who
           /\ (50000 < Sql.utf8_bytes ("%" ++ who ++ "%"))%N
           /\ action_items d <> []
  end.
Proof.
  destruct (getAllActionItems d (filters_of args)) as [rows|e] eqn:Hrows.
  2: { exact (getAllActionItems_raises d (filters_of args) e Hrows). }
  intros row Hin.
  apply getAllActionItems_rows in Hrows. subst rows.
  apply in_action_item_rows in Hin.
  destruct Hin as ((n & Hn & Hid & Ht & He) & Ha & Hassignee & Hflag & Hsince).
  unfold filters_of in *. cbn [ActionItemFilters.assignee ActionItemFilters.is_completed
                               ActionItemFilters.since] in *.
  split; [|split; [|split; [|split]]].
  - exists n. repeat split; try assumption.
    unfold getNote. rewrite <- Hid. intros Hnone.
    pose proof (find_none _ _ Hnone n Hn) as F. simpl in F.
    now rewrite String.eqb_refl in F.
  - assumption.
  - intros Hshow. rewrite Hshow in Hflag. now apply Hflag.
  - intros Hs. specialize (Hsince Hs). unfold Sql.ge_nullable in Hsince.
    destruct (ActionItemRow.event_start row) as [start|]; [|discriminate].
    now exists start.
  - intros Has. specialize (Hassignee Has). unfold Sql.like_nullable in Hassignee.
    destruct (StoredActionItem.assignee (ActionItemRow.item row)); [discriminate|].
    discriminate.
Qed.

Lemma get_all_action_items_filters_witness :
  (exists n, getNote db_three_items
               (StoredActionItem.note_id (ActionItemRow.item row_send_report)) <> None
             /\ In n (notes db_three_items)
             /\ StoredNote.id n
                = StoredActionItem.note_id (ActionItemRow.item row_send_report)
             /\ ActionItemRow.note_title row_send_report = StoredNote.title n
             /\ ActionItemRow.event_start row_send_report = StoredNote.event_start n)
  /\ In (ActionItemRow.item row_send_report) (action_items db_three_items)
  /\ (Js.nullish (ActionItemsArgs.show_completed (ActionItemsArgs.mk None None None)) false
      = false ->
      StoredActionItem.is_completed (ActionItemRow.item row_send_report) = false)
  /\ (Js.truthy (ActionItemsArgs.since (ActionItemsArgs.mk None None None)) = true ->
      exists start,
        ActionItemRow.event_start row_send_report = Some start
        /\ String.leb (Js.nullish (ActionItemsArgs.since (ActionItemsArgs.mk None None None)) "")
             start = true)
  /\ (Js.truthy (ActionItemsArgs.assignee (ActionItemsArgs.mk None None None)) = true ->
      StoredActionItem.assignee (ActionItemRow.item row_send_report) <> None).
Proof.
  pose proof (get_all_action_items_filters db_three_items
                (ActionItemsArgs.mk None None None)) as K.
  assert (E : getAllActionItems db_three_items
                (filters_of (ActionItemsArgs.mk None None None)) = Ok rows_three_items)
    by (vm_compute; reflexivity).
  rewrite E in K. apply (K row_send_report). vm_compute. auto.
Defined.

End Listing.

(* ------------------------------------------------------------------ *)
(** * Cached action items when the automatic sync fails *)

Section ActionItemsTool.
Import FellowDatabase Sync Tools Spec Fixtures Grouping.

Lemma action_item_rows_complete (d : t) (f : ActionItemFilters.t)
  (a : StoredActionItem.t) (n : StoredNote.t) :
  In a (action_items d) -> In n (notes d) ->
  StoredNote.id n = StoredActionItem.note_id a ->
  (Js.truthy (ActionItemFilters.assignee f) = true ->
   Sql.like_nullable ("%" ++ Js.nullish (ActionItemFilters.assignee f) "" ++ "%")
     (StoredActionItem.assignee a) = true) ->
  (forall flag, ActionItemFilters.is_completed f = Some flag ->
                StoredActionItem.is_completed a = flag) ->
  (Js.truthy (ActionItemFilters.since f) = true ->
   Sql.ge_nullable (StoredNote.event_start n)
     (Js.nullish (ActionItemFilters.since f) "") = true) ->
  In (ActionItemRow.mk a (StoredNote.title n) (StoredNote.event_start n))
     (action_item_rows d f).
Proof.
  intros Ha Hn Hid Hassignee Hflag Hsince.
  unfold action_item_rows. rewrite in_order_by_desc.
  assert (J : In (ActionItemRow.mk a (StoredNote.title n) (StoredNote.event_start n))
                 (joined_action_items d)).
  { unfold joined_action_items. apply in_flat_map. exists a. split; [assumption|].
    apply in_map_iff. exists n. split; [reflexivity|].
    apply filter_In. split; [assumption|]. rewrite Hid. apply String.eqb_refl. }
  revert J. generalize (joined_action_items d). intros joined J.
  destruct (Js.truthy (ActionItemFilters.since f)).
  - apply filter_In. split; [|now apply Hsince].
    destruct (ActionItemFilters.is_completed f) as [flag|].
    + apply filter_In. split.
      * destruct (Js.truthy (ActionItemFilters.assignee f)); [|assumption].
        apply filter_In. split; [assumption|now apply Hassignee].
      * cbn [ActionItemRow.item]. rewrite (Hflag flag eq_refl). apply Bool.eqb_reflx.
    + destruct (Js.truthy (ActionItemFilters.assignee f)); [|assumption].
      apply filter_In. split; [assumption|now apply Hassignee].
  - destruct (ActionItemFilters.is_completed f) as [flag|].
    + apply filter_In. split.
      * destruct (Js.truthy (ActionItemFilters.assignee f)); [|assumption].
        apply filter_In. split; [assumption|now apply Hassignee].
      * cbn [ActionItemRow.item]. rewrite (Hflag flag eq_refl). apply Bool.eqb_reflx.
    + destruct (Js.truthy (ActionItemFilters.assignee f)); [|assumption].
      apply filter_In. split; [assumption|now apply Hassignee].
Qed.

(** The groups of the listing: every row is in the group of its note, and
    a group is headed by one of its rows. *)
Lemma byMeeting_group_of (rows : list ActionItemRow.t) (row : ActionItemRow.t) :
  In row rows ->
  exists first rest,
    In (key_of row, first :: rest) (byMeeting rows)
    /\ In row (first :: rest)
    /\ In first rows
    /\ key_of first = key_of row.
Proof.
  intros Hin.
  destruct (byMeeting_loop rows [] []) as (_ & Hgroups & Hkeys).
  { constructor. }
  { intros k rs []. }
  { intros r []. }
  cbn [app] in Hgroups, Hkeys.
  specialize (Hkeys row Hin). apply in_map_iff in Hkeys.
  destruct Hkeys as ([k rs] & Hk & Hg). cbn [fst] in Hk. subst k.
  fold (byMeeting rows) in Hg.
  destruct (Hgroups _ _ Hg) as [Hne Hrs].
  assert (Hrow : In row rs).
  { rewrite Hrs. apply filter_In. split; [assumption|apply String.eqb_refl]. }
  destruct rs as [|first rest]; [contradiction|].
  exists first, rest. split; [assumption|]. split; [assumption|].
  assert (Hfirst : In first (first :: rest)) by now left.
  rewrite Hrs in Hfirst. apply filter_In in Hfirst. destruct Hfirst as [Hf E].
  apply String.eqb_eq in E. auto.
Qed.

Lemma render_action_items_lists (args : ActionItemsArgs.t)
  (rows : list ActionItemRow.t) (row : ActionItemRow.t) :
  In row rows ->
  Js.includes (render_item row) (render_action_items args rows) = true
  /\ exists first,
       In first rows /\ key_of first = key_of row
       /\ Js.includes
            ("## " ++ ActionItemRow.note_title first ++ nl ++ "Date: "
             ++ Js.nullish (ActionItemRow.event_start first) "N/A" ++ nl ++ nl)
            (render_action_items args rows) = true.
Proof.
  intros Hin.
  destruct (byMeeting_group_of rows row Hin) as (first & rest & Hg & Hrow & Hf & Hk).
  destruct (concat_map_in render_meeting _ _ Hg) as (a & b & E).
  destruct (concat_map_in render_item _ _ Hrow) as (a' & b' & E').
  assert (M : render_meeting (key_of row, first :: rest)
              = ("## " ++ ActionItemRow.note_title first ++ nl ++ "Date: "
                 ++ Js.nullish (ActionItemRow.event_start first) "N/A" ++ nl ++ nl)
                ++ String.concat "" (map render_item (first :: rest)) ++ nl).
  { unfold render_meeting. cbn [snd]. now rewrite !append_assoc. }
  assert (Hitem : Js.includes (render_item row)
                    (String.concat "" (map render_meeting (byMeeting rows))) = true).
  { rewrite E, M. apply includes_append_l, includes_append_r.
    apply includes_append_l, includes_append_r.
    rewrite E'. apply includes_middle. }
  assert (Hhead : Js.includes
                    ("## " ++ ActionItemRow.note_title first ++ nl ++ "Date: "
                     ++ Js.nullish (ActionItemRow.event_start first) "N/A" ++ nl ++ nl)
                    (String.concat "" (map render_meeting (byMeeting rows))) = true).
  { rewrite E, M. apply includes_append_l, includes_append_r.
    exact (includes_middle _ "" _). }
  unfold render_action_items. cbv zeta. split.
  - do 15 apply includes_append_l. exact Hitem.
  - exists first. split; [assumption|]. split; [assumption|].
    do 15 apply includes_append_l. exact Hhead.
Qed.

Lemma get_all_action_items_after_failed_sync (clk : nat -> string)
  (client : FellowClient.t) (fuel : nat) (args : ActionItemsArgs.t) (w w' : World)
  (e : string) :
  performIncrementalSync clk client fuel w = Thrown e w' ->
  get_all_action_items clk client fuel args w
  = match getAllActionItems (db w') (filters_of args) with
    | Ok rows =>
        Returned
          (ToolResult.mk
             (if (List.length rows =? 0)%nat
              then render_no_action_items (Some e) None (getStats (db w'))
              else render_action_items args rows)
             false)
          w'
    | Err q => Returned (ToolResult.mk ("Error: " ++ q) true) w'
    end.
Proof.
  intros H. unfold get_all_action_items, guarded, try_catch, bind. rewrite H.
  unfold ret, statement, query, reply, ret. cbn [fst snd].
  destruct (getAllActionItems (db w') (filters_of args)) as [rows|q]; [|reflexivity].
  destruct (List.length rows =? 0)%nat; reflexivity.
Qed.

(** C6, as stated, fails: the remote answers 500, the cache holds one open
    action item, and the tool returns the listing of that item.  The text
    does not contain the error message, nor the words "Sync error", nor the
    word "sync" in any case. *)
Lemma get_all_action_items_listing_hides_sync_failure :
  performIncrementalSync clock failing_client 5 (mkWorld db_cached_item 0)
  = Thrown api_error (mkWorld db_cached_item 0)
  /\ exists r,
       Server.CallTool Server.argv_with_flags (Cli.mkEnv None None)
         (fun _ => failing_client) clock 5
         (Server.call_get_all_action_items (ActionItemsArgs.mk None None None))
         (mkWorld db_cached_item 0)
       = Returned r (mkWorld db_cached_item 0)
       /\ ToolResult.isError r = false
       /\ ToolResult.text r
          = "# All Action Items" ++ nl ++ nl ++ "Total: 1 items from 1 meetings" ++ nl
            ++ "Showing: incomplete only" ++ nl ++ nl ++ "## abc" ++ nl ++ "Date: N/A"
            ++ nl ++ nl ++ "- [ ] Send the report (@alice)" ++ nl ++ nl
       /\ Js.includes api_error (ToolResult.text r) = false
       /\ Js.includes "Sync error" (ToolResult.text r) = false
       /\ Js.includes "sync" (Js.toLowerCase (ToolResult.text r)) = false.
Proof.
  split; [vm_compute; reflexivity|].
  eexists. split; [vm_compute; reflexivity|].
  repeat split; vm_compute; reflexivity.
Qed.

(** C6, amended.  With credentials in place, when the incremental sync
    started by [get_all_action_items] throws, the tool catches it and reads
    the cache as the sync left it.  When the statement of [getAllActionItems]
    returns, the tool answers, not as an error, with a text that holds the
    line of every cached action item that has a cached note and passes the
    filters, [- [ ] content (@assignee) [due: date]], under a heading with
    the title and date of a listed item of the same note; when no item
    passes, the text is the "no action items" text, which reports the sync
    failure with its message whenever the message is not empty; when some
    item passes, the text is the listing and depends on the arguments and the
    rows only.  When the statement raises (an [assignee] filter over the
    limit of LIKE), the tool answers with that error, flagged as an error. *)
Theorem get_all_action_items_answers_from_cache
  (argv : list string) (env : Cli.Env) (connect : Cli.Config -> FellowClient.t)
  (clk : nat -> string) (fuel : nat) (config : Cli.Config)
  (args : ActionItemsArgs.t) (w w' : World) (e : string)
  (Hclient : Cli.parseArgs argv env = Ok config)
  (Hsync : performIncrementalSync clk (connect config) fuel w = Thrown e w') :
  match getAllActionItems (db w') (filters_of args) with
  | Ok rows =>
      exists text,
        Server.CallTool argv env connect clk fuel
          (Server.call_get_all_action_items args) w
        = Returned (ToolResult.mk text false) w'
        /\ (rows = [] ->
            text = "No action items found matching the criteria."
                   ++ (if Js.truthy (Some e)
                       then nl ++ nl ++ warning_sign ++ " Sync error: " ++ e else "")
                   ++ nl ++ nl ++ "DB stats: "
                   ++ Js.ofNat (List.length (notes (db w'))) ++ " notes, "
                   ++ Js.ofNat (List.length (action_items (db w')))
                   ++ " action items total."
            /\ (e <> "" -> Js.includes ("Sync error: " ++ e) text = true))
        /\ (rows <> [] -> text = render_action_items args rows)
        /\ (forall row, In row rows ->
              Js.includes
                ("- "
                 ++ (if StoredActionItem.is_completed (ActionItemRow.item row)
                     then "[x]" else "[ ]")
                 ++ " " ++ StoredActionItem.content (ActionItemRow.item row)
                 ++ match StoredActionItem.assignee (ActionItemRow.item row) with
                    | Some (String c who) => " (@" ++ String c who ++ ")"
                    | _ => ""
                    end
                 ++ match StoredActionItem.due_date (ActionItemRow.item row) with
                    | Some (String c due) => " [due: " ++ String c due ++ "]"
                    | _ => ""
                    end
                 ++ nl) text = true
              /\ exists first,
                   In first rows
                   /\ StoredActionItem.note_id (ActionItemRow.item first)
                      = StoredActionItem.note_id (ActionItemRow.item row)
                   /\ Js.includes
                        ("## " ++ ActionItemRow.note_title first ++ nl ++ "Date: "
                         ++ match ActionItemRow.event_start first with
                            | Some start => start
                            | None => "N/A"
                            end
                         ++ nl ++ nl) text = true)
        /\ (forall a n,
              In a (action_items (db w')) -> In n (notes (db w')) ->
              StoredNote.id n = StoredActionItem.note_id a ->
              (forall who, ActionItemsArgs.assignee args = Some who -> who <> "" ->
                 exists whose,
                   StoredActionItem.assignee a = Some whose
                   /\ Sql.like ("%" ++ who ++ "%") whose = true) ->
              (ActionItemsArgs.show_completed args = Some true
               \/ StoredActionItem.is_completed a = false) ->
              (forall since, ActionItemsArgs.since args = Some since -> since <> "" ->
                 exists start,
                   StoredNote.event_start n = Some start
                   /\ String.leb since start = true) ->
              In (ActionItemRow.mk a (StoredNote.title n) (StoredNote.event_start n))
                 rows)
  | Err q =>
      Server.CallTool argv env connect clk fuel
        (Server.call_get_all_action_items args) w
      = Returned (ToolResult.mk ("Error: " ++ q) true) w'
      /\ q = "LIKE or GLOB pattern too complex"
      /\ exists who,
           ActionItemsArgs.assignee args = Some who
           /\ (50000 < Sql.utf8_bytes ("%" ++ who ++ "%"))%N
           /\ action_items (db w') <> []
  end.
Proof.
  rewrite (CallTool_with_client argv env connect clk fuel config _ w Hclient).
  rewrite (get_all_action_items_after_failed_sync _ _ _ args _ _ _ Hsync).
  destruct (getAllActionItems (db w') (filters_of args)) as [rows|q] eqn:G.
  - pose proof (getAllActionItems_rows _ _ _ G) as R.
    assert (Hcomplete : forall a n,
              In a (action_items (db w')) -> In n (notes (db w')) ->
              StoredNote.id n = StoredActionItem.note_id a ->
              (forall who, ActionItemsArgs.assignee args = Some who -> who <> "" ->
                 exists whose,
                   StoredActionItem.assignee a = Some whose
                   /\ Sql.like ("%" ++ who ++ "%") whose = true) ->
              (ActionItemsArgs.show_completed args = Some true
               \/ StoredActionItem.is_completed a = false) ->
              (forall since, ActionItemsArgs.since args = Some since -> since <> "" ->
                 exists start,
                   StoredNote.event_start n = Some start
                   /\ String.leb since start = true) ->
              In (ActionItemRow.mk a (StoredNote.title n) (StoredNote.event_start n))
                 rows).
    { intros a n Ha Hn Hid Hwho Hdone Hsince. rewrite R.
      apply action_item_rows_complete; try assumption.
      - unfold filters_of. cbn [ActionItemFilters.assignee].
        destruct (ActionItemsArgs.assignee args) as [who|]; [|discriminate].
        destruct who as [|c who]; [discriminate|]. intros _.
        destruct (Hwho _ eq_refl) as (whose & -> & L); [discriminate|].
        exact L.
      - unfold filters_of. cbn [ActionItemFilters.is_completed].
        destruct Hdone as [-> | Hdone]; [discriminate|].
        destruct (Js.nullish (ActionItemsArgs.show_completed args) false);
          [discriminate|].
        intros flag Hf. congruence.
      - unfold filters_of. cbn [ActionItemFilters.since].
        destruct (ActionItemsArgs.since args) as [since|]; [|discriminate].
        destruct since as [|c since]; [discriminate|]. intros _.
        destruct (Hsince _ eq_refl) as (start & -> & L); [discriminate|].
        exact L. }
    destruct rows as [|row0 rows].
    + cbn [List.length Nat.eqb].
      eexists. split; [reflexivity|]. split; [|split; [|split]].
      * intros _. split.
        -- unfold render_no_action_items, getStats.
           cbn [Stats.notes Stats.action_items Js.nullish]. reflexivity.
        -- intros Hne. unfold render_no_action_items.
           assert (T : Js.truthy (Some e) = true).
           { unfold Js.truthy. destruct e; [congruence|reflexivity]. }
           rewrite T. cbn [Js.nullish].
           apply includes_append_l.
           apply (includes_inside _ _ (nl ++ nl ++ warning_sign ++ " ")
                    (nl ++ nl ++ "DB stats: "
                     ++ Js.ofNat (Stats.notes (getStats (db w'))) ++ " notes, "
                     ++ Js.ofNat (Stats.action_items (getStats (db w')))
                     ++ " action items total.")).
           now rewrite !append_assoc.
      * intros H. now contradiction H.
      * intros row [].
      * exact Hcomplete.
    + cbn [List.length Nat.eqb].
      eexists. split; [reflexivity|]. split; [|split; [|split]].
      * discriminate.
      * reflexivity.
      * intros row Hin.
        destruct (render_action_items_lists args _ row Hin) as [Hline Hhead].
        split.
        -- unfold render_item in Hline. cbv zeta in Hline.
           destruct (StoredActionItem.assignee (ActionItemRow.item row)) as [[|c who]|];
             destruct (StoredActionItem.due_date (ActionItemRow.item row)) as [[|c' due]|];
             exact Hline.
        -- destruct Hhead as (first & Hf & Hk & Hh). exists first.
           split; [assumption|]. split; [exact Hk|].
           destruct (ActionItemRow.event_start first); exact Hh.
      * exact Hcomplete.
  - split; [reflexivity|].
    unfold getAllActionItems in G.
    destruct (Js.truthy (ActionItemFilters.assignee (filters_of args))) eqn:T;
      cbn [andb] in G; [|discriminate].
    destruct (Sql.like_refused _) eqn:B; cbn [andb] in G; [|discriminate].
    destruct (_ || _) eqn:L; [|discriminate].
    split; [unfold Sql.pattern_too_complex in G; congruence|].
    unfold filters_of in T, B. cbn [ActionItemFilters.assignee] in T, B.
    destruct (ActionItemsArgs.assignee args) as [who|]; [|discriminate].
    exists who. split; [reflexivity|]. split.
    + cbn [Js.nullish] in B. unfold Sql.like_refused, Sql.LIKE_PATTERN_LENGTH in B.
      now apply N.ltb_lt in B.
    + intros Hnone. apply orb_true_iff in L. destruct L as [L|L].
      * apply existsb_exists in L. destruct L as (r & Hr & _).
        unfold joined_action_items in Hr. rewrite Hnone in Hr. contradiction.
      * rewrite Hnone in L. discriminate.
Qed.

Lemma get_all_action_items_answers_from_cache_witness :
  match getAllActionItems db_cached_item
          (filters_of (ActionItemsArgs.mk (Some "bob") None None)) with
  | Ok rows =>
      exists text,
        Server.CallTool Server.argv_with_flags (Cli.mkEnv None None)
          (fun _ => failing_client) clock 5
          (Server.call_get_all_action_items (ActionItemsArgs.mk (Some "bob") None None))
          (mkWorld db_cached_item 0)
        = Returned (ToolResult.mk text false) (mkWorld db_cached_item 0)
        /\ (rows = [] -> Js.includes ("Sync error: " ++ api_error) text = true)
  | Err _ => False
  end.
Proof.
  pose proof (get_all_action_items_answers_from_cache
                Server.argv_with_flags (Cli.mkEnv None None) (fun _ => failing_client)
                clock 5 (Cli.mkConfig "k" "acme")
                (ActionItemsArgs.mk (Some "bob") None None)
                (mkWorld db_cached_item 0) (mkWorld db_cached_item 0) api_error
                eq_refl eq_refl) as K.
  change (db (mkWorld db_cached_item 0)) with db_cached_item in K.
  assert (E : getAllActionItems db_cached_item
                (filters_of (ActionItemsArgs.mk (Some "bob") None None)) = Ok [])
    by (vm_compute; reflexivity).
  rewrite E in K. rewrite E.
  destruct K as (text & Hrun & Hnone & _). exists text. split; [exact Hrun|].
  intros Hrows. apply (proj2 (Hnone Hrows)). discriminate.
Defined.

End ActionItemsTool.

(* ------------------------------------------------------------------ *)
(** * What a pass brings into the cache *)

Section Caching.
Import FellowDatabase Sync Spec Laws Paging Fixtures.

Lemma kept_and (J1 J2 : FellowDatabase.t -> Prop) :
  kept_by_statements J1 -> kept_by_statements J2 ->
  kept_by_statements (fun d => J1 d /\ J2 d).
Proof.
  intros (A1 & A2 & A3 & A4 & A5 & A6 & A7) (B1 & B2 & B3 & B4 & B5 & B6 & B7).
  unfold kept_by_statements. repeat split; intros;
    match goal with H : _ /\ _ |- _ => destruct H end; eauto.
Qed.

Lemma kept_if (C : Prop) (J : FellowDatabase.t -> Prop) :
  kept_by_statements J -> kept_by_statements (fun d => C -> J d).
Proof.
  intros (A1 & A2 & A3 & A4 & A5 & A6 & A7).
  unfold kept_by_statements. repeat split; intros; eauto.
Qed.

Lemma is_cached_kept (i : string) : kept_by_statements (is_cached i).
Proof.
  unfold kept_by_statements, is_cached. repeat split.
  - intros d n now H.
    destruct (string_dec i (StoredNote.id n)) as [->|Hne].
    + destruct (getNote_upsertNote_same d n now) as (s & Gs & _). now rewrite Gs.
    + now rewrite getNote_upsertNote_other.
  - intros d j H. exact H.
  - intros d x d' H Hx. apply insertActionItem_rows in Hx.
    destruct Hx as (_ & _ & Hn & _). unfold getNote in *. now rewrite Hn.
  - intros d j H. exact H.
  - intros d j e d' H Hx. unfold insertParticipant in Hx.
    destruct (has_participant d j e); [inversion Hx; subst; exact H|].
    destruct (references_note d _); inversion Hx; subst. exact H.
  - intros d r now d' H _ Hx. unfold upsertRecording in Hx.
    destruct (references_note d _); inversion Hx; subst. exact H.
  - intros d time H. exact H.
Qed.

Lemma brought_kept (note : Note.t) : kept_by_statements (brought note).
Proof.
  apply kept_and; [apply is_cached_kept|apply kept_if, has_content_kept].
Qed.

Lemma sync_note_tail_keeps (J : FellowDatabase.t -> Prop) (clk : nat -> string)
  (note : Note.t) (r : SyncResult.t) :
  kept_by_statements J ->
  triple (fun w => J (db w))
         (bind (store_action_items clk note r) (store_participants note))
         (fun _ w => J (db w)) (fun w => J (db w)).
Proof.
  intros (H1 & H2 & H3 & H4 & H5 & H6 & H7).
  unfold store_action_items, store_participants.
  eapply triple_bind with (R := fun _ w => J (db w)).
  { destruct (Js.truthy (Note.content_markdown note)).
    - eapply triple_bind with (R := fun _ w => J (db w)).
      + apply triple_run. intros w Hw. apply H2. exact Hw.
      + intros _. eapply triple_bind with (R := fun _ w => J (db w)).
        * apply triple_await. auto.
        * intros items. apply triple_for_of with (I := fun _ w => J (db w)).
          intros x st _. now apply store_action_item_keeps.
    - apply triple_ret. auto. }
  intros r'. destruct (Note.event_attendees note) as [attendees|].
  - destruct (0 <? List.length attendees)%nat.
    + eapply triple_bind with (R := fun _ w => J (db w)).
      * apply triple_run. intros w Hw. apply H4. exact Hw.
      * intros _. apply triple_for_of with (I := fun _ w => J (db w)).
        intros x st _. now apply store_participant_keeps.
    + apply triple_ret. auto.
  - apply triple_ret. auto.
Qed.

Lemma sync_note_brings (clk : nat -> string) (note : Note.t) (r r' : SyncResult.t)
  (w w' : World) :
  sync_note clk note r w = Returned r' w' -> brought note (db w').
Proof.
  unfold sync_note. unfold bind at 1.
  unfold store_note, bind at 1, new_Date_toISOString, run. cbn [db ticks].
  set (stored := StoredNote.mk _ _ _ _ _ _ _ _ _ _).
  set (w1 := mkWorld _ _). intros H.
  assert (H1 : brought note (db w1)).
  { unfold w1, brought, is_cached, has_content. cbn [db].
    destruct (getNote_upsertNote_same (db w) stored (clk (ticks w))) as (s & Gs & _ & Cs).
    change (StoredNote.id stored) with (Note.id note) in Gs.
    rewrite Gs. split; [discriminate|].
    intros Hc. exists s. split; [reflexivity|]. rewrite Cs.
    change (StoredNote.content_markdown stored) with (Note.content_markdown note).
    destruct (Note.content_markdown note); [discriminate|contradiction]. }
  pose proof (sync_note_tail_keeps (brought note) clk note (SyncResult.incr_notes r)
                (brought_kept note)) as K.
  specialize (K w1 H1).
  change (bind (store_action_items clk note (SyncResult.incr_notes r))
               (store_participants note) w1 = Returned r' w') in H.
  unfold triple in K. rewrite H in K. exact K.
Qed.

Lemma for_of_sync_note_brings (clk : nat -> string) (note : Note.t)
  (listed : list Note.t) :
  forall (r r' : SyncResult.t) (w w' : World),
    for_of listed (sync_note clk) r w = Returned r' w' ->
    In note listed -> brought note (db w').
Proof.
  destruct (brought_kept note) as (H1 & H2 & H3 & H4 & H5 & H6 & H7).
  induction listed as [|x rest IH]; intros r r' w w' H Hin; [contradiction|].
  simpl in H. unfold bind at 1 in H.
  destruct (sync_note clk x r w) as [r1 w1|e w1|w1] eqn:E; try discriminate.
  destruct Hin as [->|Hin].
  - apply sync_note_brings in E.
    assert (K : triple (fun w => brought note (db w))
                  (for_of rest (sync_note clk) r1)
                  (fun _ w => brought note (db w)) (fun w => brought note (db w))).
    { apply triple_for_of with (I := fun _ w => brought note (db w)).
      intros y st _. now apply sync_note_keeps. }
    specialize (K w1 E). rewrite H in K. exact K.
  - exact (IH _ _ _ _ H Hin).
Qed.

Lemma notes_loop_brings (clk : nat -> string) (client : FellowClient.t)
  (since : option string) (note : Note.t) (fuel : nat) :
  forall (cursor : option string) (r r' : SyncResult.t) (w w' : World)
         (page : Page.t Note.t),
    notes_loop clk client fuel since cursor r w = Returned r' w' ->
    pages_from client since cursor page -> In note (Page.data page) ->
    brought note (db w').
Proof.
  destruct (brought_kept note) as (H1 & H2 & H3 & H4 & H5 & H6 & H7).
  induction fuel as [|fuel IH]; intros cursor r r' w w' page H Hp Hin; [discriminate|].
  simpl in H. unfold bind at 1, await in H.
  destruct (FellowClient.listNotes client _) as [page0|e] eqn:L; [|discriminate].
  unfold bind at 1 in H.
  destruct (for_of (Page.data page0) (sync_note clk) r w) as [r1 w1|e w1|w1] eqn:F;
    try discriminate.
  inversion Hp as [c p Hl|c p later Hl Ht Hlater]; subst.
  - rewrite L in Hl. inversion Hl; subst page0.
    pose proof (for_of_sync_note_brings clk note _ _ _ _ _ F Hin) as B.
    destruct (Js.truthy (Page.cursor page)).
    + assert (K : triple (fun w => brought note (db w))
                    (notes_loop clk client fuel since (Page.cursor page) r1)
                    (fun _ w => brought note (db w)) (fun w => brought note (db w)))
        by now apply notes_loop_keeps.
      specialize (K w1 B). rewrite H in K. exact K.
    + inversion H; subst. exact B.
  - rewrite L in Hl. inversion Hl; subst page0. rewrite Ht in H.
    exact (IH _ _ _ _ _ _ H Hlater Hin).
Qed.

(** X18. A pass that returns has brought every listed note into the cache:
    each note on each page of notes the remote sends along the chain of
    cursors is stored when the pass ends, and stored with content when the
    listing carried content for it. *)
Theorem sync_caches_every_listed_note
  (clk : nat -> string) (client : FellowClient.t) (fuel : nat)
  (options : SyncOptions.t) (w w' : World) (result : SyncResult.t)
  (page : Page.t Note.t) (note : Note.t)
  (Hret : syncNotesFromApi clk client fuel options w = Returned result w')
  (Hpage : pages_from client (SyncOptions.since options) None page)
  (Hin : In note (Page.data page)) :
  is_cached (Note.id note) (db w')
  /\ (Note.content_markdown note <> None -> has_content (Note.id note) (db w')).
Proof.
  destruct (brought_kept note) as (H1 & H2 & H3 & H4 & H5 & H6 & H7).
  unfold syncNotesFromApi in Hret. unfold bind at 1 in Hret.
  destruct (sync_pages clk client fuel options w) as [r mid|e mid|mid] eqn:P;
    try discriminate.
  unfold bind, new_Date_toISOString, run, ret in Hret. inversion Hret; subst.
  cbn [db]. apply H7.
  unfold sync_pages in P. unfold bind at 1 in P.
  destruct (notes_loop clk client fuel (SyncOptions.since options) None SyncResult.zero w)
    as [r1 w1|e w1|w1] eqn:N; try discriminate.
  pose proof (notes_loop_brings clk client _ note fuel _ _ _ _ _ page N Hpage Hin) as B.
  assert (K : triple (fun w => brought note (db w))
                (recordings_loop clk client fuel (SyncOptions.since options)
                   (Js.nullish (SyncOptions.includeTranscripts options) false) None r1)
                (fun _ w => brought note (db w)) (fun w => brought note (db w)))
    by now apply recordings_loop_keeps.
  specialize (K w1 B). rewrite P in K. exact K.
Qed.

Lemma sync_caches_every_listed_note_witness :
  is_cached (Note.id note_retro) (db two_page_world)
  /\ (Note.content_markdown note_retro <> None
      -> has_content (Note.id note_retro) (db two_page_world)).
Proof.
  assert (E : syncNotesFromApi clock two_page_client 5 SyncOptions.default fresh
              = Returned (SyncResult.mk 2 1 2 3) two_page_world)
    by (vm_compute; reflexivity).
  exact (sync_caches_every_listed_note clock two_page_client 5 SyncOptions.default
           fresh two_page_world (SyncResult.mk 2 1 2 3)
           (Page.mk None 50 [note_retro]) note_retro E
           (@Paging.page_next two_page_client None None
              (Page.mk (Some "p2") 50 [note_weekly]) (Page.mk None 50 [note_retro])
              eq_refl eq_refl
              (@Paging.page_here two_page_client None (Some "p2")
                 (Page.mk None 50 [note_retro]) eq_refl))
           (or_introl eq_refl)).
Defined.

End Caching.

(* ------------------------------------------------------------------ *)
(** * A pass that fails, a pass that returns *)

Section SyncPass.
Import FellowDatabase Sync Spec Laws Paging Requests Fixtures.

Variable clk : nat -> string.
Variable client : FellowClient.t.

Lemma returns_ret {A} (P : World -> Prop) (a : A) : returns P (ret a).
Proof. intros w Hw. now exists a, w. Qed.

Lemma returns_bind {A B} (P : World -> Prop) (m : M A) (k : A -> M B) :
  returns P m -> (forall a, returns P (k a)) -> returns P (bind m k).
Proof.
  intros Hm Hk w Hw. destruct (Hm w Hw) as (a & w1 & E & H1).
  destruct (Hk a w1 H1) as (b & w2 & E2 & H2).
  exists b, w2. unfold bind. rewrite E. auto.
Qed.

Lemma returns_for_of {A S} (P : World -> Prop) (xs : list A) (body : A -> S -> M S) :
  (forall x st, returns P (body x st)) -> forall st, returns P (for_of xs body st).
Proof.
  intros Hbody. induction xs as [|x rest IH]; intros st; simpl.
  - apply returns_ret.
  - apply returns_bind; [apply Hbody|exact IH].
Qed.

Lemma references_cached (i : string) (d : t) :
  is_cached i d -> references_note d (Some i) = true.
Proof.
  unfold is_cached, references_note. intros H.
  destruct (getNote d i); [apply orb_true_r|contradiction].
Qed.

Lemma store_action_item_returns (i : string) (item : ParsedActionItem.t)
  (r : SyncResult.t) :
  returns (fun w => is_cached i (db w)) (store_action_item clk i item r).
Proof.
  destruct (is_cached_kept i) as (_ & _ & H3 & _).
  intros w Hw. unfold store_action_item, bind, new_Date_toISOString, run_checked, ret.
  cbn [db ticks].
  match goal with
  | |- context [insertActionItem ?d ?x] => destruct (insertActionItem d x) as [d'|e] eqn:E
  end.
  - eexists _, _. split; [reflexivity|]. cbn [db]. exact (H3 _ _ _ Hw E).
  - exfalso. unfold insertActionItem in E. cbn [StoredActionItem.note_id] in E.
    rewrite (references_cached _ _ Hw) in E. discriminate.
Qed.

Lemma store_participant_returns (i email : string) (r : SyncResult.t) :
  returns (fun w => is_cached i (db w)) (store_participant i email r).
Proof.
  destruct (is_cached_kept i) as (_ & _ & _ & _ & H5 & _).
  intros w Hw. unfold store_participant.
  destruct (Js.truthy (Some email) && Js.truthy (Some (Js.trim email)));
    [|now eexists _, _].
  unfold bind, run_checked, ret.
  destruct (insertParticipant (db w) i (Js.trim email)) as [d'|e] eqn:E.
  - eexists _, _. split; [reflexivity|]. cbn [db]. exact (H5 _ _ _ _ Hw E).
  - exfalso. unfold insertParticipant in E.
    destruct (has_participant (db w) i (Js.trim email)); [discriminate|].
    rewrite (references_cached _ _ Hw) in E. discriminate.
Qed.

(** The body of the notes loop has no way to fail: the extractor is total,
    and the rows it writes refer to the note it has just stored. *)
Lemma sync_note_returns (note : Note.t) (r : SyncResult.t) (w : World) :
  exists r' w', sync_note clk note r w = Returned r' w'.
Proof.
  destruct (is_cached_kept (Note.id note)) as (_ & H2 & _ & H4 & _).
  unfold sync_note. unfold bind at 1.
  unfold store_note, bind at 1, new_Date_toISOString, run. cbn [db ticks].
  set (stored := StoredNote.mk _ _ _ _ _ _ _ _ _ _).
  set (w1 := mkWorld _ _).
  assert (H1 : is_cached (Note.id note) (db w1)).
  { unfold w1, is_cached. cbn [db].
    destruct (getNote_upsertNote_same (db w) stored (clk (ticks w))) as (s & Gs & _).
    change (StoredNote.id stored) with (Note.id note) in Gs. now rewrite Gs. }
  assert (K : returns (fun w => is_cached (Note.id note) (db w))
                (bind (store_action_items clk note (SyncResult.incr_notes r))
                      (store_participants note))).
  { apply returns_bind.
    - unfold store_action_items.
      destruct (Js.truthy (Note.content_markdown note)); [|apply returns_ret].
      apply returns_bind.
      + intros w0 Hw0. eexists _, _. split; [reflexivity|]. cbn [db]. now apply H2.
      + intros _. unfold Extractor.extractActionItems.
        destruct (extract_lines_total
                    (Js.split "010" (Js.nullish (Note.content_markdown note) "")))
          as (items & -> & _).
        apply returns_bind.
        * intros w0 Hw0. now exists items, w0.
        * intros items'. apply returns_for_of. intros x st.
          apply store_action_item_returns.
    - intros r1. unfold store_participants.
      destruct (Note.event_attendees note) as [attendees|]; [|apply returns_ret].
      destruct (0 <? List.length attendees)%nat; [|apply returns_ret].
      apply returns_bind.
      + intros w0 Hw0. eexists _, _. split; [reflexivity|]. cbn [db]. now apply H4.
      + intros _. apply returns_for_of. intros x st. apply store_participant_returns. }
  destruct (K w1 H1) as (r' & w' & E & _). now exists r', w'.
Qed.

Lemma for_of_sync_note_returns (listed : list Note.t) :
  forall (r : SyncResult.t) (w : World),
    exists r' w', for_of listed (sync_note clk) r w = Returned r' w'.
Proof.
  induction listed as [|x rest IH]; intros r w; simpl.
  - now exists r, w.
  - unfold bind. destruct (sync_note_returns x r w) as (r1 & w1 & ->). apply IH.
Qed.

(** A request of the notes loop that the remote refuses makes the loop
    throw the remote's error, whichever page it is for. *)
Lemma notes_loop_throws (since cursor asked : option string) (n : nat) (e : string) :
  notes_asked client since cursor n asked ->
  FellowClient.listNotes client (ListNotesOptions.mk since true true asked pageSize)
  = Err e ->
  forall (fuel : nat) (r : SyncResult.t) (w : World),
    n < fuel ->
    exists w', notes_loop clk client fuel since cursor r w = Thrown e w'.
Proof.
  intros Hasked He. induction Hasked as [cursor|cursor page n asked Hl Ht _ IH];
    intros fuel r w Hn.
  - destruct fuel as [|fuel]; [lia|]. simpl. unfold bind, await. rewrite He.
    now exists w.
  - destruct fuel as [|fuel]; [lia|]. simpl. unfold bind at 1, await. rewrite Hl.
    unfold bind at 1.
    destruct (for_of_sync_note_returns (Page.data page) r w) as (r1 & w1 & ->).
    rewrite Ht. apply IH; [exact He|lia].
Qed.

(** When the remote's pages of notes come to an end within the fuel, the
    notes loop returns. *)
Lemma notes_loop_returns (since cursor asked : option string) (n : nat)
  (last : Page.t Note.t) :
  notes_asked client since cursor n asked ->
  FellowClient.listNotes client (ListNotesOptions.mk since true true asked pageSize)
  = Ok last ->
  Js.truthy (Page.cursor last) = false ->
  forall (fuel : nat) (r : SyncResult.t) (w : World),
    n < fuel ->
    exists r' w', notes_loop clk client fuel since cursor r w = Returned r' w'.
Proof.
  intros Hasked Hlast Hend.
  induction Hasked as [cursor|cursor page n asked Hl Ht _ IH]; intros fuel r w Hn.
  - destruct fuel as [|fuel]; [lia|]. simpl. unfold bind at 1, await. rewrite Hlast.
    unfold bind at 1.
    destruct (for_of_sync_note_returns (Page.data last) r w) as (r1 & w1 & ->).
    rewrite Hend. now exists r1, w1.
  - destruct fuel as [|fuel]; [lia|]. simpl. unfold bind at 1, await. rewrite Hl.
    unfold bind at 1.
    destruct (for_of_sync_note_returns (Page.data page) r w) as (r1 & w1 & ->).
    rewrite Ht. apply IH; [exact Hlast|lia].
Qed.

Lemma sync_recording_ends (recording : Recording.t) (r : SyncResult.t) :
  returns_or_violates (sync_recording clk recording r).
Proof.
  intros w. unfold sync_recording, bind, query, ret.
  destruct (Js.truthy (Recording.note_id recording) && _).
  - left. now eexists _, _.
  - unfold new_Date_toISOString, run_checked. cbn [db ticks].
    match goal with
    | |- context [upsertRecording ?d ?row ?now] =>
        destruct (upsertRecording d row now) as [d'|e] eqn:U
    end.
    + left. now eexists _, _.
    + right. unfold upsertRecording in U.
      destruct (references_note _ _); [discriminate|].
      inversion U. now eexists.
Qed.

Lemma for_of_sync_recording_ends (listed : list Recording.t) :
  forall r : SyncResult.t, returns_or_violates (for_of listed (sync_recording clk) r).
Proof.
  induction listed as [|x rest IH]; intros r w; simpl.
  - left. now exists r, w.
  - unfold bind.
    destruct (sync_recording_ends x r w) as [(r1 & w1 & ->)|(w1 & ->)].
    + apply IH.
    + right. now exists w1.
Qed.

(** A request of the recordings loop that the remote refuses makes the loop
    throw: the remote's error, unless a recording listed before has already
    made it throw. *)
Lemma recordings_loop_throws (since : option string) (tr : bool)
  (cursor asked : option string) (n : nat) (e : string) :
  recordings_asked client since tr cursor n asked ->
  FellowClient.listRecordings client (ListRecordingsOptions.mk since tr asked pageSize)
  = Err e ->
  forall (fuel : nat) (r : SyncResult.t) (w : World),
    n < fuel ->
    exists e' w',
      recordings_loop clk client fuel since tr cursor r w = Thrown e' w'
      /\ (e' = e \/ e' = FOREIGN_KEY_failed).
Proof.
  intros Hasked He. induction Hasked as [cursor|cursor page n asked Hl Ht _ IH];
    intros fuel r w Hn.
  - destruct fuel as [|fuel]; [lia|]. simpl. unfold bind, await. rewrite He.
    exists e, w. auto.
  - destruct fuel as [|fuel]; [lia|]. simpl. unfold bind at 1, await. rewrite Hl.
    unfold bind at 1.
    destruct (for_of_sync_recording_ends (Page.data page) r w) as [(r1 & w1 & ->)|(w1 & ->)].
    + rewrite Ht. apply IH; [exact He|lia].
    + exists FOREIGN_KEY_failed, w1. auto.
Qed.

Lemma notes_kept_by_upsertRecording_guarded (N : list StoredNote.t) :
  forall (d : t) (r : StoredRecording.t) (now : string) (d' : t),
    notes d = N ->
    (Js.truthy (StoredRecording.note_id r) = true ->
     is_none (getNote d (Js.nullish (StoredRecording.note_id r) "")) = false) ->
    upsertRecording d r now = Ok d' -> notes d' = N.
Proof.
  intros d r now d' H _ U. unfold upsertRecording in U.
  destruct (references_note d _); [|discriminate].
  assert (E : d' = with_recordings d
                     (upsert_recording_rows
                        (StoredRecording.mk (StoredRecording.id r)
                           (StoredRecording.note_id r) (StoredRecording.title r)
                           (StoredRecording.created_at r) (StoredRecording.updated_at r)
                           (StoredRecording.event_start r) (StoredRecording.event_end r)
                           (StoredRecording.recording_start r)
                           (StoredRecording.recording_end r)
                           (StoredRecording.event_guid r) (StoredRecording.call_url r)
                           (StoredRecording.transcript_json r) now)
                        (recordings d))) by congruence.
  rewrite E. exact H.
Qed.

Lemma is_stored_upsert_rows (i : string) (e : StoredRecording.t)
  (rows : list StoredRecording.t) :
  find (fun r => StoredRecording.id r =? i) rows <> None ->
  find (fun r => StoredRecording.id r =? i) (upsert_recording_rows e rows) <> None.
Proof.
  induction rows as [|r rest IH]; simpl; [congruence|].
  destruct (StoredRecording.id r =? StoredRecording.id e) eqn:E; simpl.
  - destruct (StoredRecording.id r =? i); [discriminate|auto].
  - destruct (StoredRecording.id r =? i); [discriminate|auto].
Qed.

Lemma is_stored_kept_guarded (i : string) :
  forall (d : t) (r : StoredRecording.t) (now : string) (d' : t),
    is_stored i d ->
    (Js.truthy (StoredRecording.note_id r) = true ->
     is_none (getNote d (Js.nullish (StoredRecording.note_id r) "")) = false) ->
    upsertRecording d r now = Ok d' -> is_stored i d'.
Proof.
  unfold is_stored, getRecording. intros d r now d' H _ U. unfold upsertRecording in U.
  destruct (references_note d _); [|discriminate].
  inversion U as [E]. cbn [recordings with_recordings].
  now apply is_stored_upsert_rows.
Qed.

Lemma sync_recording_stores (recording : Recording.t) (r r' : SyncResult.t)
  (w w' : World) :
  sync_recording clk recording r w = Returned r' w' ->
  (Js.truthy (Recording.note_id recording) = true ->
   is_cached (Js.nullish (Recording.note_id recording) "") (db w)) ->
  is_stored (Recording.id recording) (db w').
Proof.
  unfold sync_recording, bind, query, ret. intros H Hcached.
  destruct (Js.truthy (Recording.note_id recording)) eqn:T; cbn [andb] in H.
  - specialize (Hcached eq_refl). unfold is_cached in Hcached.
    destruct (getNote (db w) (Js.nullish (Recording.note_id recording) ""));
      [|contradiction].
    unfold new_Date_toISOString, run_checked in H. cbn [db ticks] in H.
    match type of H with
    | context [upsertRecording ?d ?row ?now] =>
        destruct (upsertRecording d row now) as [d'|e] eqn:U; [|discriminate]
    end.
    assert (Hw : w' = mkWorld d' (S (ticks w))) by congruence. subst w'. cbn [db].
    destruct (getRecording_upsertRecording_same _ _ _ _ U) as (s & G & _).
    unfold is_stored. cbn [StoredRecording.id] in G. now rewrite G.
  - unfold new_Date_toISOString, run_checked in H. cbn [db ticks] in H.
    match type of H with
    | context [upsertRecording ?d ?row ?now] =>
        destruct (upsertRecording d row now) as [d'|e] eqn:U; [|discriminate]
    end.
    assert (Hw : w' = mkWorld d' (S (ticks w))) by congruence. subst w'. cbn [db].
    destruct (getRecording_upsertRecording_same _ _ _ _ U) as (s & G & _).
    unfold is_stored. cbn [StoredRecording.id] in G. now rewrite G.
Qed.

Lemma for_of_sync_recording_stores (recording : Recording.t)
  (listed : list Recording.t) :
  forall (r r' : SyncResult.t) (w w' : World),
    for_of listed (sync_recording clk) r w = Returned r' w' ->
    In recording listed ->
    (Js.truthy (Recording.note_id recording) = true ->
     is_cached (Js.nullish (Recording.note_id recording) "") (db w')) ->
    is_stored (Recording.id recording) (db w').
Proof.
  induction listed as [|x rest IH]; intros r r' w w' H Hin Hcached; [contradiction|].
  simpl in H. unfold bind at 1 in H.
  destruct (sync_recording clk x r w) as [r1 w1|e w1|w1] eqn:E; try discriminate.
  assert (N1 : notes (db w1) = notes (db w)).
  { pose proof (sync_recording_keeps clk (fun d => notes d = notes (db w))
                  (notes_kept_by_upsertRecording_guarded (notes (db w))) x r w eq_refl) as K.
    rewrite E in K. exact K. }
  assert (N' : notes (db w') = notes (db w1)).
  { assert (K : triple (fun w0 => notes (db w0) = notes (db w1))
                  (for_of rest (sync_recording clk) r1)
                  (fun _ w0 => notes (db w0) = notes (db w1))
                  (fun w0 => notes (db w0) = notes (db w1))).
    { apply triple_for_of with (I := fun _ w0 => notes (db w0) = notes (db w1)).
      intros y st _.
      apply (sync_recording_keeps clk (fun d => notes d = notes (db w1))
               (notes_kept_by_upsertRecording_guarded (notes (db w1)))). }
    specialize (K w1 eq_refl). rewrite H in K. exact K. }
  destruct Hin as [->|Hin].
  - assert (S1 : is_stored (Recording.id recording) (db w1)).
    { apply (sync_recording_stores _ _ _ _ _ E). intros T. specialize (Hcached T).
      unfold is_cached, getNote in *. now rewrite <- N1, <- N'. }
    assert (K : triple (fun w0 => is_stored (Recording.id recording) (db w0))
                  (for_of rest (sync_recording clk) r1)
                  (fun _ w0 => is_stored (Recording.id recording) (db w0))
                  (fun w0 => is_stored (Recording.id recording) (db w0))).
    { apply triple_for_of
        with (I := fun _ w0 => is_stored (Recording.id recording) (db w0)).
      intros y st _.
      apply (sync_recording_keeps clk (fun d => is_stored (Recording.id recording) d)
               (is_stored_kept_guarded (Recording.id recording))). }
    specialize (K w1 S1). rewrite H in K. exact K.
  - exact (IH _ _ _ _ H Hin Hcached).
Qed.

Lemma recordings_loop_stores (since : option string) (tr : bool)
  (recording : Recording.t) (fuel : nat) :
  forall (cursor : option string) (r r' : SyncResult.t) (w w' : World)
         (page : Page.t Recording.t),
    recordings_loop clk client fuel since tr cursor r w = Returned r' w' ->
    recording_pages_from client since tr cursor page ->
    In recording (Page.data page) ->
    (Js.truthy (Recording.note_id recording) = true ->
     is_cached (Js.nullish (Recording.note_id recording) "") (db w')) ->
    is_stored (Recording.id recording) (db w').
Proof.
  induction fuel as [|fuel IH]; intros cursor r r' w w' page H Hp Hin Hcached;
    [discriminate|].
  simpl in H. unfold bind at 1, await in H.
  destruct (FellowClient.listRecordings client _) as [page0|e] eqn:L; [|discriminate].
  unfold bind at 1 in H.
  destruct (for_of (Page.data page0) (sync_recording clk) r w) as [r1 w1|e w1|w1] eqn:F;
    try discriminate.
  inversion Hp as [c p Hl|c p later Hl Ht Hlater]; subst.
  - rewrite L in Hl. inversion Hl; subst page0.
    destruct (Js.truthy (Page.cursor page)).
    + assert (N' : notes (db w') = notes (db w1)).
      { pose proof (recordings_loop_keeps clk client (fun d => notes d = notes (db w1))
                      (notes_kept_by_upsertRecording_guarded (notes (db w1)))
                      fuel since tr (Page.cursor page) r1 w1 eq_refl) as K.
        rewrite H in K. exact K. }
      assert (S1 : is_stored (Recording.id recording) (db w1)).
      { apply (for_of_sync_recording_stores _ _ _ _ _ _ F Hin). intros T.
        specialize (Hcached T). unfold is_cached, getNote in *. now rewrite <- N'. }
      pose proof (recordings_loop_keeps clk client
                    (fun d => is_stored (Recording.id recording) d)
                    (is_stored_kept_guarded (Recording.id recording))
                    fuel since tr (Page.cursor page) r1 w1 S1) as K.
      rewrite H in K. exact K.
    + assert (Hw : w' = w1) by (unfold ret in H; congruence). subst w'.
      exact (for_of_sync_recording_stores _ _ _ _ _ _ F Hin Hcached).
  - rewrite L in Hl. inversion Hl; subst page0. rewrite Ht in H.
    exact (IH _ _ _ _ _ _ H Hlater Hin Hcached).
Qed.

(** C4. A sync pass writes the watermark once, as its last statement, and
    only when it returns.
    - However the pass ends, the two page loops end the same way and leave
      the watermark as it was.  A pass that throws or is still asking for
      pages leaves it as it was.  A pass that returns has run both loops to
      their end and then set the watermark to the clock reading taken there;
      by then every note of every page of notes the remote sends along the
      chain of cursors is in the cache (with content when it was listed with
      content), and so is every recording of every page of recordings, unless
      it names a note that is not in the cache.
    - When the remote refuses a request for a page of notes, the first or any
      later one, the pass throws the remote's error, returns no result and
      leaves the watermark as it was.
    - When the pages of notes come to an end and the remote refuses a request
      for a page of recordings, the first or any later one, the pass throws,
      the remote's error or that of a foreign key violated by a recording
      listed before, returns no result and leaves the watermark as it was.
    [fuel] bounds the number of pages a loop may ask for. *)
Theorem sync_watermark_written_once_on_success
  (fuel : nat) (options : SyncOptions.t) (w : World) :
  let since := SyncOptions.since options in
  let tr := Js.nullish (SyncOptions.includeTranscripts options) false in
  match syncNotesFromApi clk client fuel options w with
  | Thrown e w' =>
      sync_pages clk client fuel options w = Thrown e w'
      /\ getLastSyncTime (db w') = getLastSyncTime (db w)
  | Returned result w' =>
      (exists mid,
         sync_pages clk client fuel options w = Returned result mid
         /\ getLastSyncTime (db mid) = getLastSyncTime (db w)
         /\ w' = mkWorld (setLastSyncTime (db mid) (clk (ticks mid))) (S (ticks mid))
         /\ getLastSyncTime (db w') = Some (clk (ticks mid)))
      /\ (forall page note,
            pages_from client since None page -> In note (Page.data page) ->
            getNote (db w') (Note.id note) <> None
            /\ (Note.content_markdown note <> None ->
                exists stored,
                  getNote (db w') (Note.id note) = Some stored
                  /\ StoredNote.content_markdown stored <> None))
      /\ (forall page recording,
            recording_pages_from client since tr None page ->
            In recording (Page.data page) ->
            (forall noteId, Recording.note_id recording = Some noteId ->
                            noteId <> "" -> getNote (db w') noteId <> None) ->
            getRecording (db w') (Recording.id recording) <> None)
  | OutOfFuel w' =>
      sync_pages clk client fuel options w = OutOfFuel w'
      /\ getLastSyncTime (db w') = getLastSyncTime (db w)
  end
  /\ (forall n asked e,
         n < fuel ->
         notes_asked client since None n asked ->
         FellowClient.listNotes client (ListNotesOptions.mk since true true asked pageSize)
         = Err e ->
         exists w',
           syncNotesFromApi clk client fuel options w = Thrown e w'
           /\ getLastSyncTime (db w') = getLastSyncTime (db w))
  /\ (forall m last_asked last n asked e,
         m < fuel ->
         notes_asked client since None m last_asked ->
         FellowClient.listNotes client
           (ListNotesOptions.mk since true true last_asked pageSize) = Ok last ->
         Js.truthy (Page.cursor last) = false ->
         n < fuel ->
         recordings_asked client since tr None n asked ->
         FellowClient.listRecordings client
           (ListRecordingsOptions.mk since tr asked pageSize) = Err e ->
         exists e' w',
           syncNotesFromApi clk client fuel options w = Thrown e' w'
           /\ (e' = e \/ e' = "FOREIGN KEY constraint failed")
           /\ getLastSyncTime (db w') = getLastSyncTime (db w)).
Proof.
  intros since tr.
  pose proof (sync_pages_keeps_watermark clk client fuel options w) as K.
  assert (Hthrow : forall e w',
            sync_pages clk client fuel options w = Thrown e w' ->
            syncNotesFromApi clk client fuel options w = Thrown e w'
            /\ getLastSyncTime (db w') = getLastSyncTime (db w)).
  { intros e w' P. unfold syncNotesFromApi, bind. rewrite P in K |- *.
    split; [reflexivity|exact K]. }
  split; [|split].
  - unfold syncNotesFromApi. unfold bind at 1.
    destruct (sync_pages clk client fuel options w) as [r mid|e w'|w'] eqn:P;
      cbn [leaves] in K.
    + unfold bind, new_Date_toISOString, run, ret. cbn [db ticks].
      split; [|split].
      * exists mid. repeat split. exact K.
      * intros page note Hp Hin.
        destruct (brought_kept note) as (H1 & H2 & H3 & H4 & H5 & H6 & H7).
        apply H7.
        unfold sync_pages in P. unfold bind at 1 in P.
        destruct (notes_loop clk client fuel (SyncOptions.since options) None
                    SyncResult.zero w) as [r1 w1|e1 w1|w1] eqn:N; try discriminate.
        pose proof (notes_loop_brings clk client _ note fuel _ _ _ _ _ page N Hp Hin)
          as B.
        assert (R : triple (fun w => brought note (db w))
                      (recordings_loop clk client fuel (SyncOptions.since options)
                         (Js.nullish (SyncOptions.includeTranscripts options) false)
                         None r1)
                      (fun _ w => brought note (db w)) (fun w => brought note (db w)))
          by now apply recordings_loop_keeps.
        specialize (R w1 B). rewrite P in R. exact R.
      * intros page recording Hp Hin Hnote.
        change (is_stored (Recording.id recording) (db mid)).
        unfold sync_pages in P. unfold bind at 1 in P.
        destruct (notes_loop clk client fuel (SyncOptions.since options) None
                    SyncResult.zero w) as [r1 w1|e1 w1|w1] eqn:N; try discriminate.
        apply (recordings_loop_stores _ _ recording fuel _ _ _ _ _ page P Hp Hin).
        intros T. unfold is_cached.
        destruct (Recording.note_id recording) as [noteId|]; [|discriminate].
        cbn [Js.nullish].
        pose proof (Hnote noteId eq_refl) as Hn. cbn [db] in Hn.
        unfold getNote in *. cbn [notes setLastSyncTime] in Hn. apply Hn.
        intros ->. discriminate.
    + split; [reflexivity|exact K].
    + split; [reflexivity|exact K].
  - intros n asked e Hn Hasked He.
    destruct (notes_loop_throws _ _ _ _ _ Hasked He fuel SyncResult.zero w Hn)
      as (w' & N).
    exists w'. apply Hthrow. unfold sync_pages, bind. fold since. now rewrite N.
  - intros m last_asked last n asked e Hm Hlast_asked Hlast Hend Hn Hasked He.
    destruct (notes_loop_returns _ _ _ _ _ Hlast_asked Hlast Hend fuel SyncResult.zero w Hm)
      as (r1 & w1 & N).
    destruct (recordings_loop_throws _ _ _ _ _ _ Hasked He fuel r1 w1 Hn)
      as (e' & w' & R & He').
    exists e', w'.
    assert (P : sync_pages clk client fuel options w = Thrown e' w').
    { unfold sync_pages, bind. fold since. rewrite N. fold tr. exact R. }
    destruct (Hthrow _ _ P) as [E W]. auto.
Qed.

End SyncPass.

(** The remote fails on the second page of notes: the pass throws, the first
    page is in the store and the watermark is the one of the earlier sync. *)
Lemma sync_watermark_written_once_on_success_witness :
  (exists w',
     Sync.syncNotesFromApi Fixtures.clock Fixtures.flaky_client 5 SyncOptions.default
       (Sync.mkWorld Fixtures.db_cached_item 0)
     = Sync.Thrown Fixtures.api_error w'
     /\ FellowDatabase.getLastSyncTime (Sync.db w')
        = FellowDatabase.getLastSyncTime Fixtures.db_cached_item)
  /\ Sync.syncNotesFromApi Fixtures.clock Fixtures.flaky_client 5 SyncOptions.default
       (Sync.mkWorld Fixtures.db_cached_item 0)
     = Sync.Thrown Fixtures.api_error Fixtures.flaky_world
  /\ FellowDatabase.getLastSyncTime (Sync.db Fixtures.flaky_world)
     = Some "2024-01-03T00:00:00Z"
  /\ List.length (FellowDatabase.action_items (Sync.db Fixtures.flaky_world)) = 2.
Proof.
  pose proof (sync_watermark_written_once_on_success Fixtures.clock Fixtures.flaky_client
                5 SyncOptions.default (Sync.mkWorld Fixtures.db_cached_item 0))
    as (H & Hnotes & _).
  assert (E : Sync.syncNotesFromApi Fixtures.clock Fixtures.flaky_client 5
                SyncOptions.default (Sync.mkWorld Fixtures.db_cached_item 0)
              = Sync.Thrown Fixtures.api_error Fixtures.flaky_world)
    by (vm_compute; reflexivity).
  split.
  - apply (Hnotes 1 (Some "p2") Fixtures.api_error).
    + lia.
    + exact (@Requests.notes_asked_next Fixtures.flaky_client None None
               (Page.mk (Some "p2") 50 [Fixtures.note_weekly]) 0 (Some "p2")
               eq_refl eq_refl
               (@Requests.notes_asked_first Fixtures.flaky_client None (Some "p2"))).
    + reflexivity.
  - rewrite E in H. destruct H as [_ H].
    split; [exact E|]. split; [exact H|reflexivity].
Defined.

(* ------------------------------------------------------------------ *)
(** * The assignee of an action item *)

Section Assignee.
Import Regex Extractor Spec.

Lemma search_first (r : Regex.t) (s : string) (m : captures) :
  search r s = Some m ->
  exists before suffix rest more,
    s = before ++ suffix
    /\ run r suffix no_captures = (rest, m) :: more
    /\ forall b1 b2, before = b1 ++ b2 -> b2 <> "" ->
                     run r (b2 ++ suffix) no_captures = [].
Proof.
  induction s as [|c s IH]; simpl.
  - destruct (run r "" no_captures) as [|[rest caps] more] eqn:R; [discriminate|].
    intros H. inversion H; subst. exists "", "", rest, more.
    split; [reflexivity|split; [exact R|]].
    intros [|] [|] Hb Hne; try discriminate. congruence.
  - destruct (run r (String c s) no_captures) as [|[rest caps] more] eqn:R.
    + intros H. destruct (IH H) as (before & suffix & rest & more & -> & Hr & Hb).
      exists (String c before), suffix, rest, more.
      split; [reflexivity|split; [exact Hr|]].
      intros b1 b2 E Hne. destruct b1 as [|d b1]; simpl in E.
      * subst b2. exact R.
      * inversion E; subst. apply (Hb b1 b2); [reflexivity|assumption].
    + intros H. inversion H; subst. exists "", (String c s), rest, more.
      split; [reflexivity|split; [exact R|]].
    intros [|] [|] Hb Hne; try discriminate. congruence.
Qed.

Lemma search_nowhere (r : Regex.t) (s : string) :
  search r s = None -> forall a b, s = a ++ b -> run r b no_captures = [].
Proof.
  induction s as [|c s IH]; simpl.
  - destruct (run r "" no_captures) eqn:R; [|discriminate].
    intros _ [|] [|] E; try discriminate. exact R.
  - destruct (run r (String c s) no_captures) eqn:R; [|discriminate].
    intros H [|d a] b E; simpl in E.
    + subst b. exact R.
    + inversion E; subst. now apply (IH H a b).
Qed.

Lemma span_le (p : charset) (s : string) : span p s <= String.length s.
Proof.
  induction s as [|c s IH]; simpl; [lia|]. destruct (p c); simpl; lia.
Qed.

Lemma take_span_all (p : charset) (s : string) : all p (Js.take (span p s) s) = true.
Proof.
  induction s as [|c s IH]; simpl; [reflexivity|].
  destruct (p c) eqn:E; simpl; [now rewrite E, IH|reflexivity].
Qed.

Lemma drop_span_stops (p : charset) (s : string) :
  match Js.drop (span p s) s with
  | String c _ => p c = false
  | EmptyString => True
  end.
Proof.
  induction s as [|c s IH]; simpl; [exact I|].
  destruct (p c) eqn:E; simpl; [exact IH|exact E].
Qed.

Lemma length_take (k : nat) (s : string) :
  k <= String.length s -> String.length (Js.take k s) = k.
Proof.
  revert s. induction k as [|k IH]; intros [|c s]; simpl; intros H; try lia.
  rewrite IH; lia.
Qed.

Lemma counts_greedy (top : nat) :
  counts 1 (S top) true = S top :: rev (seq 1 top).
Proof.
  unfold counts. replace (S (S top) - 1) with (S top) by lia.
  rewrite seq_S, rev_app_distr. reflexivity.
Qed.

(** A match of [/@(\w+)/] at the start of a text: none unless the text
    starts with [@] and a word character, and then group 1 is the whole run
    of word characters. *)
Lemma run_mention (c : ascii) (s : string) :
  run re_mention (String c s) no_captures
  = if Ascii.eqb "@" c
    then map (fun k => (Js.drop k s,
                        set_capture 1 (Js.take (String.length s
                                                - String.length (Js.drop k s)) s)
                                    no_captures))
             (counts 1 (span word s) true)
    else [].
Proof.
  unfold re_mention, plus. cbn [run lit flat_map]. unfold chr.
  destruct (Ascii.eqb "@" c); [|reflexivity].
  cbn [flat_map fst snd]. rewrite app_nil_r, map_map. reflexivity.
Qed.

Lemma fst_parseAssigneeAndDueDate (text : string) (a d : option string) :
  parseAssigneeAndDueDate text = Ok (a, d) ->
  a = match search re_mention text with Some m => m 1 | None => None end.
Proof.
  unfold parseAssigneeAndDueDate.
  destruct (search re_us_date text) as [m|].
  - destruct (negb _).
    + destruct (defined "split" (m 1)) as [m1|e]; [|discriminate]. simpl.
      destruct (normalise_us m1) as [x|e]; [|discriminate]. simpl.
      intros H. now inversion H.
    + intros H. now inversion H.
  - intros H. now inversion H.
Qed.

(** X19. The assignee of an item is read off its first mention.
    [parseAssigneeAndDueDate] returns an assignee exactly when the text has
    an [@] followed by a word character; the assignee is then the whole run of
    word characters after the leftmost such [@]: it is not empty, it is made
    of letters, digits and underscores only, it stops where the run stops, and
    no [@] before it is followed by a word character. *)
Theorem assignee_is_first_mention (text : string) :
  exists assignee dueDate,
    parseAssigneeAndDueDate text = Ok (assignee, dueDate)
    /\ match assignee with
       | Some a =>
           a <> ""
           /\ all word a = true
           /\ exists before after,
                text = before ++ "@" ++ a ++ after
                /\ match after with
                   | String c _ => word c = false
                   | EmptyString => True
                   end
                /\ forall b1 c b2, before = b1 ++ "@" ++ String c b2 -> word c = false
       | None =>
           forall before c after, text = before ++ "@" ++ String c after -> word c = false
       end.
Proof.
  destruct (parseAssigneeAndDueDate_total text) as (a & d & Hp & _).
  exists a, d. split; [exact Hp|].
  apply fst_parseAssigneeAndDueDate in Hp. subst a.
  destruct (search re_mention text) as [m|] eqn:S.
  - apply search_first in S.
    destruct S as (before & suffix & rest & more & -> & R & Hbefore).
    destruct suffix as [|c s]; [discriminate|].
    rewrite run_mention in R.
    destruct (Ascii.eqb_spec "@"%char c) as [<-|]; [|discriminate].
    pose proof (span_le word s) as Hle.
    destruct (span word s) as [|top] eqn:Sp; [discriminate|].
    rewrite counts_greedy in R. cbn [map] in R.
    assert (Hm : m = set_capture 1
                       (Js.take (String.length s - String.length (Js.drop (S top) s)) s)
                       no_captures) by congruence.
    clear R. subst m. unfold set_capture. cbn [Nat.eqb].
    pose proof (take_drop (S top) s) as TD.
    assert (Hcap : Js.take (String.length s - String.length (Js.drop (S top) s)) s
                   = Js.take (S top) s).
    { rewrite <- TD at 1 3. apply take_prefix. }
    rewrite Hcap. split; [|split].
    + intros E. apply (f_equal String.length) in E.
      rewrite length_take in E by lia. discriminate.
    + rewrite <- Sp. apply take_span_all.
    + exists before, (Js.drop (S top) s). split; [|split].
      * rewrite TD. reflexivity.
      * rewrite <- Sp. apply drop_span_stops.
      * intros b1 c b2 E.
        assert (K : run re_mention (("@" ++ String c b2) ++ String "@" s) no_captures = []).
        { apply (Hbefore b1); [exact E|discriminate]. }
        simpl append in K. rewrite run_mention in K. cbn [Ascii.eqb] in K.
        change (Ascii.eqb "@" "@") with true in K. cbv iota in K.
        simpl span in K. destruct (word c); [|reflexivity].
        rewrite counts_greedy in K. discriminate.
  - intros before c after E.
    pose proof (search_nowhere _ _ S before _ E) as K.
    simpl append in K. rewrite run_mention in K.
    change (Ascii.eqb "@" "@") with true in K. cbv iota in K.
    simpl span in K. destruct (word c); [|reflexivity].
    rewrite counts_greedy in K. discriminate.
Qed.

End Assignee.

(* ------------------------------------------------------------------ *)
(** * Which digits become the due date *)

Section DueDateWords.
Import Regex Extractor Spec DueDate.

Lemma all_every (p : charset) (P : ascii -> Prop) (s : string) :
  (forall c, p c = true <-> P c) -> (all p s = true <-> every P s).
Proof.
  intros H. induction s as [|c s IH]; simpl; [tauto|].
  rewrite andb_true_iff, IH, H. tauto.
Qed.

Lemma digit_is_digit (c : ascii) : digit c = true <-> is_digit c.
Proof.
  unfold digit, between, is_digit. rewrite andb_true_iff, !Nat.leb_le. tauto.
Qed.

Lemma space_is_white (c : ascii) : space c = true <-> is_white c.
Proof.
  unfold space, Js.is_space, is_white. cbv zeta. cbn [In].
  rewrite !orb_true_iff, !Nat.eqb_eq. intuition congruence.
Qed.

Lemma all_digits (s : string) : all digit s = true <-> every is_digit s.
Proof. apply all_every, digit_is_digit. Qed.

Lemma all_white (s : string) : all space s = true <-> every is_white s.
Proof. apply all_every, space_is_white. Qed.

(** A small letter of a pattern under the flag [i] matches itself and its
    capital. *)
Lemma chr_i_spec (a c : ascii) :
  97 <= nat_of_ascii a <= 122 ->
  (chr_i a c = true <-> c = a \/ nat_of_ascii c + 32 = nat_of_ascii a).
Proof.
  intros Ha. unfold chr_i, Js.lower_char, between. cbv zeta.
  assert (A1 : ((65 <=? nat_of_ascii a) && (nat_of_ascii a <=? 90))%nat = false).
  { apply andb_false_iff. right. apply Nat.leb_gt. lia. }
  assert (A2 : ((192 <=? nat_of_ascii a) && (nat_of_ascii a <=? 222)
                && negb (nat_of_ascii a =? 215))%nat = false).
  { apply andb_false_iff. left. apply andb_false_iff. left. apply Nat.leb_gt. lia. }
  rewrite A1, A2. clear A1 A2.
  destruct ((65 <=? nat_of_ascii c) && (nat_of_ascii c <=? 90))%nat eqn:C.
  - apply andb_true_iff in C. destruct C as [C1 C2].
    apply Nat.leb_le in C1. apply Nat.leb_le in C2.
    rewrite Ascii.eqb_eq. split.
    + intros E. right. rewrite E. rewrite nat_ascii_embedding; lia.
    + intros [E|E].
      * subst c. lia.
      * rewrite E. now rewrite ascii_nat_embedding.
  - rewrite Ascii.eqb_eq. split.
    + intros E. now left.
    + intros [E|E]; [now symmetry|].
      apply andb_false_iff in C. destruct C as [C|C]; apply Nat.leb_gt in C; lia.
Qed.

Lemma lang_lit_i (k : string) :
  every small k -> forall w, lang (lit_i k) w <-> spells k w.
Proof.
  induction k as [|a k IH]; intros Hk w.
  - simpl. destruct w; [tauto|]. split; [discriminate|contradiction].
  - destruct Hk as [Ha Hk]. specialize (IH Hk).
    destruct k as [|b k].
    + cbn [lit_i lang spells]. split.
      * intros (c & -> & Hc). apply chr_i_spec in Hc; [|exact Ha]. auto.
      * destruct w as [|c w]; [contradiction|]. intros [Hc Hw].
        destruct w; [|contradiction]. exists c. split; [reflexivity|].
        now apply chr_i_spec.
    + change (lit_i (String a (String b k)))
        with (Seq (Cls (chr_i a)) (lit_i (String b k))).
      cbn [lang]. split.
      * intros (wa & wb & -> & (c & -> & Hc) & Hb).
        apply chr_i_spec in Hc; [|exact Ha]. apply IH in Hb.
        cbn [append spells] in *. auto.
      * destruct w as [|c w]; [contradiction|]. intros [Hc Hw].
        exists (String c ""), w. split; [reflexivity|]. split.
        -- exists c. split; [reflexivity|]. now apply chr_i_spec.
        -- now apply IH.
Qed.

Lemma lang_keyword (w : string) :
  (lang (lit_i "due") w \/ lang (lit_i "by") w \/ lang (lit_i "deadline") w)
  <-> keyword w.
Proof.
  unfold keyword.
  rewrite (lang_lit_i "due"), (lang_lit_i "by"), (lang_lit_i "deadline");
    [tauto| | |]; cbn [every]; unfold small; repeat split; vm_compute; lia.
Qed.

Lemma at_most_one_colon (col : string) :
  all (chr ":") col = true /\ String.length col <= 1 <-> col = "" \/ col = ":".
Proof.
  split.
  - intros [Ha Hl]. destruct col as [|c [|d col]]; [auto| |simpl in Hl; lia].
    right. cbn [all] in Ha. rewrite andb_true_r in Ha. apply chr_eq in Ha. now subst.
  - intros [-> | ->]; simpl; auto.
Qed.

Lemma lang_due_keyword (w : string) : lang re_due_keyword w <-> announces w.
Proof.
  unfold re_due_keyword, star, opt, announces. cbn [lang]. split.
  - intros (kw & r1 & -> & Hkw & sp1 & r2 & -> & (Hs1 & _ & _)
            & col & sp2 & -> & (Hc & _ & Hcl) & (Hs2 & _ & _)).
    exists kw, sp1, col, sp2. split; [reflexivity|].
    split; [now apply lang_keyword|]. split; [now apply all_white|].
    split; [now apply at_most_one_colon|now apply all_white].
  - intros (kw & sp1 & col & sp2 & -> & Hkw & Hs1 & Hc & Hs2).
    apply at_most_one_colon in Hc. destruct Hc as [Hc Hcl].
    exists kw, (sp1 ++ col ++ sp2). split; [reflexivity|].
    split; [now apply lang_keyword|].
    exists sp1, (col ++ sp2). split; [reflexivity|].
    split; [split; [now apply all_white|split; [lia|exact I]]|].
    exists col, sp2. split; [reflexivity|].
    split; [split; [exact Hc|split; [lia|exact Hcl]]|].
    split; [now apply all_white|split; [lia|exact I]].
Qed.

Lemma lang_times (lo hi : nat) (w : string) :
  lang (times digit lo hi) w <-> number lo hi w.
Proof.
  unfold times, number. cbn [lang]. rewrite all_digits. tauto.
Qed.

Lemma lang_chr (a : ascii) (w : string) :
  lang (Cls (chr a)) w <-> w = String a "".
Proof.
  cbn [lang]. split.
  - intros (c & -> & Hc). apply chr_eq in Hc. now subst.
  - intros ->. exists a. split; [reflexivity|]. unfold chr. apply Ascii.eqb_refl.
Qed.

Lemma lang_iso_digits (date : string) :
  lang re_iso_digits date
  <-> exists y m d,
        date = y ++ "-" ++ m ++ "-" ++ d
        /\ number 4 4 y /\ number 2 2 m /\ number 2 2 d.
Proof.
  unfold re_iso_digits. cbn [lit].
  change (lang (Seq (times digit 4 4)
                 (Seq (Cls (chr "-"))
                    (Seq (times digit 2 2) (Seq (Cls (chr "-")) (times digit 2 2))))) date
          <-> exists y m d,
                date = y ++ "-" ++ m ++ "-" ++ d
                /\ number 4 4 y /\ number 2 2 m /\ number 2 2 d).
  cbn [lang]. split.
  - intros (y & r1 & -> & Hy & d1 & r2 & -> & Hd1 & m & r3 & -> & Hm
            & d2 & d & -> & Hd2 & Hd).
    apply lang_chr in Hd1. apply lang_chr in Hd2. subst d1 d2.
    apply lang_times in Hy. apply lang_times in Hm. apply lang_times in Hd.
    now exists y, m, d.
  - intros (y & m & d & -> & Hy & Hm & Hd).
    exists y, ("-" ++ m ++ "-" ++ d). split; [reflexivity|].
    split; [now apply lang_times|].
    exists "-", (m ++ "-" ++ d). split; [reflexivity|]. split; [now apply lang_chr|].
    exists m, ("-" ++ d). split; [reflexivity|]. split; [now apply lang_times|].
    exists "-", d. split; [reflexivity|]. split; [now apply lang_chr|].
    now apply lang_times.
Qed.

Lemma lang_us_digits (date : string) :
  lang re_us_digits date
  <-> exists m d y,
        date = m ++ "/" ++ d ++ "/" ++ y
        /\ number 1 2 m /\ number 1 2 d /\ number 2 4 y.
Proof.
  unfold re_us_digits. cbn [lit].
  change (lang (Seq (times digit 1 2)
                 (Seq (Cls (chr "/"))
                    (Seq (times digit 1 2) (Seq (Cls (chr "/")) (times digit 2 4))))) date
          <-> exists m d y,
                date = m ++ "/" ++ d ++ "/" ++ y
                /\ number 1 2 m /\ number 1 2 d /\ number 2 4 y).
  cbn [lang]. split.
  - intros (m & r1 & -> & Hm & d1 & r2 & -> & Hd1 & d & r3 & -> & Hd
            & d2 & y & -> & Hd2 & Hy).
    apply lang_chr in Hd1. apply lang_chr in Hd2. subst d1 d2.
    apply lang_times in Hy. apply lang_times in Hm. apply lang_times in Hd.
    now exists m, d, y.
  - intros (m & d & y & -> & Hm & Hd & Hy).
    exists m, ("/" ++ d ++ "/" ++ y). split; [reflexivity|].
    split; [now apply lang_times|].
    exists "/", (d ++ "/" ++ y). split; [reflexivity|]. split; [now apply lang_chr|].
    exists d, ("/" ++ y). split; [reflexivity|]. split; [now apply lang_times|].
    exists "/", y. split; [reflexivity|]. split; [now apply lang_chr|].
    now apply lang_times.
Qed.

(** *** Every text of a pattern is found *)

Lemma span_append_all (p : charset) (w rest : string) :
  all p w = true -> String.length w <= span p (w ++ rest).
Proof.
  induction w as [|c w IH]; simpl; [lia|].
  intros H. apply andb_true_iff in H. destruct H as [Hc Hw].
  rewrite Hc. specialize (IH Hw). lia.
Qed.

Lemma drop_append_exact (w rest : string) : Js.drop (String.length w) (w ++ rest) = rest.
Proof. induction w as [|c w IH]; simpl; [now destruct rest|exact IH]. Qed.

Lemma counts_in (lo top k : nat) (greedy : bool) :
  lo <= k <= top -> In k (counts lo top greedy).
Proof.
  intros H. unfold counts.
  assert (H' : In k (seq lo (S top - lo))) by (apply in_seq; lia).
  destruct greedy; [now apply -> in_rev|assumption].
Qed.

Lemma run_complete (r : Regex.t) :
  forall w rest caps,
    lang r w -> exists caps', In (rest, caps') (run r (w ++ rest) caps).
Proof.
  induction r as [|p|p lo hi greedy|a IHa b IHb|a IHa b IHb|i r IH];
    intros w rest caps L; cbn [lang] in L.
  - subst w. exists caps. now left.
  - destruct L as (c & -> & Hc). exists caps. cbn [append run]. rewrite Hc. now left.
  - destruct L as (Ha & Hlo & Hhi). exists caps. cbn [run]. apply in_map_iff.
    exists (String.length w). split; [now rewrite drop_append_exact|].
    apply counts_in. pose proof (span_append_all p w rest Ha) as Hs.
    destruct hi as [h|]; [|lia].
    split; [lia|]. apply Nat.min_glb; assumption.
  - destruct L as (wa & wb & -> & La & Lb).
    destruct (IHa wa (wb ++ rest) caps La) as (c1 & H1).
    destruct (IHb wb rest c1 Lb) as (c2 & H2).
    exists c2. cbn [run]. apply in_flat_map. exists (wb ++ rest, c1).
    split; [now rewrite append_assoc|exact H2].
  - destruct L as [L|L].
    + destruct (IHa w rest caps L) as (c1 & H1). exists c1. cbn [run].
      apply in_or_app. now left.
    + destruct (IHb w rest caps L) as (c1 & H1). exists c1. cbn [run].
      apply in_or_app. now right.
  - destruct (IH w rest caps L) as (c1 & H1).
    eexists. cbn [run]. apply in_map_iff. exists (rest, c1). split; [reflexivity|exact H1].
Qed.

(** When a pattern ends in a group, a way through it splits the input into
    a text of what comes before the group, the text the group is set to, and
    the rest. *)
Lemma run_group_at_end (k g : Regex.t) (i : nat) (s rest : string) (caps m : captures) :
  In (rest, m) (run (Seq k (Grp i g)) s caps) ->
  exists wk w, s = wk ++ w ++ rest /\ lang k wk /\ lang g w /\ m i = Some w.
Proof.
  cbn [run]. intros H. apply in_flat_map in H. destruct H as ([mid capsm] & Hk & Hg).
  cbn [fst snd] in Hg. apply in_map_iff in Hg. destruct Hg as ([rest0 caps0] & Heq & Hin).
  cbn [fst snd] in Heq. inversion Heq; subst.
  destruct (run_sound _ _ _ _ _ Hk) as (wk & -> & Lk).
  destruct (run_sound _ _ _ _ _ Hin) as (w & -> & L).
  exists wk, w. split; [reflexivity|]. split; [exact Lk|]. split; [exact L|].
  unfold set_capture. rewrite Nat.eqb_refl. now rewrite take_prefix.
Qed.

Lemma append_split (a : string) :
  forall b x y,
    a ++ x = b ++ y -> String.length a < String.length b ->
    exists c, b = a ++ c /\ c <> "" /\ x = c ++ y.
Proof.
  induction a as [|ch a IH]; intros b x y E Hl.
  - exists b. cbn [append] in *. split; [reflexivity|]. split; [|exact E].
    intros ->. simpl in Hl. lia.
  - destruct b as [|ch' b]; [simpl in Hl; lia|].
    cbn [append] in E. inversion E; subst.
    destruct (IH b x y H1) as (c & -> & Hc & Hx); [simpl in Hl; lia|].
    exists c. auto.
Qed.

(** *** The way the matcher takes first *)

Lemma hd_flat_map {A B} (f : A -> list B) (l : list A) (y : B) :
  hd_error (flat_map f l) = Some y -> exists x, In x l /\ hd_error (f x) = Some y.
Proof.
  induction l as [|x l IH]; simpl; [discriminate|].
  destruct (f x) as [|z zs] eqn:F; simpl.
  - intros H. destruct (IH H) as (x' & Hin & Hx). exists x'. auto.
  - intros H. exists x. rewrite F. auto.
Qed.

Lemma hd_seq (a b : Regex.t) (s : string) (caps : captures) (y : string * captures) :
  hd_error (run (Seq a b) s caps) = Some y ->
  exists s1 c1, In (s1, c1) (run a s caps) /\ hd_error (run b s1 c1) = Some y.
Proof.
  cbn [run]. intros H. apply hd_flat_map in H. destruct H as ([s1 c1] & Hin & H).
  now exists s1, c1.
Qed.

Lemma hd_grp (i : nat) (r : Regex.t) (s : string) (caps : captures)
  (rest : string) (m : captures) :
  hd_error (run (Grp i r) s caps) = Some (rest, m) ->
  exists c0,
    hd_error (run r s caps) = Some (rest, c0)
    /\ m = set_capture i (Js.take (String.length s - String.length rest) s) c0.
Proof.
  cbn [run]. destruct (run r s caps) as [|[s1 c1] l]; [discriminate|].
  cbn [map hd_error fst snd]. intros H. inversion H; subst. now exists c1.
Qed.

(** A bounded greedy repetition takes, first, as many characters as there
    are, up to its bound. *)
Lemma hd_times (p : charset) (lo hi : nat) (s : string) (caps : captures)
  (rest : string) (c : captures) :
  hd_error (run (times p lo hi) s caps) = Some (rest, c) ->
  rest = Js.drop (Nat.min hi (span p s)) s /\ lo <= Nat.min hi (span p s).
Proof.
  unfold times. cbn [run]. unfold counts.
  set (top := Nat.min hi (span p s)).
  destruct (Nat.le_gt_cases lo top) as [Hle|Hgt].
  - replace (S top - lo) with (S (top - lo)) by lia.
    rewrite seq_S, rev_app_distr. cbn [rev app map hd_error].
    replace (lo + (top - lo)) with top by lia.
    intros H. inversion H; subst. auto.
  - replace (S top - lo) with 0 by lia. discriminate.
Qed.

Lemma lang_iso_date (intro date : string) :
  announces intro -> lang re_iso_digits date -> lang re_iso_date (intro ++ date).
Proof.
  intros Hi Hd. unfold re_iso_date. cbn [lang]. exists intro, date.
  split; [reflexivity|]. split; [now apply lang_due_keyword|exact Hd].
Qed.

Lemma lang_us_date (intro date : string) :
  announces intro -> lang re_us_digits date -> lang re_us_date (intro ++ date).
Proof.
  intros Hi Hd. unfold re_us_date. cbn [lang]. exists intro, date.
  split; [reflexivity|]. split; [now apply lang_due_keyword|exact Hd].
Qed.

(** Where the text reads a date, the pattern finds a match. *)
Lemma iso_at_found (text : string) (k : nat) (date : string) :
  iso_at text k date ->
  exists a b, text = a ++ b /\ String.length a = k /\ run re_iso_date b no_captures <> [].
Proof.
  intros (before & intro & y & m & d & after & -> & Hk & Hi & Hd & Hy & Hm & Hdd).
  exists before, (intro ++ date ++ after). split; [reflexivity|]. split; [exact Hk|].
  assert (L : lang re_iso_date (intro ++ date)).
  { apply lang_iso_date; [exact Hi|]. apply lang_iso_digits. now exists y, m, d. }
  destruct (run_complete re_iso_date _ after no_captures L) as (c & Hin).
  rewrite append_assoc in Hin. intros E. rewrite E in Hin. contradiction.
Qed.

Lemma us_at_found (text : string) (k : nat) (m d y after : string) :
  us_at text k m d y after ->
  exists a b, text = a ++ b /\ String.length a = k /\ run re_us_date b no_captures <> [].
Proof.
  intros (before & intro & -> & Hk & Hi & Hm & Hd & Hy).
  exists before, (intro ++ m ++ "/" ++ d ++ "/" ++ y ++ after).
  split; [reflexivity|]. split; [exact Hk|].
  assert (L : lang re_us_date (intro ++ (m ++ "/" ++ d ++ "/" ++ y))).
  { apply lang_us_date; [exact Hi|]. apply lang_us_digits. now exists m, d, y. }
  destruct (run_complete re_us_date _ after no_captures L) as (c & Hin).
  rewrite !append_assoc in Hin.
  intros E. rewrite E in Hin. contradiction.
Qed.

Lemma nothing_before (r : Regex.t) (before suffix a b : string) :
  (forall b1 b2, before = b1 ++ b2 -> b2 <> "" -> run r (b2 ++ suffix) no_captures = []) ->
  before ++ suffix = a ++ b -> String.length a < String.length before ->
  run r b no_captures = [].
Proof.
  intros Hb E Hl. symmetry in E.
  destruct (append_split a before b suffix E Hl) as (c & -> & Hc & ->).
  now apply (Hb a c).
Qed.

(** The match of the ISO pattern: the leftmost place where the text reads a
    date of that form, and the digits read there. *)
Lemma search_iso_date_at (text : string) (mi : captures) :
  search re_iso_date text = Some mi ->
  exists k date,
    mi 1 = Some date /\ iso_at text k date
    /\ forall k' date', k' < k -> ~ iso_at text k' date'.
Proof.
  intros S. apply search_first in S.
  destruct S as (before & suffix & rest & more & -> & R & Hb).
  assert (Hin : In (rest, mi) (run re_iso_date suffix no_captures))
    by (rewrite R; now left).
  unfold re_iso_date in Hin. apply run_group_at_end in Hin.
  destruct Hin as (wk & w & -> & Lk & Lw & Hcap).
  exists (String.length before), w. split; [exact Hcap|]. split.
  - apply lang_iso_digits in Lw. destruct Lw as (y & m & d & Hw & Hy & Hm & Hd).
    exists before, wk, y, m, d, rest. split; [reflexivity|]. split; [reflexivity|].
    split; [now apply lang_due_keyword|]. auto.
  - intros k' date' Hk' Hat.
    destruct (iso_at_found _ _ _ Hat) as (a & b & E & Ha & Hrun).
    apply Hrun. apply (nothing_before re_iso_date before (wk ++ w ++ rest) a b Hb E).
    lia.
Qed.

Lemma search_iso_date_nowhere (text : string) :
  search re_iso_date text = None -> forall k date, ~ iso_at text k date.
Proof.
  intros S k date Hat.
  destruct (iso_at_found _ _ _ Hat) as (a & b & E & _ & Hrun).
  apply Hrun. exact (search_nowhere re_iso_date text S a b E).
Qed.

Lemma search_us_date_nowhere (text : string) :
  search re_us_date text = None -> forall k m d y after, ~ us_at text k m d y after.
Proof.
  intros S k m d y after Hat.
  destruct (us_at_found _ _ _ _ _ _ Hat) as (a & b & E & _ & Hrun).
  apply Hrun. exact (search_nowhere re_us_date text S a b E).
Qed.

(** The match of the US pattern: the leftmost place where the text reads a
    date of that form, with as many digits of the year as there are, up to
    four. *)
Lemma search_us_date_at (text : string) (mu : captures) :
  search re_us_date text = Some mu ->
  exists k m d y after,
    mu 1 = Some (m ++ "/" ++ d ++ "/" ++ y)
    /\ us_at text k m d y after
    /\ (String.length y = 4 \/ no_digit_next after)
    /\ forall k' m' d' y' after', k' < k -> ~ us_at text k' m' d' y' after'.
Proof.
  intros S. apply search_first in S.
  destruct S as (before & suffix & rest & more & -> & R & Hb).
  assert (Hhd : hd_error (run re_us_date suffix no_captures) = Some (rest, mu))
    by now rewrite R.
  unfold re_us_date in Hhd. apply hd_seq in Hhd.
  destruct Hhd as (s1 & c1 & Hk & Hhd).
  destruct (run_sound _ _ _ _ _ Hk) as (wk & -> & Lk).
  apply hd_grp in Hhd. destruct Hhd as (c0 & Hhd & Hmu).
  unfold re_us_digits in Hhd. cbn [lit] in Hhd.
  apply hd_seq in Hhd. destruct Hhd as (s2 & c2 & Hm & Hhd).
  destruct (run_sound _ _ _ _ _ Hm) as (m & -> & Lm).
  apply hd_seq in Hhd. destruct Hhd as (s3 & c3 & Hs1 & Hhd).
  destruct (run_sound _ _ _ _ _ Hs1) as (sl1 & -> & Lsl1). apply lang_chr in Lsl1.
  apply hd_seq in Hhd. destruct Hhd as (s4 & c4 & Hd & Hhd).
  destruct (run_sound _ _ _ _ _ Hd) as (d & -> & Ld).
  apply hd_seq in Hhd. destruct Hhd as (s5 & c5 & Hs2 & Hhd).
  destruct (run_sound _ _ _ _ _ Hs2) as (sl2 & -> & Lsl2). apply lang_chr in Lsl2.
  subst sl1 sl2.
  apply hd_times in Hhd. destruct Hhd as [Hrest Htop].
  set (top := Nat.min 4 (span digit s5)) in *.
  assert (Hspan : top <= span digit s5) by apply Nat.le_min_r.
  destruct (take_within_span digit top s5 Hspan) as [Hall Hlen].
  set (y := Js.take top s5) in *.
  assert (Hs5 : s5 = y ++ rest) by (rewrite Hrest; unfold y; now rewrite take_drop).
  assert (Hy : number 2 4 y).
  { split; [now apply all_digits|]. rewrite Hlen. split; [exact Htop|apply Nat.le_min_l]. }
  exists (String.length before), m, d, y, rest.
  split; [|split; [|split]].
  - rewrite Hmu. unfold set_capture. cbn [Nat.eqb]. f_equal.
    rewrite Hs5.
    replace (m ++ "/" ++ d ++ "/" ++ y ++ rest) with ((m ++ "/" ++ d ++ "/" ++ y) ++ rest)
      by (now rewrite !append_assoc).
    apply take_prefix.
  - exists before, wk. rewrite Hs5. split; [reflexivity|]. split; [reflexivity|].
    split; [now apply lang_due_keyword|].
    split; [now apply lang_times|]. split; [now apply lang_times|exact Hy].
  - destruct (Nat.eq_dec top 4) as [E|E]; [left; now rewrite Hlen|right].
    assert (Ht : top = span digit s5) by (unfold top in *; lia).
    pose proof (drop_span_stops digit s5) as Hstop. rewrite <- Ht, <- Hrest in Hstop.
    unfold no_digit_next. destruct rest as [|c rest']; [exact I|].
    intros Hc. apply digit_is_digit in Hc. congruence.
  - intros k' m' d' y' after' Hk' Hat.
    destruct (us_at_found _ _ _ _ _ _ Hat) as (a & b & E & Ha & Hrun).
    apply Hrun.
    apply (nothing_before re_us_date before
             (wk ++ m ++ "/" ++ d ++ "/" ++ s5) a b Hb E).
    lia.
Qed.

(** *** There is one way to read a date at a place *)

Lemma spells_length (k : string) : forall w, spells k w -> String.length w = String.length k.
Proof.
  induction k as [|a k IH]; intros [|c w] H; simpl in *; try contradiction; auto.
  destruct H as [_ H]. now rewrite (IH w H).
Qed.

Lemma spells_first (a : ascii) (k w : string) :
  spells (String a k) w ->
  exists c w',
    w = String c w'
    /\ (nat_of_ascii c = nat_of_ascii a \/ nat_of_ascii c + 32 = nat_of_ascii a)
    /\ spells k w'.
Proof.
  destruct w as [|c w]; [contradiction|].
  intros [[E|H] Hw]; exists c, w; (split; [reflexivity|]); (split; [|exact Hw]);
    [left; now rewrite E|now right].
Qed.

Lemma append_same_length (a : string) :
  forall b x y,
    a ++ x = b ++ y -> String.length a = String.length b -> a = b /\ x = y.
Proof.
  induction a as [|c a IH]; intros [|d b] x y E Hl; simpl in *; try discriminate; auto.
  inversion E; subst. destruct (IH b x y H1) as [-> ->]; [lia|]. auto.
Qed.

Lemma keyword_once (kw kw' r r' : string) :
  keyword kw -> keyword kw' -> kw ++ r = kw' ++ r' -> kw = kw' /\ r = r'.
Proof.
  intros H H' E.
  assert (Hsame : String.length kw = String.length kw' -> kw = kw' /\ r = r')
    by now apply append_same_length.
  destruct H as [H|[H|H]]; destruct H' as [H'|[H'|H']];
    try (apply Hsame; rewrite (spells_length _ _ H), (spells_length _ _ H'); reflexivity);
    exfalso;
    apply spells_first in H; destruct H as (c1 & w1 & -> & Hc1 & H);
    apply spells_first in H'; destruct H' as (c1' & w1' & -> & Hc1' & H');
    cbn [append] in E; inversion E as [[Ec E1]]; subst c1';
    apply spells_first in H; destruct H as (c2 & w2 & -> & Hc2 & H);
    apply spells_first in H'; destruct H' as (c2' & w2' & -> & Hc2' & H');
    cbn [append] in E1; inversion E1 as [[Ec2 E2]]; subst c2';
    change (nat_of_ascii "d") with 100 in *; change (nat_of_ascii "b") with 98 in *;
    change (nat_of_ascii "u") with 117 in *; change (nat_of_ascii "e") with 101 in *;
    change (nat_of_ascii "y") with 121 in *; lia.
Qed.

Lemma white_not_digit (c : ascii) : is_white c -> ~ is_digit c.
Proof. unfold is_white, is_digit. cbn [In]. lia. Qed.

Lemma colon_not_digit (c : ascii) : c = ":"%char -> ~ is_digit c.
Proof. intros ->. unfold is_digit. change (nat_of_ascii ":") with 58. lia. Qed.

Lemma colon_not_white : ~ is_white ":".
Proof. unfold is_white. change (nat_of_ascii ":") with 58. cbn [In]. lia. Qed.

(** Past white space and one colon at most, to the first digit. *)
Lemma trimStart_white (sp x : string) :
  every is_white sp -> Js.trimStart (sp ++ x) = Js.trimStart x.
Proof.
  induction sp as [|c sp IH]; intros H; [reflexivity|].
  destruct H as [Hc Hs]. cbn [append Js.trimStart].
  apply space_is_white in Hc. unfold space in Hc. rewrite Hc. now apply IH.
Qed.

Lemma trimStart_stops (c : ascii) (x : string) :
  ~ is_white c -> Js.trimStart (String c x) = String c x.
Proof.
  intros H. cbn [Js.trimStart]. destruct (Js.is_space c) eqn:E; [|reflexivity].
  exfalso. apply H. now apply space_is_white.
Qed.

Lemma intro_once (sp1 col sp2 sp1' col' sp2' : string) (c c' : ascii) (x x' : string) :
  every is_white sp1 -> (col = "" \/ col = ":") -> every is_white sp2 ->
  every is_white sp1' -> (col' = "" \/ col' = ":") -> every is_white sp2' ->
  is_digit c -> is_digit c' ->
  sp1 ++ col ++ sp2 ++ String c x = sp1' ++ col' ++ sp2' ++ String c' x' ->
  String c x = String c' x'.
Proof.
  intros H1 Hc H2 H1' Hc' H2' Hd Hd' E.
  assert (Hnw : ~ is_white c) by (intros W; now apply (white_not_digit c)).
  assert (Hnw' : ~ is_white c') by (intros W; now apply (white_not_digit c')).
  assert (Hnc : c <> ":"%char) by (intros W; now apply (colon_not_digit c)).
  assert (Hnc' : c' <> ":"%char) by (intros W; now apply (colon_not_digit c')).
  assert (S : forall sp1 col sp2 c x,
            every is_white sp1 -> (col = "" \/ col = ":") -> every is_white sp2 ->
            ~ is_white c -> c <> ":"%char ->
            Js.trimStart
              (match Js.trimStart (sp1 ++ col ++ sp2 ++ String c x) with
               | String d r => if Ascii.eqb d ":" then r else String d r
               | EmptyString => EmptyString
               end) = String c x).
  { clear. intros sp1 col sp2 c x H1 Hc H2 Hnw Hnc.
    rewrite (trimStart_white sp1 _ H1). destruct Hc as [-> | ->].
    - cbn [append]. rewrite (trimStart_white sp2 _ H2), (trimStart_stops c x Hnw).
      destruct (Ascii.eqb_spec c ":"); [contradiction|]. now apply trimStart_stops.
    - cbn [append]. rewrite (trimStart_stops ":" _ colon_not_white).
      rewrite Ascii.eqb_refl. rewrite (trimStart_white sp2 _ H2).
      now apply trimStart_stops. }
  rewrite <- (S sp1 col sp2 c x H1 Hc H2 Hnw Hnc).
  rewrite <- (S sp1' col' sp2' c' x' H1' Hc' H2' Hnw' Hnc').
  now rewrite E.
Qed.

Lemma announces_once (intro intro' : string) (c c' : ascii) (x x' : string) :
  announces intro -> announces intro' -> is_digit c -> is_digit c' ->
  intro ++ String c x = intro' ++ String c' x' ->
  String c x = String c' x'.
Proof.
  intros (kw & sp1 & col & sp2 & -> & Hk & H1 & Hc & H2)
         (kw' & sp1' & col' & sp2' & -> & Hk' & H1' & Hc' & H2') Hd Hd' E.
  rewrite !append_assoc in E.
  destruct (keyword_once _ _ _ _ Hk Hk' E) as [_ E'].
  exact (intro_once _ _ _ _ _ _ _ _ _ _ H1 Hc H2 H1' Hc' H2' Hd Hd' E').
Qed.

Lemma number_starts (lo hi : nat) (s : string) :
  number lo hi s -> 1 <= lo -> exists c r, s = String c r /\ is_digit c.
Proof.
  intros [Hd Hl] Hlo. destruct s as [|c r]; [simpl in Hl; lia|].
  destruct Hd as [Hc _]. now exists c, r.
Qed.

(** A run of digits that is followed by something else ends where it ends. *)
Lemma digits_once (a : string) :
  forall a' c c' r r',
    every is_digit a -> every is_digit a' -> ~ is_digit c -> ~ is_digit c' ->
    a ++ String c r = a' ++ String c' r' -> a = a' /\ r = r'.
Proof.
  induction a as [|x a IH]; intros [|x' a'] c c' r r' Ha Ha' Hc Hc' E;
    cbn [append] in E; inversion E; subst.
  - auto.
  - destruct Ha' as [Hx _]. contradiction.
  - destruct Ha as [Hx _]. contradiction.
  - destruct Ha as [_ Ha]. destruct Ha' as [_ Ha'].
    destruct (IH a' c c' r r' Ha Ha' Hc Hc' H1) as [-> ->]. auto.
Qed.

Lemma slash_not_digit : ~ is_digit "/".
Proof. unfold is_digit. change (nat_of_ascii "/") with 47. lia. Qed.

Lemma dash_not_digit : ~ is_digit "-".
Proof. unfold is_digit. change (nat_of_ascii "-") with 45. lia. Qed.

Lemma iso_at_once (text : string) (k : nat) (date date' : string) :
  iso_at text k date -> iso_at text k date' -> date' = date.
Proof.
  intros (before & intro & y & m & d & after & -> & Hk & Hi & -> & Hy & Hm & Hd)
         (before' & intro' & y' & m' & d' & after' & E & Hk' & Hi' & -> & Hy' & Hm' & Hd').
  destruct (append_same_length _ _ _ _ E) as [_ E1]; [congruence|].
  destruct (number_starts 4 4 y Hy) as (c & yr & -> & Hc); [lia|].
  destruct (number_starts 4 4 y' Hy') as (c' & yr' & -> & Hc'); [lia|].
  rewrite !append_assoc in E1. cbn [append] in E1.
  pose proof (announces_once _ _ _ _ _ _ Hi Hi' Hc Hc' E1) as E2.
  change (String c (yr ++ String "-" (m ++ String "-" (d ++ after)))
          = String c' (yr' ++ String "-" (m' ++ String "-" (d' ++ after')))) in E2.
  inversion E2 as [[Ec E3]]. subst c'.
  destruct Hy as [[_ Hyd] _]. destruct Hy' as [[_ Hyd'] _].
  destruct (digits_once _ _ _ _ _ _ Hyd Hyd' dash_not_digit dash_not_digit E3)
    as [-> E4].
  destruct Hm as [Hmd _]. destruct Hm' as [Hmd' _].
  destruct (digits_once _ _ _ _ _ _ Hmd Hmd' dash_not_digit dash_not_digit E4)
    as [-> E5].
  destruct Hd as [_ Hdl]. destruct Hd' as [_ Hdl'].
  destruct (append_same_length _ _ _ _ E5) as [-> _]; [lia|]. reflexivity.
Qed.

Lemma us_at_once (text : string) (k : nat) (m d y after m' d' y' after' : string) :
  us_at text k m d y after ->
  String.length y = 4 \/ no_digit_next after ->
  us_at text k m' d' y' after' ->
  m' = m /\ d' = d /\ String.length y' <= String.length y.
Proof.
  intros (before & intro & -> & Hk & Hi & Hm & Hd & Hy) Hlong
         (before' & intro' & E & Hk' & Hi' & Hm' & Hd' & Hy').
  destruct (append_same_length _ _ _ _ E) as [_ E1]; [congruence|].
  destruct (number_starts 1 2 m Hm) as (c & mr & -> & Hc); [lia|].
  destruct (number_starts 1 2 m' Hm') as (c' & mr' & -> & Hc'); [lia|].
  cbn [append] in E1.
  pose proof (announces_once _ _ _ _ _ _ Hi Hi' Hc Hc' E1) as E2.
  inversion E2 as [[Ec E3]]. subst c'.
  destruct Hm as [[_ Hmd] _]. destruct Hm' as [[_ Hmd'] _].
  destruct (digits_once _ _ _ _ _ _ Hmd Hmd' slash_not_digit slash_not_digit E3)
    as [-> E4].
  destruct Hd as [Hdd _]. destruct Hd' as [Hdd' _].
  destruct (digits_once _ _ _ _ _ _ Hdd Hdd' slash_not_digit slash_not_digit E4)
    as [-> E5].
  split; [reflexivity|]. split; [reflexivity|].
  destruct Hy as [Hyd Hyl]. destruct Hy' as [Hyd' Hyl'].
  destruct Hlong as [H4|Hnext]; [lia|].
  destruct (Nat.le_gt_cases (String.length y') (String.length y)) as [Hle|Hgt];
    [exact Hle|exfalso].
  destruct (append_split y y' after after' E5 Hgt) as (z & -> & Hz & ->).
  destruct z as [|cz z]; [congruence|].
  cbn [append no_digit_next] in Hnext. apply Hnext.
  clear -Hyd'. induction y as [|cy y IH]; cbn [append every] in Hyd'; [tauto|].
  apply IH. tauto.
Qed.

Lemma padStart_two_digits (a : string) :
  1 <= String.length a <= 2 -> Js.padStart 2 "0" a = two_digits a.
Proof.
  intros H. unfold Js.padStart, two_digits.
  destruct a as [|c1 [|c2 [|c3 a]]]; simpl in *; try lia; reflexivity.
Qed.

Lemma normalise_us_parts (m d y : string) :
  number 1 2 m -> number 1 2 d -> number 2 4 y ->
  normalise_us (m ++ "/" ++ d ++ "/" ++ y)
  = Ok (full_year y ++ "-" ++ two_digits m ++ "-" ++ two_digits d).
Proof.
  intros [Hm Hml] [Hd Hdl] [Hy Hyl].
  apply all_digits in Hm. apply all_digits in Hd. apply all_digits in Hy.
  unfold normalise_us. cbn [append].
  rewrite (split_digits_then "/" m _ eq_refl Hm).
  rewrite (split_digits_then "/" d _ eq_refl Hd).
  rewrite (split_digits "/" y eq_refl Hy).
  cbn [nth_error defined Extractor.bind].
  rewrite (padStart_two_digits m Hml), (padStart_two_digits d Hdl).
  reflexivity.
Qed.

Lemma iso_date_truthy (date : string) :
  lang re_iso_digits date -> Js.truthy (Some date) = true.
Proof. intros L. apply shape_not_empty. now apply iso_digits_shape. Qed.

(** The due date of [parseAssigneeAndDueDate], in words. *)
Lemma dueDate_in_words (text : string) (assignee dueDate : option string) :
  parseAssigneeAndDueDate text = Ok (assignee, dueDate) ->
  match dueDate with
  | None =>
      (forall k date, ~ iso_at text k date)
      /\ (forall k m d y after, ~ us_at text k m d y after)
  | Some due =>
      (exists k,
          iso_at text k due
          /\ (forall date, iso_at text k date -> date = due)
          /\ forall k' date, k' < k -> ~ iso_at text k' date)
      \/ ((forall k date, ~ iso_at text k date)
          /\ exists k m d y after,
               us_at text k m d y after
               /\ (String.length y = 4 \/ no_digit_next after)
               /\ (forall m' d' y' after',
                      us_at text k m' d' y' after' ->
                      m' = m /\ d' = d /\ String.length y' <= String.length y)
               /\ (forall k' m' d' y' after', k' < k -> ~ us_at text k' m' d' y' after')
               /\ due = full_year y ++ "-" ++ two_digits m ++ "-" ++ two_digits d)
  end.
Proof.
  unfold parseAssigneeAndDueDate.
  destruct (search re_iso_date text) as [mi|] eqn:Si.
  - destruct (search_iso_date_at text mi Si) as (k & date & Hcap & Hat & Hfirst).
    rewrite Hcap.
    assert (T : Js.truthy (Some date) = true).
    { destruct Hat as (_ & _ & y & m & d & _ & _ & _ & _ & Hd & Hy & Hm & Hdd).
      apply iso_date_truthy, lang_iso_digits. now exists y, m, d. }
    rewrite T. cbn [negb].
    intros H.
    assert (E : dueDate = Some date) by (destruct (search re_us_date text); congruence).
    subst dueDate. left. exists k. split; [exact Hat|]. split; [|exact Hfirst].
    intros date' Hat'. exact (iso_at_once text k date date' Hat Hat').
  - pose proof (search_iso_date_nowhere text Si) as Hno.
    cbn [Js.truthy negb].
    destruct (search re_us_date text) as [mu|] eqn:Su.
    + destruct (search_us_date_at text mu Su)
        as (k & m & d & y & after & Hcap & Hat & Hyear & Hfirst).
      rewrite Hcap. cbn [defined Extractor.bind].
      assert (Hparts : number 1 2 m /\ number 1 2 d /\ number 2 4 y).
      { destruct Hat as (_ & _ & _ & _ & _ & Hm & Hd & Hy). auto. }
      destruct Hparts as (Hm & Hd & Hy).
      rewrite (normalise_us_parts m d y Hm Hd Hy). cbn [Extractor.bind].
      intros H. assert (E : dueDate = Some (full_year y ++ "-" ++ two_digits m ++ "-"
                                            ++ two_digits d)) by congruence.
      subst dueDate. right. split; [exact Hno|].
      exists k, m, d, y, after. split; [exact Hat|]. split; [exact Hyear|].
      split; [|split; [exact Hfirst|reflexivity]].
      intros m' d' y' after' Hat'.
      exact (us_at_once text k m d y after m' d' y' after' Hat Hyear Hat').
    + intros H. assert (E : dueDate = None) by congruence. subst dueDate.
      split; [exact Hno|]. now apply search_us_date_nowhere.
Qed.

(** Where the due date of an item comes from: the derivation, run on the
    text of the item. *)
Lemma extract_line_source (line : string) (i : ParsedActionItem.t) :
  extract_line line = Ok (Some i) ->
  exists source assignee,
    parseAssigneeAndDueDate source = Ok (assignee, ParsedActionItem.due_date i)
    /\ (ParsedActionItem.content i = source
        \/ exists who, ParsedActionItem.content i = "@" ++ who ++ ": " ++ source).
Proof.
  unfold extract_line.
  destruct (match_start re_checkbox line) as [m|].
  { destruct (m 1) as [v1|]; [|discriminate].
    destruct (m 2) as [v2|]; [|discriminate]. cbn [defined Extractor.bind].
    destruct (parseAssigneeAndDueDate (Js.trim v2)) as [[a d]|e] eqn:P; [|discriminate].
    cbn [Extractor.bind fst snd]. intros H.
    assert (E : i = ParsedActionItem.mk (Js.trim v2) a d (Js.toLowerCase v1 =? "x"))
      by congruence.
    subst i. exists (Js.trim v2), a. split; [exact P|now left]. }
  destruct (match_start re_action line) as [m|].
  { destruct (m 1) as [v1|]; [|discriminate]. cbn [defined Extractor.bind].
    destruct (parseAssigneeAndDueDate (Js.trim v1)) as [[a d]|e] eqn:P; [|discriminate].
    cbn [Extractor.bind fst snd]. intros H.
    assert (E : i = ParsedActionItem.mk (Js.trim v1) a d false) by congruence.
    subst i. exists (Js.trim v1), a. split; [exact P|now left]. }
  destruct (match_start re_mention_line line) as [m|]; [|discriminate].
  destruct (m 1) as [v1|]; [|discriminate].
  destruct (m 2) as [v2|]; [|discriminate]. cbn [defined Extractor.bind].
  destruct (parseAssigneeAndDueDate (Js.trim v2)) as [[a d]|e] eqn:P; [|discriminate].
  cbn [Extractor.bind fst snd]. intros H.
  assert (E : i = ParsedActionItem.mk
                    ("@" ++ Js.trim (Js.remove_first "@" v1) ++ ": " ++ Js.trim v2)
                    (Some (Js.trim (Js.remove_first "@" v1))) d false) by congruence.
  subst i. exists (Js.trim v2), a. split; [exact P|].
  right. now exists (Js.trim (Js.remove_first "@" v1)).
Qed.

Lemma extract_lines_source (lines : list string) :
  forall items i,
    extract_lines lines = Ok items -> In i items ->
    exists source assignee,
      parseAssigneeAndDueDate source = Ok (assignee, ParsedActionItem.due_date i)
      /\ (ParsedActionItem.content i = source
          \/ exists who, ParsedActionItem.content i = "@" ++ who ++ ": " ++ source).
Proof.
  induction lines as [|line rest IH]; intros items i H Hin; cbn [extract_lines] in H.
  - assert (items = []) by congruence. subst. contradiction.
  - destruct (extract_line line) as [item|e] eqn:L; [|discriminate].
    cbn [Extractor.bind] in H.
    destruct (extract_lines rest) as [more|e] eqn:R; [|discriminate].
    cbn [Extractor.bind] in H.
    destruct item as [x|].
    + assert (items = x :: more) by congruence. subst items.
      destruct Hin as [<-|Hin]; [now apply (extract_line_source line)|].
      now apply (IH more).
    + assert (items = more) by congruence. subst items. now apply (IH more).
Qed.

(** C8, amended.  For every input text the due-date derivation returns
    without raising, and so does the extractor.
    - The due date is absent exactly when the text nowhere reads a keyword
      (due, by or deadline, in small or capital letters), white space, at
      most one colon, white space and digits of the form DDDD-DD-DD or
      D(D)/D(D)/DD(DD).
    - When the text reads the first form somewhere, the due date is the
      digits DDDD-DD-DD at the leftmost such place, as they stand; there is
      one way only to read such digits at a place.
    - When it reads only the second form, the due date is made from the
      digits m/d/y at the leftmost such place, where month and day can be
      read in one way only and the year is taken with as many digits as
      there are, up to four: the year (with 20 in front of a year of two
      digits), the month and the day (with a zero in front of a single
      digit), joined by dashes.
    - So a due date is a year of three or four digits and two digits each
      for month and day.  Nothing checks that the digits name a day of the
      calendar.
    - The due date of an extracted item is the one derived from the text of
      the item. *)
Theorem due_date_is_absent_or_digits (text : string) :
  (exists assignee dueDate,
      parseAssigneeAndDueDate text = Ok (assignee, dueDate)
      /\ match dueDate with
         | None =>
             (forall k date, ~ iso_at text k date)
             /\ (forall k m d y after, ~ us_at text k m d y after)
         | Some due =>
             (exists k,
                 iso_at text k due
                 /\ (forall date, iso_at text k date -> date = due)
                 /\ forall k' date, k' < k -> ~ iso_at text k' date)
             \/ ((forall k date, ~ iso_at text k date)
                 /\ exists k m d y after,
                      us_at text k m d y after
                      /\ (String.length y = 4 \/ no_digit_next after)
                      /\ (forall m' d' y' after',
                             us_at text k m' d' y' after' ->
                             m' = m /\ d' = d /\ String.length y' <= String.length y)
                      /\ (forall k' m' d' y' after',
                             k' < k -> ~ us_at text k' m' d' y' after')
                      /\ due = full_year y ++ "-" ++ two_digits m ++ "-"
                               ++ two_digits d)
         end
      /\ (forall d, dueDate = Some d -> due_shape d)
      /\ (dueDate = None <->
          search re_iso_date text = None /\ search re_us_date text = None))
  /\ (exists items,
         extractActionItems text = Ok items
         /\ (forall i d,
                In i items -> ParsedActionItem.due_date i = Some d -> due_shape d)
         /\ (forall i,
                In i items ->
                exists source assignee,
                  parseAssigneeAndDueDate source
                  = Ok (assignee, ParsedActionItem.due_date i)
                  /\ (ParsedActionItem.content i = source
                      \/ exists who,
                           ParsedActionItem.content i = "@" ++ who ++ ": " ++ source))).
Proof.
  split.
  - destruct (parseAssigneeAndDueDate_total text) as (a & d & Hp & Hshape & Hnone).
    exists a, d. split; [exact Hp|]. split; [now apply (dueDate_in_words text a)|].
    split; assumption.
  - destruct (extract_lines_total (Js.split "010" text)) as (items & Hi & Hshape).
    exists items. split; [exact Hi|]. split; [exact Hshape|].
    intros i Hin. now apply (extract_lines_source (Js.split "010" text) items).
Qed.

End DueDateWords.

(* ------------------------------------------------------------------ *)
(** * The command line *)

Section CommandLine.
Import Cli.

Lemma starts_with_api_key (arg : string) :
  Js.starts_with "--api-key=" arg = true -> Js.starts_with "--api-key" arg = true.
Proof.
  intros H. destruct (starts_with_split _ _ H) as (b & ->). reflexivity.
Qed.

Lemma scan_without_api_key (n : nat) :
  forall (args : list string) (k s : option string),
    List.length args <= n ->
    (forall a, In a args -> Js.starts_with "--api-key" a = false) ->
    fst (scan args k s) = k.
Proof.
  induction n as [|n IH]; intros [|arg rest] k s Hlen Hno; simpl in Hlen;
    try reflexivity; try lia.
  assert (Harg : Js.starts_with "--api-key" arg = false) by (apply Hno; now left).
  assert (Heq : (arg =? "--api-key") = false).
  { destruct (String.eqb_spec arg "--api-key") as [->|]; [discriminate|reflexivity]. }
  assert (Hform : Js.starts_with "--api-key=" arg = false).
  { destruct (Js.starts_with "--api-key=" arg) eqn:E; [|reflexivity].
    apply starts_with_api_key in E. congruence. }
  assert (Hrest : forall a, In a rest -> Js.starts_with "--api-key" a = false)
    by (intros a Ha; apply Hno; now right).
  cbn [scan]. rewrite Heq, Hform. cbn [andb].
  destruct rest as [|next after].
  - destruct (Js.starts_with "--subdomain=" arg); reflexivity.
  - destruct ((arg =? "--subdomain") && Js.truthy (Some next)).
    + apply IH; [simpl in *; lia|]. intros a Ha. apply Hrest. now right.
    + destruct (Js.starts_with "--subdomain=" arg); apply IH; simpl in *; auto; lia.
Qed.

(** X20. Without a flag the API key comes from the environment.  When no
    argument after the script's name starts with [--api-key], [parseArgs]
    returns the value of [FELLOW_API_KEY], which is then not empty, and raises
    the error about the API key exactly when that variable is unset or
    empty; the only other error is the one about the subdomain. *)
Theorem parseArgs_api_key_from_environment (argv : list string) (env : Env)
  (Hno : forall a, In a (skipn 2 argv) -> Js.starts_with "--api-key" a = false) :
  match parseArgs argv env with
  | Ok c => FELLOW_API_KEY env = Some (apiKey c) /\ apiKey c <> ""
  | Err e =>
      (Js.truthy (FELLOW_API_KEY env) = false /\ e = api_key_required)
      \/ (Js.truthy (FELLOW_API_KEY env) = true /\ e = subdomain_required)
  end.
Proof.
  unfold parseArgs.
  rewrite (scan_without_api_key (List.length (skipn 2 argv)) (skipn 2 argv) None None
             (le_n _) Hno).
  cbn [nullish_or].
  destruct (FELLOW_API_KEY env) as [key|]; cbn [Js.truthy negb].
  - destruct (String.eqb_spec key "") as [->|Hne]; cbn [negb].
    + left. auto.
    + destruct (negb (Js.truthy (nullish_or _ _))).
      * right. split; [|reflexivity].
        destruct (String.eqb_spec key ""); [contradiction|reflexivity].
      * split; [reflexivity|exact Hne].
  - left. auto.
Qed.

Lemma parseArgs_api_key_from_environment_witness :
  match parseArgs ["node"; "index.js"; "--subdomain"; "acme"]
          (mkEnv (Some "secret") None) with
  | Ok c => FELLOW_API_KEY (mkEnv (Some "secret") None) = Some (apiKey c) /\ apiKey c <> ""
  | Err e =>
      (Js.truthy (FELLOW_API_KEY (mkEnv (Some "secret") None)) = false
       /\ e = api_key_required)
      \/ (Js.truthy (FELLOW_API_KEY (mkEnv (Some "secret") None)) = true
          /\ e = subdomain_required)
  end.
Proof.
  apply (parseArgs_api_key_from_environment ["node"; "index.js"; "--subdomain"; "acme"]
           (mkEnv (Some "secret") None)).
  intros a [<-|[<-|[]]]; reflexivity.
Defined.

Lemma split_head (sep : ascii) (v : string) :
  exists key tail more,
    Js.split sep v = key :: more
    /\ v = key ++ tail
    /\ Js.includes (String sep "") key = false
    /\ (tail = "" \/ exists rest, tail = String sep rest).
Proof.
  induction v as [|c v (key & tail & more & Hs & Hv & Hk & Ht)]; simpl.
  - exists "", "", []. repeat split; auto.
  - destruct (Ascii.eqb_spec c sep) as [->|Hne].
    + exists "", (String sep v), (Js.split sep v). repeat split; auto.
      right. now exists v.
    + rewrite Hs. exists (String c key), tail, more. repeat split.
      * now rewrite Hv at 1.
      * unfold Js.includes in *. simpl.
        destruct (Ascii.eqb_spec sep c) as [E|_]; [congruence|]. simpl.
        destruct (Js.indexOf (String sep "") key); [discriminate|reflexivity].
      * exact Ht.
Qed.

(** X21. The form [--api-key=VALUE] cuts the value at its first [=], and an
    empty value is not replaced by the environment.  Wherever the loop meets
    such an argument it sets the key to the text between the first and the
    second [=] of the argument; that text has no [=], and the rest of the
    value is dropped.  When this is the only argument and the text is empty,
    [parseArgs] raises the error about the API key, whatever [FELLOW_API_KEY]
    holds. *)
Theorem parseArgs_equals_form_cuts_value (value : string) :
  exists key tail,
    value = key ++ tail
    /\ Js.includes "=" key = false
    /\ (tail = "" \/ exists rest, tail = String "=" rest)
    /\ (forall rest apiKey subdomain,
           scan (("--api-key=" ++ value) :: rest) apiKey subdomain
           = scan rest (Some key) subdomain)
    /\ (forall node script env,
           key = "" ->
           parseArgs [node; script; "--api-key=" ++ value] env = Err api_key_required).
Proof.
  destruct (split_head "=" value) as (key & tail & more & Hs & Hv & Hk & Ht).
  exists key, tail.
  assert (Hafter : after_equals ("--api-key=" ++ value) = Some key).
  { unfold after_equals. simpl. now rewrite Hs. }
  assert (Hscan : forall rest apiKey subdomain,
             scan (("--api-key=" ++ value) :: rest) apiKey subdomain
             = scan rest (Some key) subdomain).
  { intros rest k s. cbn [scan]. rewrite Hafter.
    change (Js.starts_with "--api-key=" ("--api-key=" ++ value)) with true.
    change ("--api-key=" ++ value =? "--api-key") with false.
    change ("--api-key=" ++ value =? "--subdomain") with false.
    cbn [andb]. now destruct rest. }
  repeat split; try assumption.
  intros node script env ->. unfold parseArgs. cbn [skipn].
  rewrite Hscan. reflexivity.
Qed.

End CommandLine.

(* ------------------------------------------------------------------ *)
(** * The counts of notes and recordings *)

Section TableGrowth.
Import FellowDatabase Sync Spec Growth Fixtures.

Variable R : World -> SyncResult.t -> World -> SyncResult.t -> Prop.
Hypothesis R_refl : forall w r, R w r w r.
Hypothesis R_trans : forall w1 r1 w2 r2 w3 r3, R w1 r1 w2 r2 -> R w2 r2 w3 r3 -> R w1 r1 w3 r3.

Lemma follows_ret (r : SyncResult.t) : follows R (ret r) r.
Proof. intros w. apply R_refl. Qed.

Lemma follows_bind (m : M SyncResult.t) (k : SyncResult.t -> M SyncResult.t)
  (r : SyncResult.t) :
  follows R m r -> (forall r1, follows R (k r1) r1) -> follows R (bind m k) r.
Proof.
  intros Hm Hk w. unfold bind. specialize (Hm w).
  destruct (m w) as [r1 w1|e w1|w1]; [|exact I|exact I].
  specialize (Hk r1 w1). destruct (k r1 w1) as [r2 w2|e w2|w2]; [|exact I|exact I].
  eapply R_trans; eassumption.
Qed.

Lemma follows_for_of {A} (xs : list A) (body : A -> SyncResult.t -> M SyncResult.t) :
  (forall x st, follows R (body x st) st) ->
  forall st, follows R (for_of xs body st) st.
Proof.
  intros Hbody. induction xs as [|x rest IH]; intros st; simpl.
  - apply follows_ret.
  - apply follows_bind; [apply Hbody|exact IH].
Qed.

End TableGrowth.

Section TableGrowthOfSync.
Import FellowDatabase Sync Spec Growth Fixtures.

Lemma unchanged_refl (w : World) (r : SyncResult.t) : unchanged w r w r.
Proof. unfold unchanged. auto. Qed.

Lemma unchanged_trans (w1 : World) (r1 : SyncResult.t) (w2 : World) (r2 : SyncResult.t)
  (w3 : World) (r3 : SyncResult.t) :
  unchanged w1 r1 w2 r2 -> unchanged w2 r2 w3 r3 -> unchanged w1 r1 w3 r3.
Proof. unfold unchanged. intuition congruence. Qed.

Lemma within_refl (w : World) (r : SyncResult.t) : within w r w r.
Proof. unfold within. lia. Qed.

Lemma within_trans (w1 : World) (r1 : SyncResult.t) (w2 : World) (r2 : SyncResult.t)
  (w3 : World) (r3 : SyncResult.t) :
  within w1 r1 w2 r2 -> within w2 r2 w3 r3 -> within w1 r1 w3 r3.
Proof. unfold within. lia. Qed.

Lemma length_upsert_note_rows (e : StoredNote.t) (rows : list StoredNote.t) :
  List.length rows <= List.length (upsert_note_rows e rows) <= S (List.length rows).
Proof.
  induction rows as [|r rest IH]; simpl; [lia|].
  destruct (StoredNote.id r =? StoredNote.id e); simpl; lia.
Qed.

Lemma length_upsert_recording_rows (e : StoredRecording.t)
  (rows : list StoredRecording.t) :
  List.length rows <= List.length (upsert_recording_rows e rows) <= S (List.length rows).
Proof.
  induction rows as [|r rest IH]; simpl; [lia|].
  destruct (StoredRecording.id r =? StoredRecording.id e); simpl; lia.
Qed.

Lemma store_action_item_unchanged (clk : nat -> string) (nid : string)
  (item : ParsedActionItem.t) (r : SyncResult.t) :
  follows unchanged (store_action_item clk nid item r) r.
Proof.
  intros w. unfold store_action_item, bind, new_Date_toISOString, run_checked.
  cbn [db ticks].
  match goal with
  | |- context [insertActionItem ?d ?x] =>
      destruct (insertActionItem d x) as [d1|e] eqn:Ins; [|exact I]
  end.
  apply insertActionItem_rows in Ins. destruct Ins as (_ & _ & Hn & Hr & _).
  unfold unchanged. simpl. auto.
Qed.

Lemma store_participant_unchanged (nid email : string) (r : SyncResult.t) :
  follows unchanged (store_participant nid email r) r.
Proof.
  intros w. unfold store_participant.
  destruct (Js.truthy (Some email) && Js.truthy (Some (Js.trim email)));
    [|apply unchanged_refl].
  unfold bind, run_checked.
  destruct (insertParticipant (db w) nid (Js.trim email)) as [d1|e] eqn:Ins; [|exact I].
  apply insertParticipant_cases in Ins.
  destruct Ins as [[_ ->]|[_ ->]]; unfold unchanged; simpl; auto.
Qed.

Lemma sync_note_within (clk : nat -> string) (note : Note.t) (r : SyncResult.t) :
  follows within (sync_note clk note r) r.
Proof.
  intros w. unfold sync_note. unfold bind at 1.
  unfold store_note, bind at 1, new_Date_toISOString, run. cbn [db ticks].
  set (stored := StoredNote.mk _ _ _ _ _ _ _ _ _ _).
  set (w1 := mkWorld _ _).
  assert (H : follows unchanged
                (bind (store_action_items clk note (SyncResult.incr_notes r))
                      (store_participants note))
                (SyncResult.incr_notes r)).
  { apply (follows_bind unchanged unchanged_trans).
    - unfold store_action_items.
      destruct (Js.truthy (Note.content_markdown note));
        [|apply (follows_ret unchanged unchanged_refl)].
      intros w2. unfold bind at 1. unfold run. unfold bind at 1. unfold await.
      destruct (Extractor.extractActionItems _) as [items|e]; [|exact I].
      pose proof (follows_for_of unchanged unchanged_refl unchanged_trans items
                    (store_action_item clk (Note.id note))
                    (store_action_item_unchanged clk (Note.id note))
                    (SyncResult.incr_notes r)
                    (mkWorld (clearActionItemsForNote (db w2) (Note.id note)) (ticks w2)))
        as K.
      destruct (for_of items _ _ _) as [r3 w3|e|w3]; [|exact I|exact I].
      exact K.
    - intros r1. unfold store_participants.
      destruct (Note.event_attendees note) as [attendees|];
        [|apply (follows_ret unchanged unchanged_refl)].
      destruct (0 <? List.length attendees)%nat;
        [|apply (follows_ret unchanged unchanged_refl)].
      intros w2. unfold bind, run.
      pose proof (follows_for_of unchanged unchanged_refl unchanged_trans attendees
                    (store_participant (Note.id note))
                    (store_participant_unchanged (Note.id note)) r1
                    (mkWorld (clearParticipantsForNote (db w2) (Note.id note)) (ticks w2)))
        as K.
      destruct (for_of attendees _ _ _) as [r3 w3|e|w3]; [|exact I|exact I].
      exact K. }
  specialize (H w1).
  change ((fun _ : unit =>
             let result := SyncResult.incr_notes r in
             bind (store_action_items clk note result) (store_participants note)) tt w1)
    with (bind (store_action_items clk note (SyncResult.incr_notes r))
               (store_participants note) w1).
  destruct (bind (store_action_items clk note (SyncResult.incr_notes r))
                 (store_participants note) w1) as [r' w'|e w'|w']; [|exact I|exact I].
  destruct H as (Hn & Hr & Hc & Hd).
  pose proof (length_upsert_note_rows
                (StoredNote.mk (Note.id note) (Note.title note) (Note.created_at note)
                   (Note.updated_at note) (Note.event_start note) (Note.event_end note)
                   (Note.event_guid note) (Note.call_url note)
                   (Note.content_markdown note) (clk (ticks w)))
                (notes (db w))) as L.
  unfold within. rewrite Hn, Hr, Hc, Hd. unfold w1. simpl in *. lia.
Qed.

Lemma sync_recording_within (clk : nat -> string) (recording : Recording.t)
  (r : SyncResult.t) :
  follows within (sync_recording clk recording r) r.
Proof.
  intros w. unfold sync_recording, bind, query, ret.
  destruct (Js.truthy (Recording.note_id recording) && _); [apply within_refl|].
  unfold new_Date_toISOString, run_checked, upsertRecording.
  cbn [db ticks StoredRecording.note_id].
  destruct (references_note (db w) (Recording.note_id recording)); [|exact I].
  match goal with
  | |- context [upsert_recording_rows ?e ?rows] =>
      pose proof (length_upsert_recording_rows e rows) as L
  end.
  unfold within. simpl in *. lia.
Qed.

Lemma notes_loop_within (clk : nat -> string) (client : FellowClient.t) (fuel : nat) :
  forall (since cursor : option string) (r : SyncResult.t),
    follows within (notes_loop clk client fuel since cursor r) r.
Proof.
  induction fuel as [|fuel IH]; intros since cursor r; simpl.
  - intros w. exact I.
  - intros w. unfold bind at 1. unfold await.
    destruct (FellowClient.listNotes client _) as [page|e]; [|exact I].
    apply (follows_bind within within_trans
             (for_of (Page.data page) (sync_note clk) r)
             (fun result => if Js.truthy (Page.cursor page)
                            then notes_loop clk client fuel since (Page.cursor page) result
                            else ret result)).
    + apply (follows_for_of within within_refl within_trans). apply sync_note_within.
    + intros r1. destruct (Js.truthy (Page.cursor page));
        [apply IH|apply (follows_ret within within_refl)].
Qed.

Lemma recordings_loop_within (clk : nat -> string) (client : FellowClient.t)
  (fuel : nat) :
  forall (since : option string) (tr : bool) (cursor : option string) (r : SyncResult.t),
    follows within (recordings_loop clk client fuel since tr cursor r) r.
Proof.
  induction fuel as [|fuel IH]; intros since tr cursor r; simpl.
  - intros w. exact I.
  - intros w. unfold bind at 1. unfold await.
    destruct (FellowClient.listRecordings client _) as [page|e]; [|exact I].
    apply (follows_bind within within_trans
             (for_of (Page.data page) (sync_recording clk) r)
             (fun result => if Js.truthy (Page.cursor page)
                            then recordings_loop clk client fuel since tr
                                   (Page.cursor page) result
                            else ret result)).
    + apply (follows_for_of within within_refl within_trans).
      apply sync_recording_within.
    + intros r1. destruct (Js.truthy (Page.cursor page));
        [apply IH|apply (follows_ret within within_refl)].
Qed.

(** X22. A pass that returns removes no note and no recording from the
    cache, and the counts it reports bound what it added: [notes] has gained
    at most [notes_synced] rows and [recordings] at most [recordings_synced]
    rows (a row that was there already is updated in place and counted all
    the same). *)
Theorem sync_counts_bound_table_growth
  (clk : nat -> string) (client : FellowClient.t) (fuel : nat)
  (options : SyncOptions.t) (w w' : World) (result : SyncResult.t)
  (Hret : syncNotesFromApi clk client fuel options w = Returned result w') :
  List.length (notes (db w)) <= List.length (notes (db w'))
  /\ List.length (notes (db w'))
     <= List.length (notes (db w)) + SyncResult.notes_synced result
  /\ List.length (recordings (db w)) <= List.length (recordings (db w'))
  /\ List.length (recordings (db w'))
     <= List.length (recordings (db w)) + SyncResult.recordings_synced result.
Proof.
  assert (H : follows within (syncNotesFromApi clk client fuel options) SyncResult.zero).
  { unfold syncNotesFromApi. apply (follows_bind within within_trans).
    - unfold sync_pages. apply (follows_bind within within_trans).
      + apply notes_loop_within.
      + intros r1. apply recordings_loop_within.
    - intros r1 w1. unfold within. simpl. lia. }
  specialize (H w). rewrite Hret in H. unfold within in H. simpl in H. lia.
Qed.

Lemma sync_counts_bound_table_growth_witness :
  List.length (notes (db fresh)) <= List.length (notes (db two_page_world))
  /\ List.length (notes (db two_page_world))
     <= List.length (notes (db fresh))
        + SyncResult.notes_synced (SyncResult.mk 2 1 2 3)
  /\ List.length (recordings (db fresh)) <= List.length (recordings (db two_page_world))
  /\ List.length (recordings (db two_page_world))
     <= List.length (recordings (db fresh))
        + SyncResult.recordings_synced (SyncResult.mk 2 1 2 3).
Proof.
  assert (E : syncNotesFromApi clock two_page_client 5 SyncOptions.default fresh
              = Returned (SyncResult.mk 2 1 2 3) two_page_world)
    by (vm_compute; reflexivity).
  exact (sync_counts_bound_table_growth clock two_page_client 5 SyncOptions.default
           fresh two_page_world (SyncResult.mk 2 1 2 3) E).
Defined.

(** X23. An incremental pass picks up where the last pass ended: after a
    pass that returned, on a clock whose readings are not empty,
    [performIncrementalSync] is the pass that asks the remote for what changed
    since the clock reading the earlier pass took last. *)
Theorem incremental_sync_resumes_from_watermark
  (clk : nat -> string) (client : FellowClient.t) (fuel fuel' : nat)
  (options : SyncOptions.t) (w w' : World) (result : SyncResult.t)
  (Hclock : forall t, clk t <> "")
  (Hret : syncNotesFromApi clk client fuel options w = Returned result w') :
  performIncrementalSync clk client fuel' w'
  = syncNotesFromApi clk client fuel'
      (SyncOptions.mk (Some (clk (ticks w' - 1))) None) w'.
Proof.
  pose proof (syncNotesFromApi_watermark clk client fuel options w) as K.
  rewrite Hret in K. destruct K as [_ K].
  unfold performIncrementalSync, bind, query. rewrite K. simpl.
  destruct (String.eqb_spec (clk (ticks w' - 1)) "") as [E|_]; [|reflexivity].
  now apply Hclock in E.
Qed.

Lemma incremental_sync_resumes_from_watermark_witness :
  performIncrementalSync clock two_page_client 3 two_page_world
  = syncNotesFromApi clock two_page_client 3
      (SyncOptions.mk (Some (clock (ticks two_page_world - 1))) None) two_page_world.
Proof.
  assert (E : syncNotesFromApi clock two_page_client 5 SyncOptions.default fresh
              = Returned (SyncResult.mk 2 1 2 3) two_page_world)
    by (vm_compute; reflexivity).
  assert (Hclock : forall t, clock t <> "") by (intros t; discriminate).
  exact (incremental_sync_resumes_from_watermark clock two_page_client 5 3
           SyncOptions.default fresh two_page_world (SyncResult.mk 2 1 2 3) Hclock E).
Defined.

End TableGrowthOfSync.

(* ------------------------------------------------------------------ *)
(** * Which lines are action items *)

Section Lines.
Import Regex Extractor Spec Tools.

Lemma match_start_lang (r : Regex.t) (s : string) (m : captures) :
  match_start r s = Some m -> exists w rest, s = w ++ rest /\ lang r w.
Proof.
  intros H. apply match_start_some in H. destruct H as (rest & more & R).
  assert (Hin : In (rest, m) (run r s no_captures)) by (rewrite R; now left).
  destruct (run_sound _ _ _ _ _ Hin) as (w & -> & L). now exists w, rest.
Qed.

Lemma lang_checkbox (w : string) : lang re_checkbox w -> Js.includes "[" w = true.
Proof.
  unfold re_checkbox, star, plus. cbn [lang lit].
  intros (w1 & r1 & -> & _ & w2 & r2 & -> & _ & w3 & r3 & -> & _
          & w4 & r4 & -> & (c & -> & Hc) & _).
  apply chr_eq in Hc. subst c.
  apply (includes_inside _ _ (w1 ++ w2 ++ w3) r4). now rewrite !append_assoc.
Qed.

Lemma lang_action (w : string) : lang re_action w -> Js.includes ":" w = true.
Proof.
  unfold re_action, star, plus, opt. cbn [lang lit].
  intros (w1 & r1 & -> & _ & w2 & r2 & -> & _ & w3 & r3 & -> & _
          & w4 & r4 & -> & _ & w5 & r5 & -> & _ & w6 & r6 & -> & (c & -> & Hc) & _).
  apply chr_eq in Hc. subst c.
  apply (includes_inside _ _ (w1 ++ w2 ++ w3 ++ w4 ++ w5) r6). now rewrite !append_assoc.
Qed.

Lemma lang_mention_line (w : string) :
  lang re_mention_line w -> Js.includes "@" w = true.
Proof.
  unfold re_mention_line, star, plus, star_lazy. cbn [lang lit].
  intros (w1 & r1 & -> & _ & w2 & r2 & -> & _ & w3 & r3 & -> & _
          & w4 & r4 & -> & (a & b & -> & (c & -> & Hc) & _) & _).
  apply chr_eq in Hc. subst c.
  apply (includes_inside _ _ (w1 ++ w2 ++ w3) (b ++ r4)). now rewrite !append_assoc.
Qed.

Lemma split_line_inside (sep : ascii) (s : string) :
  forall line, In line (Js.split sep s) -> exists a b, s = a ++ line ++ b.
Proof.
  induction s as [|c s IH]; intros line; simpl.
  - intros [<-|[]]. now exists "", "".
  - destruct (Ascii.eqb c sep).
    + intros [<-|H]; [now exists "", (String c s)|].
      destruct (IH line H) as (a & b & ->). now exists (String c a), b.
    + destruct (split_head sep s) as (key & tail & more & Hs & Hv & _).
      rewrite Hs in *. intros [<-|H].
      * exists "", tail. simpl. now rewrite Hv at 1.
      * destruct (IH line (or_intror H)) as (a & b & ->). now exists (String c a), b.
Qed.

Lemma includes_in_line (q s line a b : string) :
  s = a ++ line ++ b -> Js.includes q line = true -> Js.includes q s = true.
Proof. intros -> H. now apply includes_append_l, includes_append_r. Qed.

Lemma extract_lines_none (lines : list string) :
  (forall line, In line lines -> extract_line line = Ok None) ->
  extract_lines lines = Ok [].
Proof.
  induction lines as [|line rest IH]; intros H; simpl; [reflexivity|].
  rewrite (H line (or_introl eq_refl)). simpl.
  rewrite IH; [reflexivity|]. intros l Hl. apply H. now right.
Qed.

(** X24. Prose is never taken for an action item: a text without an opening
    square bracket, a colon and an at sign has no action items, since each of
    the three line patterns needs one of them. *)
Theorem prose_has_no_action_items (content : string)
  (Hbracket : Js.includes "[" content = false)
  (Hcolon : Js.includes ":" content = false)
  (Hat : Js.includes "@" content = false) :
  extractActionItems content = Ok [].
Proof.
  unfold extractActionItems. apply extract_lines_none. intros line Hin.
  destruct (split_line_inside _ _ _ Hin) as (a & b & E).
  unfold extract_line.
  destruct (match_start re_checkbox line) as [m|] eqn:M1.
  { destruct (match_start_lang _ _ _ M1) as (w & rest & -> & L).
    apply lang_checkbox in L.
    rewrite (includes_in_line "[" content _ a b E (includes_append_r _ _ _ L)) in Hbracket.
    discriminate. }
  destruct (match_start re_action line) as [m|] eqn:M2.
  { destruct (match_start_lang _ _ _ M2) as (w & rest & -> & L).
    apply lang_action in L.
    rewrite (includes_in_line ":" content _ a b E (includes_append_r _ _ _ L)) in Hcolon.
    discriminate. }
  destruct (match_start re_mention_line line) as [m|] eqn:M3.
  { destruct (match_start_lang _ _ _ M3) as (w & rest & -> & L).
    apply lang_mention_line in L.
    rewrite (includes_in_line "@" content _ a b E (includes_append_r _ _ _ L)) in Hat.
    discriminate. }
  reflexivity.
Qed.

Lemma prose_has_no_action_items_witness :
  extractActionItems ("We went through the roadmap." ++ nl ++ "Lunch was good.") = Ok [].
Proof.
  apply prose_has_no_action_items; reflexivity.
Defined.

(** *** The first way through a pattern *)

Lemma first_seq (a b : Regex.t) (s : string) (caps : captures)
  (s1 : string) (c1 : captures) (x : string * captures) :
  hd_error (run a s caps) = Some (s1, c1) ->
  hd_error (run b s1 c1) = Some x ->
  hd_error (run (Seq a b) s caps) = Some x.
Proof.
  cbn [run]. destruct (run a s caps) as [|[s1' c1'] l]; [discriminate|].
  intros H. inversion H; subst. cbn [flat_map fst snd hd_error].
  destruct (run b s1 c1); [discriminate|]. intros H'. exact H'.
Qed.

Lemma first_cls (p : charset) (c : ascii) (s : string) (caps : captures) :
  p c = true -> hd_error (run (Cls p) (String c s) caps) = Some (s, caps).
Proof. intros H. cbn [run]. now rewrite H. Qed.

Lemma first_greedy (p : charset) (lo : nat) (s : string) (caps : captures) :
  lo <= span p s ->
  hd_error (run (Rep p lo None true) s caps) = Some (Js.drop (span p s) s, caps).
Proof.
  intros H. cbn [run]. unfold counts.
  replace (S (span p s) - lo) with (S (span p s - lo)) by lia.
  rewrite seq_S, rev_app_distr. cbn [rev app map hd_error].
  now replace (lo + (span p s - lo)) with (span p s) by lia.
Qed.

Lemma first_grp (i : nat) (r : Regex.t) (s : string) (caps : captures)
  (s1 : string) (c1 : captures) :
  hd_error (run r s caps) = Some (s1, c1) ->
  hd_error (run (Grp i r) s caps)
  = Some (s1, set_capture i (Js.take (String.length s - String.length s1) s) c1).
Proof.
  cbn [run]. destruct (run r s caps) as [|[s1' c1'] l]; [discriminate|].
  intros H. inversion H; subst. reflexivity.
Qed.

Lemma match_start_first (r : Regex.t) (s : string) (x : string * captures) :
  hd_error (run r s no_captures) = Some x -> match_start r s = Some (snd x).
Proof.
  unfold match_start. destruct (run r s no_captures); [discriminate|].
  intros H. inversion H; subst. reflexivity.
Qed.

Lemma span_all (p : charset) (s : string) : all p s = true -> span p s = String.length s.
Proof.
  induction s as [|c s IH]; simpl; [reflexivity|].
  intros H. apply andb_true_iff in H. destruct H as [Hc Hs].
  now rewrite Hc, IH.
Qed.

Lemma drop_length (s : string) : Js.drop (String.length s) s = "".
Proof. induction s as [|c s IH]; simpl; [reflexivity|exact IH]. Qed.

Lemma take_length (s : string) : Js.take (String.length s) s = s.
Proof. induction s as [|c s IH]; simpl; [reflexivity|now rewrite IH]. Qed.

(** The checkbox pattern on a line [- [m] text]: group 1 is the mark and
    group 2 the text. *)
Lemma match_start_checkbox (mark c : ascii) (t : string) :
  one_of " xX" mark = true -> space c = false -> all dot (String c t) = true ->
  exists m,
    match_start re_checkbox ("- [" ++ String mark ("] " ++ String c t)) = Some m
    /\ m 1 = Some (String mark "")
    /\ m 2 = Some (String c t).
Proof.
  intros Hmark Hc Hdot. set (text := String c t) in *.
  assert (Hspan : span space (String " " text) = 1).
  { unfold text. cbn [span]. rewrite Hc. reflexivity. }
  assert (Hlen : span dot text = String.length text) by now apply span_all.
  assert (H : hd_error (run re_checkbox ("- [" ++ String mark ("] " ++ text)) no_captures)
              = Some (Js.drop (span dot text) text,
                      set_capture 2
                        (Js.take (String.length text
                                  - String.length (Js.drop (span dot text) text)) text)
                        (set_capture 1
                           (Js.take (String.length (String mark ("] " ++ text))
                                     - String.length ("] " ++ text))
                                    (String mark ("] " ++ text)))
                           no_captures))).
  { unfold re_checkbox.
    eapply first_seq; [apply (first_greedy space 0); lia|].
    eapply first_seq; [apply first_cls; reflexivity|].
    eapply first_seq; [apply (first_greedy space 0); lia|].
    eapply first_seq; [apply first_cls; reflexivity|].
    eapply first_seq; [apply first_grp, first_cls; exact Hmark|].
    eapply first_seq; [apply first_cls; reflexivity|].
    eapply first_seq; [apply (first_greedy space 0); lia|].
    simpl append. rewrite Hspan. cbn [Js.drop].
    apply first_grp. apply (first_greedy dot 1). rewrite Hlen. unfold text. simpl. lia. }
  apply match_start_first in H. eexists. split; [exact H|]. cbn [snd].
  unfold set_capture. cbn [Nat.eqb]. split.
  - f_equal.
    replace (String.length (String mark ("] " ++ text)) - String.length ("] " ++ text))
      with 1 by (cbn [String.length]; lia).
    reflexivity.
  - f_equal. rewrite Hlen, drop_length. simpl String.length at 2.
    rewrite Nat.sub_0_r. apply take_length.
Qed.

Lemma one_of_marks (mark : ascii) :
  one_of " xX" mark = true -> mark = " "%char \/ mark = "x"%char \/ mark = "X"%char.
Proof.
  unfold one_of. simpl. intros H.
  destruct (Ascii.eqb_spec mark " "); [auto|].
  destruct (Ascii.eqb_spec mark "x"); [auto|].
  destruct (Ascii.eqb_spec mark "X"); [auto|discriminate].
Qed.

(** X25. Every checkbox line written in the characters U+0000 to U+00FF is
    an action item.  A line [- [m] text], with [m] a blank, [x] or [X] and
    [text] made of such characters, starting with something other than white
    space (TAB, LF, VT, FF, CR, SP or NBSP) and free of carriage returns and
    line feeds, yields the item whose content is [text] without its trailing
    white space, completed exactly when the mark is not a blank, with the
    assignee and the due date [parseAssigneeAndDueDate] reads from that
    content.  (Among these characters LF and CR are the only ones the dot of
    the pattern stops at.  It also stops at U+2028 and U+2029: a text with
    one of them is not a text of the embedding, and the statement says
    nothing about it.) *)
Theorem checkbox_line_yields_item (mark c : ascii) (t : string)
  (Hmark : one_of " xX" mark = true)
  (Hstart : space c = false)
  (Hline : all dot (String c t) = true) :
  exists assignee dueDate,
    parseAssigneeAndDueDate (Js.trim (String c t)) = Ok (assignee, dueDate)
    /\ extract_line ("- [" ++ String mark ("] " ++ String c t))
       = Ok (Some (ParsedActionItem.mk (Js.trim (String c t)) assignee dueDate
                     (negb (Ascii.eqb mark " ")))).
Proof.
  destruct (match_start_checkbox mark c t Hmark Hstart Hline) as (m & Hm & H1 & H2).
  destruct (parseAssigneeAndDueDate_total (Js.trim (String c t))) as (a & d & Hp & _).
  exists a, d. split; [exact Hp|].
  unfold extract_line. rewrite Hm, H1, H2.
  cbn [defined Extractor.bind]. rewrite Hp. cbn [Extractor.bind fst snd].
  destruct (one_of_marks mark Hmark) as [-> | [-> | ->]]; reflexivity.
Qed.

Lemma checkbox_line_yields_item_witness :
  exists assignee dueDate,
    parseAssigneeAndDueDate (Js.trim "Ship it  ") = Ok (assignee, dueDate)
    /\ extract_line ("- [" ++ String "X" ("] " ++ "Ship it  "))
       = Ok (Some (ParsedActionItem.mk (Js.trim "Ship it  ") assignee dueDate
                     (negb (Ascii.eqb "X" " ")))).
Proof.
  apply (checkbox_line_yields_item "X" "S" "hip it  "); reflexivity.
Defined.

End Lines.

(* ------------------------------------------------------------------ *)
(** * The order of the results *)

Section ResultOrder.
Import FellowDatabase Laws.

Lemma ascii_compare_cases (a b : ascii) :
  (Ascii.compare a b = Eq /\ a = b)
  \/ (Ascii.compare a b = Lt /\ N.lt (N_of_ascii a) (N_of_ascii b))
  \/ (Ascii.compare a b = Gt /\ N.lt (N_of_ascii b) (N_of_ascii a)).
Proof.
  unfold Ascii.compare.
  destruct (N.compare_spec (N_of_ascii a) (N_of_ascii b)) as [E|L|L]; auto.
  left. split; [reflexivity|].
  rewrite <- (ascii_N_embedding a), <- (ascii_N_embedding b). now rewrite E.
Qed.

Lemma leb_String (a b : ascii) (s t : string) :
  String.leb (String a s) (String b t)
  = match Ascii.compare a b with
    | Eq => String.leb s t
    | Lt => true
    | Gt => false
    end.
Proof. unfold String.leb. simpl. now destruct (Ascii.compare a b). Qed.

Lemma leb_trans (s1 : string) :
  forall s2 s3, String.leb s1 s2 = true -> String.leb s2 s3 = true ->
                String.leb s1 s3 = true.
Proof.
  induction s1 as [|a s1 IH]; intros [|b s2] [|c s3]; try reflexivity; try discriminate.
  rewrite !leb_String.
  destruct (ascii_compare_cases a b) as [[E1 Hab]|[[E1 Hab]|[E1 Hab]]]; rewrite E1;
    try discriminate;
    destruct (ascii_compare_cases b c) as [[E2 Hbc]|[[E2 Hbc]|[E2 Hbc]]]; rewrite E2;
    try discriminate;
    destruct (ascii_compare_cases a c) as [[E3 Hac]|[[E3 Hac]|[E3 Hac]]]; rewrite E3;
    subst; try reflexivity; try lia; try discriminate; try apply IH.
Qed.

Lemma gt_asym (a b : option string) : Sql.gt a b = true -> Sql.gt b a = false.
Proof.
  destruct a as [x|], b as [y|]; simpl; try reflexivity; try discriminate.
  intros H. apply negb_true_iff in H.
  destruct (String.leb_total x y) as [L|L]; [congruence|now rewrite L].
Qed.

Lemma ge_trans (a b c : option string) : ge a b -> ge b c -> ge a c.
Proof.
  unfold ge. destruct c as [z|]; [|reflexivity].
  destruct b as [y|]; [|discriminate]. destruct a as [x|]; [|discriminate].
  simpl. intros H1 H2. apply negb_false_iff in H1. apply negb_false_iff in H2.
  apply negb_false_iff. now apply (leb_trans z y x).
Qed.

Section OrderBy.
Variable A : Type.
Variable key : A -> option string.
Variable before : A -> A -> bool.

Let later_first (a b : A) : Prop := ge (key a) (key b).

Lemma insert_desc_permutation (row : A) (sorted : list A) :
  Permutation (Sql.insert_desc key before row sorted) (row :: sorted).
Proof.
  induction sorted as [|r rest IH]; simpl; [reflexivity|].
  destruct (_ || _); [|reflexivity].
  rewrite IH. apply perm_swap.
Qed.

Lemma order_by_desc_permutation (rows : list A) :
  Permutation (Sql.order_by_desc key before rows) rows.
Proof.
  unfold Sql.order_by_desc. induction rows as [|r rest IH]; simpl; [reflexivity|].
  rewrite insert_desc_permutation. now constructor.
Qed.

Lemma insert_desc_hd (r row : A) (sorted : list A) :
  later_first r row -> HdRel later_first r sorted ->
  HdRel later_first r (Sql.insert_desc key before row sorted).
Proof.
  intros Hr H. destruct sorted as [|x rest]; simpl.
  - now constructor.
  - destruct (_ || _).
    + inversion H; subst. now constructor.
    + now constructor.
Qed.

Lemma insert_desc_sorted (row : A) (sorted : list A) :
  Sorted later_first sorted ->
  Sorted later_first (Sql.insert_desc key before row sorted).
Proof.
  induction sorted as [|r rest IH]; simpl; intros H.
  - repeat constructor.
  - inversion H as [|? ? Hrest Hhd]; subst.
    destruct (Sql.gt (key r) (key row)) eqn:G; cbn [orb].
    + constructor; [now apply IH|].
      apply insert_desc_hd; [|assumption]. unfold later_first, ge. now apply gt_asym.
    + destruct (Sql.gt (key row) (key r)) eqn:G'; cbn [negb andb].
      * constructor; [assumption|]. constructor. exact G.
      * destruct (before r row).
        -- constructor; [now apply IH|].
           apply insert_desc_hd; [|assumption]. exact G'.
        -- constructor; [assumption|]. constructor. exact G.
Qed.

Lemma order_by_desc_sorted (rows : list A) :
  StronglySorted later_first (Sql.order_by_desc key before rows).
Proof.
  apply Sorted_StronglySorted.
  - intros a b c. apply ge_trans.
  - unfold Sql.order_by_desc. induction rows as [|r rest IH]; simpl.
    + constructor.
    + now apply insert_desc_sorted.
Qed.

End OrderBy.

(** X26. The queries that end in [ORDER BY event_start DESC] return their
    rows latest meeting first, whatever the engine does with rows of equal
    [event_start]: in the results of [getAllNotes], [searchNotes],
    [getMeetingsByParticipants], [getMeetingsWithAllParticipants] and
    [getAllActionItems] no row comes before a row with a later [event_start]
    (compared as text), and rows without [event_start] come after all rows
    that have one.  ([searchNotes] and [getAllActionItems] return their rows
    or raise the error of [LIKE].)  [getAllNotes] returns every stored note,
    each as often as it is stored. *)
Theorem results_latest_first (d : t) :
  Permutation (getAllNotes d) (notes d)
  /\ StronglySorted (fun a b => ge (StoredNote.event_start a) (StoredNote.event_start b))
       (getAllNotes d)
  /\ (forall q,
         match searchNotes d q with
         | Ok rows =>
             StronglySorted
               (fun a b => ge (StoredNote.event_start a) (StoredNote.event_start b))
               rows
         | Err e => e = "LIKE or GLOB pattern too complex"
         end)
  /\ (forall emails,
         StronglySorted
           (fun a b => ge (StoredNote.event_start a) (StoredNote.event_start b))
           (getMeetingsByParticipants d emails))
  /\ (forall emails,
         StronglySorted
           (fun a b => ge (StoredNote.event_start a) (StoredNote.event_start b))
           (getMeetingsWithAllParticipants d emails))
  /\ (forall filters,
         match getAllActionItems d filters with
         | Ok rows =>
             StronglySorted
               (fun a b => ge (ActionItemRow.event_start a) (ActionItemRow.event_start b))
               rows
         | Err e => e = "LIKE or GLOB pattern too complex"
         end).
Proof.
  split; [apply order_by_desc_permutation|].
  split; [apply order_by_desc_sorted|].
  split.
  { intros q. destruct (searchNotes d q) as [rows|e] eqn:H.
    - unfold searchNotes in H.
      destruct (_ && _); [discriminate|].
      assert (rows = search_rows d ("%" ++ q ++ "%")) by congruence. subst rows.
      apply order_by_desc_sorted.
    - now apply searchNotes_raises in H. }
  split; [|split].
  - intros emails. unfold getMeetingsByParticipants.
    destruct (List.length emails =? 0)%nat; [constructor|apply order_by_desc_sorted].
  - intros emails. unfold getMeetingsWithAllParticipants.
    destruct (List.length emails =? 0)%nat; [constructor|apply order_by_desc_sorted].
  - intros filters. destruct (getAllActionItems d filters) as [rows|e] eqn:H.
    + unfold getAllActionItems in H.
      destruct (_ && _ && _); [discriminate|].
      assert (rows = action_item_rows d filters) by congruence. subst rows.
      apply order_by_desc_sorted.
    + now apply getAllActionItems_raises in H.
Qed.

(** X27. The "any" query lists a meeting once, however many of the emails
    match it: [getMeetingsByParticipants] never returns the same row twice,
    and for a list of emails that is not empty it returns exactly the cached
    notes that have one of the emails among their participants. *)
Theorem getMeetingsByParticipants_once (d : t) (emails : list string) :
  NoDup (getMeetingsByParticipants d emails)
  /\ forall n,
       In n (getMeetingsByParticipants d emails)
       <-> In n (notes d)
           /\ exists e, In e emails /\ In e (getParticipantsForNote d (StoredNote.id n)).
Proof.
  split.
  - unfold getMeetingsByParticipants.
    destruct (List.length emails =? 0)%nat; [constructor|].
    eapply Permutation_NoDup; [symmetry; apply order_by_desc_permutation|].
    apply NoDup_nodup.
  - intros n. rewrite in_getMeetingsByParticipants. split.
    + intros (_ & Hn & Hm). split; [assumption|].
      destruct (matching_participants d emails n) as [|p ps] eqn:M; [congruence|].
      assert (Hp : In p (matching_participants d emails n)) by (rewrite M; now left).
      unfold matching_participants in Hp. apply filter_In in Hp.
      destruct Hp as [Hp Hc]. apply andb_true_iff in Hc. destruct Hc as [Hid He].
      unfold Sql.in_list in He. apply existsb_exists in He.
      destruct He as (e & He & Heq). apply String.eqb_eq in Heq.
      exists e. split; [assumption|].
      unfold getParticipantsForNote. apply in_map_iff. exists p.
      split; [assumption|]. apply filter_In. auto.
    + intros (Hn & e & He & Hp). repeat split; try assumption.
      * intros ->. contradiction.
      * unfold getParticipantsForNote in Hp. apply in_map_iff in Hp.
        destruct Hp as (p & Hpe & Hp). apply filter_In in Hp. destruct Hp as [Hp Hid].
        intros M.
        assert (Hin : In p (matching_participants d emails n)).
        { unfold matching_participants. apply filter_In. split; [assumption|].
          rewrite Hid. simpl. unfold Sql.in_list. apply existsb_exists.
          exists e. split; [assumption|]. rewrite Hpe. apply String.eqb_refl. }
        rewrite M in Hin. contradiction.
Qed.

End ResultOrder.
